(** * PowerPointGenerator: filename classification, group labels, sort keys
      and slide layout

    A shallow embedding of [image_uploader.py] (class [ImageIdentifier]),
    of the group-label parser of [gui_app.py] ([edit_group.apply_changes])
    and of [ppt_generator.py] (class [PowerPointGenerator]), followed by the
    properties the specification states about them.  The catalogue
    around them follows (classes [ImageIndex] and [ImageUploader],
    [reindex_images.py] and the handlers of [gui_app.py] that change the
    index or start the generator), with further properties of the whole.

    Conventions of the embedding.
    - A Python [str] is a list of characters; a character is a code point
      in U+0000..U+00FF, held in an [ascii].  The character classes of
      [re] and of the [str] methods are the ones Python has on that range,
      and the statements about file names are about names of such
      characters.
    - [re] patterns are values of [Re.regex]; [Re.run] is the backtracking
      matcher, returning every way to match in the order in which Python
      tries them, so that the head of the list is the match Python reports.
    - Python floats are idealised as exact rationals ([Q]); a division by
      zero raises [ZeroDivisionError] in the model as it does in Python.
      Where a statement depends on a float being as good as the exact
      value, it carries the bound within which it is: up to 2^52 images
      for the square root and the quotient of the grid ([exact_count]),
      pixel sizes below 2^31 for the quotient of a width by a height not
      to vanish or overflow ([pixel_sized]).
    - The drawing calls of python-pptx are replaced by the recorded
      rectangles: a slide is its title and the list of placed pictures. *)

From Stdlib Require Import Ascii String DecimalString.
From Stdlib Require Import List Bool Arith ZArith NArith QArith Qround Lia.
Import ListNotations.

Close Scope Q_scope.
Open Scope nat_scope.
Set Implicit Arguments.

(** ** Python strings *)

Module Py.

Definition str := list ascii.

(** String literals of the source are written [$"..."]. *)
Definition lit (s : string) : str := list_ascii_of_string s.

Definition code (c : ascii) : N := N_of_ascii c.

Definition between (lo hi : N) (c : ascii) : bool :=
  (lo <=? code c)%N && (code c <=? hi)%N.

(** [c.isspace()], also [\s] of [re]: TAB..CR, FS..US, SPACE, NEL, NBSP. *)
Definition isspace_chr (c : ascii) : bool :=
  between 9 13 c || between 28 32 c || (code c =? 133)%N || (code c =? 160)%N.

(** Decimal digits, [\d] of [re]: only 0..9 below U+0100. *)
Definition isdecimal_chr (c : ascii) : bool := between 48 57 c.

(** [c.isdigit()]: the decimal digits and the superscripts 2, 3 and 1. *)
Definition isdigit_chr (c : ascii) : bool :=
  isdecimal_chr c || between 178 179 c || (code c =? 185)%N.

(** [\w] of [re]: alphanumeric characters and the underscore. *)
Definition isword_chr (c : ascii) : bool :=
  between 48 57 c || between 65 90 c || (code c =? 95)%N || between 97 122 c
  || (code c =? 170)%N || between 178 179 c || (code c =? 181)%N
  || between 185 186 c || between 188 190 c
  || between 192 214 c || between 216 246 c || between 248 255 c.

Definition lower_chr (c : ascii) : ascii :=
  if between 65 90 c || (between 192 222 c && negb (code c =? 215)%N)
  then ascii_of_N (code c + 32) else c.

(** Upper case of a character, when it is again below U+0100. *)
Definition upper_chr (c : ascii) : ascii :=
  if between 97 122 c || (between 224 254 c && negb (code c =? 247)%N)
  then ascii_of_N (code c - 32) else c.

Definition lower (s : str) : str := map lower_chr s.

Definition chr_eqb (a b : ascii) : bool := (code a =? code b)%N.

Fixpoint str_eqb (a b : str) : bool :=
  match a, b with
  | [], [] => true
  | x :: a', y :: b' => chr_eqb x y && str_eqb a' b'
  | _, _ => false
  end.

(** [x in l] for a list of strings. *)
Definition str_in (x : str) (l : list str) : bool := existsb (str_eqb x) l.

(** [s.isdigit()]: non-empty and every character is a digit. *)
Definition isdigit (s : str) : bool :=
  match s with [] => false | _ => forallb isdigit_chr s end.

(** [s.zfill(width)]: zeros are inserted after a leading sign. *)
Definition zfill (width : nat) (s : str) : str :=
  let pad := repeat "0"%char (width - length s) in
  match s with
  | c :: rest =>
      if chr_eqb c "+"%char || chr_eqb c "-"%char then c :: pad ++ rest
      else pad ++ s
  | [] => pad
  end.

Fixpoint lstrip (s : str) : str :=
  match s with
  | c :: rest => if isspace_chr c then lstrip rest else s
  | [] => []
  end.

Definition rstrip (s : str) : str := rev (lstrip (rev s)).

(** [s.strip()] *)
Definition strip (s : str) : str := rstrip (lstrip s).

(** [l[b:e]] for [0 <= b <= e], on strings and on lists. *)
Definition slice {A : Type} (l : list A) (b e : nat) : list A :=
  firstn (e - b) (skipn b l).

(** [s.rfind(c)] as an option: the last index of [c]. *)
Fixpoint rfind_from (c : ascii) (s : str) (i : nat) (last : option nat) : option nat :=
  match s with
  | [] => last
  | x :: rest => rfind_from c rest (S i) (if chr_eqb x c then Some i else last)
  end.

Definition rfind (c : ascii) (s : str) : option nat := rfind_from c s 0 None.

(** The loop of [genericpath._splitext] that skips leading dots: is there a
    character other than the dot in [p[i:dot]]? *)
Fixpoint has_non_dot (s : str) : bool :=
  match s with
  | [] => false
  | c :: rest => negb (chr_eqb c "."%char) || has_non_dot rest
  end.

(** [os.path.splitext(p)[0]] of posixpath: the extension starts at the last
    dot, unless that dot is before the last slash or has only dots between
    the last slash and itself. *)
Definition splitext_root (p : str) : str :=
  let filenameIndex := match rfind "/"%char p with Some i => S i | None => 0 end in
  match rfind "."%char p with
  | Some dotIndex =>
      if (filenameIndex <=? dotIndex) && has_non_dot (slice p filenameIndex dotIndex)
      then firstn dotIndex p
      else p
  | None => p
  end.

Definition digit_val (c : ascii) : Z := Z.of_N (code c) - 48.

(** [int(s)] for the strings the program passes to it, which have passed
    [isdigit()]: a superscript digit raises [ValueError] ([None]). *)
Definition int (s : str) : option Z :=
  match s with
  | [] => None
  | _ => if forallb isdecimal_chr s
         then Some (fold_left (fun acc c => 10 * acc + digit_val c)%Z s 0%Z)
         else None
  end.

(** [str(n)], what [f"{n}"] inserts for an int. *)
Definition str_of_int (n : Z) : str := lit (NilZero.string_of_int (Z.to_int n)).

(** Comparison of strings, by code points. *)
Fixpoint str_ltb (a b : str) : bool :=
  match a, b with
  | [], [] => false
  | [], _ :: _ => true
  | _ :: _, [] => false
  | x :: a', y :: b' =>
      if (code x <? code y)%N then true
      else if (code y <? code x)%N then false
      else str_ltb a' b'
  end.

End Py.

Notation "$ s" := (Py.lit s) (at level 1, s at level 0, format "$ s").


(** ** The [re] module: patterns and the backtracking matcher *)

Module Re.
Import Py.

(** A character set: what stands between [[] and []], or a single
    character or class outside of brackets. *)
Inductive cset :=
| CChar (c : ascii)           (* a literal character, escaped or not *)
| CRange (lo hi : ascii)      (* [lo-hi] *)
| CDigit                      (* \d *)
| CSpace                      (* \s *)
| CWord                       (* \w *)
| CUnion (a b : cset).        (* juxtaposition inside brackets *)

(** Patterns.  The patterns of the program have one capturing group each,
    so that a match records one span. *)
Inductive regex :=
| Eps                                (* the empty pattern *)
| Chr (c : cset)                     (* one character of the set *)
| Seq (r1 r2 : regex)                (* r1r2 *)
| Alt (r1 r2 : regex)                (* r1|r2, r1 tried first *)
| Star (greedy : bool) (r : regex)   (* r* and r*? *)
| Group (r : regex)                  (* (r), group 1 *)
| Bos                                (* ^ *)
| Eos.                               (* $ *)

(** r+ *)
Definition Plus (r : regex) : regex := Seq r (Star true r).
(** r? *)
Definition Opt (r : regex) : regex := Alt r Eps.
(** r{n} *)
Fixpoint Rep (n : nat) (r : regex) : regex :=
  match n with
  | 0 => Eps
  | 1 => r
  | S n' => Seq r (Rep n' r)
  end.
(** [re.escape(s)] used as a pattern: the characters of [s], literally. *)
Fixpoint Lit (s : str) : regex :=
  match s with
  | [] => Eps
  | [c] => Chr (CChar c)
  | c :: rest => Seq (Chr (CChar c)) (Lit rest)
  end.

Fixpoint cset_has (cs : cset) (a : ascii) : bool :=
  match cs with
  | CChar c => chr_eqb a c
  | CRange lo hi => between (code lo) (code hi) a
  | CDigit => isdecimal_chr a
  | CSpace => isspace_chr a
  | CWord => isword_chr a
  | CUnion x y => cset_has x a || cset_has y a
  end.

(** Membership under the flags of the pattern: with [re.IGNORECASE] a
    character is in the set when its lower case or the upper case of that
    is. *)
Definition cset_mem (ignorecase : bool) (cs : cset) (a : ascii) : bool :=
  if ignorecase
  then cset_has cs (lower_chr a) || cset_has cs (upper_chr (lower_chr a))
  else cset_has cs a.

(** The state of a match attempt: the current position in the subject and
    the span of group 1 when it has been closed. *)
Record mstate := MState { pos : nat; grp : option (nat * nat) }.

Definition advance (st : mstate) : mstate := MState (S (pos st)) (grp st).

(** [$] without [re.MULTILINE]: at the end, or before a final newline. *)
Definition at_end (s : str) (i : nat) : bool :=
  (i =? length s) ||
  ((S i =? length s) &&
   match nth_error s i with Some c => chr_eqb c "010"%char | None => false end).

Section Matcher.
Variable ignorecase : bool.
Variable s : str.

(** Iterations of a starred pattern from [st], [step] being one iteration.
    An iteration that consumes nothing is not repeated, and an iteration
    consumes at most what is left of the subject, which bounds [fuel]. *)
Fixpoint star_iter (step : mstate -> list mstate) (greedy : bool)
    (fuel : nat) (st : mstate) : list mstate :=
  match fuel with
  | 0 => [st]
  | S f =>
      let more :=
        flat_map (fun st' => if pos st <? pos st'
                             then star_iter step greedy f st' else [])
                 (step st) in
      if greedy then more ++ [st] else st :: more
  end.

(** Every state in which a match of [r] started in [st] can end, in the
    order in which backtracking reaches them. *)
Fixpoint run (r : regex) (st : mstate) : list mstate :=
  match r with
  | Eps => [st]
  | Chr cs =>
      match nth_error s (pos st) with
      | Some a => if cset_mem ignorecase cs a then [advance st] else []
      | None => []
      end
  | Seq r1 r2 => flat_map (run r2) (run r1 st)
  | Alt r1 r2 => run r1 st ++ run r2 st
  | Star greedy r' => star_iter (run r') greedy (length s - pos st) st
  | Group r' => map (fun st' => MState (pos st') (Some (pos st, pos st'))) (run r' st)
  | Bos => if pos st =? 0 then [st] else []
  | Eos => if at_end s (pos st) then [st] else []
  end.

End Matcher.

(** A match object: the span of the whole match and of group 1. *)
Record rmatch := RMatch {
  m_subject : str;
  m_start : nat;
  m_end : nat;
  m_grp : option (nat * nat)
}.

(** [m.group(0)] *)
Definition group0 (m : rmatch) : str := slice (m_subject m) (m_start m) (m_end m).

(** [m.group(1)]; [None] when the group took no part in the match. *)
Definition group1_opt (m : rmatch) : option str :=
  match m_grp m with
  | Some (b, e) => Some (slice (m_subject m) b e)
  | None => None
  end.

(** [m.group(1)] for a pattern whose group is on every path, as in all
    the patterns of the program. *)
Definition group1 (m : rmatch) : str :=
  match group1_opt m with Some g => g | None => [] end.

(** A compiled pattern: [re.compile(r, flags)]. *)
Record pattern := Pattern { p_regex : regex; p_ignorecase : bool }.

(** The match of the pattern anchored at [start], if there is one. *)
Definition match_at (p : pattern) (s : str) (start : nat) : option rmatch :=
  match run (p_ignorecase p) s (p_regex p) (MState start None) with
  | st :: _ => Some (RMatch s start (pos st) (grp st))
  | [] => None
  end.

(** [p.search(s)]: the match at the leftmost of [n+1] positions from
    [start] on. *)
Fixpoint search_from (p : pattern) (s : str) (n : nat) (start : nat) : option rmatch :=
  match match_at p s start with
  | Some m => Some m
  | None =>
      match n with
      | 0 => None
      | S n' => search_from p s n' (S start)
      end
  end.

Definition search (p : pattern) (s : str) : option rmatch :=
  search_from p s (length s) 0.

(** [re.match(p, s)] *)
Definition rematch (p : pattern) (s : str) : option rmatch := match_at p s 0.

(** *** What a pattern denotes

    [denotes ic r pre w post c c'] reads: in a subject [pre ++ w ++ post]
    the pattern [r] can match the text [w] found between [pre] and [post],
    and the text of group 1, [c] before, is [c'] after.  It says which
    matches exist; which of them [run] reaches first is the business of
    the matcher. *)

Section Denotation.
Variable ignorecase : bool.

Definition den : Type := str -> str -> str -> option str -> option str -> Prop.

(** Iterations of [d], each on a non-empty text. *)
Inductive iterated (d : den) : den :=
| iterated_nil pre post c : iterated d pre [] post c c
| iterated_cons pre w1 w2 post c c1 c2 :
    w1 <> [] ->
    d pre w1 (w2 ++ post) c c1 ->
    iterated d (pre ++ w1) w2 post c1 c2 ->
    iterated d pre (w1 ++ w2) post c c2.

Fixpoint denotes (r : regex) : den :=
  fun pre w post c c' =>
  match r with
  | Eps => w = [] /\ c' = c
  | Chr cs => exists a, w = [a] /\ cset_mem ignorecase cs a = true /\ c' = c
  | Seq r1 r2 =>
      exists w1 w2 c1, w = w1 ++ w2 /\
        denotes r1 pre w1 (w2 ++ post) c c1 /\
        denotes r2 (pre ++ w1) w2 post c1 c'
  | Alt r1 r2 => denotes r1 pre w post c c' \/ denotes r2 pre w post c c'
  | Star _ r' => iterated (denotes r') pre w post c c'
  | Group r' => exists c1, denotes r' pre w post c c1 /\ c' = Some w
  | Bos => w = [] /\ pre = [] /\ c' = c
  | Eos => w = [] /\ (post = [] \/ post = ["010"%char]) /\ c' = c
  end.

End Denotation.

End Re.


(** ** image_uploader.py: class ImageIdentifier *)

Module ImageIdentifier.
Import Py Re.

Definition GROUPABLE_IDENTIFIERS : list str :=
  [$"UD"; $"LD"; $"MD"; $"UVD"; $"PDBSE"; $"PDBSE1"; $"BSE"; $"SE"; $"ABF"; $"ADF"].

Definition NON_GROUPABLE_IDENTIFIERS : list str :=
  [$"Spectrum"; $"Spectra"; $"Map"; $"Maps"; $"Electron Image"].

Definition TRAILING_NUMBER_IDENTIFIERS : list str :=
  [$"Map"; $"Maps"; $"Electron Image"; $"Spectrum"; $"Spectra"].

Definition SPECTRUM_IDENTIFIERS : list str := [$"Spectrum"; $"Spectra"].

Definition ALL_IDENTIFIERS : list str :=
  GROUPABLE_IDENTIFIERS ++ NON_GROUPABLE_IDENTIFIERS.

(** The literal lists [['Spectrum', 'Spectra']] and
    [['Map', 'Maps', 'Electron Image']] of the methods. *)
Definition spectrum_names : list str := [$"Spectrum"; $"Spectra"].
Definition map_names : list str := [$"Map"; $"Maps"; $"Electron Image"].

(** [identifier in names] for an identifier that may be [None]. *)
Definition id_in (identifier : option str) (names : list str) : bool :=
  match identifier with
  | Some i => str_in i names
  | None => false
  end.

(** [format_group_label(numerical_prefix, identifier)] *)
Definition format_group_label (numerical_prefix identifier : option str) : str :=
  match numerical_prefix with
  | None => []
  | Some [] => []
  | Some np =>
      if isdigit np && (length np =? 4) then
        if id_in identifier spectrum_names then
          match int np with
          | Some spec_num => $"SPEC" ++ str_of_int spec_num
          | None => np
          end
        else if id_in identifier map_names then
          match int np with
          | Some map_num => $"MAP" ++ str_of_int map_num
          | None => np
          end
        else np
      else np
  end.

(** [sorted(l, key=len, reverse=True)]: a stable sort, so that strings of
    one length keep the order they have in [l]. *)
Fixpoint insert_by_len (x : str) (l : list str) : list str :=
  match l with
  | [] => [x]
  | y :: l' => if length y <? length x then x :: l else y :: insert_by_len x l'
  end.

Definition sorted_by_len_desc (l : list str) : list str :=
  fold_left (fun acc x => insert_by_len x acc) l [].

(** Character sets of the patterns. *)
Fixpoint brackets (l : list cset) : cset :=
  match l with
  | [] => CRange "001" "000"
  | [c] => c
  | c :: rest => CUnion c (brackets rest)
  end.

(** (?:[\s_\-\(\d]|[a-z]+\d*|$) *)
Definition id_suffix : regex :=
  Alt (Chr (brackets [CSpace; CChar "_"; CChar "-"; CChar "("; CDigit]))
      (Alt (Seq (Plus (Chr (CRange "a" "z"))) (Star true (Chr CDigit)))
           Eos).

(** r'(?:^|[\s_\-])(' + re.escape(identifier) + r')(?:[\s_\-\(\d]|[a-z]+\d*|$)' *)
Definition id_pattern (identifier : str) : pattern :=
  Pattern
    (Seq (Alt Bos (Chr (brackets [CSpace; CChar "_"; CChar "-"])))
         (Seq (Group (Lit identifier)) id_suffix))
    true.

(** r'(\d{4})[\s\-_]+\d*[\s\-_]*' + re.escape(identifier) + r'(?:[\s_\-\(\d]|[a-z]+\d*|$)' *)
Definition num_pattern (identifier : str) : pattern :=
  Pattern
    (Seq (Group (Rep 4 (Chr CDigit)))
         (Seq (Plus (Chr (brackets [CSpace; CChar "-"; CChar "_"])))
              (Seq (Star true (Chr CDigit))
                   (Seq (Star true (Chr (brackets [CSpace; CChar "-"; CChar "_"])))
                        (Seq (Lit identifier) id_suffix)))))
    true.

(** r'(\d+)[\s\-_]+' + re.escape(identifier) + r'(?:[\s_\-\(\d]|[a-z]+\d*|$)' *)
Definition num_pattern2 (identifier : str) : pattern :=
  Pattern
    (Seq (Group (Plus (Chr CDigit)))
         (Seq (Plus (Chr (brackets [CSpace; CChar "-"; CChar "_"])))
              (Seq (Lit identifier) id_suffix)))
    true.

(** re.escape(identifier) + r'[\s\-_]+(\d+)' *)
Definition num_pattern_after (identifier : str) : pattern :=
  Pattern
    (Seq (Lit identifier)
         (Seq (Plus (Chr (brackets [CSpace; CChar "-"; CChar "_"])))
              (Group (Plus (Chr CDigit)))))
    true.

(** re.escape(identifier) + r'(?:\s+\w+)*?[_\s\-]+(\d+)(?:_\d+)?(?:\s|$)' *)
Definition after_id_pattern (identifier : str) : pattern :=
  Pattern
    (Seq (Lit identifier)
         (Seq (Star false (Seq (Plus (Chr CSpace)) (Plus (Chr CWord))))
              (Seq (Plus (Chr (brackets [CChar "_"; CSpace; CChar "-"])))
                   (Seq (Group (Plus (Chr CDigit)))
                        (Seq (Opt (Seq (Chr (CChar "_")) (Plus (Chr CDigit))))
                             (Alt (Chr CSpace) Eos))))))
    true.

(** r'[_\s\-](\d+)(?:_\d+)?\s*$' *)
Definition fallback_pattern : pattern :=
  Pattern
    (Seq (Chr (brackets [CChar "_"; CSpace; CChar "-"]))
         (Seq (Group (Plus (Chr CDigit)))
              (Seq (Opt (Seq (Chr (CChar "_")) (Plus (Chr CDigit))))
                   (Seq (Star true (Chr CSpace)) Eos))))
    false.

(** r'[_\s\-]?(\d+)(?:_\d+)?\s*$' *)
Definition trailing_num_pattern : pattern :=
  Pattern
    (Seq (Opt (Chr (brackets [CChar "_"; CSpace; CChar "-"])))
         (Seq (Group (Plus (Chr CDigit)))
              (Seq (Opt (Seq (Chr (CChar "_")) (Plus (Chr CDigit))))
                   (Seq (Star true (Chr CSpace)) Eos))))
    false.

(** The tuple [(numerical_prefix, identifier, full_match)]. *)
Definition extraction : Type := option str * option str * option str.

(** The branch taken for a groupable [identifier] found as [found_identifier]. *)
Definition extract_groupable (identifier : str) (name_without_ext : str)
    (found_identifier : str) : extraction :=
  match search (num_pattern identifier) name_without_ext with
  | Some num_match =>
      (Some (group1 num_match), Some identifier, Some (strip (group0 num_match)))
  | None =>
      match search (num_pattern2 identifier) name_without_ext with
      | Some num_match2 =>
          (Some (zfill 4 (group1 num_match2)), Some identifier,
           Some (strip (group0 num_match2)))
      | None =>
          match search (num_pattern_after identifier) name_without_ext with
          | Some num_match_after =>
              (Some (zfill 4 (group1 num_match_after)), Some identifier,
               Some (group0 num_match_after))
          | None => (None, Some identifier, Some found_identifier)
          end
      end
  end.

(** The branch taken for the other identifiers. *)
Definition extract_non_groupable (identifier : str) (name_without_ext : str)
    (found_identifier : str) : extraction :=
  if str_in identifier map_names then
    match search (after_id_pattern identifier) name_without_ext with
    | Some after_match =>
        (Some (zfill 4 (group1 after_match)), Some identifier, Some found_identifier)
    | None =>
        match search fallback_pattern name_without_ext with
        | Some fallback_match =>
            (Some (zfill 4 (group1 fallback_match)), Some identifier,
             Some found_identifier)
        | None => (None, Some identifier, Some found_identifier)
        end
    end
  else if str_in identifier spectrum_names then
    match search trailing_num_pattern name_without_ext with
    | Some trailing_match =>
        (Some (zfill 4 (group1 trailing_match)), Some identifier,
         Some found_identifier)
    | None => (None, Some identifier, Some found_identifier)
    end
  else (None, Some identifier, Some found_identifier).

(** The loop [for identifier in sorted_identifiers], which returns at the
    first identifier whose pattern is found. *)
Fixpoint extract_loop (identifiers : list str) (name_without_ext : str) : extraction :=
  match identifiers with
  | [] => (None, None, None)
  | identifier :: rest =>
      match search (id_pattern identifier) name_without_ext with
      | Some m =>
          let found_identifier := group1 m in
          if str_in identifier GROUPABLE_IDENTIFIERS
          then extract_groupable identifier name_without_ext found_identifier
          else extract_non_groupable identifier name_without_ext found_identifier
      | None => extract_loop rest name_without_ext
      end
  end.

(** [extract_identifier_and_number(filename)] *)
Definition extract_identifier_and_number (filename : str) : extraction :=
  let name_without_ext := splitext_root filename in
  let sorted_identifiers := sorted_by_len_desc ALL_IDENTIFIERS in
  extract_loop sorted_identifiers name_without_ext.

(** The entries of the index that the core reads: [img_info['filename']],
    the pixel size, and the two fields of [img_info['metadata']]; [None]
    in a metadata field is Python's [None]. *)
Record image := Image {
  filename : str;
  filepath : str;
  width : Z;
  height : Z;
  identifier : option str;
  numerical_prefix : option str
}.

(** Position of [x] in [l]: [enumerate] turned into a lookup. *)
Fixpoint index_of (x : str) (l : list str) (i : Z) : option Z :=
  match l with
  | [] => None
  | y :: l' => if str_eqb y x then Some i else index_of x l' (i + 1)%Z
  end.

(** [identifier_priority.get(identifier, 999)] *)
Definition identifier_priority (identifier : option str) : Z :=
  match identifier with
  | None => 999
  | Some i =>
      match index_of i NON_GROUPABLE_IDENTIFIERS 100 with
      | Some p => p
      | None =>
          match index_of i GROUPABLE_IDENTIFIERS 0 with
          | Some p => p
          | None => 999
          end
      end
  end%Z.

Definition category_of (identifier : option str) : Z :=
  if id_in identifier GROUPABLE_IDENTIFIERS then 0
  else if id_in identifier map_names then 1
  else if id_in identifier spectrum_names then 2
  else 3.

Definition sort_key : Type := Z * str * Z * str.

(** [get_sort_key(img_info)] *)
Definition get_sort_key (img_info : image) : sort_key :=
  let category := category_of (identifier img_info) in
  let priority := identifier_priority (identifier img_info) in
  let numerical_prefix :=
    match numerical_prefix img_info with
    | None => $"zzzzz"
    | Some [] => $"zzzzz"
    | Some np => np
    end in
  (category, numerical_prefix, priority, lower (filename img_info)).

(** The order of Python on such tuples: the first component that differs
    decides. *)
Definition sort_key_ltb (a b : sort_key) : bool :=
  let '(c1, g1, p1, f1) := a in
  let '(c2, g2, p2, f2) := b in
  if (c1 <? c2)%Z then true else if (c2 <? c1)%Z then false
  else if str_ltb g1 g2 then true else if str_ltb g2 g1 then false
  else if (p1 <? p2)%Z then true else if (p2 <? p1)%Z then false
  else str_ltb f1 f2.

End ImageIdentifier.

(** ** gui_app.py: the group label typed into the edit dialog *)

Module GroupEditor.
Import Py Re.

(** r'(?:MAP|SPEC|map|spec)(\d+)$' with re.IGNORECASE *)
Definition formatted_pattern : pattern :=
  Pattern
    (Seq (Alt (Lit $"MAP") (Alt (Lit $"SPEC") (Alt (Lit $"map") (Lit $"spec"))))
         (Seq (Group (Plus (Chr CDigit))) Eos))
    true.

(** What [apply_changes] does with the text of the entry. *)
Inductive edit :=
| Rejected                        (* the error dialog; nothing is stored *)
| Store (new_group : option str). (* the value stored as numerical_prefix *)

Definition apply_changes (entry_text : str) : edit :=
  let new_group_input := strip entry_text in
  match new_group_input with
  | [] => Store None
  | _ =>
      match rematch formatted_pattern new_group_input with
      | Some formatted_match => Store (Some (zfill 4 (group1 formatted_match)))
      | None =>
          if isdigit new_group_input then Store (Some (zfill 4 new_group_input))
          else if 50 <? length new_group_input then Rejected
          else Store (Some new_group_input)
      end
  end.

End GroupEditor.

(** ** ppt_generator.py: class PowerPointGenerator *)

Module PowerPointGenerator.
Import Py ImageIdentifier.
Local Open Scope Q_scope.

(** A computation that returns or raises [ZeroDivisionError], the one
    exception the layout arithmetic can raise. *)
Inductive outcome (A : Type) : Type :=
| Ok (a : A)
| ZeroDivisionError.
Arguments Ok {A} a.
Arguments ZeroDivisionError {A}.

Definition bind {A B : Type} (c : outcome A) (k : A -> outcome B) : outcome B :=
  match c with
  | Ok a => k a
  | ZeroDivisionError => ZeroDivisionError
  end.

Notation "x <- c ;; k" := (bind c (fun x => k))
  (at level 61, c at next level, right associativity).
Notation "' pat <- c ;; k" := (bind c (fun x => let pat := x in k))
  (at level 61, pat pattern, c at next level, right associativity).

(** [for idx, x in enumerate(l)] with a body that may raise. *)
Fixpoint for_enumerate {A B : Type} (f : Z -> A -> outcome B) (idx : Z) (l : list A)
    : outcome (list B) :=
  match l with
  | [] => Ok []
  | x :: rest =>
      y <- f idx x ;;
      ys <- for_enumerate f (idx + 1)%Z rest ;;
      Ok (y :: ys)
  end.

(** [for x in l] with a body that adds slides and may raise. *)
Fixpoint for_each {A B : Type} (f : A -> outcome (list B)) (l : list A)
    : outcome (list B) :=
  match l with
  | [] => Ok []
  | x :: rest =>
      ys <- f x ;;
      zs <- for_each f rest ;;
      Ok (ys ++ zs)
  end.

(** [a / b] on floats. *)
Definition fdiv (a b : Q) : outcome Q :=
  if Qeq_bool b 0 then ZeroDivisionError else Ok (a / b).

(** [a > b] on floats. *)
Definition fgt (a b : Q) : bool := negb (Qle_bool a b).

(** [pptx.util.Inches(x)], a length in English Metric Units:
    [int(x * 914400)]. *)
Definition Inches (x : Q) : Z := Qfloor (x * 914400).

(** A region of a visual layout profile, in fractions of the canvas. *)
Record region := Region {
  r_identifier : str;
  x1 : Q; y1 : Q; x2 : Q; y2 : Q
}.

(** A layout profile: [p_type] is [None] when the key ['type'] is absent,
    [p_regions] is empty when the key ['regions'] is. *)
Record profile := Profile {
  p_type : option str;
  p_regions : list region
}.

(** The attributes of the generator set by [__init__]. *)
Record generator := Generator {
  layout_profiles : list (str * profile);
  slide_width : Z;
  slide_height : Z;
  margin_top : Z;
  margin_bottom : Z;
  margin_left : Z;
  margin_right : Z;
  label_height : Z;
  label_spacing : Z
}.

(** [PowerPointGenerator(image_index)], then the profiles the caller
    assigns to [layout_profiles]. *)
Definition init (profiles : list (str * profile)) : generator :=
  Generator profiles
    (Inches 10) (Inches (75 # 10))
    (Inches (75 # 100)) (Inches (5 # 10)) (Inches (5 # 10)) (Inches (5 # 10))
    (Inches (4 # 10)) (Inches (1 # 10)).

Section Layout.
Variable self : generator.

Definition available_width : Q :=
  inject_Z (slide_width self - margin_left self - margin_right self).
Definition available_height : Q :=
  inject_Z (slide_height self - margin_top self - margin_bottom self).
Definition label_h : Q := inject_Z (label_height self).
Definition label_gap : Q := inject_Z (label_spacing self).
Definition left_margin : Q := inject_Z (margin_left self).
Definition top_margin : Q := inject_Z (margin_top self).

(** [math.ceil(math.sqrt(n))] for an int [0 <= n <= 2^52]: the exact
    ceiling, which is the ceiling of the float as long as [n] is in that
    range. *)
Definition ceil_sqrt (n : Z) : Z :=
  let r := Z.sqrt n in
  if (r * r =? n)%Z then r else (r + 1)%Z.

(** [math.ceil(n / d)] for ints [0 <= n <= 2^52] and [d > 0] with
    [d * d >= n]: the exact ceiling, which is the ceiling of the float in
    that range. *)
Definition ceil_div (n d : Z) : Z := ((n + d - 1) / d)%Z.

(** [calculate_grid_layout(num_images)], returning [(rows, cols)]. *)
Definition calculate_grid_layout (num_images : Z) : Z * Z :=
  if (num_images =? 0)%Z then (0, 0)%Z
  else if (num_images =? 1)%Z then (1, 1)%Z
  else if (num_images =? 2)%Z then (1, 2)%Z
  else if (num_images <=? 4)%Z then (2, 2)%Z
  else if (num_images <=? 6)%Z then (2, 3)%Z
  else if (num_images <=? 9)%Z then (3, 3)%Z
  else if (num_images <=? 12)%Z then (3, 4)%Z
  else if (num_images <=? 16)%Z then (4, 4)%Z
  else if (num_images <=? 20)%Z then (4, 5)%Z
  else
    let cols := ceil_sqrt num_images in
    let rows := ceil_div num_images cols in
    (rows, cols).

(** [calculate_image_dimensions(rows, cols, image_aspect_ratio)],
    returning [(img_width, img_height)]. *)
Definition calculate_image_dimensions (rows cols : Z) (image_aspect_ratio : Q)
    : outcome (Q * Q) :=
  cell_width <- fdiv available_width (inject_Z cols) ;;
  cell_height <- fdiv (available_height - (label_h + label_gap) * inject_Z rows)
                      (inject_Z rows) ;;
  q <- fdiv cell_width cell_height ;;
  if fgt q image_aspect_ratio then
    let img_height := cell_height - label_h - label_gap in
    let img_width := img_height * image_aspect_ratio in
    Ok (img_width, img_height)
  else
    let img_width := cell_width * (95 # 100) in
    img_height <- fdiv img_width image_aspect_ratio ;;
    let max_img_height := cell_height - label_h - label_gap in
    if fgt img_height max_img_height then
      let img_height := max_img_height in
      let img_width := img_height * image_aspect_ratio in
      Ok (img_width, img_height)
    else Ok (img_width, img_height).

(** What [add_picture] and the [add_textbox] of the label receive. *)
Record picture := Picture {
  pic_image : image;
  pic_x : Q; pic_y : Q; pic_width : Q; pic_height : Q;
  label_x : Q; label_y : Q; label_width : Q
}.

(** A slide: the text of its title box and its pictures, in the order in
    which they are added. *)
Record slide := Slide {
  title : str;
  pictures : list picture
}.

(** [img['width'] / img['height'] if img['height'] > 0 else default]: the
    exact quotient.  The float of the program is zero or overflows where
    the quotient does not only for sizes beyond 2^31. *)
Definition aspect_ratio_or (default : Q) (img : image) : Q :=
  if (height img >? 0)%Z then inject_Z (width img) / inject_Z (height img)
  else default.

(** f"Group {group_label}" *)
Definition group_title (group_label : str) : str := $"Group " ++ group_label.

(** f" (Part {i}/{n})" *)
Definition part_suffix (i n : Z) : str :=
  $" (Part " ++ str_of_int i ++ $"/" ++ str_of_int n ++ $")".

(** [spectrum or identifier test] of [add_group_slide]. *)
Definition is_spectrum (img : image) : bool :=
  id_in (identifier img) [$"Spectrum"] || id_in (identifier img) SPECTRUM_IDENTIFIERS.

(** The body of the loop of [add_standard_slide] for one image. *)
Definition standard_picture (rows cols : Z) (cell_width cell_height : Q)
    (idx : Z) (img : image) : outcome picture :=
  let row := (idx / cols)%Z in
  let col := (idx mod cols)%Z in
  let img_aspect_ratio := aspect_ratio_or 1 img in
  '(img_width, img_height) <- calculate_image_dimensions rows cols img_aspect_ratio ;;
  let x := left_margin + inject_Z col * cell_width + (cell_width - img_width) / 2 in
  let y := top_margin + inject_Z row * cell_height
           + (cell_height - img_height - label_h - label_gap) / 2 in
  let label_y := y + img_height + label_gap in
  Ok (Picture img x y img_width img_height x label_y img_width).

(** [add_standard_slide(prs, group_label, images)]: the slides added.
    The average aspect ratio that the method computes is not used by it
    and is left out; it is computed from the images that have a width and
    a height and cannot raise. *)
Definition add_standard_slide (group_label : str) (images : list image)
    : outcome (list slide) :=
  match images with
  | [] => Ok []
  | _ =>
      let num_images := Z.of_nat (length images) in
      let '(rows, cols) := calculate_grid_layout num_images in
      cell_width <- fdiv available_width (inject_Z cols) ;;
      cell_height <- fdiv available_height (inject_Z rows) ;;
      pics <- for_enumerate (standard_picture rows cols cell_width cell_height) 0%Z images ;;
      Ok [Slide (group_title group_label) pics]
  end.

(** One slice of a column of stacked pictures: the body shared by the
    loops of [add_spectrum_slide] and [add_mixed_slide], which differ in
    the column ([area_x], [area_width]), the share of the width used and
    the aspect ratio of an image without height. *)
Definition slice_picture (area_x area_width share default_ratio slice_height : Q)
    (idx : Z) (img : image) : outcome picture :=
  let y_pos := top_margin + inject_Z idx * slice_height in
  let img_aspect_ratio := aspect_ratio_or default_ratio img in
  let available_slice_height := slice_height - label_h - label_gap in
  let img_width := area_width * share in
  img_height <- fdiv img_width img_aspect_ratio ;;
  let '(img_width, img_height) :=
    if fgt img_height available_slice_height
    then (available_slice_height * img_aspect_ratio, available_slice_height)
    else (img_width, img_height) in
  let x_pos := area_x + (area_width - img_width) / 2 in
  let label_y := y_pos + img_height + label_gap in
  Ok (Picture img x_pos y_pos img_width img_height area_x label_y area_width).

(** The pictures of one column: nothing for an empty batch. *)
Definition column_pictures (area_x area_width share default_ratio : Q)
    (batch : list image) : outcome (list picture) :=
  match batch with
  | [] => Ok []
  | _ =>
      slice_height <- fdiv available_height (inject_Z (Z.of_nat (length batch))) ;;
      for_enumerate (slice_picture area_x area_width share default_ratio slice_height)
                    0%Z batch
  end.

(** [range(0, len(images), 3)] *)
Definition batch_starts (n : nat) : list nat :=
  map (fun k => 3 * k)%nat (seq 0 ((n + 2) / 3)).

(** [add_spectrum_slide(prs, group_label, images)]: the slides added. *)
Definition add_spectrum_slide (group_label : str) (images : list image)
    : outcome (list slide) :=
  for_each
    (fun batch_start =>
       let batch := slice images batch_start (batch_start + 3) in
       let title_text :=
         if (3 <? length images)%nat then
           let batch_num := Z.of_nat (batch_start / 3 + 1) in
           let total_batches := Z.of_nat ((length images + 2) / 3) in
           group_title group_label ++ part_suffix batch_num total_batches
         else group_title group_label in
       pics <- column_pictures left_margin available_width (95 # 100) 4 batch ;;
       Ok [Slide title_text pics])
    (batch_starts (length images)).

(** [add_mixed_slide(prs, group_label, spectrum_images, other_images)] *)
Definition add_mixed_slide (group_label : str)
    (spectrum_images other_images : list image) : outcome (list slide) :=
  let spectrum_batch_size := 3%nat in
  let other_batch_size := 2%nat in
  let max_slides :=
    Nat.max ((length spectrum_images + spectrum_batch_size - 1) / spectrum_batch_size)
            ((length other_images + other_batch_size - 1) / other_batch_size) in
  for_each
    (fun slide_num =>
       let spec_start := (slide_num * spectrum_batch_size)%nat in
       let spec_batch := slice spectrum_images spec_start (spec_start + spectrum_batch_size) in
       let other_start := (slide_num * other_batch_size)%nat in
       let other_batch := slice other_images other_start (other_start + other_batch_size) in
       let title_text :=
         if (1 <? max_slides)%nat
         then group_title group_label
              ++ part_suffix (Z.of_nat (slide_num + 1)) (Z.of_nat max_slides)
         else group_title group_label in
       let left_width := available_width / 3 in
       let right_width := (available_width * 2) / 3 in
       left <- column_pictures left_margin left_width (9 # 10) 1 other_batch ;;
       let right_x_start := left_margin + left_width in
       right <- column_pictures right_x_start right_width (95 # 100) 4 spec_batch ;;
       Ok [Slide title_text (left ++ right)])
    (seq 0 max_slides).

(** [images_by_identifier]: a dict from identifiers to lists of images,
    in the order of insertion. *)
Definition opt_str_eqb (a b : option str) : bool :=
  match a, b with
  | Some x, Some y => str_eqb x y
  | None, None => true
  | _, _ => false
  end.

Fixpoint dict_append {K V : Type} (eqb : K -> K -> bool) (k : K) (v : V)
    (d : list (K * list V)) : list (K * list V) :=
  match d with
  | [] => [(k, [v])]
  | (k', vs) :: d' =>
      if eqb k' k then (k', vs ++ [v]) :: d'
      else (k', vs) :: dict_append eqb k v d'
  end.

Fixpoint dict_get {K V : Type} (eqb : K -> K -> bool) (k : K) (d : list (K * V))
    : option V :=
  match d with
  | [] => None
  | (k', v) :: d' => if eqb k' k then Some v else dict_get eqb k d'
  end.

Definition group_by_identifier (images : list image) : list (option str * list image) :=
  fold_left (fun d img => dict_append opt_str_eqb (identifier img) img d) images [].

(** The body of the inner loop of [add_visual_custom_slide]. *)
Definition region_picture (region_x region_y cell_width cell_height : Q) (cols : Z)
    (idx : Z) (img : image) : outcome picture :=
  let row := (idx / cols)%Z in
  let col := (idx mod cols)%Z in
  let img_aspect_ratio := aspect_ratio_or 1 img in
  let available_cell_height := cell_height - label_h - label_gap in
  q <- fdiv cell_width available_cell_height ;;
  '(img_width, img_height) <-
    (if fgt q img_aspect_ratio then
       Ok (available_cell_height * img_aspect_ratio, available_cell_height)
     else
       let img_width := cell_width * (95 # 100) in
       img_height <- fdiv img_width img_aspect_ratio ;;
       if fgt img_height available_cell_height
       then Ok (available_cell_height * img_aspect_ratio, available_cell_height)
       else Ok (img_width, img_height)) ;;
  let x := region_x + inject_Z col * cell_width + (cell_width - img_width) / 2 in
  let y := region_y + inject_Z row * cell_height
           + (available_cell_height - img_height) / 2 in
  let label_y := y + img_height + label_gap in
  Ok (Picture img x y img_width img_height x label_y img_width).

(** The body of the loop over the regions: the pictures of one region. *)
Definition region_pictures (images_by_identifier : list (option str * list image))
    (r : region) : outcome (list picture) :=
  match dict_get opt_str_eqb (Some (r_identifier r)) images_by_identifier with
  | None | Some [] => Ok []
  | Some region_images =>
      let region_x := left_margin + x1 r * available_width in
      let region_y := top_margin + y1 r * available_height in
      let region_width := (x2 r - x1 r) * available_width in
      let region_height := (y2 r - y1 r) * available_height in
      let '(rows, cols) := calculate_grid_layout (Z.of_nat (length region_images)) in
      cell_width <- fdiv region_width (inject_Z cols) ;;
      cell_height <- fdiv region_height (inject_Z rows) ;;
      for_enumerate (region_picture region_x region_y cell_width cell_height cols)
                    0%Z region_images
  end.

(** [add_visual_custom_slide(prs, group_label, images, profile)] *)
Definition add_visual_custom_slide (group_label : str) (images : list image)
    (prof : profile) : outcome (list slide) :=
  match p_regions prof with
  | [] => add_standard_slide group_label images
  | regions =>
      let images_by_identifier := group_by_identifier images in
      pics <- for_each (region_pictures images_by_identifier) regions ;;
      Ok [Slide (group_title group_label) pics]
  end.

(** The part of [add_group_slide] after the profile: detection of the
    layout from the identifiers. *)
Definition auto_slide (group_label : str) (images : list image) : outcome (list slide) :=
  let spectrum_images := filter is_spectrum images in
  let other_images := filter (fun img => negb (is_spectrum img)) images in
  match spectrum_images, other_images with
  | _ :: _, _ :: _ => add_mixed_slide group_label spectrum_images other_images
  | _ :: _, [] => add_spectrum_slide group_label spectrum_images
  | [], _ => add_standard_slide group_label images
  end.

(** The branch [layout_type == 'mixed'] of [add_group_slide]. *)
Definition forced_mixed_slide (group_label : str) (images : list image)
    : outcome (list slide) :=
  let spectrum_images := filter is_spectrum images in
  let other_images := filter (fun img => negb (is_spectrum img)) images in
  let '(spectrum_images, other_images) :=
    match spectrum_images with
    | [] => (firstn 3 images, skipn 3 images)
    | _ => (spectrum_images, other_images)
    end in
  let '(spectrum_images, other_images) :=
    match other_images with
    | [] =>
        if (3 <? length images)%nat
        then (firstn (length images - 2) images, skipn (length images - 2) images)
        else (spectrum_images, other_images)
    | _ => (spectrum_images, other_images)
    end in
  add_mixed_slide group_label spectrum_images other_images.

(** [add_group_slide(prs, group_label, images)]: the slides added. *)
Definition add_group_slide (group_label : str) (images : list image)
    : outcome (list slide) :=
  match images with
  | [] => Ok []
  | _ =>
      match dict_get str_eqb group_label (layout_profiles self) with
      | Some prof =>
          let layout_type := match p_type prof with Some t => t | None => $"auto" end in
          if str_eqb layout_type $"visual" then
            add_visual_custom_slide group_label images prof
          else if str_eqb layout_type $"grid" then
            add_standard_slide group_label images
          else if str_eqb layout_type $"horizontal" then
            add_spectrum_slide group_label images
          else if str_eqb layout_type $"mixed" then
            forced_mixed_slide group_label images
          else auto_slide group_label images
      | None => auto_slide group_label images
      end
  end.

(** [groups_dict] of [generate_presentation]: the images that have a
    group, by formatted label. *)
Definition groups_dict (images : list image) (groups_to_include : option (list str))
    : list (str * list image) :=
  fold_left
    (fun d img =>
       match numerical_prefix img with
       | None | Some [] => d
       | Some _ =>
           let group_label :=
             format_group_label (numerical_prefix img) (identifier img) in
           match groups_to_include with
           | Some (g :: gs) =>
               if str_in group_label (g :: gs)
               then dict_append str_eqb group_label img d else d
           | _ => dict_append str_eqb group_label img d
           end
       end)
    images [].

(** [sorted(keys)] *)
Fixpoint insert_sorted (x : str) (l : list str) : list str :=
  match l with
  | [] => [x]
  | y :: l' => if str_ltb x y then x :: l else y :: insert_sorted x l'
  end.

Definition sorted (l : list str) : list str :=
  fold_left (fun acc x => insert_sorted x acc) l [].

(** [generate_presentation(output_path, groups_to_include)]: the slides of
    the presentation that is saved, or the exception that makes the method
    return [False]. *)
Definition generate_presentation (images : list image)
    (groups_to_include : option (list str)) : outcome (list slide) :=
  let groups := groups_dict images groups_to_include in
  let sorted_groups := sorted (map fst groups) in
  for_each
    (fun group_label =>
       match dict_get str_eqb group_label groups with
       | Some group_images => add_group_slide group_label group_images
       | None => Ok []
       end)
    sorted_groups.

End Layout.

End PowerPointGenerator.

(** * The vocabulary of the specification

    What the statements below are written in: the texts the patterns of
    the classifier stand for, the order of preference among them, and the
    measures of a grid. *)

Module Reading.
Import Py Re ImageIdentifier GroupEditor PowerPointGenerator.

(** A string of exactly four decimal digits, [^\d{4}$]. *)
Definition four_digits (g : str) : bool :=
  (length g =? 4) && forallb isdecimal_chr g.

Definition digit_chars : list ascii :=
  ["0"; "1"; "2"; "3"; "4"; "5"; "6"; "7"; "8"; "9"]%char.

(** All strings of four decimal digits. *)
Definition all_four_digits : list str :=
  flat_map (fun a => flat_map (fun b => flat_map (fun c =>
    map (fun d => [a; b; c; d]) digit_chars) digit_chars) digit_chars) digit_chars.

(** The 256 characters. *)
Definition all_ascii : list ascii :=
  let bs := [false; true] in
  flat_map (fun b0 => flat_map (fun b1 => flat_map (fun b2 => flat_map (fun b3 =>
  flat_map (fun b4 => flat_map (fun b5 => flat_map (fun b6 =>
  map (fun b7 => Ascii b0 b1 b2 b3 b4 b5 b6 b7) bs) bs) bs) bs) bs) bs) bs) bs.

Definition bool_eqb (a b : bool) : bool := if a then b else negb b.

(** A number printed without zero padding: one digit, or more that do not
    start with a zero. *)
Definition unpadded (s : str) : bool :=
  match s with
  | [] => false
  | [c] => isdecimal_chr c
  | c :: _ => negb (chr_eqb c "0") && forallb isdecimal_chr s
  end.

Definition edit_eqb (a b : edit) : bool :=
  match a, b with
  | Rejected, Rejected => true
  | Store x, Store y => opt_str_eqb x y
  | _, _ => false
  end.

(** A separator of the file names: white space, underscore or dash. *)
Definition sep_chr (c : ascii) : bool :=
  isspace_chr c || chr_eqb c "_" || chr_eqb c "-".

(** A letter of [a-z], in either case. *)
Definition letter_chr (c : ascii) : bool := between 65 90 c || between 97 122 c.

(** What may follow an identifier: a separator, an opening parenthesis,
    a digit or a letter. *)
Definition after_id_chr (c : ascii) : bool :=
  sep_chr c || chr_eqb c "(" || isdecimal_chr c || letter_chr c.

(** [w] is the identifier [id], up to the case of the letters. *)
Definition names (w id : str) : Prop := lower w = lower id.

(** A run of decimal digits. *)
Definition digits (w : str) : Prop := w <> [] /\ forallb isdecimal_chr w = true.

(** A run of separators. *)
Definition separators (w : str) : Prop := w <> [] /\ forallb sep_chr w = true.

(** The identifier ends here: what is left of the name is empty or starts
    with a separator, an opening parenthesis, a digit or a letter. *)
Definition ends_identifier (tail : str) : Prop :=
  match tail with
  | [] => True
  | a :: _ => after_id_chr a = true
  end.

(** The text stops being of the kind [f]: it is empty, or starts with a
    character that is not of it. *)
Definition stops (f : ascii -> bool) (tail : str) : Prop :=
  match tail with
  | [] => True
  | a :: _ => f a = false
  end.

(** Among the readings [R pre x] of a text [x] after the part [pre] of a
    name, [x] is the leftmost: the one after the shortest [pre], which is
    the one that [search] reports. *)
Definition leftmost (R : str -> str -> Prop) (x : str) : Prop :=
  exists pre, R pre x /\ forall pre' x', R pre' x' -> length pre <= length pre'.

(** (a) four digits, then separators with at most one run of digits in
    them, then the identifier: here after [pre], then the leftmost. *)
Definition four_digits_at (name id pre g : str) : Prop :=
  exists s1 d s2 w tail,
    name = pre ++ g ++ (s1 ++ d ++ s2) ++ w ++ tail /\
    four_digits g = true /\
    separators s1 /\ forallb isdecimal_chr d = true /\ forallb sep_chr s2 = true /\
    names w id /\ ends_identifier tail.

Definition four_digits_before (name id g : str) : Prop :=
  leftmost (four_digits_at name id) g.

(** (b) a run of digits, then separators, then the identifier. *)
Definition digits_at (name id pre d : str) : Prop :=
  exists s1 w tail,
    name = pre ++ d ++ s1 ++ w ++ tail /\
    digits d /\ separators s1 /\ names w id /\ ends_identifier tail.

Definition digits_before (name id d : str) : Prop :=
  leftmost (digits_at name id) d.

(** (c) the identifier, then separators, then a run of digits, all the
    digits there are. *)
Definition digits_after_at (name id pre d : str) : Prop :=
  exists w s1 tail,
    name = pre ++ w ++ s1 ++ d ++ tail /\
    names w id /\ separators s1 /\ digits d /\ stops isdecimal_chr tail.

Definition digits_after (name id d : str) : Prop :=
  leftmost (digits_after_at name id) d.

(** Words between the identifier and its number: runs of white space, each
    followed by a run of word characters. *)
Inductive words : str -> Prop :=
| words_nil : words []
| words_cons sp wd rest :
    sp <> [] -> forallb isspace_chr sp = true ->
    wd <> [] -> forallb isword_chr wd = true ->
    words rest -> words (sp ++ wd ++ rest).

(** (?:\s+\w+) *)
Definition words_re : regex := Seq (Plus (Chr CSpace)) (Plus (Chr CWord)).

(** The suffix that is ignored after the number: nothing, or an underscore
    and digits. *)
Definition underscore_suffix (t : str) : Prop :=
  t = [] \/ exists n, t = "_"%char :: n /\ digits n.

(** The name ends here, or goes on with white space. *)
Definition ends_number (tail : str) : Prop :=
  match tail with
  | [] => True
  | a :: _ => isspace_chr a = true
  end.

(** The number stands at the head of [text]: separators, the number, the
    ignored suffix, and then white space or the end. *)
Definition number_here (text d : str) : Prop :=
  exists s1 t tail,
    text = s1 ++ d ++ t ++ tail /\
    separators s1 /\ digits d /\ underscore_suffix t /\ ends_number tail.

(** The number found in [text], with the preference of the pattern
    [(?:\s+\w+)*?] for the words it skips: the number at the head of the
    text when one stands there; if none does, the number found after a
    word, and after the longest word after which one is found.  [n] bounds
    the words skipped. *)
Fixpoint number_in (n : nat) (text d : str) : Prop :=
  number_here text d \/
  ((forall d', ~ number_here text d') /\
   match n with
   | 0 => False
   | S n' =>
       exists sp wd rest,
         text = sp ++ wd ++ rest /\
         sp <> [] /\ forallb isspace_chr sp = true /\
         wd <> [] /\ forallb isword_chr wd = true /\
         number_in n' rest d /\
         (forall x rest' d',
            x <> [] -> forallb isword_chr x = true -> rest = x ++ rest' ->
            ~ number_in n' rest' d')
   end).

(** The identifier after [pre], and the number found in what follows it. *)
Definition number_after_at (name id pre d : str) : Prop :=
  exists w rest,
    name = pre ++ w ++ rest /\ names w id /\ number_in (length rest) rest d.

Definition number_after (name id d : str) : Prop :=
  leftmost (number_after_at name id) d.

(** The number at the end of the name: after a separator ([sep_needed])
    or not, before the ignored suffix and white space. *)
Definition trailing_number_at (sep_needed : bool) (name pre d : str) : Prop :=
  exists sp t ws,
    name = pre ++ sp ++ d ++ t ++ ws /\
    ((exists a, sp = [a] /\ sep_chr a = true) \/ (sep_needed = false /\ sp = [])) /\
    digits d /\ underscore_suffix t /\ forallb isspace_chr ws = true.

Definition trailing_number (sep_needed : bool) (name d : str) : Prop :=
  leftmost (trailing_number_at sep_needed name) d.

(** [[_\s\-]+(\d+)(?:_\d+)?(?:\s|$)] *)
Definition number_re : regex :=
  Seq (Plus (Chr (brackets [CChar "_"; CSpace; CChar "-"])))
      (Seq (Group (Plus (Chr CDigit)))
           (Seq (Opt (Seq (Chr (CChar "_")) (Plus (Chr CDigit))))
                (Alt (Chr CSpace) Eos))).

(** The length of the longest head of [l] made of characters of [f]. *)
Fixpoint span (f : ascii -> bool) (l : str) : nat :=
  match l with
  | a :: l' => if f a then S (span f l') else 0
  | [] => 0
  end.

(** The state [k] characters after [st]. *)
Definition at_pos (st : mstate) (k : nat) : mstate := MState (pos st + k) (grp st).

(** [n, n-1, ..., 1] *)
Fixpoint down (n : nat) : list nat :=
  match n with
  | 0 => []
  | S n' => n :: down n'
  end.

(** What is tried from a state of the lazy [(?:\s+\w+)*?] of the map
    pattern: the number pattern at the state, then at each end of the
    words skipped from it. *)
Definition tried (ic : bool) (s : str) (fuel : nat) (st : mstate) : list mstate :=
  flat_map (run ic s number_re) (star_iter (run ic s words_re) false fuel st).

(** The text of group 1 in a state of the matcher on [s]. *)
Definition cap (s : str) (st : mstate) : option str :=
  match grp st with
  | Some (b, e) => Some (slice s b e)
  | None => None
  end.

(** Every result of the matcher is a match of the pattern. *)
Definition sound_at (ic : bool) (s : str) (r : regex) : Prop :=
  forall st st',
    pos st <= length s -> In st' (run ic s r st) ->
    pos st <= pos st' <= length s /\
    denotes ic r (firstn (pos st) s) (slice s (pos st) (pos st'))
            (skipn (pos st') s) (cap s st) (cap s st').

(** Every match of the pattern is a result of the matcher. *)
Definition complete_at (ic : bool) (s : str) (r : regex) : Prop :=
  forall st pre w post c',
    s = pre ++ w ++ post -> pos st = length pre ->
    denotes ic r pre w post (cap s st) c' ->
    exists st', In st' (run ic s r st) /\
                pos st' = length pre + length w /\ cap s st' = c'.

(** [found p s w c]: somewhere in [s] the pattern can match the text [w]
    with [c] as group 1. *)
Definition found (p : pattern) (s w : str) (c : option str) : Prop :=
  exists pre post, s = pre ++ w ++ post /\
    denotes (p_ignorecase p) (p_regex p) pre w post None c.

(** The identifier at which the loop of [extract_identifier_and_number]
    stops, with the text it was found as. *)
Fixpoint first_found (identifiers : list str) (name : str) : option (str * str) :=
  match identifiers with
  | [] => None
  | i :: rest =>
      match search (id_pattern i) name with
      | Some m => Some (i, group1 m)
      | None => first_found rest name
      end
  end.

(** The identifier matched in a file name. *)
Definition matched_identifier (filename : str) : option (str * str) :=
  first_found (sorted_by_len_desc ALL_IDENTIFIERS) (splitext_root filename).

(** The order of preference among the numbers of a groupable identifier:
    the first of (a), (b), (c) that the name has. *)
Definition groupable_number (name id : str) (number : option str) : Prop :=
  (exists g, four_digits_before name id g /\ number = Some g)
  \/ ((forall g, ~ four_digits_before name id g) /\
      exists d, digits_before name id d /\ number = Some (zfill 4 d) /\
                four_digits (zfill 4 d) = true)
  \/ ((forall g, ~ four_digits_before name id g) /\
      (forall d, ~ digits_before name id d) /\
      exists d, digits_after name id d /\ number = Some (zfill 4 d))
  \/ ((forall g, ~ four_digits_before name id g) /\
      (forall d, ~ digits_before name id d) /\
      (forall d, ~ digits_after name id d) /\
      number = None).

(** The number of a map-like identifier: after the identifier, or else at
    the end of the name after a separator. *)
Definition map_number (name id : str) (number : option str) : Prop :=
  (exists d, number_after name id d /\ number = Some (zfill 4 d))
  \/ ((forall d, ~ number_after name id d) /\
      exists d, trailing_number true name d /\ number = Some (zfill 4 d))
  \/ ((forall d, ~ number_after name id d) /\
      (forall d, ~ trailing_number true name d) /\
      number = None).

(** The number of a spectrum identifier: at the end of the name. *)
Definition spectrum_number (name : str) (number : option str) : Prop :=
  (exists d, trailing_number false name d /\ number = Some (zfill 4 d))
  \/ ((forall d, ~ trailing_number false name d) /\ number = None).

(** The counts for which [math.sqrt(n)] and [n / cols], floats in the
    program, round to the ceilings of the exact values: up to 2^52 images.
    Above, the float of [n] or of its square root is no longer exact, and
    the grid of the program is no longer the one of [ceil_sqrt] and
    [ceil_div]. *)
Definition exact_count : Z := 2 ^ 52.

(** The pixel sizes that an image file can have: below 2^31.  Within them
    the quotient of a width by a height, a float in the program, is
    neither zero nor infinite when the exact quotient is not zero. *)
Definition pixel_sized (img : image) : Prop :=
  (0 <= width img < 2 ^ 31)%Z /\ (0 <= height img < 2 ^ 31)%Z.

(** Cells of a [rows x cols] layout left empty by [n] images. *)
Definition wasted_cells (layout : Z * Z) (n : Z) : Z :=
  (fst layout * snd layout - n)%Z.

(** [c] is the ceiling of the square root of [n]. *)
Definition is_ceil_sqrt (c n : Z) : Prop :=
  (0 < c /\ (c - 1) * (c - 1) < n <= c * c)%Z.

(** [r] is the ceiling of [n / c]. *)
Definition is_ceil_quot (r n c : Z) : Prop :=
  ((r - 1) * c < n <= r * c)%Z.

(** The cell of [calculate_image_dimensions]: its [cell_width] and its
    [cell_height], the height of a row once the labels of all rows are
    taken from the available height. *)
Definition cell_width_of (self : generator) (cols : Z) : Q :=
  (available_width self / inject_Z cols)%Q.
Definition cell_height_of (self : generator) (rows : Z) : Q :=
  ((available_height self - (label_h self + label_gap self) * inject_Z rows)
   / inject_Z rows)%Q.

(** The picture keeps the aspect ratio taken for its image. *)
Definition keeps_ratio (default : Q) (p : picture) : Prop :=
  (pic_width p == pic_height p * aspect_ratio_or default (pic_image p))%Q.

(** The ceiling of [a / b], as the program computes it. *)
Definition ceil_quot (a b : nat) : nat := (a + b - 1) / b.

(** Unit [k] of a mixed composition: the pictures of a batch of other
    images, then those of a batch of spectrum images. *)
Definition mixed_unit (others spectrum : list image) (k : nat) (s : slide) : Prop :=
  exists left right,
    pictures s = left ++ right /\
    map pic_image left = slice others (2 * k) (2 * k + 2) /\
    map pic_image right = slice spectrum (3 * k) (3 * k + 3) /\
    Forall (keeps_ratio 1%Q) left /\ Forall (keeps_ratio 4%Q) right.

(** An entry of the index, for the examples. *)
Definition entry_of (fname : str) (w h : Z) (id np : option str) : image :=
  Image fname fname w h id np.

End Reading.

From Stdlib Require Import Sorted.

(** * The catalogue around the classifier

    [image_uploader.py] (classes [ImageIndex] and [ImageUploader]),
    [reindex_images.py] and the handlers of [gui_app.py] that change the
    index.  The file system is a part of the state: the regular files, by
    path, two paths naming one file only when they are the same string.
    [save_index] rewrites the JSON file from [self.images] after each
    change; the model keeps [self.images]. *)

(** ** image_uploader.py: class ImageIndex *)

Module ImageIndex.
Import Py ImageIdentifier PowerPointGenerator.

(** An entry of the index, as [add_image] makes it.  [e_image] holds the
    keys that the classifier and the generator read: ['filename'],
    ['filepath'], ['width'], ['height'] and, of ['metadata'],
    ['identifier'] and ['numerical_prefix'].  The keys ['mode'] and
    ['added_date'] and the metadata of the caller, which the program only
    displays, are left out. *)
Record entry := Entry {
  e_id : Z;
  e_hash : str;
  e_format : str;
  e_size_bytes : Z;
  e_identifier_match : option str;
  e_image : image
}.

(** A regular file: the SHA256 digest of its content, its size, and what
    PIL reads from it, [(width, height, format)], or [None] when
    [Image.open] raises. *)
Record file := File {
  f_hash : str;
  f_size : Z;
  f_picture : option (Z * Z * str)
}.

(** The regular files, by path. *)
Definition filesystem : Type := list (str * file).

Definition read_file (fs : filesystem) (path : str) : option file :=
  dict_get str_eqb path fs.

(** [os.path.exists(path)] *)
Definition path_exists (fs : filesystem) (path : str) : bool :=
  match read_file fs path with Some _ => true | None => false end.

(** The exceptions of the catalogue. *)
Inductive error := FileNotFoundError | ValueError.

Inductive result (A : Type) : Type :=
| Return (a : A)
| Raise (e : error).
Arguments Return {A} a.
Arguments Raise {A} e.

(** [os.path.basename(p)] of posixpath: what follows the last slash. *)
Definition basename (p : str) : str :=
  match rfind "/"%char p with
  | Some i => skipn (S i) p
  | None => p
  end.

Section Environment.

(** [os.path.abspath], which depends on the working directory. *)
Variable abspath : str -> str.

(** [add_image(filepath)]: the entry returned and [self.images] after the
    call, or the exception raised, which leaves [self.images] as it
    was. *)
Definition add_image (fs : filesystem) (filepath : str) (images : list entry)
    : result (entry * list entry) :=
  match read_file fs filepath with
  | None => Raise FileNotFoundError
  | Some f =>
      match f_picture f with
      | None => Raise ValueError
      | Some (width, height, format_type) =>
          let file_hash := f_hash f in
          match find (fun img => str_eqb (e_hash img) file_hash) images with
          | Some img => Return (img, images)
          | None =>
              let filename := basename filepath in
              let '(numerical_prefix, identifier, full_match) :=
                extract_identifier_and_number filename in
              let image_entry :=
                Entry (Z.of_nat (length images) + 1) file_hash format_type (f_size f)
                      full_match
                      (Image filename (abspath filepath) width height
                             identifier numerical_prefix) in
              Return (image_entry, images ++ [image_entry])
          end
      end
  end.

End Environment.

(** [get_image(image_id)] *)
Definition get_image (image_id : Z) (images : list entry) : option entry :=
  find (fun img => (e_id img =? image_id)%Z) images.

(** [sorted(l, key=get_sort_key)] and [l.sort(key=get_sort_key)]: a
    stable sort, an entry going before the first one whose key is
    greater. *)
Fixpoint insert_by_key (x : entry) (l : list entry) : list entry :=
  match l with
  | [] => [x]
  | y :: l' =>
      if sort_key_ltb (get_sort_key (e_image x)) (get_sort_key (e_image y))
      then x :: l
      else y :: insert_by_key x l'
  end.

Definition sorted_by_key (l : list entry) : list entry :=
  fold_left (fun acc x => insert_by_key x acc) l [].

(** [get_all_images()] *)
Definition get_all_images (images : list entry) : list entry := sorted_by_key images.

(** [get_images_by_group(numerical_prefix)] *)
Definition get_images_by_group (prefix : str) (images : list entry) : list entry :=
  filter (fun img => opt_str_eqb (numerical_prefix (e_image img)) (Some prefix)) images.

(** [get_images_by_identifier(identifier)] *)
Definition get_images_by_identifier (id : str) (images : list entry) : list entry :=
  filter (fun img => opt_str_eqb (identifier (e_image img)) (Some id)) images.

(** [groups.add(prefix)] on a set held as a list without repetition. *)
Definition set_add (x : str) (s : list str) : list str :=
  if str_in x s then s else s ++ [x].

(** [get_all_groups()] *)
Definition get_all_groups (images : list entry) : list str :=
  let groups :=
    fold_left (fun groups img =>
                 match numerical_prefix (e_image img) with
                 | None | Some [] => groups
                 | Some prefix => set_add prefix groups
                 end) images [] in
  sorted groups.

(** [get_grouped_images()]: the dict, in the order in which its keys are
    inserted. *)
Definition get_grouped_images (images : list entry) : list (str * list entry) :=
  let grouped :=
    fold_left (fun grouped img =>
                 match numerical_prefix (e_image img) with
                 | None | Some [] => dict_append str_eqb $"ungrouped" img grouped
                 | Some prefix => dict_append str_eqb prefix img grouped
                 end) images [] in
  map (fun '(prefix, group) => (prefix, sorted_by_key group)) grouped.

(** [remove_image(image_id)]: what it returns and [self.images] after the
    call. *)
Fixpoint remove_image (image_id : Z) (images : list entry) : bool * list entry :=
  match images with
  | [] => (false, [])
  | img :: rest =>
      if (e_id img =? image_id)%Z then (true, rest)
      else let '(found, rest') := remove_image image_id rest in (found, img :: rest')
  end.

End ImageIndex.

(** ** image_uploader.py: class ImageUploader *)

Module ImageUploader.
Import Py ImageIdentifier PowerPointGenerator ImageIndex.

Definition SUPPORTED_FORMATS : list str :=
  [$".jpg"; $".jpeg"; $".png"; $".gif"; $".bmp"; $".tiff"; $".tif"; $".webp"].

(** [s.split('/')] *)
Fixpoint split_slash (s : str) : list str :=
  match s with
  | [] => [[]]
  | c :: rest =>
      if chr_eqb c "/"%char then [] :: split_slash rest
      else match split_slash rest with
           | part :: parts => (c :: part) :: parts
           | [] => [[c]]
           end
  end.

(** [PurePosixPath(p).name] (pathlib of Python 3.8 to 3.12): the last
    component that is neither empty nor a dot, or the empty string. *)
Definition path_name (p : str) : str :=
  last (filter (fun x => negb (str_eqb x []) && negb (str_eqb x $"."))
               (split_slash p)) [].

(** [PurePosixPath(p).suffix] (pathlib of Python 3.8 to 3.12): what
    starts at the last dot of the name, unless that dot is the first or
    the last character of the name. *)
Definition path_suffix (p : str) : str :=
  let name := path_name p in
  match rfind "."%char name with
  | Some i => if (0 <? i) && (i <? length name - 1) then skipn i name else []
  | None => []
  end.

(** [is_supported_format(filepath)] *)
Definition is_supported_format (filepath : str) : bool :=
  let ext := lower (path_suffix filepath) in
  str_in ext SUPPORTED_FORMATS.

(** [os.path.join(a, b)] of posixpath *)
Definition join (a b : str) : str :=
  match b with
  | "/"%char :: _ => b
  | _ =>
      match rev a with
      | [] => b
      | "/"%char :: _ => a ++ b
      | _ => a ++ "/"%char :: b
      end
  end.

(** [os.path.splitext(p)] of posixpath *)
Definition splitext (p : str) : str * str :=
  let root := splitext_root p in (root, skipn (length root) p).

(** The state that the uploader changes: the files and [self.index.images]. *)
Definition world : Type := filesystem * list entry.

(** The loop [while os.path.exists(target_path)] of [upload_image], for
    at most [fuel] rounds: it ends within one round more than there are
    files, see [free_target_free]. *)
Fixpoint free_target (fs : filesystem) (upload_dir filename : str) (fuel : nat)
    (counter : Z) (target_path : str) : str :=
  if path_exists fs target_path then
    match fuel with
    | 0 => target_path
    | S fuel' =>
        let '(name, ext) := splitext filename in
        let target_path :=
          join upload_dir (name ++ $"_" ++ str_of_int counter ++ ext) in
        free_target fs upload_dir filename fuel' (counter + 1)%Z target_path
    end
  else target_path.

(** [shutil.copy2(src, dst)] for a [dst] that does not name a directory:
    the file at [dst] is written, or made. *)
Fixpoint write_file (fs : filesystem) (path : str) (f : file) : filesystem :=
  match fs with
  | [] => [(path, f)]
  | (p, g) :: fs' =>
      if str_eqb p path then (p, f) :: fs' else (p, g) :: write_file fs' path f
  end.

Section Uploader.
Variable abspath : str -> str.
(** [self.upload_dir] *)
Variable upload_dir : str.

(** [upload_image(filepath, copy_to_upload_dir)]: what is returned or
    raised, and the state after the call. *)
Definition upload_image (filepath : str) (copy_to_upload_dir : bool) (w : world)
    : result entry * world :=
  let '(fs, images) := w in
  if negb (is_supported_format filepath) then (Raise ValueError, w)
  else if copy_to_upload_dir then
    let filename := basename filepath in
    let target_path :=
      free_target fs upload_dir filename (S (length fs)) 1%Z (join upload_dir filename) in
    match read_file fs filepath with
    | None => (Raise FileNotFoundError, w)
    | Some f =>
        let fs' := write_file fs target_path f in
        match add_image abspath fs' target_path images with
        | Return (image_entry, images') => (Return image_entry, (fs', images'))
        | Raise e => (Raise e, (fs', images))
        end
    end
  else
    match add_image abspath fs filepath images with
    | Return (image_entry, images') => (Return image_entry, (fs, images'))
    | Raise e => (Raise e, w)
    end.

(** [upload_multiple_images(filepaths, copy_to_upload_dir)]: the results
    and the state after the call.  An exception is printed and the loop
    goes on. *)
Fixpoint upload_multiple_images (filepaths : list str) (copy_to_upload_dir : bool)
    (w : world) : list entry * world :=
  match filepaths with
  | [] => ([], w)
  | filepath :: rest =>
      let '(r, w') := upload_image filepath copy_to_upload_dir w in
      let '(results, w'') := upload_multiple_images rest copy_to_upload_dir w' in
      (match r with
       | Return result => result :: results
       | Raise _ => results
       end, w'')
  end.

End Uploader.

(** [os.remove(path)]; the exception for a missing file is caught by the
    caller. *)
Fixpoint delete_file (fs : filesystem) (path : str) : filesystem :=
  match fs with
  | [] => []
  | (p, g) :: fs' => if str_eqb p path then fs' else (p, g) :: delete_file fs' path
  end.

(** [remove_image(image_id, delete_file)] of the uploader. *)
Definition remove_image (image_id : Z) (delete : bool) (w : world) : bool * world :=
  let '(fs, images) := w in
  let fs' :=
    match get_image image_id images with
    | Some img => if delete then delete_file fs (filepath (e_image img)) else fs
    | None => fs
    end in
  let '(found, images') := ImageIndex.remove_image image_id images in
  (found, (fs', images')).

End ImageUploader.

(** ** reindex_images.py *)

Module Reindex.
Import Py ImageIdentifier PowerPointGenerator ImageIndex.

(** The body of the loop of [reindex_images]: the entry after the update
    of its metadata. *)
Definition reindex_entry (img : entry) : entry :=
  let '(numerical_prefix, identifier, full_match) :=
    extract_identifier_and_number (filename (e_image img)) in
  let i := e_image img in
  Entry (e_id img) (e_hash img) (e_format img) (e_size_bytes img) full_match
        (Image (filename i) (filepath i) (width i) (height i)
               identifier numerical_prefix).

(** [old_identifier != identifier or old_prefix != numerical_prefix] *)
Definition updated (img : entry) : bool :=
  let '(numerical_prefix, identifier, _) :=
    extract_identifier_and_number (filename (e_image img)) in
  negb (opt_str_eqb (ImageIdentifier.identifier (e_image img)) identifier)
  || negb (opt_str_eqb (ImageIdentifier.numerical_prefix (e_image img)) numerical_prefix).

(** [reindex_images()]: the index that is saved, and [updated_count]. *)
Definition reindex_images (images : list entry) : list entry * nat :=
  (map reindex_entry images, length (filter updated images)).

End Reindex.

(** ** gui_app.py: the dialogs and the index *)

Module GuiApp.
Import Py ImageIdentifier PowerPointGenerator ImageIndex ImageUploader GroupEditor.

(** [img = get_image(img_id); if img: img[...] = ...]: the first entry
    with the identifier [img_id] is changed, in place. *)
Fixpoint update_image (img_id : Z) (f : entry -> entry) (images : list entry)
    : list entry :=
  match images with
  | [] => []
  | img :: rest =>
      if (e_id img =? img_id)%Z then f img :: rest
      else img :: update_image img_id f rest
  end.

Definition set_numerical_prefix (new_group : option str) (img : entry) : entry :=
  let i := e_image img in
  Entry (e_id img) (e_hash img) (e_format img) (e_size_bytes img)
        (e_identifier_match img)
        (Image (filename i) (filepath i) (width i) (height i)
               (identifier i) new_group).

Definition set_identifier (new_type : str) (img : entry) : entry :=
  let i := e_image img in
  Entry (e_id img) (e_hash img) (e_format img) (e_size_bytes img)
        (e_identifier_match img)
        (Image (filename i) (filepath i) (width i) (height i)
               (Some new_type) (numerical_prefix i)).

(** [apply_changes] of [edit_group], with the loop over the selected
    images: the index after the click on Apply. *)
Definition edit_group (entry_text : str) (selected_ids : list Z) (images : list entry)
    : list entry :=
  match apply_changes entry_text with
  | Rejected => images
  | Store new_group =>
      fold_left (fun images img_id =>
                   update_image img_id (set_numerical_prefix new_group) images)
                selected_ids images
  end.

(** [apply_changes] of [edit_type]. *)
Definition edit_type (combo_text : str) (selected_ids : list Z) (images : list entry)
    : list entry :=
  let new_type := strip combo_text in
  match new_type with
  | [] => images
  | _ =>
      if negb (str_in new_type ALL_IDENTIFIERS) then images
      else
        fold_left (fun images img_id =>
                     update_image img_id (set_identifier new_type) images)
                  selected_ids images
  end.

(** [remove_selected], when the removal is confirmed: [success_count]
    and the state after the loop. *)
Definition remove_selected (selected_ids : list Z) (w : world) : nat * world :=
  fold_left (fun '(success_count, w) image_id =>
               let '(found, w') := ImageUploader.remove_image image_id false w in
               ((if found then S success_count else success_count), w'))
            selected_ids (0, w).

(** [groups_dict] of [generate_powerpoint]: the images of the dialog, by
    formatted label. *)
Definition dialog_groups_dict (grouped_images : list image) : list (str * list image) :=
  fold_left
    (fun d img =>
       match numerical_prefix img with
       | None | Some [] => d
       | Some _ =>
           let group_label :=
             format_group_label (numerical_prefix img) (identifier img) in
           dict_append str_eqb group_label img d
       end)
    grouped_images [].

(** [sorted_groups] of [generate_powerpoint]: the labels of the check
    boxes of the dialog, from top to bottom. *)
Definition dialog_groups (index : list entry) : list str :=
  let images := map e_image (get_all_images index) in
  let grouped_images :=
    filter (fun img => match numerical_prefix img with
                       | None | Some [] => false
                       | Some _ => true
                       end) images in
  sorted (map fst (dialog_groups_dict grouped_images)).

(** [selected_groups] of [generate]: the labels whose boxes are checked. *)
Definition selected_groups (index : list entry) (checked : str -> bool) : list str :=
  filter checked (dialog_groups index).

End GuiApp.

(** * The vocabulary of the further properties *)

(** ** Where a picture is placed *)

Module Placement.
Import PowerPointGenerator.
Local Open Scope Q_scope.

(** A rectangle of the slide: its left and top edges, width and height. *)
Record rect := Rect { r_left : Q; r_top : Q; r_width : Q; r_height : Q }.

(** The picture and the text box of its label lie in the rectangle, the
    label below the picture, and the picture has a width and a height. *)
Definition placed_in (self : generator) (r : rect) (p : picture) : Prop :=
  0 < pic_width p /\ 0 < pic_height p /\
  r_left r <= pic_x p /\ pic_x p + pic_width p <= r_left r + r_width r /\
  r_left r <= label_x p /\ label_x p + label_width p <= r_left r + r_width r /\
  r_top r <= pic_y p /\ pic_y p + pic_height p <= label_y p /\
  label_y p + label_h self <= r_top r + r_height r.


(** Slice [idx] of the [m] slices that divide a column of the available
    area. *)
Definition column_slice (self : generator) (area_x area_width : Q) (m idx : Z) : rect :=
  let slice_height := available_height self / inject_Z m in
  Rect area_x (top_margin self + inject_Z idx * slice_height) area_width slice_height.


(** The slide has room for the columns of stacked pictures: a width, and
    a height in which three slices hold more than their labels. *)
Definition roomy (self : generator) : Prop :=
  0 < available_width self /\ 0 <= label_h self /\ 0 <= label_gap self /\
  3 * (label_h self + label_gap self) < available_height self.

(** The images of the pictures of some slides, slide after slide. *)
Definition placed_images (slides : list slide) : list ImageIdentifier.image :=
  flat_map (fun s => map pic_image (pictures s)) slides.

End Placement.

(** ** How the images are filed *)

Module Grouping.
Import Py ImageIdentifier PowerPointGenerator.


(** The label under which [generate_presentation] files an image: none
    for an image without a group, or with a group that is not among the
    groups asked for. *)
Definition label_of (groups_to_include : option (list str)) (img : image) : option str :=
  match numerical_prefix img with
  | None | Some [] => None
  | Some _ =>
      let group_label := format_group_label (numerical_prefix img) (identifier img) in
      match groups_to_include with
      | Some (g :: gs) => if str_in group_label (g :: gs) then Some group_label else None
      | _ => Some group_label
      end
  end.

(** The loop that files each value under its key, if it has one. *)
Definition file_all {K V : Type} (eqb : K -> K -> bool) (key : V -> option K)
    (l : list V) (d : list (K * list V)) : list (K * list V) :=
  fold_left (fun d v => match key v with
                        | Some k => dict_append eqb k v d
                        | None => d
                        end) l d.

(** The values that have the key [k], in the order of the list. *)
Definition filed_under {K V : Type} (eqb : K -> K -> bool) (key : V -> option K)
    (k : K) (l : list V) : list V :=
  filter (fun v => match key v with Some k' => eqb k' k | None => false end) l.

(** The images filed under [group_label], in the order of the index. *)
Definition labelled (groups_to_include : option (list str)) (group_label : str)
    (images : list image) : list image :=
  filed_under str_eqb (label_of groups_to_include) group_label images.

(** The images that are filed under a label. *)
Definition included (groups_to_include : option (list str)) (images : list image)
    : list image :=
  filter (fun img => match label_of groups_to_include img with
                     | Some _ => true
                     | None => false
                     end)
         images.

(** The order of Python on strings, as a relation. *)
Definition str_lt (a b : str) : Prop := str_ltb a b = true.

End Grouping.

(** ** Where an identifier occurs in a name *)

Module Occurrence.
Import Py Re ImageIdentifier Reading.

(** The identifier may start here: at the start of the name, or after a
    separator. *)
Definition starts_identifier (pre : str) : Prop :=
  pre = [] \/ exists p a, pre = p ++ [a] /\ sep_chr a = true.

(** The identifier [id] occurs in the name where the classifier looks for
    it, in any case of the letters: at the start of the name or after a
    separator, and followed by the end of the name, a separator, an
    opening parenthesis, a digit or a letter.  A letter may follow, so
    that the identifier need not be a word of its own: SE occurs in
    "SEM image 5". *)
Definition occurs (name id : str) : Prop :=
  exists pre w tail,
    name = pre ++ w ++ tail /\
    starts_identifier pre /\ names w id /\ ends_identifier tail.

(** A list of strings in which no string is longer than one before it. *)
Definition by_length_desc (ids : list str) : Prop :=
  StronglySorted (fun a b => length b <= length a) ids.

(** A run of decimal digits that the name has somewhere. *)
Definition digits_of (name d : str) : Prop :=
  digits d /\ exists pre post, name = pre ++ d ++ post.

(** A pattern that cannot tell a character from its lower case. *)
Fixpoint case_blind (ic : bool) (r : regex) : Prop :=
  match r with
  | Chr cs => forall a, cset_mem ic cs (lower_chr a) = cset_mem ic cs a
  | Seq r1 r2 | Alt r1 r2 => case_blind ic r1 /\ case_blind ic r2
  | Star _ r' | Group r' => case_blind ic r'
  | Eps | Bos | Eos => True
  end.

(** The match object with the subject in lower case. *)
Definition lower_match (m : rmatch) : rmatch :=
  RMatch (lower (m_subject m)) (m_start m) (m_end m) (m_grp m).

(** The tuple of [extract_identifier_and_number] for the name in lower
    case: the texts taken from the name are in lower case. *)
Definition lower_extraction (e : extraction) : extraction :=
  let '(number, identifier, full_match) := e in
  (option_map lower number, identifier, option_map lower full_match).

End Occurrence.

(** ** The state of the catalogue *)

Module Catalogue.
Import Py ImageIdentifier PowerPointGenerator ImageIndex.

(** The identifiers of the index count from 1, in the order of the
    entries: the state after additions only. *)
Definition numbered (images : list entry) : Prop :=
  forall i e, nth_error images i = Some e -> e_id e = Z.of_nat (S i).

(** No two entries of the index have the same hash. *)
Definition distinct_hashes (images : list entry) : Prop :=
  NoDup (map e_hash images).

(** The entry [a] may go before the entry [b]: the key of [b] is not
    less than the key of [a]. *)
Definition key_le (a b : entry) : Prop :=
  sort_key_ltb (get_sort_key (e_image b)) (get_sort_key (e_image a)) = false.

(** One step of the comparison of tuples: the component decides, or the
    rest does. *)
Definition lex_step {A : Type} (lt : A -> A -> bool) (x y : A) (rest : bool) : bool :=
  if lt x y then true else if lt y x then false else rest.

(** The key of [get_grouped_images] under which an entry goes. *)
Definition group_key (img : entry) : str :=
  match numerical_prefix (e_image img) with
  | None | Some [] => $"ungrouped"
  | Some prefix => prefix
  end.

(** The metadata of the entry are those that the classifier reads from
    its file name. *)
Definition classified (img : entry) : Prop :=
  extract_identifier_and_number (filename (e_image img))
  = (numerical_prefix (e_image img), identifier (e_image img), e_identifier_match img).

(** Every file that [fs] has is a file of [fs'], unchanged. *)
Definition keeps_files (fs fs' : filesystem) : Prop :=
  forall path f, read_file fs path = Some f -> read_file fs' path = Some f.

End Catalogue.

(** * Properties *)

Import Py Re ImageIdentifier GroupEditor PowerPointGenerator Reading.

(** ** GridLayoutPlanner: the grid of [calculate_grid_layout] *)

Section GridLayout.
Local Open Scope Z_scope.

Lemma ceil_sqrt_spec (n : Z) : 0 < n -> is_ceil_sqrt (ceil_sqrt n) n.
Proof.
  intros Hn. unfold is_ceil_sqrt, ceil_sqrt.
  pose proof (Z.sqrt_spec n ltac:(lia)) as Hs. cbv zeta in Hs.
  assert (Hp : 0 < Z.sqrt n) by (apply Z.sqrt_pos; exact Hn).
  set (r := Z.sqrt n) in *.
  destruct (Z.eqb_spec (r * r) n) as [E | E]; nia.
Qed.

Lemma ceil_div_spec (n c : Z) : 0 < c -> is_ceil_quot (ceil_div n c) n c.
Proof.
  intros Hc. unfold is_ceil_quot, ceil_div.
  pose proof (Z.div_mod (n + c - 1) c ltac:(lia)) as Hd.
  pose proof (Z.mod_pos_bound (n + c - 1) c Hc) as Hm.
  nia.
Qed.

(** Case analysis on the comparisons of [calculate_grid_layout]. *)
Ltac grid_cases :=
  unfold calculate_grid_layout;
  repeat match goal with
         | |- context [Z.eqb ?a ?b] => destruct (Z.eqb_spec a b); try lia
         | |- context [Z.leb ?a ?b] => destruct (Z.leb_spec a b); try lia
         end.

Lemma grid_large (n : Z) :
  20 < n ->
  calculate_grid_layout n = (ceil_div n (ceil_sqrt n), ceil_sqrt n).
Proof.
  intros H. grid_cases. reflexivity.
Qed.

(** C5, as stated: the literal reading of "strictly fewer wasted cells than
    the naive n x 1 layout for n > 4" fails at [n = 5], where the grid is
    2 x 3 with one empty cell and the n x 1 layout has none. *)
Lemma grid_wastes_more_than_column :
  4 < 5 /\
  calculate_grid_layout 5 = (2, 3) /\
  wasted_cells (calculate_grid_layout 5) 5 = 1 /\
  wasted_cells (5, 1) 5 = 0 /\
  (wasted_cells (calculate_grid_layout 5) 5 <? wasted_cells (5, 1) 5) = false.
Proof. repeat split. Qed.

(** C5, amended: [calculate_grid_layout] follows the sizing table up to 20
    images and takes [cols = ceil(sqrt(n))], [rows = ceil(n / cols)] above,
    up to the 2^52 images for which the floats of the program are exact;
    for such [n > 0] the grid has room for the images and its empty cells
    are fewer than one row (never fewer than those of the n x 1 layout,
    which has none). *)
Theorem calculate_grid_layout_spec (n : Z) :
  (n = 0 -> calculate_grid_layout n = (0, 0)) /\
  (n = 1 -> calculate_grid_layout n = (1, 1)) /\
  (n = 2 -> calculate_grid_layout n = (1, 2)) /\
  (3 <= n <= 4 -> calculate_grid_layout n = (2, 2)) /\
  (5 <= n <= 6 -> calculate_grid_layout n = (2, 3)) /\
  (7 <= n <= 9 -> calculate_grid_layout n = (3, 3)) /\
  (10 <= n <= 12 -> calculate_grid_layout n = (3, 4)) /\
  (13 <= n <= 16 -> calculate_grid_layout n = (4, 4)) /\
  (17 <= n <= 20 -> calculate_grid_layout n = (4, 5)) /\
  (20 < n <= exact_count ->
   let (rows, cols) := calculate_grid_layout n in
   is_ceil_sqrt cols n /\ is_ceil_quot rows n cols) /\
  (0 < n <= exact_count ->
   let (rows, cols) := calculate_grid_layout n in
   rows * cols >= n /\
   wasted_cells (n, 1) n <= wasted_cells (rows, cols) n < cols).
Proof.
  repeat split.
  1-9: intros H; grid_cases; reflexivity.
  - intros Hn. rewrite grid_large by lia. split.
    + apply ceil_sqrt_spec; lia.
    + apply ceil_div_spec. apply ceil_sqrt_spec. lia.
  - intros Hn. destruct (Z_le_gt_dec n 20) as [Hle | Hgt].
    + grid_cases; cbv [wasted_cells fst snd]; lia.
    + rewrite grid_large by lia.
      pose proof (@ceil_sqrt_spec n ltac:(lia)) as [Hc Hs].
      pose proof (@ceil_div_spec n (ceil_sqrt n) Hc) as Hq.
      cbv [is_ceil_quot wasted_cells fst snd] in *. nia.
Qed.

(** The scenarios of the specification: [plan_grid(7)], [plan_grid(21)]. *)
Lemma calculate_grid_layout_spec_witness :
  calculate_grid_layout 7 = (3, 3) /\
  (let (rows, cols) := calculate_grid_layout 21 in
   is_ceil_sqrt cols 21 /\ is_ceil_quot rows 21 cols) /\
  calculate_grid_layout 21 = (5, 5).
Proof.
  split; [| split].
  - apply (calculate_grid_layout_spec 7). lia.
  - apply (calculate_grid_layout_spec 21). unfold exact_count. lia.
  - reflexivity.
Defined.

End GridLayout.

(** ** Strings: equality, digits *)

Section Strings.

Lemma chr_eqb_eq (a b : ascii) : chr_eqb a b = true <-> a = b.
Proof.
  unfold chr_eqb, code. rewrite N.eqb_eq. split; [| intros ->; reflexivity].
  intros H. rewrite <- (ascii_N_embedding a), <- (ascii_N_embedding b), H.
  reflexivity.
Qed.

Lemma str_eqb_eq (a b : str) : str_eqb a b = true <-> a = b.
Proof.
  revert b. induction a as [| x a IH]; intros [| y b]; simpl;
    try (split; [discriminate | discriminate]); try tauto.
  rewrite andb_true_iff, chr_eqb_eq, IH. split.
  - intros [-> ->]. reflexivity.
  - intros E. inversion E. auto.
Qed.

Lemma str_eqb_refl (a : str) : str_eqb a a = true.
Proof. apply str_eqb_eq. reflexivity. Qed.

Lemma str_in_In (x : str) (l : list str) : str_in x l = true <-> In x l.
Proof.
  unfold str_in. rewrite existsb_exists. split.
  - intros [y [Hy E]]. apply str_eqb_eq in E. subst. exact Hy.
  - intros H. exists x. split; [exact H | apply str_eqb_refl].
Qed.

Lemma id_in_In (i : option str) (l : list str) :
  id_in i l = true <-> exists x, i = Some x /\ In x l.
Proof.
  destruct i as [x |]; simpl.
  - rewrite str_in_In. split.
    + intros H. exists x. auto.
    + intros [y [E H]]. inversion E. subst. exact H.
  - split; [discriminate | intros [y [E _]]; discriminate].
Qed.

Lemma isdecimal_chr_In (c : ascii) : isdecimal_chr c = true -> In c digit_chars.
Proof.
  unfold isdecimal_chr, between, code. intros H.
  apply andb_true_iff in H. destruct H as [H1 H2].
  apply N.leb_le in H1, H2.
  rewrite <- (ascii_N_embedding c).
  assert (E : (N_of_ascii c = 48 \/ N_of_ascii c = 49 \/ N_of_ascii c = 50
          \/ N_of_ascii c = 51 \/ N_of_ascii c = 52 \/ N_of_ascii c = 53
          \/ N_of_ascii c = 54 \/ N_of_ascii c = 55 \/ N_of_ascii c = 56
          \/ N_of_ascii c = 57)%N) by lia.
  repeat (destruct E as [E | E]; [rewrite E; simpl; tauto |]).
  rewrite E; simpl; tauto.
Qed.

Lemma four_digits_In (g : str) : four_digits g = true -> In g all_four_digits.
Proof.
  unfold four_digits. intros H. apply andb_true_iff in H. destruct H as [Hl Hd].
  apply Nat.eqb_eq in Hl.
  destruct g as [| a [| b [| c [| d [| e g]]]]]; try discriminate.
  simpl in Hd. repeat (apply andb_true_iff in Hd; destruct Hd as [?H Hd]).
  unfold all_four_digits.
  apply in_flat_map. exists a. split; [apply isdecimal_chr_In; assumption |].
  apply in_flat_map. exists b. split; [apply isdecimal_chr_In; assumption |].
  apply in_flat_map. exists c. split; [apply isdecimal_chr_In; assumption |].
  apply (in_map (fun d0 => [a; b; c; d0])). apply isdecimal_chr_In; assumption.
Qed.

(** A property decided on every string of four digits holds of each. *)
Lemma four_digits_ind (P : str -> bool) :
  forallb P all_four_digits = true ->
  forall g, four_digits g = true -> P g = true.
Proof.
  intros H g Hg. rewrite forallb_forall in H. apply H, four_digits_In, Hg.
Qed.

End Strings.

(** ** GroupLabelFormatter: [format_group_label] *)

Section GroupLabel.

Lemma edit_eqb_eq (a b : edit) : edit_eqb a b = true -> a = b.
Proof.
  destruct a as [| [x |]], b as [| [y |]]; simpl; try discriminate; try reflexivity.
  intros H. apply str_eqb_eq in H. subst. reflexivity.
Qed.

(** The integer of a four-digit group is below 10000; it is printed
    without padding, and padding it again gives the group back. *)
Lemma four_digits_int (g : str) :
  four_digits g = true ->
  exists n, int g = Some n /\ (0 <= n <= 9999)%Z /\
            unpadded (str_of_int n) = true /\ zfill 4 (str_of_int n) = g.
Proof.
  intros Hg.
  pose (P := fun g : str =>
    match int g with
    | Some n => (0 <=? n)%Z && (n <=? 9999)%Z && unpadded (str_of_int n)
                && str_eqb (zfill 4 (str_of_int n)) g
    | None => false
    end).
  assert (HP : P g = true).
  { apply four_digits_ind; [vm_compute; reflexivity | exact Hg]. }
  unfold P in HP. destruct (int g) as [n |]; [| discriminate].
  exists n. repeat (apply andb_true_iff in HP; destruct HP as [HP ?H]).
  apply str_eqb_eq in H. apply Z.leb_le in HP, H1. auto.
Qed.

End GroupLabel.

(** ** The matcher against the denotation of patterns *)

Section Slices.
Context {A : Type}.
Implicit Types l : list A.

Lemma firstn_plus l a b : firstn (a + b) l = firstn a l ++ firstn b (skipn a l).
Proof.
  revert l. induction a as [| a IH]; intros [| x l]; simpl; try reflexivity.
  - rewrite firstn_nil. reflexivity.
  - rewrite IH. reflexivity.
Qed.

Lemma slice_nil l i : slice l i i = [].
Proof. unfold slice. rewrite Nat.sub_diag. reflexivity. Qed.

Lemma slice_split l i k j :
  i <= k -> k <= j -> slice l i j = slice l i k ++ slice l k j.
Proof.
  intros Hik Hkj. unfold slice.
  replace (j - i) with ((k - i) + (j - k)) by lia.
  rewrite firstn_plus. f_equal.
  rewrite skipn_skipn. replace (k - i + i) with k by lia. reflexivity.
Qed.

Lemma firstn_slice l i k : i <= k -> firstn k l = firstn i l ++ slice l i k.
Proof.
  intros H. unfold slice.
  replace k with (i + (k - i)) at 1 by lia.
  rewrite firstn_plus. reflexivity.
Qed.

Lemma skipn_slice l k j : k <= j -> skipn k l = slice l k j ++ skipn j l.
Proof.
  intros H. unfold slice.
  rewrite <- (firstn_skipn (j - k) (skipn k l)) at 1. f_equal.
  rewrite skipn_skipn. f_equal. lia.
Qed.

Lemma slice_length l i j : j <= length l -> length (slice l i j) = j - i.
Proof.
  intros H. unfold slice. rewrite length_firstn, length_skipn. lia.
Qed.

Lemma slice_one l i a : nth_error l i = Some a -> slice l i (S i) = [a].
Proof.
  unfold slice. replace (S i - i) with 1 by lia.
  revert i. induction l as [| x l IH]; intros [| i] H; simpl in *; try discriminate.
  - inversion H. reflexivity.
  - apply IH, H.
Qed.

Lemma slice_middle (pre w post : list A) :
  slice (pre ++ w ++ post) (length pre) (length pre + length w) = w.
Proof.
  unfold slice. rewrite skipn_app, skipn_all, Nat.sub_diag. simpl.
  replace (length pre + length w - length pre) with (length w) by lia.
  rewrite firstn_app, firstn_all, Nat.sub_diag. simpl. apply app_nil_r.
Qed.

Lemma firstn_prefix (pre rest : list A) : firstn (length pre) (pre ++ rest) = pre.
Proof. rewrite firstn_app, firstn_all, Nat.sub_diag. simpl. apply app_nil_r. Qed.

Lemma skipn_prefix (pre rest : list A) : skipn (length pre) (pre ++ rest) = rest.
Proof. rewrite skipn_app, skipn_all, Nat.sub_diag. reflexivity. Qed.

(** A list cut at two positions. *)
Lemma cut3 l i j :
  i <= j -> l = firstn i l ++ slice l i j ++ skipn j l.
Proof.
  intros H. rewrite app_assoc, <- firstn_slice by exact H.
  symmetry. apply firstn_skipn.
Qed.

End Slices.

Section MatcherFacts.
Variable ic : bool.
Variable s : str.

Lemma at_end_sound i :
  i <= length s -> at_end s i = true ->
  skipn i s = [] \/ skipn i s = ["010"%char].
Proof.
  intros Hi H. unfold at_end in H. apply orb_true_iff in H.
  destruct H as [H | H].
  - apply Nat.eqb_eq in H. left. subst. apply skipn_all.
  - apply andb_true_iff in H. destruct H as [Hl Hc]. apply Nat.eqb_eq in Hl.
    destruct (nth_error s i) as [c |] eqn:E; [| discriminate].
    apply chr_eqb_eq in Hc. subst c. right.
    rewrite (@skipn_slice _ s i (S i)) by lia.
    rewrite (@slice_one _ _ _ _ E), Hl, skipn_all. reflexivity.
Qed.

Lemma at_end_complete (pre post : str) :
  s = pre ++ post -> post = [] \/ post = ["010"%char] ->
  at_end s (length pre) = true.
Proof.
  intros -> [-> | ->]; unfold at_end.
  - rewrite app_nil_r, Nat.eqb_refl. reflexivity.
  - rewrite length_app. cbn [length].
    assert (E1 : (S (length pre) =? length pre + 1) = true)
      by (apply Nat.eqb_eq; lia).
    rewrite E1, nth_error_app2, Nat.sub_diag by lia.
    apply orb_true_iff. right. reflexivity.
Qed.

Lemma star_iter_sound r g :
  sound_at ic s r ->
  forall fuel st st',
    pos st <= length s -> In st' (star_iter (run ic s r) g fuel st) ->
    pos st <= pos st' <= length s /\
    iterated (denotes ic r) (firstn (pos st) s) (slice s (pos st) (pos st'))
             (skipn (pos st') s) (cap s st) (cap s st').
Proof.
  intros Hr. induction fuel as [| f IH]; intros st st' Hst Hin.
  - simpl in Hin. destruct Hin as [<- | []].
    split; [lia |]. rewrite slice_nil. constructor.
  - simpl in Hin.
    assert (Hcases : st' = st \/
              exists st1, In st1 (run ic s r st) /\ pos st < pos st1 /\
                          In st' (star_iter (run ic s r) g f st1)).
    { assert (Hmore : forall x,
                In x (flat_map (fun st1 => if pos st <? pos st1
                                           then star_iter (run ic s r) g f st1
                                           else []) (run ic s r st)) ->
                exists st1, In st1 (run ic s r st) /\ pos st < pos st1 /\
                            In x (star_iter (run ic s r) g f st1)).
      { intros x Hx. apply in_flat_map in Hx. destruct Hx as [st1 [H1 H2]].
        destruct (Nat.ltb_spec (pos st) (pos st1)); [| contradiction].
        exists st1. auto. }
      destruct g.
      - apply in_app_or in Hin. destruct Hin as [Hin | [<- | []]]; auto.
      - destruct Hin as [<- | Hin]; auto. }
    destruct Hcases as [-> | [st1 [H1 [Hlt H2]]]].
    + split; [lia |]. rewrite slice_nil. constructor.
    + destruct (Hr _ _ Hst H1) as [Hp1 Hd1].
      assert (Hst1 : pos st1 <= length s) by lia.
      destruct (IH _ _ Hst1 H2) as [Hp2 Hd2].
      split; [lia |].
      rewrite (@slice_split _ s (pos st) (pos st1) (pos st')) by lia.
      apply iterated_cons with (c1 := cap s st1).
      * intros E. apply (f_equal (@length _)) in E.
        rewrite slice_length in E by lia. simpl in E. lia.
      * rewrite <- skipn_slice by lia. exact Hd1.
      * rewrite <- firstn_slice by lia. exact Hd2.
Qed.

Theorem run_sound r : sound_at ic s r.
Proof.
  induction r as [| cs | r1 IH1 r2 IH2 | r1 IH1 r2 IH2 | g r IH | r IH | |];
    intros st st' Hst Hin; simpl in Hin.
  - destruct Hin as [<- | []]. split; [lia |]. rewrite slice_nil. simpl. auto.
  - destruct (nth_error s (pos st)) as [a |] eqn:E; [| contradiction].
    destruct (cset_mem ic cs a) eqn:Hm; [| contradiction].
    destruct Hin as [<- | []]. simpl.
    assert (pos st < length s) by (apply nth_error_Some; congruence).
    split; [lia |]. exists a. rewrite (@slice_one _ _ _ _ E). auto.
  - apply in_flat_map in Hin. destruct Hin as [st1 [H1 H2]].
    destruct (IH1 _ _ Hst H1) as [Hp1 Hd1].
    assert (Hst1 : pos st1 <= length s) by lia.
    destruct (IH2 _ _ Hst1 H2) as [Hp2 Hd2].
    split; [lia |]. simpl.
    exists (slice s (pos st) (pos st1)), (slice s (pos st1) (pos st')), (cap s st1).
    split; [apply slice_split; lia |]. split.
    + rewrite <- skipn_slice by lia. exact Hd1.
    + rewrite <- firstn_slice by lia. exact Hd2.
  - apply in_app_or in Hin. destruct Hin as [Hin | Hin].
    + destruct (IH1 _ _ Hst Hin). split; [lia |]. simpl. auto.
    + destruct (IH2 _ _ Hst Hin). split; [lia |]. simpl. auto.
  - apply (@star_iter_sound r g IH _ _ _ Hst Hin).
  - apply in_map_iff in Hin. destruct Hin as [st1 [<- H1]].
    destruct (IH _ _ Hst H1) as [Hp Hd]. simpl.
    split; [lia |]. exists (cap s st1). split; [exact Hd | reflexivity].
  - destruct (Nat.eqb_spec (pos st) 0) as [E | E]; [| contradiction].
    destruct Hin as [<- | []]. split; [lia |]. rewrite slice_nil, E. simpl. auto.
  - destruct (at_end s (pos st)) eqn:E; [| contradiction].
    destruct Hin as [<- | []]. split; [lia |]. rewrite slice_nil. simpl.
    split; [reflexivity |]. split; [apply at_end_sound; assumption | reflexivity].
Qed.

Lemma star_iter_self r g fuel st : In st (star_iter (run ic s r) g fuel st).
Proof.
  destruct fuel as [| f]; simpl; [auto |].
  destruct g; [apply in_or_app; right |]; simpl; auto.
Qed.

Lemma star_iter_complete r g :
  complete_at ic s r ->
  forall pre w post c c',
    iterated (denotes ic r) pre w post c c' ->
    forall fuel st,
      length w <= fuel -> s = pre ++ w ++ post -> pos st = length pre ->
      cap s st = c ->
      exists st', In st' (star_iter (run ic s r) g fuel st) /\
                  pos st' = length pre + length w /\ cap s st' = c'.
Proof.
  intros Hr pre w post c c' Hit.
  induction Hit as [pre post c | pre w1 w2 post c c1 c2 Hne Hd Hit IH];
    intros fuel st Hf Hs Hpos Hcap.
  - exists st. split; [apply star_iter_self |]. simpl. split; [lia | exact Hcap].
  - rewrite length_app in Hf.
    assert (0 < length w1) by (destruct w1; [congruence | simpl; lia]).
    destruct fuel as [| f]; [lia |].
    rewrite <- app_assoc in Hs. subst c.
    destruct (Hr st pre w1 (w2 ++ post) c1 Hs Hpos Hd) as [st1 [H1 [Hp1 Hc1]]].
    destruct (IH f st1 ltac:(lia)) as [st' [H2 [Hp2 Hc2]]].
    { rewrite <- app_assoc. exact Hs. }
    { rewrite length_app. exact Hp1. }
    { exact Hc1. }
    exists st'. split.
    + simpl.
      assert (Hmore : In st' (flat_map (fun st1 => if pos st <? pos st1
                                           then star_iter (run ic s r) g f st1
                                           else []) (run ic s r st))).
      { apply in_flat_map. exists st1. split; [exact H1 |].
        replace (pos st <? pos st1) with true
          by (symmetry; apply Nat.ltb_lt; lia).
        exact H2. }
      destruct g; [apply in_or_app; left | right]; exact Hmore.
    + rewrite !length_app in *. split; [lia | exact Hc2].
Qed.

Theorem run_complete r : complete_at ic s r.
Proof.
  induction r as [| cs | r1 IH1 r2 IH2 | r1 IH1 r2 IH2 | g r IH | r IH | |];
    intros st pre w post c' Hs Hpos Hd; simpl in Hd.
  - destruct Hd as [-> ->]. exists st. simpl. repeat split; auto; lia.
  - destruct Hd as [a [-> [Hm ->]]]. exists (advance st). simpl.
    replace (nth_error s (pos st)) with (Some a).
    + rewrite Hm. simpl. repeat split; auto; lia.
    + rewrite Hs, Hpos, nth_error_app2, Nat.sub_diag by lia. reflexivity.
  - destruct Hd as [w1 [w2 [c1 [-> [Hd1 Hd2]]]]].
    rewrite <- app_assoc in Hs.
    destruct (IH1 st pre w1 (w2 ++ post) c1 Hs Hpos Hd1) as [st1 [H1 [Hp1 Hc1]]].
    rewrite <- Hc1 in Hd2.
    destruct (IH2 st1 (pre ++ w1) w2 post c') as [st' [H2 [Hp2 Hc2]]].
    { rewrite <- app_assoc. exact Hs. }
    { rewrite length_app. exact Hp1. }
    { exact Hd2. }
    exists st'. split; [simpl; apply in_flat_map; eauto |].
    rewrite !length_app in *. split; [lia | exact Hc2].
  - destruct Hd as [Hd | Hd].
    + destruct (IH1 st pre w post c' Hs Hpos Hd) as [st' [H1 H2]].
      exists st'. split; [simpl; apply in_or_app; auto | exact H2].
    + destruct (IH2 st pre w post c' Hs Hpos Hd) as [st' [H1 H2]].
      exists st'. split; [simpl; apply in_or_app; auto | exact H2].
  - simpl. apply (@star_iter_complete r g IH pre w post (cap s st) c' Hd); auto.
    rewrite Hs, Hpos, !length_app. lia.
  - destruct Hd as [c1 [Hd ->]].
    destruct (IH st pre w post c1 Hs Hpos Hd) as [st1 [H1 [Hp1 Hc1]]].
    exists (MState (pos st1) (Some (pos st, pos st1))). split.
    + simpl. apply in_map_iff. exists st1. auto.
    + simpl. split; [exact Hp1 |]. unfold cap. simpl.
      rewrite Hpos, Hp1, Hs, slice_middle. reflexivity.
  - destruct Hd as [-> [-> ->]]. exists st. simpl in *. rewrite Hpos. simpl. auto.
  - destruct Hd as [-> [Hpost ->]]. exists st. simpl in *.
    rewrite Hpos, (@at_end_complete pre post Hs Hpost). simpl.
    repeat split; auto; lia.
Qed.

End MatcherFacts.

Section SearchFacts.

Lemma match_at_sound p s i m :
  i <= length s -> match_at p s i = Some m ->
  m_subject m = s /\ m_start m = i /\ i <= m_end m <= length s /\
  denotes (p_ignorecase p) (p_regex p) (firstn i s) (group0 m)
          (skipn (m_end m) s) None (group1_opt m).
Proof.
  intros Hi H. unfold match_at in H.
  destruct (run (p_ignorecase p) s (p_regex p) (MState i None)) as [| st l] eqn:E;
    [discriminate |].
  inversion H; subst m; clear H. simpl.
  assert (Hin : In st (run (p_ignorecase p) s (p_regex p) (MState i None)))
    by (rewrite E; left; reflexivity).
  destruct (@run_sound (p_ignorecase p) s (p_regex p) (MState i None) st Hi Hin) as [Hp Hd].
  simpl in Hp. repeat split; try lia.
  unfold group0, group1_opt. simpl.
  unfold cap in Hd. simpl in Hd. destruct (grp st) as [[b e] |]; exact Hd.
Qed.

Lemma match_at_complete p s pre w post c :
  s = pre ++ w ++ post ->
  denotes (p_ignorecase p) (p_regex p) pre w post None c ->
  exists m, match_at p s (length pre) = Some m.
Proof.
  intros Hs Hd.
  destruct (@run_complete (p_ignorecase p) s (p_regex p)
              (MState (length pre) None) pre w post c Hs eq_refl Hd)
    as [st [Hin _]].
  unfold match_at.
  destruct (run (p_ignorecase p) s (p_regex p) (MState (length pre) None));
    [contradiction | eauto].
Qed.

Lemma search_from_Some p s n start m :
  search_from p s n start = Some m ->
  exists i, start <= i <= start + n /\ match_at p s i = Some m.
Proof.
  revert start. induction n as [| n IH]; intros start H; simpl in H.
  - destruct (match_at p s start) eqn:E; [| discriminate].
    inversion H; subst. exists start. split; [lia | exact E].
  - destruct (match_at p s start) eqn:E.
    + inversion H; subst. exists start. split; [lia | exact E].
    + destruct (IH _ H) as [i [Hi Hm]]. exists i. split; [lia | exact Hm].
Qed.

Lemma search_from_None p s n start :
  search_from p s n start = None ->
  forall i, start <= i <= start + n -> match_at p s i = None.
Proof.
  revert start. induction n as [| n IH]; intros start H i Hi; simpl in H.
  - destruct (match_at p s start) eqn:E; [discriminate |].
    replace i with start by lia. exact E.
  - destruct (match_at p s start) eqn:E; [discriminate |].
    destruct (Nat.eq_dec i start) as [-> | Hne]; [exact E |].
    apply (IH _ H). lia.
Qed.

(** What [search] returns is an occurrence of the pattern. *)
Theorem search_sound p s m :
  search p s = Some m -> found p s (group0 m) (group1_opt m).
Proof.
  intros H. apply search_from_Some in H. destruct H as [i [Hi Hm]].
  destruct (@match_at_sound p s i m ltac:(lia) Hm) as [Hs [Hst [He Hd]]].
  exists (firstn i s), (skipn (m_end m) s). split; [| exact Hd].
  unfold group0. rewrite Hs, Hst. apply cut3. lia.
Qed.

(** [search] finds a match whenever the pattern occurs. *)
Theorem search_complete p s w c :
  found p s w c -> exists m, search p s = Some m.
Proof.
  intros [pre [post [Hs Hd]]].
  destruct (search p s) as [m |] eqn:E; [eauto |].
  destruct (@match_at_complete p s pre w post c Hs Hd) as [m Hm].
  rewrite (@search_from_None p s (length s) 0 E (length pre)) in Hm;
    [discriminate |].
  rewrite Hs, length_app. lia.
Qed.

Corollary search_None p s :
  search p s = None <-> (forall w c, ~ found p s w c).
Proof.
  split.
  - intros H w c Hf. destruct (@search_complete p s w c Hf) as [m Hm]. congruence.
  - intros H. destruct (search p s) as [m |] eqn:E; [| reflexivity].
    exfalso. apply (H _ _ (@search_sound p s m E)).
Qed.

End SearchFacts.

(** ** The leftmost match and the longest run *)

Section Leftmost.

(** The group of a match whose pattern has its group on every path. *)
Lemma group1_of m g : group1_opt m = Some g -> group1 m = g.
Proof. unfold group1. intros ->. reflexivity. Qed.

(** [search] reports the match at the first position that has one. *)
Lemma search_from_first p s n start m :
  search_from p s n start = Some m ->
  exists i, start <= i <= start + n /\ match_at p s i = Some m /\
            forall j, start <= j < i -> match_at p s j = None.
Proof.
  revert start. induction n as [| n IH]; intros start H; simpl in H.
  - destruct (match_at p s start) eqn:E; [| discriminate].
    inversion H; subst. exists start. split; [lia |]. split; [exact E |].
    intros j Hj. lia.
  - destruct (match_at p s start) eqn:E.
    + inversion H; subst. exists start. split; [lia |]. split; [exact E |].
      intros j Hj. lia.
    + destruct (IH _ H) as [i [Hi [Hm Hfirst]]]. exists i.
      split; [lia |]. split; [exact Hm |].
      intros j Hj. destruct (Nat.eq_dec j start) as [-> | Hne]; [exact E |].
      apply Hfirst. lia.
Qed.

(** A search, read through the texts its pattern stands for, place by
    place: the group of the match found is the leftmost of them, and no
    match means there is none. *)
Lemma search_leftmost p name (R : str -> str -> Prop) :
  (forall i m, i <= length name -> match_at p name i = Some m ->
               R (firstn i name) (group1 m)) ->
  (forall pre d, R pre d ->
     exists w post c, name = pre ++ w ++ post /\
       denotes (p_ignorecase p) (p_regex p) pre w post None c) ->
  match search p name with
  | Some m => leftmost R (group1 m)
  | None => forall d, ~ leftmost R d
  end.
Proof.
  intros Hsound Hcomplete. destruct (search p name) as [m |] eqn:E.
  - apply search_from_first in E. destruct E as [i [Hi [Hm Hfirst]]].
    exists (firstn i name). split; [apply Hsound; [lia | exact Hm] |].
    intros pre' d' HR. rewrite length_firstn.
    destruct (Hcomplete _ _ HR) as [w [post [c [Hs Hd]]]].
    destruct (@match_at_complete p name pre' w post c Hs Hd) as [m' Hm'].
    destruct (le_lt_dec i (length pre')) as [Hle | Hlt]; [lia |].
    rewrite (Hfirst (length pre') ltac:(lia)) in Hm'. discriminate.
  - intros d [pre [HR _]].
    destruct (Hcomplete _ _ HR) as [w [post [c [Hs Hd]]]].
    assert (Hf : found p name w c) by (exists pre, post; auto).
    destruct (@search_complete p name w c Hf) as [m Hm]. congruence.
Qed.

(** The reading of a match whose group is the same in every match at its
    place. *)
Lemma match_reading p name (R : str -> str -> Prop) :
  (forall pre w post c, name = pre ++ w ++ post ->
     denotes (p_ignorecase p) (p_regex p) pre w post None c ->
     exists d, c = Some d /\ R pre d) ->
  forall i m, i <= length name -> match_at p name i = Some m ->
              R (firstn i name) (group1 m).
Proof.
  intros Hsound i m Hi Hm.
  destruct (@match_at_sound p name i m Hi Hm) as [Hs [Hst [He Hd]]].
  destruct (Hsound (firstn i name) (group0 m) (skipn (m_end m) name)
                   (group1_opt m)) as [d [Hc HR]].
  - unfold group0. rewrite Hs, Hst. apply cut3. lia.
  - exact Hd.
  - rewrite (@group1_of m d Hc). exact HR.
Qed.


End Leftmost.

Section Runs.

Lemma span_all f l : forallb f (firstn (span f l) l) = true.
Proof.
  induction l as [| a l IH]; simpl; [reflexivity |].
  destruct (f a) eqn:E; simpl; [rewrite E, IH |]; reflexivity.
Qed.

Lemma span_stops f l : stops f (skipn (span f l) l).
Proof.
  induction l as [| a l IH]; simpl; [exact I |].
  destruct (f a) eqn:E; simpl; [exact IH | exact E].
Qed.

Lemma span_le f l : span f l <= length l.
Proof.
  induction l as [| a l IH]; simpl; [lia |]. destruct (f a); simpl; lia.
Qed.

(** A run of [f] followed by what stops it is the longest head of [f]. *)
Lemma span_run f w tail :
  forallb f w = true -> stops f tail -> span f (w ++ tail) = length w.
Proof.
  intros Hw Ht. induction w as [| a w IH]; simpl.
  - destruct tail as [| b tail]; simpl in *; [reflexivity |]. rewrite Ht. reflexivity.
  - simpl in Hw. apply andb_true_iff in Hw. destruct Hw as [Ha Hw].
    rewrite Ha, (IH Hw). reflexivity.
Qed.

(** A head of [f] is no longer than the longest. *)
Lemma span_head f w tail : forallb f w = true -> length w <= span f (w ++ tail).
Proof.
  intros Hw. induction w as [| a w IH]; simpl; [lia |].
  simpl in Hw. apply andb_true_iff in Hw. destruct Hw as [Ha Hw].
  rewrite Ha. specialize (IH Hw). lia.
Qed.

Lemma span_ext f g l : (forall a, f a = g a) -> span f l = span g l.
Proof.
  intros H. induction l as [| a l IH]; simpl; [| rewrite H, IH]; reflexivity.
Qed.


Lemma skipn_nth_none {A} (l : list A) i : nth_error l i = None -> skipn i l = [].
Proof. intros H. apply skipn_all2, nth_error_None, H. Qed.

Lemma skipn_nth_some {A} (l : list A) i a :
  nth_error l i = Some a -> skipn i l = a :: skipn (S i) l.
Proof.
  revert i. induction l as [| x l IH]; intros [| i] H; simpl in *; try discriminate.
  - inversion H. reflexivity.
  - apply IH, H.
Qed.

Lemma map_at_pos_down st n :
  map (at_pos st) (down (S n)) = map (at_pos (advance st)) (down n) ++ [advance st].
Proof.
  induction n as [| n IH].
  - simpl. unfold at_pos, advance. simpl. f_equal. f_equal. lia.
  - change (down (S (S n))) with (S (S n) :: down (S n)).
    rewrite map_cons, IH. simpl. f_equal.
    unfold at_pos, advance. simpl. f_equal. lia.
Qed.

Variable ic : bool.
Variable s : str.

Lemma run_chr cs st :
  run ic s (Chr cs) st
  = match nth_error s (pos st) with
    | Some a => if cset_mem ic cs a then [advance st] else []
    | None => []
    end.
Proof. reflexivity. Qed.

Lemma run_seq r1 r2 st :
  run ic s (Seq r1 r2) st = flat_map (run ic s r2) (run ic s r1 st).
Proof. reflexivity. Qed.

Lemma run_alt r1 r2 st :
  run ic s (Alt r1 r2) st = run ic s r1 st ++ run ic s r2 st.
Proof. reflexivity. Qed.

Lemma run_star g r st :
  run ic s (Star g r) st = star_iter (run ic s r) g (length s - pos st) st.
Proof. reflexivity. Qed.

Lemma star_iter_S step g f st :
  star_iter step g (S f) st
  = let more :=
      flat_map (fun st' => if pos st <? pos st' then star_iter step g f st' else [])
               (step st) in
    if g then more ++ [st] else st :: more.
Proof. reflexivity. Qed.

(** The iterations of a greedy [c*]: the longest run first, down to none. *)
Lemma star_chr_run cs fuel st :
  length s - pos st <= fuel ->
  star_iter (run ic s (Chr cs)) true fuel st
  = map (at_pos st) (down (span (cset_mem ic cs) (skipn (pos st) s))) ++ [st].
Proof.
  revert st. induction fuel as [| f IH]; intros st Hf.
  - simpl. rewrite skipn_all2 by lia. reflexivity.
  - rewrite star_iter_S. cbv zeta. rewrite run_chr.
    destruct (nth_error s (pos st)) as [a |] eqn:E.
    + rewrite (@skipn_nth_some _ s (pos st) a E). cbn [span].
      destruct (cset_mem ic cs a) eqn:Hm.
      * cbn [flat_map]. rewrite app_nil_r.
        assert (Hlt : (pos st <? pos (advance st)) = true)
          by (apply Nat.ltb_lt; simpl; lia).
        rewrite Hlt, IH by (simpl; lia).
        rewrite map_at_pos_down. reflexivity.
      * reflexivity.
    + rewrite (@skipn_nth_none _ s (pos st) E). reflexivity.
Qed.

(** The ends of [c+]: the longest run first, down to one character. *)
Lemma plus_chr_run cs st :
  run ic s (Plus (Chr cs)) st
  = map (at_pos st) (down (span (cset_mem ic cs) (skipn (pos st) s))).
Proof.
  unfold Plus. rewrite run_seq, run_chr.
  destruct (nth_error s (pos st)) as [a |] eqn:E.
  - rewrite (@skipn_nth_some _ s (pos st) a E). cbn [span].
    destruct (cset_mem ic cs a) eqn:Hm.
    + cbn [flat_map]. rewrite app_nil_r, run_star.
      rewrite star_chr_run by lia.
      rewrite map_at_pos_down. reflexivity.
    + reflexivity.
  - rewrite (@skipn_nth_none _ s (pos st) E). reflexivity.
Qed.

Lemma hd_flat_map {A B} (f : A -> list B) l x :
  hd_error (flat_map f l) = Some x ->
  exists y, In y l /\ hd_error (f y) = Some x.
Proof.
  induction l as [| a l IH]; simpl; [discriminate |].
  destruct (f a) as [| b fl] eqn:E; simpl.
  - intros H. destruct (IH H) as [y [Hy Hx]]. eauto.
  - intros H. exists a. rewrite E. auto.
Qed.

Lemma seq_head r1 r2 st x :
  hd_error (run ic s (Seq r1 r2) st) = Some x ->
  exists y, In y (run ic s r1 st) /\ hd_error (run ic s r2 y) = Some x.
Proof. apply hd_flat_map. Qed.

Lemma group_head r st x :
  hd_error (run ic s (Group r) st) = Some x ->
  exists x', hd_error (run ic s r st) = Some x' /\ pos x = pos x'.
Proof.
  cbn [run]. destruct (run ic s r st) as [| x' l]; simpl; [discriminate |].
  intros H. inversion H. exists x'. auto.
Qed.

(** The first end of [c+] is the end of the longest run. *)
Lemma plus_head cs st x :
  hd_error (run ic s (Plus (Chr cs)) st) = Some x ->
  stops (cset_mem ic cs) (skipn (pos x) s).
Proof.
  rewrite plus_chr_run.
  destruct (span (cset_mem ic cs) (skipn (pos st) s)) as [| n] eqn:E;
    simpl; [discriminate |].
  intros H. inversion H. simpl. rewrite Nat.add_comm, <- skipn_skipn, <- E.
  apply span_stops.
Qed.

End Runs.


(** ** Character classes *)

Section Characters.

Lemma all_ascii_In (a : ascii) : In a all_ascii.
Proof.
  assert (Hb : forall b : bool, In b [false; true]) by (intros []; simpl; auto).
  destruct a as [b0 b1 b2 b3 b4 b5 b6 b7]. unfold all_ascii.
  repeat (apply in_flat_map; eexists; split; [apply Hb |]).
  apply (in_map (fun b => Ascii b0 b1 b2 b3 b4 b5 b6 b)), Hb.
Qed.

(** A property decided on the 256 characters holds of each. *)
Lemma ascii_ind_bool (P : ascii -> bool) :
  forallb P all_ascii = true -> forall a, P a = true.
Proof.
  intros H a. rewrite forallb_forall in H. apply H, all_ascii_In.
Qed.

Lemma bool_eqb_eq a b : bool_eqb a b = true -> a = b.
Proof. destruct a, b; simpl; congruence. Qed.

Ltac by_characters :=
  intros; apply bool_eqb_eq;
  match goal with
  | |- bool_eqb (?f ?a) (?g ?a) = true =>
      revert a; apply (ascii_ind_bool (fun a => bool_eqb (f a) (g a)))
  | |- bool_eqb ?l ?r = true =>
      match l with
      | context [?a] =>
          is_var a;
          pattern a;
          match goal with
          | |- (fun x => bool_eqb (@?f x) (@?g x) = true) a =>
              revert a; apply (ascii_ind_bool (fun x => bool_eqb (f x) (g x)))
          end
      end
  end; vm_compute; reflexivity.

Lemma mem_sep1 ic a :
  cset_mem ic (brackets [CSpace; CChar "_"; CChar "-"]) a = sep_chr a.
Proof. destruct ic; by_characters. Qed.

Lemma mem_sep2 ic a :
  cset_mem ic (brackets [CSpace; CChar "-"; CChar "_"]) a = sep_chr a.
Proof. destruct ic; by_characters. Qed.

Lemma mem_sep3 ic a :
  cset_mem ic (brackets [CChar "_"; CSpace; CChar "-"]) a = sep_chr a.
Proof. destruct ic; by_characters. Qed.

Lemma mem_digit ic a : cset_mem ic CDigit a = isdecimal_chr a.
Proof. destruct ic; by_characters. Qed.

Lemma mem_space ic a : cset_mem ic CSpace a = isspace_chr a.
Proof. destruct ic; by_characters. Qed.

Lemma mem_word ic a : cset_mem ic CWord a = isword_chr a.
Proof. destruct ic; by_characters. Qed.

Lemma mem_letter a : cset_mem true (CRange "a" "z") a = letter_chr a.
Proof. by_characters. Qed.

Lemma mem_underscore ic a : cset_mem ic (CChar "_") a = chr_eqb a "_".
Proof. destruct ic; by_characters. Qed.

Lemma mem_id_suffix a :
  cset_mem true (brackets [CSpace; CChar "_"; CChar "-"; CChar "("; CDigit]) a
  = sep_chr a || chr_eqb a "(" || isdecimal_chr a.
Proof. by_characters. Qed.


Lemma space_not_word a : isspace_chr a && isword_chr a = false.
Proof. by_characters. Qed.


End Characters.

(** ** What the building blocks of the patterns denote *)

Section Blocks.
Variable ic : bool.

Lemma iterated_chr cs pre w post c c' :
  iterated (denotes ic (Chr cs)) pre w post c c' <->
  c' = c /\ forallb (cset_mem ic cs) w = true.
Proof.
  split.
  - intros H. induction H as [| pre w1 w2 post c c1 c2 Hne Hd Hit IH].
    + auto.
    + simpl in Hd. destruct Hd as [a [-> [Hm ->]]]. destruct IH as [-> Hall].
      split; [reflexivity |]. simpl. rewrite Hm, Hall. reflexivity.
  - intros [-> Hall]. revert pre. induction w as [| a w IH]; intros pre.
    + constructor.
    + simpl in Hall. apply andb_true_iff in Hall. destruct Hall as [Hm Hall].
      change (a :: w) with ([a] ++ w).
      apply iterated_cons with (c1 := c).
      * discriminate.
      * simpl. exists a. auto.
      * apply IH, Hall.
Qed.

Lemma denotes_star_chr g cs pre w post c c' :
  denotes ic (Star g (Chr cs)) pre w post c c' <->
  c' = c /\ forallb (cset_mem ic cs) w = true.
Proof. apply iterated_chr. Qed.

Lemma denotes_plus_chr cs pre w post c c' :
  denotes ic (Plus (Chr cs)) pre w post c c' <->
  c' = c /\ w <> [] /\ forallb (cset_mem ic cs) w = true.
Proof.
  unfold Plus. cbn [denotes]. split.
  - intros [w1 [w2 [c1 [-> [[a [-> [Hm ->]]] Hit]]]]].
    apply iterated_chr in Hit. destruct Hit as [-> Hall].
    split; [reflexivity |]. split; [discriminate |].
    simpl. rewrite Hm, Hall. reflexivity.
  - intros [-> [Hne Hall]]. destruct w as [| a w]; [congruence |].
    simpl in Hall. apply andb_true_iff in Hall. destruct Hall as [Hm Hall].
    exists [a], w, c. split; [reflexivity |]. split.
    + exists a. auto.
    + apply iterated_chr. auto.
Qed.

Lemma denotes_rep_chr n cs pre w post c c' :
  denotes ic (Rep n (Chr cs)) pre w post c c' <->
  c' = c /\ length w = n /\ forallb (cset_mem ic cs) w = true.
Proof.
  revert pre w c'. induction n as [| n IH]; intros pre w c'.
  - simpl. split.
    + intros [-> ->]. auto.
    + intros [-> [Hl _]]. destruct w; [auto | discriminate].
  - destruct n as [| n].
    + simpl. split.
      * intros [a [-> [Hm ->]]]. simpl. rewrite Hm. auto.
      * intros [-> [Hl Hall]]. destruct w as [| a [| b w]]; try discriminate.
        simpl in Hall. rewrite andb_true_r in Hall. exists a. auto.
    + change (Rep (S (S n)) (Chr cs)) with (Seq (Chr cs) (Rep (S n) (Chr cs))).
      cbn [denotes]. split.
      * intros [w1 [w2 [c1 [-> [[a [-> [Hm ->]]] Hd]]]]].
        apply IH in Hd. destruct Hd as [-> [Hl Hall]].
        split; [reflexivity |]. simpl. rewrite Hl, Hm, Hall. auto.
      * intros [-> [Hl Hall]]. destruct w as [| a w]; [discriminate |].
        simpl in Hall. apply andb_true_iff in Hall. destruct Hall as [Hm Hall].
        exists [a], w, c. split; [reflexivity |]. split.
        -- exists a. auto.
        -- apply IH. simpl in Hl. auto.
Qed.

Lemma denotes_opt r pre w post c c' :
  denotes ic (Opt r) pre w post c c' <->
  denotes ic r pre w post c c' \/ (w = [] /\ c' = c).
Proof. reflexivity. Qed.

End Blocks.

Section Literals.

Lemma mem_char x a :
  cset_mem true (CChar x) a = chr_eqb (lower_chr a) (lower_chr x).
Proof.
  apply bool_eqb_eq.
  assert (H : forallb (fun x => forallb (fun a =>
              bool_eqb (cset_mem true (CChar x) a)
                       (chr_eqb (lower_chr a) (lower_chr x))) all_ascii) all_ascii
              = true) by (vm_compute; reflexivity).
  rewrite forallb_forall in H. specialize (H x (all_ascii_In x)).
  rewrite forallb_forall in H. apply H, all_ascii_In.
Qed.

Lemma denotes_chr_lit x pre w post c c' :
  denotes true (Chr (CChar x)) pre w post c c' <->
  c' = c /\ names w [x].
Proof.
  cbn [denotes]. unfold names. split.
  - intros [a [-> [Hm ->]]]. rewrite mem_char in Hm. apply chr_eqb_eq in Hm.
    simpl. rewrite Hm. auto.
  - intros [-> Hn]. destruct w as [| a [| b w]]; try discriminate.
    simpl in Hn. inversion Hn as [Hl]. exists a. rewrite mem_char, Hl.
    repeat split. apply chr_eqb_eq. reflexivity.
Qed.

Lemma denotes_lit id pre w post c c' :
  denotes true (Lit id) pre w post c c' <-> c' = c /\ names w id.
Proof.
  revert pre w c'. induction id as [| x rest IH]; intros pre w c'.
  - simpl. unfold names. split.
    + intros [-> ->]. auto.
    + intros [-> Hn]. destruct w; [auto | discriminate].
  - destruct rest as [| y rest].
    + apply denotes_chr_lit.
    + change (Lit (x :: y :: rest)) with (Seq (Chr (CChar x)) (Lit (y :: rest))).
      cbn [denotes]. split.
      * intros [w1 [w2 [c1 [-> [Hx Hd]]]]].
        apply (proj1 (@denotes_chr_lit x pre w1 (w2 ++ post) c c1)) in Hx.
        destruct Hx as [-> Hx].
        apply IH in Hd. destruct Hd as [-> Hd].
        split; [reflexivity |]. unfold names in *.
        unfold lower in *. rewrite map_app, Hx, Hd. reflexivity.
      * intros [-> Hn]. unfold names in Hn. destruct w as [| a w]; [discriminate |].
        simpl in Hn. inversion Hn as [[Ha Hw]].
        exists [a], w, c. split; [reflexivity |]. split.
        -- apply (proj2 (@denotes_chr_lit x pre [a] (w ++ post) c c)).
           unfold names. simpl. split; congruence.
        -- apply (proj2 (IH (pre ++ [a]) w c)).
           unfold names. split; [reflexivity | exact Hw].
Qed.

End Literals.

(** ** The patterns of [extract_identifier_and_number], read as text *)


Lemma forallb_ext_eq {A} (f g : A -> bool) l :
  (forall a, f a = g a) -> forallb f l = forallb g l.
Proof. intros H. induction l; simpl; [| rewrite H, IHl]; reflexivity. Qed.

Lemma all_digits ic w :
  forallb (cset_mem ic CDigit) w = forallb isdecimal_chr w.
Proof. apply forallb_ext_eq, mem_digit. Qed.

Lemma all_sep2 ic w :
  forallb (cset_mem ic (brackets [CSpace; CChar "-"; CChar "_"])) w
  = forallb sep_chr w.
Proof. apply forallb_ext_eq, mem_sep2. Qed.

Lemma all_sep3 ic w :
  forallb (cset_mem ic (brackets [CChar "_"; CSpace; CChar "-"])) w
  = forallb sep_chr w.
Proof. apply forallb_ext_eq, mem_sep3. Qed.

Lemma all_space ic w :
  forallb (cset_mem ic CSpace) w = forallb isspace_chr w.
Proof. apply forallb_ext_eq, mem_space. Qed.

Lemma all_word ic w :
  forallb (cset_mem ic CWord) w = forallb isword_chr w.
Proof. apply forallb_ext_eq, mem_word. Qed.

Lemma all_letter w :
  forallb (cset_mem true (CRange "a" "z")) w = forallb letter_chr w.
Proof. apply forallb_ext_eq, mem_letter. Qed.

(** Take the denotation of a pattern apart, one constructor at a time,
    down to the blocks. *)
Ltac open_den_step :=
  match goal with
  | H : exists _, _ |- _ => destruct H as [? H]
  | H : _ /\ _ |- _ => destruct H as [? ?]
  | H : _ \/ _ |- _ => destruct H as [H | H]
  | H : denotes ?ic (Plus (Chr ?cs)) ?p ?w ?q ?c ?c' |- _ =>
      apply (proj1 (@denotes_plus_chr ic cs p w q c c')) in H
  | H : denotes ?ic (Star ?g (Chr ?cs)) ?p ?w ?q ?c ?c' |- _ =>
      apply (proj1 (@denotes_star_chr ic g cs p w q c c')) in H
  | H : denotes ?ic (Rep ?n (Chr ?cs)) ?p ?w ?q ?c ?c' |- _ =>
      apply (proj1 (@denotes_rep_chr ic n cs p w q c c')) in H
  | H : denotes true (Lit ?i) ?p ?w ?q ?c ?c' |- _ =>
      apply (proj1 (@denotes_lit i p w q c c')) in H
  | H : denotes ?ic (Opt ?r) ?p ?w ?q ?c ?c' |- _ =>
      change (denotes ic r p w q c c' \/ (w = [] /\ c' = c)) in H
  | H : denotes ?ic (Seq ?a ?b) ?p ?w ?q ?c ?c' |- _ =>
      change (exists w1 w2 c1, w = w1 ++ w2 /\
                denotes ic a p w1 (w2 ++ q) c c1 /\
                denotes ic b (p ++ w1) w2 q c1 c') in H
  | H : denotes ?ic (Alt ?a ?b) ?p ?w ?q ?c ?c' |- _ =>
      change (denotes ic a p w q c c' \/ denotes ic b p w q c c') in H
  | H : denotes ?ic (Group ?a) ?p ?w ?q ?c ?c' |- _ =>
      change (exists c1, denotes ic a p w q c c1 /\ c' = Some w) in H
  | H : denotes ?ic (Chr ?cs) ?p ?w ?q ?c ?c' |- _ =>
      change (exists a, w = [a] /\ cset_mem ic cs a = true /\ c' = c) in H
  | H : denotes ?ic Eos ?p ?w ?q ?c ?c' |- _ =>
      change (w = [] /\ (q = [] \/ q = ["010"%char]) /\ c' = c) in H
  | H : forallb (cset_mem _ CDigit) _ = true |- _ => rewrite all_digits in H
  | H : forallb (cset_mem _ (brackets [CSpace; CChar "-"; CChar "_"])) _ = true |- _ =>
      rewrite all_sep2 in H
  | H : forallb (cset_mem _ (brackets [CChar "_"; CSpace; CChar "-"])) _ = true |- _ =>
      rewrite all_sep3 in H
  | H : forallb (cset_mem _ CSpace) _ = true |- _ => rewrite all_space in H
  | H : forallb (cset_mem _ CWord) _ = true |- _ => rewrite all_word in H
  | H : forallb (cset_mem true (CRange "a" "z")) _ = true |- _ =>
      rewrite all_letter in H
  | H : cset_mem _ (brackets [CChar "_"; CSpace; CChar "-"]) _ = true |- _ =>
      rewrite mem_sep3 in H
  | H : cset_mem _ (brackets [CSpace; CChar "_"; CChar "-"]) _ = true |- _ =>
      rewrite mem_sep1 in H
  | H : cset_mem _ CSpace _ = true |- _ => rewrite mem_space in H
  | H : cset_mem _ (CChar "_") _ = true |- _ =>
      rewrite mem_underscore in H; apply chr_eqb_eq in H
  | H : cset_mem true (brackets [CSpace; CChar "_"; CChar "-"; CChar "("; CDigit]) _
        = true |- _ => rewrite mem_id_suffix in H
  end.

Ltac open_den := repeat (open_den_step; subst).

Lemma id_suffix_sound pre w post c c' :
  denotes true id_suffix pre w post c c' -> c' = c /\ ends_identifier (w ++ post).
Proof.
  unfold id_suffix. intros H. open_den; (split; [reflexivity |]).
  - simpl. unfold after_id_chr.
    match goal with H : _ = true |- _ => rewrite H end. reflexivity.
  - match goal with H : ?w <> [] |- _ => destruct w as [| a w1]; [congruence |] end.
    match goal with H : forallb letter_chr _ = true |- _ =>
      cbn [forallb] in H; apply andb_true_iff in H; destruct H as [Hm _] end.
    simpl. unfold after_id_chr. rewrite Hm. apply orb_true_r.
  - exact I.
  - reflexivity.
Qed.

Lemma id_suffix_complete pre tail c :
  ends_identifier tail ->
  exists w post, tail = w ++ post /\ denotes true id_suffix pre w post c c.
Proof.
  intros H. destruct tail as [| a tail].
  - exists [], []. split; [reflexivity |]. unfold id_suffix.
    right. right. cbn [denotes]. auto.
  - simpl in H. exists [a], tail. split; [reflexivity |].
    unfold id_suffix.
    unfold after_id_chr in H. apply orb_true_iff in H. destruct H as [H | H].
    + left. exists a. rewrite mem_id_suffix. auto.
    + right. left. exists [a], [], c. split; [reflexivity |]. split.
      * apply denotes_plus_chr. split; [reflexivity |]. split; [discriminate |].
        cbn [forallb]. rewrite mem_letter, H. reflexivity.
      * apply denotes_star_chr. auto.
Qed.

Lemma den_seq ic a b pre w1 w2 post c c1 c' :
  denotes ic a pre w1 (w2 ++ post) c c1 ->
  denotes ic b (pre ++ w1) w2 post c1 c' ->
  denotes ic (Seq a b) pre (w1 ++ w2) post c c'.
Proof. intros H1 H2. exists w1, w2, c1. auto. Qed.

Lemma den_group ic r pre w post c c1 :
  denotes ic r pre w post c c1 -> denotes ic (Group r) pre w post c (Some w).
Proof. intros H. exists c1. auto. Qed.

Lemma den_plus ic cs pre w post c :
  w <> [] -> forallb (cset_mem ic cs) w = true ->
  denotes ic (Plus (Chr cs)) pre w post c c.
Proof. intros. apply denotes_plus_chr. auto. Qed.

Lemma den_star ic g cs pre w post c :
  forallb (cset_mem ic cs) w = true ->
  denotes ic (Star g (Chr cs)) pre w post c c.
Proof. intros. apply denotes_star_chr. auto. Qed.

Lemma den_rep ic n cs pre w post c :
  length w = n -> forallb (cset_mem ic cs) w = true ->
  denotes ic (Rep n (Chr cs)) pre w post c c.
Proof. intros. apply denotes_rep_chr. auto. Qed.

Lemma den_lit id pre w post c :
  names w id -> denotes true (Lit id) pre w post c c.
Proof. intros. apply denotes_lit. auto. Qed.

(** Build the denotation of a pattern from its blocks. *)
Ltac close_den :=
  repeat first
    [ eapply den_seq
    | eapply den_group
    | apply den_lit
    | apply den_plus; [| rewrite ?all_digits, ?all_sep2, ?all_sep3, ?all_space, ?all_word]
    | apply den_star; rewrite ?all_digits, ?all_sep2, ?all_sep3, ?all_space, ?all_word
    | apply den_rep; [| rewrite ?all_digits] ];
  try eassumption.

Lemma four_digits_split g :
  four_digits g = true -> length g = 4 /\ forallb isdecimal_chr g = true.
Proof.
  unfold four_digits. intros H. apply andb_true_iff in H.
  destruct H as [H1 H2]. apply Nat.eqb_eq in H1. auto.
Qed.

Lemma iterated_words ic pre w post c c' :
  iterated (denotes ic words_re) pre w post c c' <-> c' = c /\ words w.
Proof.
  split.
  - intros H. induction H as [| pre w1 w2 post c c1 c2 Hne Hd Hit IH].
    + split; [reflexivity | constructor].
    + destruct IH as [-> Hw]. unfold words_re in Hd. open_den.
      split; [reflexivity |]. rewrite <- app_assoc.
      constructor; assumption.
  - intros [-> Hw]. revert pre. induction Hw as [| sp wd rest H1 H2 H3 H4 Hw IH];
      intros pre.
    + constructor.
    + rewrite app_assoc. apply iterated_cons with (c1 := c).
      * destruct sp; [congruence | discriminate].
      * unfold words_re. close_den.
      * apply IH.
Qed.

Lemma underscore_suffix_sound ic pre w post c c' :
  denotes ic (Opt (Seq (Chr (CChar "_")) (Plus (Chr CDigit)))) pre w post c c' ->
  c' = c /\ underscore_suffix w.
Proof.
  intros H. open_den; (split; [reflexivity |]).
  - right. eexists. split; [reflexivity |]. split; assumption.
  - left. reflexivity.
Qed.

Lemma underscore_suffix_complete ic pre t post c :
  underscore_suffix t ->
  denotes ic (Opt (Seq (Chr (CChar "_")) (Plus (Chr CDigit)))) pre t post c c.
Proof.
  intros [-> | [n [-> [Hne Hd]]]].
  - right. split; reflexivity.
  - left. change ("_"%char :: n) with (["_"%char] ++ n).
    eapply den_seq.
    + exists "_"%char. rewrite mem_underscore. repeat split.
    + close_den.
Qed.

Lemma ends_number_complete ic pre tail c :
  ends_number tail ->
  exists w post, tail = w ++ post /\
    denotes ic (Alt (Chr CSpace) Eos) pre w post c c.
Proof.
  intros H. destruct tail as [| a tail].
  - exists [], []. split; [reflexivity |]. right. repeat split. auto.
  - exists [a], tail. split; [reflexivity |]. left.
    exists a. rewrite mem_space. auto.
Qed.

(** The tail [\s*$] of the two patterns for a number at the end. *)
Lemma trailing_tail_sound ic pre w post c c' :
  denotes ic (Seq (Star true (Chr CSpace)) Eos) pre w post c c' ->
  c' = c /\ forallb isspace_chr (w ++ post) = true.
Proof.
  intros H. open_den; (split; [reflexivity |]);
    rewrite forallb_app; rewrite app_nil_r;
    match goal with H : forallb _ _ = true |- _ => rewrite H end; reflexivity.
Qed.

Lemma trailing_tail_complete ic pre ws c :
  forallb isspace_chr ws = true ->
  denotes ic (Seq (Star true (Chr CSpace)) Eos) pre ws [] c c.
Proof.
  intros H. rewrite <- (app_nil_r ws). eapply den_seq.
  - close_den.
  - repeat split. auto.
Qed.

(** ** One text at one place *)

Section Kinds.





Lemma names_length w id : names w id -> length w = length id.
Proof.
  unfold names, lower. intros H. apply (f_equal (@length _)) in H.
  rewrite !length_map in H. exact H.
Qed.

(** Two texts of one length at one place are one text. *)
Lemma same_head {A} (w w' x x' : list A) :
  length w = length w' -> w ++ x = w' ++ x' -> w = w' /\ x = x'.
Proof.
  intros Hl E. split.
  - apply (f_equal (firstn (length w))) in E.
    rewrite firstn_prefix, Hl, firstn_prefix in E. exact E.
  - apply (f_equal (skipn (length w))) in E.
    rewrite skipn_prefix, Hl, skipn_prefix in E. exact E.
Qed.

End Kinds.

Section OneReading.
Variables name id : str.






End OneReading.

Lemma num_pattern_sound id name pre w post c :
  name = pre ++ w ++ post ->
  denotes (p_ignorecase (num_pattern id)) (p_regex (num_pattern id)) pre w post None c ->
  exists g, c = Some g /\ four_digits_at name id pre g.
Proof.
  intros Hs H. unfold num_pattern in H.
  cbn [p_regex p_ignorecase] in H. open_den.
  match goal with H : denotes true id_suffix _ _ _ _ _ |- _ =>
    apply id_suffix_sound in H; destruct H as [-> Hend] end.
  eexists. split; [reflexivity |].
  match type of Hend with
  | ends_identifier (?t ++ post) =>
      match goal with
      | |- four_digits_at (pre ++ (?g ++ ?s1 ++ ?d ++ ?s2 ++ ?i ++ t) ++ post) _ _ _ =>
          exists s1, d, s2, i, (t ++ post)
      end
  end.
  unfold four_digits, separators.
  repeat split; auto.
  - rewrite <- !app_assoc. reflexivity.
  - apply andb_true_iff. split; [apply Nat.eqb_eq |]; assumption.
Qed.

Lemma num_pattern_complete id name pre g :
  four_digits_at name id pre g ->
  exists w post c, name = pre ++ w ++ post /\
    denotes (p_ignorecase (num_pattern id)) (p_regex (num_pattern id)) pre w post None c.
Proof.
  intros [s1 [d [s2 [w [tail [-> [Hg [[Hne1 Hs1] [Hd [Hs2 [Hw Ht]]]]]]]]]]].
  apply four_digits_split in Hg. destruct Hg as [Hl Hg].
  destruct (@id_suffix_complete
              (pre ++ g ++ s1 ++ d ++ s2 ++ w) tail (Some g) Ht)
    as [ws [post [-> Hsuf]]].
  exists (g ++ s1 ++ d ++ s2 ++ w ++ ws), post, (Some g). split.
  - rewrite <- !app_assoc. reflexivity.
  - unfold num_pattern. cbn [p_regex p_ignorecase].
    close_den.
    rewrite <- !app_assoc. exact Hsuf.
Qed.

Lemma num_pattern2_sound id name pre w post c :
  name = pre ++ w ++ post ->
  denotes (p_ignorecase (num_pattern2 id)) (p_regex (num_pattern2 id)) pre w post None c ->
  exists d, c = Some d /\ digits_at name id pre d.
Proof.
  intros Hs H. unfold num_pattern2 in H.
  cbn [p_regex p_ignorecase] in H. open_den.
  match goal with H : denotes true id_suffix _ _ _ _ _ |- _ =>
    apply id_suffix_sound in H; destruct H as [-> Hend] end.
  eexists. split; [reflexivity |].
  match type of Hend with
  | ends_identifier (?t ++ post) =>
      match goal with
      | |- digits_at (pre ++ (?d ++ ?s1 ++ ?i ++ t) ++ post) _ _ _ =>
          exists s1, i, (t ++ post)
      end
  end.
  unfold digits, separators. repeat split; auto.
  rewrite <- !app_assoc. reflexivity.
Qed.

Lemma num_pattern2_complete id name pre d :
  digits_at name id pre d ->
  exists w post c, name = pre ++ w ++ post /\
    denotes (p_ignorecase (num_pattern2 id)) (p_regex (num_pattern2 id)) pre w post None c.
Proof.
  intros [s1 [w [tail [-> [[Hned Hd] [[Hne1 Hs1] [Hw Ht]]]]]]].
  destruct (@id_suffix_complete (pre ++ d ++ s1 ++ w) tail (Some d) Ht)
    as [ws [post [-> Hsuf]]].
  exists (d ++ s1 ++ w ++ ws), post, (Some d). split.
  - rewrite <- !app_assoc. reflexivity.
  - unfold num_pattern2. cbn [p_regex p_ignorecase].
    close_den.
    rewrite <- !app_assoc. exact Hsuf.
Qed.

(** The state at which the match reported at a position ends. *)
Lemma match_at_head p s i m :
  match_at p s i = Some m ->
  exists st, hd_error (run (p_ignorecase p) s (p_regex p) (MState i None)) = Some st /\
             m = RMatch s i (pos st) (grp st).
Proof.
  unfold match_at.
  destruct (run (p_ignorecase p) s (p_regex p) (MState i None)) as [| st l];
    [discriminate |].
  intros H. inversion H. exists st. auto.
Qed.

Lemma stops_ext f g tail : (forall a, f a = g a) -> stops f tail -> stops g tail.
Proof. intros H. destruct tail as [| a tail]; simpl; [auto |]. rewrite H. auto. Qed.

Lemma num_pattern_after_sound id name pre w post c :
  name = pre ++ w ++ post ->
  denotes (p_ignorecase (num_pattern_after id)) (p_regex (num_pattern_after id))
          pre w post None c ->
  exists i s1 d, c = Some d /\ w = i ++ s1 ++ d /\
                 names i id /\ separators s1 /\ digits d.
Proof.
  intros Hs H. unfold num_pattern_after in H.
  cbn [p_regex p_ignorecase] in H. open_den.
  do 3 eexists. split; [reflexivity |]. split; [reflexivity |].
  unfold digits, separators. repeat split; auto.
Qed.

(** The digits after the identifier are taken to the last. *)
Lemma num_pattern_after_greedy id name i m :
  match_at (num_pattern_after id) name i = Some m ->
  stops isdecimal_chr (skipn (m_end m) name).
Proof.
  intros Hm. apply match_at_head in Hm. destruct Hm as [st [Hh ->]].
  cbn [m_end]. unfold num_pattern_after in Hh. cbn [p_regex p_ignorecase] in Hh.
  apply seq_head in Hh. destruct Hh as [y1 [_ Hh]].
  apply seq_head in Hh. destruct Hh as [y2 [_ Hh]].
  apply group_head in Hh. destruct Hh as [x [Hh ->]].
  apply plus_head in Hh. apply (@stops_ext _ _ _ (mem_digit true) Hh).
Qed.

Lemma num_pattern_after_match id name i m :
  i <= length name -> match_at (num_pattern_after id) name i = Some m ->
  digits_after_at name id (firstn i name) (group1 m).
Proof.
  intros Hi Hm.
  pose proof (@num_pattern_after_greedy id name i m Hm) as Hstop.
  destruct (@match_at_sound _ name i m Hi Hm) as [Hs [Hst [He Hd]]].
  assert (Hcut : name = firstn i name ++ group0 m ++ skipn (m_end m) name).
  { unfold group0. rewrite Hs, Hst. apply cut3. lia. }
  destruct (@num_pattern_after_sound id name _ _ _ _ Hcut Hd)
    as [w [s1 [d [Hc [Hw [Hn [Hs1 Hdig]]]]]]].
  rewrite (@group1_of m d Hc).
  exists w, s1, (skipn (m_end m) name).
  split; [| auto]. rewrite Hw in Hcut. rewrite <- !app_assoc in Hcut. exact Hcut.
Qed.

Lemma num_pattern_after_complete id name pre d :
  digits_after_at name id pre d ->
  exists w post c, name = pre ++ w ++ post /\
    denotes (p_ignorecase (num_pattern_after id)) (p_regex (num_pattern_after id))
            pre w post None c.
Proof.
  intros [w [s1 [tail [-> [Hw [[Hne1 Hs1] [[Hned Hd] _]]]]]]].
  exists (w ++ s1 ++ d), tail, (Some d). split.
  - rewrite <- !app_assoc. reflexivity.
  - unfold num_pattern_after. cbn [p_regex p_ignorecase].
    close_den.
Qed.

Lemma fallback_pattern_sound name pre w post c :
  name = pre ++ w ++ post ->
  denotes (p_ignorecase fallback_pattern) (p_regex fallback_pattern) pre w post None c ->
  exists d, c = Some d /\ trailing_number_at true name pre d.
Proof.
  intros Hs H. unfold fallback_pattern in H.
  cbn [p_regex p_ignorecase] in H.
  repeat match goal with
  | H : denotes ?ic (Seq (Star true (Chr CSpace)) Eos) ?p ?w ?q ?c ?c' |- _ =>
      apply trailing_tail_sound in H
  | H : denotes ?ic (Opt (Seq (Chr (CChar "_")) ?r)) ?p ?w ?q ?c ?c' |- _ =>
      apply underscore_suffix_sound in H
  | _ => open_den_step; subst
  end.
  eexists. split; [reflexivity |].
  match goal with
  | |- trailing_number_at _ (pre ++ ([?a] ++ ?d ++ ?t ++ ?ws) ++ post) _ _ =>
      exists [a], t, (ws ++ post)
  end.
  unfold digits. repeat split; auto.
  - rewrite <- !app_assoc. reflexivity.
  - left. eauto.
Qed.

Lemma fallback_pattern_complete name pre d :
  trailing_number_at true name pre d ->
  exists w post c, name = pre ++ w ++ post /\
    denotes (p_ignorecase fallback_pattern) (p_regex fallback_pattern) pre w post None c.
Proof.
  intros [sp [t [ws [-> [Hsp [[Hned Hd] [Ht Hws]]]]]]].
  destruct Hsp as [[a [-> Ha]] | [Hf _]]; [| discriminate].
  exists ([a] ++ d ++ t ++ ws), [], (Some d). split.
  - rewrite app_nil_r. reflexivity.
  - unfold fallback_pattern. cbn [p_regex p_ignorecase].
    eapply den_seq; [exists a; rewrite mem_sep3; auto |].
    eapply den_seq; [close_den |].
    eapply den_seq; [apply underscore_suffix_complete; exact Ht |].
    apply trailing_tail_complete, Hws.
Qed.

Lemma trailing_num_pattern_sound name pre w post c :
  name = pre ++ w ++ post ->
  denotes (p_ignorecase trailing_num_pattern) (p_regex trailing_num_pattern)
          pre w post None c ->
  exists d, c = Some d /\ trailing_number_at false name pre d.
Proof.
  intros Hs H. unfold trailing_num_pattern in H.
  cbn [p_regex p_ignorecase] in H.
  repeat match goal with
  | H : denotes ?ic (Seq (Star true (Chr CSpace)) Eos) ?p ?w ?q ?c ?c' |- _ =>
      apply trailing_tail_sound in H
  | H : denotes ?ic (Opt (Seq (Chr (CChar "_")) ?r)) ?p ?w ?q ?c ?c' |- _ =>
      apply underscore_suffix_sound in H
  | _ => open_den_step; subst
  end.
  - eexists. split; [reflexivity |].
    match goal with
    | |- trailing_number_at _ (pre ++ ([?a] ++ ?d ++ ?t ++ ?ws) ++ post) _ _ =>
        exists [a], t, (ws ++ post)
    end.
    unfold digits. repeat split; auto.
    + rewrite <- !app_assoc. reflexivity.
    + left. eauto.
  - eexists. split; [reflexivity |].
    match goal with
    | |- trailing_number_at _ (pre ++ ([] ++ ?d ++ ?t ++ ?ws) ++ post) _ _ =>
        exists [], t, (ws ++ post)
    end.
    unfold digits. repeat split; auto.
    rewrite <- !app_assoc. reflexivity.
Qed.

Lemma trailing_num_pattern_complete name pre d :
  trailing_number_at false name pre d ->
  exists w post c, name = pre ++ w ++ post /\
    denotes (p_ignorecase trailing_num_pattern) (p_regex trailing_num_pattern)
            pre w post None c.
Proof.
  intros [sp [t [ws [-> [Hsp [[Hned Hd] [Ht Hws]]]]]]].
  exists (sp ++ d ++ t ++ ws), [], (Some d). split.
  - rewrite app_nil_r. reflexivity.
  - unfold trailing_num_pattern. cbn [p_regex p_ignorecase].
    eapply den_seq.
    { destruct Hsp as [[a [-> Ha]] | [_ ->]].
      - left. exists a. rewrite mem_sep3. auto.
      - right. split; reflexivity. }
    eapply den_seq; [close_den |].
    eapply den_seq; [apply underscore_suffix_complete; exact Ht |].
    apply trailing_tail_complete, Hws.
Qed.

Section NumberHere.
Variable ic : bool.

Lemma number_re_sound pre w post c c' :
  denotes ic number_re pre w post c c' ->
  exists d, c' = Some d /\ number_here (w ++ post) d.
Proof.
  intros H. unfold number_re in H.
  repeat match goal with
  | H : denotes ?ic (Opt (Seq (Chr (CChar "_")) ?r)) ?p ?w ?q ?c ?c' |- _ =>
      apply underscore_suffix_sound in H
  | _ => open_den_step; subst
  end.
  - eexists. split; [reflexivity |].
    match goal with
    | |- number_here ((?s1 ++ ?d ++ ?t ++ [?a]) ++ post) _ =>
        exists s1, t, (a :: post)
    end.
    unfold digits, separators. repeat split; auto.
    rewrite <- !app_assoc. reflexivity.
  - eexists. split; [reflexivity |].
    match goal with
    | |- number_here ((?s1 ++ ?d ++ ?t ++ []) ++ []) _ =>
        exists s1, t, []
    end.
    unfold digits, separators. repeat split; auto.
    rewrite <- !app_assoc. reflexivity.
  - eexists. split; [reflexivity |].
    match goal with
    | |- number_here ((?s1 ++ ?d ++ ?t ++ []) ++ ?q) _ =>
        exists s1, t, q
    end.
    unfold digits, separators. repeat split; auto.
    rewrite <- !app_assoc. reflexivity.
Qed.

Lemma number_re_complete pre text d c :
  number_here text d ->
  exists w post, text = w ++ post /\ denotes ic number_re pre w post c (Some d).
Proof.
  intros [s1 [t [tail [-> [[Hne1 Hs1] [[Hned Hd] [Ht He]]]]]]].
  destruct (@ends_number_complete ic (pre ++ s1 ++ d ++ t) tail (Some d) He)
    as [we [post [-> Hend]]].
  exists (s1 ++ d ++ t ++ we), post. split.
  - rewrite <- !app_assoc. reflexivity.
  - unfold number_re.
    eapply den_seq; [close_den |].
    eapply den_seq; [close_den |].
    eapply den_seq; [apply underscore_suffix_complete; exact Ht |].
    rewrite <- !app_assoc. exact Hend.
Qed.

Variable s : str.

(** The number pattern tried at a state: its first result carries the
    number that stands there, and it has none when no number does. *)
Lemma number_re_head st :
  pos st <= length s ->
  match hd_error (run ic s number_re st) with
  | Some x => exists d, cap s x = Some d /\ number_here (skipn (pos st) s) d
  | None => forall d, ~ number_here (skipn (pos st) s) d
  end.
Proof.
  intros Hst. destruct (run ic s number_re st) as [| x l] eqn:E; cbn [hd_error].
  - intros d Hd.
    destruct (@number_re_complete (firstn (pos st) s) _ d (cap s st) Hd)
      as [w [post [Ht Hden]]].
    destruct (@run_complete ic s number_re st (firstn (pos st) s) w post (Some d))
      as [st' [Hin _]].
    + rewrite <- Ht. symmetry. apply firstn_skipn.
    + rewrite length_firstn. lia.
    + exact Hden.
    + rewrite E in Hin. contradiction.
  - assert (Hin : In x (run ic s number_re st)) by (rewrite E; left; reflexivity).
    destruct (@run_sound ic s number_re st x Hst Hin) as [Hp Hden].
    destruct (number_re_sound Hden) as [d [Hc Hn]].
    exists d. split; [exact Hc |].
    rewrite (@skipn_slice _ s (pos st) (pos x)) by lia. exact Hn.
Qed.

End NumberHere.

Section Words.
Variable ic : bool.
Variable s : str.

Lemma span_inside f (l : str) k :
  k < span f l -> exists a rest, skipn k l = a :: rest /\ f a = true.
Proof.
  revert k. induction l as [| x l IH]; intros k Hk; simpl in Hk; [lia |].
  destruct (f x) eqn:E; [| lia].
  destruct k as [| k]; simpl; [eauto |]. apply IH. lia.
Qed.

Lemma span_firstn f (l : str) k : k <= span f l -> forallb f (firstn k l) = true.
Proof.
  revert k. induction l as [| x l IH]; intros [| k] Hk; simpl in *; try reflexivity.
  destruct (f x) eqn:E; [| lia]. simpl. apply IH. lia.
Qed.

Lemma flat_map_map {A B C} (f : B -> list C) (h : A -> B) l :
  flat_map f (map h l) = flat_map (fun x => f (h x)) l.
Proof. induction l as [| a l IH]; simpl; [| rewrite IH]; reflexivity. Qed.

Lemma flat_map_nil {A B} (g : A -> list B) l :
  (forall x, In x l -> g x = []) -> flat_map g l = [].
Proof.
  induction l as [| a l IH]; intros H; simpl; [reflexivity |].
  rewrite (H a (or_introl eq_refl)), IH; [reflexivity |].
  intros x Hx. apply H. right. exact Hx.
Qed.

Lemma down_In n k : In k (down n) <-> 1 <= k <= n.
Proof.
  induction n as [| n IH]; simpl; [lia |].
  rewrite IH. lia.
Qed.

(** Over [n, ..., 1], the first non-empty result. *)
Lemma hd_flat_map_down {B} (g : nat -> list B) b :
  match hd_error (flat_map g (down b)) with
  | Some x => exists k, 1 <= k <= b /\ hd_error (g k) = Some x /\
                        forall k', k < k' <= b -> g k' = []
  | None => forall k, 1 <= k <= b -> g k = []
  end.
Proof.
  induction b as [| b IH]; cbn [down flat_map].
  - simpl. intros k Hk. lia.
  - destruct (g (S b)) as [| x l] eqn:E; cbn [app].
    + destruct (hd_error (flat_map g (down b))) as [x |].
      * destruct IH as [k [Hk [Hx Hgt]]]. exists k. split; [lia |].
        split; [exact Hx |]. intros k' Hk'.
        destruct (Nat.eq_dec k' (S b)) as [-> | Hne]; [exact E | apply Hgt; lia].
      * intros k Hk.
        destruct (Nat.eq_dec k (S b)) as [-> | Hne]; [exact E | apply IH; lia].
    + cbn [hd_error]. exists (S b). split; [lia |]. rewrite E.
      split; [reflexivity |]. intros k' Hk'. lia.
Qed.

(** The ends of [\s+\w+]: after all the white space, the longest word
    first, down to one character of it. *)
Lemma run_words st :
  run ic s words_re st
  = let a := span isspace_chr (skipn (pos st) s) in
    let b := span isword_chr (skipn (pos st + a) s) in
    match a with
    | 0 => []
    | _ => map (fun k => at_pos st (a + k)) (down b)
    end.
Proof.
  unfold words_re. rewrite run_seq, plus_chr_run.
  rewrite (@span_ext _ isspace_chr _ (mem_space ic)).
  set (a := span isspace_chr (skipn (pos st) s)). cbv zeta.
  rewrite flat_map_map.
  assert (Hshort : forall k, In k (down a) -> k < a ->
            run ic s (Plus (Chr CWord)) (at_pos st k) = []).
  { intros k _ Hk. rewrite plus_chr_run.
    rewrite (@span_ext _ isword_chr _ (mem_word ic)). cbn [at_pos pos].
    rewrite Nat.add_comm, <- skipn_skipn.
    destruct (@span_inside isspace_chr (skipn (pos st) s) k Hk) as [x [rest [-> Hx]]].
    cbn [span]. pose proof (space_not_word x) as Hw. rewrite Hx in Hw.
    simpl in Hw. rewrite Hw. reflexivity. }
  destruct a as [| a'] eqn:Ea; [reflexivity |].
  cbn [down flat_map]. rewrite flat_map_nil.
  - rewrite app_nil_r, plus_chr_run.
    rewrite (@span_ext _ isword_chr _ (mem_word ic)). cbn [at_pos pos grp].
    apply map_ext. intros k. unfold at_pos. cbn [pos grp].
    f_equal. lia.
  - intros k Hk. apply Hshort; [right; exact Hk |]. apply down_In in Hk. lia.
Qed.


Lemma tried_S fuel st :
  tried ic s (S fuel) st
  = run ic s number_re st ++
    let a := span isspace_chr (skipn (pos st) s) in
    let b := span isword_chr (skipn (pos st + a) s) in
    match a with
    | 0 => []
    | _ => flat_map (fun k => tried ic s fuel (at_pos st (a + k))) (down b)
    end.
Proof.
  unfold tried. rewrite star_iter_S. cbv zeta. cbn [flat_map]. f_equal.
  rewrite run_words. cbv zeta.
  destruct (span isspace_chr (skipn (pos st) s)) as [| a'] eqn:Ea; [reflexivity |].
  induction (down (span isword_chr (skipn (pos st + S a') s))) as [| k l IH];
    [reflexivity |].
  cbn [map flat_map]. rewrite flat_map_app, IH. f_equal.
  assert (Hlt : (pos st <? pos (at_pos st (S a' + k))) = true)
    by (apply Nat.ltb_lt; simpl; lia).
  rewrite Hlt. reflexivity.
Qed.

(** The first result of the words skipped and the number pattern is the
    number found in the text with that preference. *)
Lemma tried_head fuel :
  forall st,
    pos st <= length s -> length s - pos st <= fuel ->
    match hd_error (tried ic s fuel st) with
    | Some x => exists d, cap s x = Some d /\ number_in fuel (skipn (pos st) s) d
    | None => forall d, ~ number_in fuel (skipn (pos st) s) d
    end.
Proof.
  induction fuel as [| f IH]; intros st Hst Hf.
  - unfold tried. cbn [star_iter flat_map]. rewrite app_nil_r.
    pose proof (@number_re_head ic s st Hst) as Hy.
    destruct (hd_error (run ic s number_re st)) as [x |].
    + destruct Hy as [d [Hc Hn]]. exists d. split; [exact Hc | left; exact Hn].
    + intros d [Hn | [_ []]]. apply (Hy d Hn).
  - rewrite tried_S. cbv zeta.
    pose proof (@number_re_head ic s st Hst) as Hy.
    destruct (run ic s number_re st) as [| x l] eqn:Ey; cbn [hd_error app] in *.
    2:{ destruct Hy as [d [Hc Hn]]. exists d. split; [exact Hc | left; exact Hn]. }
    set (text := skipn (pos st) s) in *.
    assert (Htext : forall k, skipn (pos st + k) s = skipn k text).
    { intros k. unfold text. rewrite skipn_skipn. f_equal. lia. }
    rewrite (Htext (span isspace_chr text)).
    remember (span isspace_chr text) as a eqn:Ea.
    remember (span isword_chr (skipn a text)) as b eqn:Eb.
    assert (Hb : a + b <= length text).
    { pose proof (span_le isword_chr (skipn a text)) as H1.
      pose proof (span_le isspace_chr text) as H2.
      rewrite <- Ea in H2. rewrite <- Eb in H1. rewrite length_skipn in H1. lia. }
    assert (Hlen : length text = length s - pos st)
      by (unfold text; apply length_skipn).
    (* A word skipped in the text, read at the ends of the matcher. *)
    assert (Hword : forall sp wd rest,
              text = sp ++ wd ++ rest ->
              sp <> [] -> forallb isspace_chr sp = true ->
              wd <> [] -> forallb isword_chr wd = true ->
              length sp = a /\ 1 <= length wd <= b /\
              rest = skipn (a + length wd) text).
    { intros sp wd rest Et Hsp1 Hsp2 Hwd1 Hwd2.
      assert (Ha : length sp = a).
      { rewrite Ea, Et. symmetry. apply span_run; [exact Hsp2 |].
        destruct wd as [| c wd]; [congruence |]. simpl in *.
        apply andb_true_iff in Hwd2. destruct Hwd2 as [Hc _].
        pose proof (space_not_word c) as H. rewrite Hc, andb_true_r in H. exact H. }
      assert (Hskip : skipn a text = wd ++ rest).
      { rewrite Et, <- Ha. apply skipn_prefix. }
      split; [exact Ha |]. split.
      - split.
        + destruct wd; [congruence | simpl; lia].
        + rewrite Eb, Hskip. apply span_head, Hwd2.
      - rewrite Nat.add_comm, <- skipn_skipn, Hskip. symmetry. apply skipn_prefix. }
    destruct (Nat.eq_dec a 0) as [Ha0 | Ha0].
    { rewrite Ha0. cbn [hd_error].
      intros d [Hn | [_ [sp [wd [rest [Et [H1 [H2 [H3 [H4 _]]]]]]]]]].
      - apply (Hy d Hn).
      - destruct (Hword sp wd rest Et H1 H2 H3 H4) as [Hl _].
        destruct sp; [congruence | simpl in Hl; lia]. }
    assert (Hpos : 1 <= a) by lia.
    replace (match a with 0 => [] | S _ =>
               flat_map (fun k => tried ic s f (at_pos st (a + k))) (down b) end)
      with (flat_map (fun k => tried ic s f (at_pos st (a + k))) (down b))
      by (destruct a; [lia | reflexivity]).
    pose proof (hd_flat_map_down (fun k => tried ic s f (at_pos st (a + k))) b) as Hd.
    assert (Hat : forall k, 1 <= k <= b ->
              match hd_error (tried ic s f (at_pos st (a + k))) with
              | Some x => exists d, cap s x = Some d /\
                                    number_in f (skipn (a + k) text) d
              | None => forall d, ~ number_in f (skipn (a + k) text) d
              end).
    { intros k Hk. rewrite <- Htext.
      apply (IH (at_pos st (a + k))); cbn [at_pos pos]; lia. }
    destruct (hd_error (flat_map (fun k => tried ic s f (at_pos st (a + k))) (down b)))
      as [x |].
    + destruct Hd as [k [Hk [Hx Hgt]]].
      specialize (Hat k Hk) as Hatk. rewrite Hx in Hatk.
      destruct Hatk as [d [Hc Hn]]. exists d. split; [exact Hc |].
      right. split; [exact Hy |].
      exists (firstn a text), (firstn k (skipn a text)), (skipn (a + k) text).
      assert (Hwd : forallb isword_chr (firstn k (skipn a text)) = true)
        by (apply span_firstn; rewrite <- Eb; lia).
      assert (Hlk : length (firstn k (skipn a text)) = k)
        by (rewrite length_firstn, length_skipn; lia).
      repeat split.
      * rewrite Nat.add_comm, <- skipn_skipn, firstn_skipn, firstn_skipn. reflexivity.
      * intros E. apply (f_equal (@length _)) in E.
        rewrite length_firstn in E. simpl in E. lia.
      * rewrite Ea. apply span_all.
      * intros E. rewrite E in Hlk. simpl in Hlk. lia.
      * exact Hwd.
      * exact Hn.
      * intros y rest' d' Hy1 Hy2 Er Hn'.
        assert (Et : text = firstn a text ++ (firstn k (skipn a text) ++ y) ++ rest').
        { rewrite <- app_assoc, <- Er.
          rewrite Nat.add_comm, <- skipn_skipn, firstn_skipn, firstn_skipn.
          reflexivity. }
        destruct (Hword _ _ _ Et) as [_ [Hk' Er']].
        -- intros E. apply (f_equal (@length _)) in E.
           rewrite length_firstn in E. simpl in E. lia.
        -- rewrite Ea. apply span_all.
        -- intros E. apply app_eq_nil in E. destruct E as [_ E]. congruence.
        -- rewrite forallb_app, Hwd, Hy2. reflexivity.
        -- rewrite length_app, Hlk in Hk', Er'.
           assert (Hly : 1 <= length y) by (destruct y; [congruence | simpl; lia]).
           specialize (Hat (k + length y) ltac:(lia)) as Hat'.
           rewrite (Hgt (k + length y) ltac:(lia)) in Hat'. cbn [hd_error] in Hat'.
           apply (Hat' d'). rewrite <- Er'. exact Hn'.
    + intros d [Hn | [_ [sp [wd [rest [Et [H1 [H2 [H3 [H4 [Hn _]]]]]]]]]]].
      * apply (Hy d Hn).
      * destruct (Hword sp wd rest Et H1 H2 H3 H4) as [_ [Hk Er]].
        specialize (Hat (length wd) Hk) as Hat'.
        rewrite (Hd (length wd) Hk) in Hat'. cbn [hd_error] in Hat'.
        apply (Hat' d). rewrite <- Er. exact Hn.
Qed.

End Words.

Section NumberAfter.

(** A number found after skipped words is a number after words and
    separators. *)
Lemma number_in_words n text d :
  number_in n text d ->
  exists ws s1 t tail,
    text = ws ++ s1 ++ d ++ t ++ tail /\
    words ws /\ separators s1 /\ digits d /\ underscore_suffix t /\ ends_number tail.
Proof.
  revert text. induction n as [| n IH]; intros text H; cbn [number_in] in H.
  - destruct H as [[s1 [t [tail H]]] | [_ []]].
    exists [], s1, t, tail. split; [apply H |]. split; [constructor | apply H].
  - destruct H as [[s1 [t [tail H]]] | [_ [sp [wd [rest [Et [H1 [H2 [H3 [H4 [Hn _]]]]]]]]]]].
    + exists [], s1, t, tail. split; [apply H |]. split; [constructor | apply H].
    + destruct (IH _ Hn) as [ws [s1 [t [tail [Er Hrest]]]]].
      exists (sp ++ wd ++ ws), s1, t, tail.
      split; [rewrite Et, Er, <- !app_assoc; reflexivity |].
      split; [constructor; tauto | tauto].
Qed.



Lemma after_id_pattern_shape id :
  p_regex (after_id_pattern id) = Seq (Lit id) (Seq (Star false words_re) number_re).
Proof. reflexivity. Qed.

Lemma after_id_pattern_match id name i m :
  i <= length name -> match_at (after_id_pattern id) name i = Some m ->
  number_after_at name id (firstn i name) (group1 m).
Proof.
  intros Hi Hm. apply match_at_head in Hm. destruct Hm as [st [Hh ->]].
  rewrite after_id_pattern_shape in Hh. cbn [p_ignorecase after_id_pattern] in Hh.
  apply seq_head in Hh. destruct Hh as [y [Hy Hh]].
  destruct (@run_sound true name (Lit id) (MState i None) y Hi Hy) as [Hp Hden].
  cbn [pos] in Hp, Hden.
  apply (proj1 (@denotes_lit id _ _ _ _ _)) in Hden. destruct Hden as [_ Hw].
  rewrite run_seq, run_star in Hh.
  pose proof (@tried_head true name (length name - pos y) y ltac:(lia) ltac:(lia)) as Ht.
  unfold tried in Ht. rewrite Hh in Ht. destruct Ht as [d [Hc Hn]].
  assert (Hg : group1 (RMatch name i (pos st) (grp st)) = d).
  { apply group1_of. unfold group1_opt. cbn [m_grp m_subject].
    unfold cap in Hc. exact Hc. }
  rewrite Hg. exists (slice name i (pos y)), (skipn (pos y) name).
  split; [apply cut3; lia |]. split; [exact Hw |].
  rewrite length_skipn. exact Hn.
Qed.

Lemma after_id_pattern_complete id name pre d :
  number_after_at name id pre d ->
  exists w post c, name = pre ++ w ++ post /\
    denotes (p_ignorecase (after_id_pattern id)) (p_regex (after_id_pattern id))
            pre w post None c.
Proof.
  intros [w [rest [-> [Hw Hn]]]].
  destruct (number_in_words _ _ _ Hn)
    as [ws [s1 [t [tail [-> [Hws [[Hne1 Hs1] [[Hned Hd] [Ht He]]]]]]]]].
  destruct (@ends_number_complete true
              (pre ++ w ++ ws ++ s1 ++ d ++ t) tail (Some d) He)
    as [we [post [-> Hend]]].
  exists (w ++ ws ++ s1 ++ d ++ t ++ we), post, (Some d). split.
  - rewrite <- !app_assoc. reflexivity.
  - unfold after_id_pattern. cbn [p_regex p_ignorecase].
    eapply den_seq; [close_den |].
    eapply den_seq; [apply (proj2 (@iterated_words true _ _ _ _ _)); eauto |].
    eapply den_seq; [close_den |].
    eapply den_seq; [close_den |].
    eapply den_seq; [apply underscore_suffix_complete; exact Ht |].
    rewrite <- !app_assoc. exact Hend.
Qed.


End NumberAfter.


(** ** FilenameClassifier: [extract_identifier_and_number] *)

Section Extraction.

Lemma extract_loop_found ids name id fnd :
  first_found ids name = Some (id, fnd) ->
  extract_loop ids name =
    if str_in id GROUPABLE_IDENTIFIERS
    then extract_groupable id name fnd
    else extract_non_groupable id name fnd.
Proof.
  induction ids as [| i rest IH]; simpl; [discriminate |].
  destruct (search (id_pattern i) name) as [m |].
  - intros H. inversion H; subst. reflexivity.
  - exact IH.
Qed.

Lemma extract_loop_none ids name :
  first_found ids name = None -> extract_loop ids name = (None, None, None).
Proof.
  induction ids as [| i rest IH]; simpl; [reflexivity |].
  destruct (search (id_pattern i) name) as [m |]; [discriminate | exact IH].
Qed.

Lemma decimal_not_sign c :
  isdecimal_chr c = true -> chr_eqb c "+" || chr_eqb c "-" = false.
Proof.
  intros H.
  pose proof (@ascii_ind_bool
                (fun c => negb (isdecimal_chr c)
                          || negb (chr_eqb c "+" || chr_eqb c "-"))
                ltac:(vm_compute; reflexivity) c) as E.
  cbv beta in E. rewrite H in E. simpl in E.
  destruct (chr_eqb c "+" || chr_eqb c "-"); [discriminate | reflexivity].
Qed.

Lemma zfill_digits d :
  digits d -> zfill 4 d = repeat "0"%char (4 - length d) ++ d.
Proof.
  intros [Hne Hd]. destruct d as [| c d]; [congruence |].
  unfold zfill. cbn [forallb] in Hd. apply andb_true_iff in Hd.
  rewrite (@decimal_not_sign c (proj1 Hd)). reflexivity.
Qed.

(** Padding a run of digits gives digits, at least four of them. *)
Lemma zfill_digits_spec d :
  digits d ->
  forallb isdecimal_chr (zfill 4 d) = true /\ 4 <= length (zfill 4 d) /\
  (length d <= 4 -> four_digits (zfill 4 d) = true).
Proof.
  intros Hd. rewrite (@zfill_digits d Hd). destruct Hd as [Hne Hd].
  assert (Hz : forallb isdecimal_chr (repeat "0"%char (4 - length d) ++ d) = true).
  { rewrite forallb_app, Hd, andb_true_r.
    induction (4 - length d); simpl; auto. }
  split; [exact Hz |]. rewrite length_app, repeat_length. split; [lia |].
  intros Hl. unfold four_digits. rewrite Hz, andb_true_r.
  rewrite length_app, repeat_length. apply Nat.eqb_eq. lia.
Qed.

Lemma search_num_pattern id name :
  match search (num_pattern id) name with
  | Some m => four_digits_before name id (group1 m)
  | None => forall g, ~ four_digits_before name id g
  end.
Proof.
  unfold four_digits_before. apply (@search_leftmost (num_pattern id) name (four_digits_at name id)).
  - apply match_reading. intros pre w post c. apply num_pattern_sound.
  - intros pre d. apply num_pattern_complete.
Qed.

Lemma search_num_pattern2 id name :
  match search (num_pattern2 id) name with
  | Some m => digits_before name id (group1 m)
  | None => forall d, ~ digits_before name id d
  end.
Proof.
  unfold digits_before. apply (@search_leftmost (num_pattern2 id) name (digits_at name id)).
  - apply match_reading. intros pre w post c. apply num_pattern2_sound.
  - intros pre d. apply num_pattern2_complete.
Qed.

Lemma search_num_pattern_after id name :
  match search (num_pattern_after id) name with
  | Some m => digits_after name id (group1 m)
  | None => forall d, ~ digits_after name id d
  end.
Proof.
  unfold digits_after. apply (@search_leftmost (num_pattern_after id) name (digits_after_at name id)).
  - apply num_pattern_after_match.
  - intros pre d. apply num_pattern_after_complete.
Qed.

Lemma search_after_id_pattern id name :
  match search (after_id_pattern id) name with
  | Some m => number_after name id (group1 m)
  | None => forall d, ~ number_after name id d
  end.
Proof.
  unfold number_after. apply (@search_leftmost (after_id_pattern id) name (number_after_at name id)).
  - apply after_id_pattern_match.
  - intros pre d. apply after_id_pattern_complete.
Qed.

Lemma search_fallback_pattern name :
  match search fallback_pattern name with
  | Some m => trailing_number true name (group1 m)
  | None => forall d, ~ trailing_number true name d
  end.
Proof.
  unfold trailing_number. apply (@search_leftmost fallback_pattern name (trailing_number_at true name)).
  - apply match_reading. intros pre w post c. apply fallback_pattern_sound.
  - intros pre d. apply fallback_pattern_complete.
Qed.

Lemma search_trailing_num_pattern name :
  match search trailing_num_pattern name with
  | Some m => trailing_number false name (group1 m)
  | None => forall d, ~ trailing_number false name d
  end.
Proof.
  unfold trailing_number. apply (@search_leftmost trailing_num_pattern name (trailing_number_at false name)).
  - apply match_reading. intros pre w post c. apply trailing_num_pattern_sound.
  - intros pre d. apply trailing_num_pattern_complete.
Qed.

(** A run of four digits or more before the identifier ends in four digits
    before the identifier. *)
Lemma digits_before_long name id d :
  digits_before name id d -> 4 <= length d ->
  exists g, four_digits_before name id g.
Proof.
  intros [pre [[s1 [w [tail [E [[Hne Hd] [Hs1 [Hw Ht]]]]]]] _]] Hl.
  assert (Ha : four_digits_at name id (pre ++ firstn (length d - 4) d)
                 (skipn (length d - 4) d)).
  { exists s1, [], [], w, tail.
    rewrite <- (firstn_skipn (length d - 4) d) in Hd.
    rewrite forallb_app in Hd. apply andb_true_iff in Hd. destruct Hd as [_ Hd].
    repeat split; auto.
    - rewrite E, <- !app_assoc. simpl.
      rewrite (app_assoc (firstn _ d)), firstn_skipn. reflexivity.
    - unfold four_digits. rewrite Hd, andb_true_r, length_skipn.
      apply Nat.eqb_eq. lia.
    - apply Hs1.
    - apply Hs1. }
  destruct (num_pattern_complete Ha) as [w' [post [c [Hs Hden]]]].
  assert (Hf : found (num_pattern id) name w' c) by (exists (pre ++ firstn (length d - 4) d), post; auto).
  destruct (@search_complete _ name w' c Hf) as [m Hm].
  pose proof (search_num_pattern id name) as Hsearch. rewrite Hm in Hsearch.
  eauto.
Qed.

Lemma extract_groupable_spec id name fnd :
  exists number full,
    extract_groupable id name fnd = (number, Some id, Some full) /\
    groupable_number name id number /\
    (number = None -> full = fnd).
Proof.
  unfold extract_groupable, groupable_number.
  pose proof (search_num_pattern id name) as Ha.
  pose proof (search_num_pattern2 id name) as Hb.
  pose proof (search_num_pattern_after id name) as Hc.
  destruct (search (num_pattern id) name) as [ma |].
  { do 2 eexists. split; [reflexivity |]. split; [| discriminate].
    left. eauto. }
  destruct (search (num_pattern2 id) name) as [mb |].
  { do 2 eexists. split; [reflexivity |]. split; [| discriminate].
    right. left. split; [exact Ha |]. exists (group1 mb).
    split; [exact Hb |]. split; [reflexivity |].
    assert (Hdig : digits (group1 mb))
      by (destruct Hb as [? [[? [? [? [_ [Hd _]]]]] _]]; exact Hd).
    apply (proj2 (proj2 (@zfill_digits_spec (group1 mb) Hdig))).
    destruct (le_lt_dec (length (group1 mb)) 4) as [Hl | Hl]; [exact Hl |].
    exfalso. destruct (@digits_before_long name id (group1 mb) Hb ltac:(lia))
      as [g Hg]. apply (Ha g Hg). }
  destruct (search (num_pattern_after id) name) as [mc |].
  { do 2 eexists. split; [reflexivity |]. split; [| discriminate].
    right. right. left. eauto. }
  do 2 eexists. split; [reflexivity |]. split; [| reflexivity].
  right. right. right. auto.
Qed.

Lemma extract_non_groupable_spec id name fnd :
  exists number,
    extract_non_groupable id name fnd = (number, Some id, Some fnd) /\
    (In id map_names -> map_number name id number) /\
    (In id spectrum_names -> spectrum_number name number).
Proof.
  unfold extract_non_groupable, map_number, spectrum_number.
  pose proof (search_after_id_pattern id name) as Ha.
  pose proof (search_fallback_pattern name) as Hb.
  pose proof (search_trailing_num_pattern name) as Hc.
  destruct (str_in id map_names) eqn:Em.
  - assert (Hns : ~ In id spectrum_names).
    { apply str_in_In in Em. intros Hs. simpl in Em, Hs.
      repeat (destruct Em as [<- | Em]; [
        repeat (destruct Hs as [Hs | Hs]; [discriminate |]); exact Hs |]).
      exact Em. }
    destruct (search (after_id_pattern id) name) as [ma |].
    { eexists. split; [reflexivity |]. split; [| tauto]. intros _. left. eauto. }
    destruct (search fallback_pattern name) as [mb |].
    { eexists. split; [reflexivity |]. split; [| tauto]. intros _.
      right. left. eauto. }
    eexists. split; [reflexivity |]. split; [| tauto]. intros _.
    right. right. auto.
  - assert (Hnm : ~ In id map_names).
    { intros H. apply str_in_In in H. congruence. }
    destruct (str_in id spectrum_names) eqn:Es.
    + destruct (search trailing_num_pattern name) as [mc |].
      { eexists. split; [reflexivity |]. split; [tauto |]. intros _. left. eauto. }
      eexists. split; [reflexivity |]. split; [tauto |]. intros _. right. auto.
    + eexists. split; [reflexivity |]. split; [tauto |].
      intros H. apply str_in_In in H. congruence.
Qed.

End Extraction.

Section OneNumber.
Variables name id : str.









End OneNumber.

Section Classifier.





End Classifier.

Section GroupLabelRoundTrip.

Lemma decimal_not_space c : isdecimal_chr c = true -> isspace_chr c = false.
Proof.
  intros H.
  pose proof (@ascii_ind_bool
                (fun c => negb (isdecimal_chr c) || negb (isspace_chr c))
                ltac:(vm_compute; reflexivity) c) as E.
  cbv beta in E. rewrite H in E. simpl in E.
  destruct (isspace_chr c); [discriminate | reflexivity].
Qed.

Lemma digits_last ds :
  digits ds -> exists c rest, rev ds = c :: rest /\ isdecimal_chr c = true.
Proof.
  intros [Hne Hd]. destruct (rev ds) as [| c rest] eqn:E.
  - apply (f_equal (@rev _)) in E. rewrite rev_involutive in E. contradiction.
  - exists c, rest. split; [reflexivity |].
    rewrite forallb_forall in Hd. apply Hd. apply in_rev. rewrite E. left. reflexivity.
Qed.

(** A label made of a word and digits has no white space to strip. *)
Lemma strip_label a pfx ds :
  isspace_chr a = false -> digits ds ->
  strip (a :: pfx ++ ds) = a :: pfx ++ ds.
Proof.
  intros Ha Hd. unfold strip. cbn [lstrip]. rewrite Ha. unfold rstrip.
  destruct (digits_last Hd) as [c [rest [E Hc]]].
  change (a :: pfx ++ ds) with ((a :: pfx) ++ ds) at 1.
  rewrite rev_app_distr, E. cbn [app lstrip].
  rewrite (@decimal_not_space c Hc).
  replace (c :: rest ++ rev (a :: pfx)) with (rev ((a :: pfx) ++ ds))
    by (rewrite rev_app_distr, E; reflexivity).
  apply rev_involutive.
Qed.

Lemma digits_no_newline d post ds :
  ds = d ++ post -> forallb isdecimal_chr ds = true ->
  post = [] \/ post = ["010"%char] -> ds = d.
Proof.
  intros -> Hd [-> | ->]; [apply app_nil_r |].
  rewrite forallb_app in Hd. apply andb_true_iff in Hd. destruct Hd as [_ Hd].
  vm_compute in Hd. discriminate.
Qed.

(** The pattern of the edit dialog on a formatted label: the group is the
    number of the label. *)
Lemma rematch_formatted pfx ds :
  pfx = $"SPEC" \/ pfx = $"MAP" -> digits ds ->
  exists m, rematch formatted_pattern (pfx ++ ds) = Some m /\ group1 m = ds.
Proof.
  intros Hp Hds. unfold rematch.
  assert (Hex : exists m, match_at formatted_pattern (pfx ++ ds) 0 = Some m).
  { apply (@match_at_complete formatted_pattern (pfx ++ ds) [] (pfx ++ ds) []
             (Some ds)).
    - rewrite app_nil_r. reflexivity.
    - unfold formatted_pattern. cbn [p_regex p_ignorecase]. eapply den_seq.
      + destruct Hp as [-> | ->].
        * right. left. apply den_lit. reflexivity.
        * left. apply den_lit. reflexivity.
      + exists ds, [], (Some ds). split; [symmetry; apply app_nil_r |]. split.
        * eapply den_group. destruct Hds. close_den.
        * cbn [denotes]. auto. }
  destruct Hex as [m Hm]. exists m. split; [exact Hm |].
  destruct (@match_at_sound formatted_pattern (pfx ++ ds) 0 m (Nat.le_0_l _) Hm)
    as [Hsub [Hst [He Hd]]].
  assert (Hcut : pfx ++ ds = group0 m ++ skipn (m_end m) (pfx ++ ds)).
  { unfold group0. rewrite Hsub, Hst.
    apply (@cut3 _ (pfx ++ ds) 0 (m_end m)). lia. }
  apply group1_of.
  unfold formatted_pattern in Hd. cbn [p_regex p_ignorecase] in Hd.
  destruct Hds as [Hne Hdec].
  set (post := skipn (m_end m) (pfx ++ ds)) in *.
  set (w := group0 m) in *. clearbody w post. clear Hm Hsub Hst He.
  open_den;
    match goal with
    | Hn : names ?w1 _, Hg : group1_opt m = Some ?d |- _ =>
        rewrite Hg; f_equal;
        pose proof (names_length Hn) as Hlen;
        rewrite <- !app_assoc, ?app_nil_r in Hcut;
        repeat (destruct w1 as [| ? w1]; [discriminate Hlen |]);
        (destruct w1; [| discriminate Hlen]);
        cbn [app lit list_ascii_of_string] in Hcut;
        inversion Hcut; subst;
        try (vm_compute in Hn; discriminate Hn)
    end.
  all: try reflexivity.
  all: symmetry; eapply digits_no_newline; [reflexivity | eassumption | auto].
Qed.

End GroupLabelRoundTrip.

Section GroupLabelSpec.

Lemma unpadded_digits s : unpadded s = true -> digits s.
Proof.
  unfold unpadded, digits. destruct s as [| c [| c' s]]; [discriminate | |].
  - intros H. split; [discriminate |]. simpl. rewrite H. reflexivity.
  - intros H. apply andb_true_iff in H. split; [discriminate | apply H].
Qed.

Lemma decimal_is_digit s :
  forallb isdecimal_chr s = true -> forallb isdigit_chr s = true.
Proof.
  induction s as [| c s IH]; simpl; [reflexivity |].
  intros H. apply andb_true_iff in H. destruct H as [Hc Hs].
  rewrite (IH Hs). unfold isdigit_chr. rewrite Hc. reflexivity.
Qed.

(** The label of a group of four digits. *)
Lemma format_four_digits g id n :
  four_digits g = true -> int g = Some n ->
  format_group_label (Some g) id =
    if id_in id spectrum_names then $"SPEC" ++ str_of_int n
    else if id_in id map_names then $"MAP" ++ str_of_int n
    else g.
Proof.
  intros Hg Hn. apply four_digits_split in Hg. destruct Hg as [Hl Hd].
  unfold format_group_label. destruct g as [| c g]; [discriminate |].
  unfold isdigit. rewrite (decimal_is_digit _ Hd), Hl, Hn. reflexivity.
Qed.

(** The label of any other group is the group. *)
Lemma format_custom g id :
  four_digits g = false -> format_group_label (Some g) id = g.
Proof.
  intros Hg. unfold format_group_label. destruct g as [| c g]; [reflexivity |].
  destruct (isdigit (c :: g) && (length (c :: g) =? 4)) eqn:E; [| reflexivity].
  apply andb_true_iff in E. destruct E as [_ El].
  assert (Hi : int (c :: g) = None).
  { unfold int. destruct (forallb isdecimal_chr (c :: g)) eqn:Ed; [| reflexivity].
    unfold four_digits in Hg. rewrite El, Ed in Hg. discriminate. }
  rewrite Hi. destruct (id_in id spectrum_names); [reflexivity |].
  destruct (id_in id map_names); reflexivity.
Qed.

Lemma apply_changes_label pfx n :
  pfx = $"SPEC" \/ pfx = $"MAP" -> unpadded (str_of_int n) = true ->
  apply_changes (pfx ++ str_of_int n) = Store (Some (zfill 4 (str_of_int n))).
Proof.
  intros Hp Hu. pose proof (unpadded_digits _ Hu) as Hd.
  destruct (@rematch_formatted pfx (str_of_int n) Hp Hd) as [m [Hm Hg]].
  unfold apply_changes.
  assert (Hs : strip (pfx ++ str_of_int n) = pfx ++ str_of_int n).
  { destruct Hp as [-> | ->]; apply strip_label; auto. }
  rewrite Hs, Hm, Hg.
  destruct Hp as [-> | ->]; reflexivity.
Qed.

(** C3: a group of exactly four digits is shown as SPEC and its integer
    under Spectrum and Spectra, as MAP and its integer under Map, Maps and
    Electron Image, the integer printed without padding, and unchanged
    under any other identifier; any other group is shown unchanged; and
    the label of a SPEC or MAP group, typed into the edit dialog, is
    stored as the group it came from, so that it is shown as the same
    label again.  [format("0002", "Spectrum")] is ["SPEC2"] and
    [format("0002", "PDBSE")] is ["0002"]. *)
Theorem format_group_label_spec :
  (forall g id,
     four_digits g = true ->
     exists n,
       int g = Some n /\ unpadded (str_of_int n) = true /\
       (In id [Some $"Spectrum"; Some $"Spectra"] ->
        format_group_label (Some g) id = $"SPEC" ++ str_of_int n) /\
       (In id [Some $"Map"; Some $"Maps"; Some $"Electron Image"] ->
        format_group_label (Some g) id = $"MAP" ++ str_of_int n) /\
       (~ In id [Some $"Spectrum"; Some $"Spectra";
                 Some $"Map"; Some $"Maps"; Some $"Electron Image"] ->
        format_group_label (Some g) id = g) /\
       (In id [Some $"Spectrum"; Some $"Spectra";
               Some $"Map"; Some $"Maps"; Some $"Electron Image"] ->
        apply_changes (format_group_label (Some g) id) = Store (Some g))) /\
  (forall g id,
     four_digits g = false -> format_group_label (Some g) id = g) /\
  format_group_label (Some $"0002") (Some $"Spectrum") = $"SPEC2" /\
  format_group_label (Some $"0002") (Some $"PDBSE") = $"0002".
Proof.
  split; [| split; [exact format_custom | split; vm_compute; reflexivity]].
  intros g id Hg.
  destruct (four_digits_int g Hg) as [n [Hn [_ [Hu Hz]]]].
  exists n. split; [exact Hn |]. split; [exact Hu |].
  rewrite (@format_four_digits g id n Hg Hn).
  assert (Hspec : In id [Some $"Spectrum"; Some $"Spectra"] ->
                  id_in id spectrum_names = true).
  { simpl. intros [<- | [<- | []]]; reflexivity. }
  assert (Hmap : In id [Some $"Map"; Some $"Maps"; Some $"Electron Image"] ->
                 id_in id spectrum_names = false /\ id_in id map_names = true).
  { simpl. intros [<- | [<- | [<- | []]]]; split; reflexivity. }
  assert (Hother : ~ In id [Some $"Spectrum"; Some $"Spectra";
                            Some $"Map"; Some $"Maps"; Some $"Electron Image"] ->
                   id_in id spectrum_names = false /\ id_in id map_names = false).
  { intros Hno. split.
    - destruct (id_in id spectrum_names) eqn:E; [| reflexivity].
      exfalso. apply Hno. apply id_in_In in E. destruct E as [x [-> Hx]].
      simpl in Hx. simpl. intuition (subst; auto).
    - destruct (id_in id map_names) eqn:E; [| reflexivity].
      exfalso. apply Hno. apply id_in_In in E. destruct E as [x [-> Hx]].
      simpl in Hx. simpl. intuition (subst; auto). }
  repeat split.
  - intros H. rewrite (Hspec H). reflexivity.
  - intros H. destruct (Hmap H) as [-> ->]. reflexivity.
  - intros H. destruct (Hother H) as [-> ->]. reflexivity.
  - intros H. rewrite <- Hz at 2.
    assert (Hc : In id [Some $"Spectrum"; Some $"Spectra"] \/
                 In id [Some $"Map"; Some $"Maps"; Some $"Electron Image"])
      by (simpl in H; simpl; tauto).
    destruct Hc as [Hc | Hc].
    + rewrite (Hspec Hc). apply apply_changes_label; auto.
    + destruct (Hmap Hc) as [-> ->]. apply apply_changes_label; auto.
Qed.

Lemma format_group_label_spec_witness :
  exists n,
    int $"0002" = Some n /\ unpadded (str_of_int n) = true /\
    (In (Some $"Spectrum") [Some $"Spectrum"; Some $"Spectra"] ->
     format_group_label (Some $"0002") (Some $"Spectrum") = $"SPEC" ++ str_of_int n) /\
    (In (Some $"Spectrum") [Some $"Map"; Some $"Maps"; Some $"Electron Image"] ->
     format_group_label (Some $"0002") (Some $"Spectrum") = $"MAP" ++ str_of_int n) /\
    (~ In (Some $"Spectrum") [Some $"Spectrum"; Some $"Spectra";
              Some $"Map"; Some $"Maps"; Some $"Electron Image"] ->
     format_group_label (Some $"0002") (Some $"Spectrum") = $"0002") /\
    (In (Some $"Spectrum") [Some $"Spectrum"; Some $"Spectra";
            Some $"Map"; Some $"Maps"; Some $"Electron Image"] ->
     apply_changes (format_group_label (Some $"0002") (Some $"Spectrum"))
     = Store (Some $"0002")).
Proof.
  apply (proj1 format_group_label_spec $"0002" (Some $"Spectrum")).
  vm_compute. reflexivity.
Defined.

End GroupLabelSpec.

(** ** SortPolicy: [get_sort_key] *)

Section SortPolicy.
Local Open Scope Z_scope.

Lemma decimal_below_z c : isdecimal_chr c = true -> (code c <? code "z")%N = true.
Proof.
  unfold isdecimal_chr, between. intros H. apply andb_true_iff in H.
  destruct H as [_ H]. apply N.leb_le in H. apply N.ltb_lt.
  change (code "z") with 122%N. lia.
Qed.

(** The sentinel of the entries without group sorts after four digits. *)
Lemma four_digits_before_sentinel g :
  four_digits g = true -> str_ltb g $"zzzzz" = true.
Proof.
  intros H. apply four_digits_split in H. destruct H as [Hl Hd].
  destruct g as [| c g]; [discriminate |].
  cbn [forallb] in Hd. apply andb_true_iff in Hd. destruct Hd as [Hc _].
  change ($"zzzzz") with ("z"%char :: $"zzzz"). cbn [str_ltb].
  rewrite (decimal_below_z _ Hc). reflexivity.
Qed.

Lemma category_of_spec id :
  (In id (map Some GROUPABLE_IDENTIFIERS) -> category_of id = 0) /\
  (In id [Some $"Map"; Some $"Maps"; Some $"Electron Image"] -> category_of id = 1) /\
  (In id [Some $"Spectrum"; Some $"Spectra"] -> category_of id = 2) /\
  (~ In id (map Some ALL_IDENTIFIERS) -> category_of id = 3).
Proof.
  repeat split.
  - simpl. intros H. repeat (destruct H as [<- | H]; [reflexivity |]). contradiction.
  - simpl. intros H. repeat (destruct H as [<- | H]; [reflexivity |]). contradiction.
  - simpl. intros H. repeat (destruct H as [<- | H]; [reflexivity |]). contradiction.
  - intros H. unfold category_of.
    assert (Hno : forall l, (forall x, In x l -> In x ALL_IDENTIFIERS) ->
                            id_in id l = false).
    { intros l Hl. destruct (id_in id l) eqn:E; [| reflexivity].
      exfalso. apply H. apply id_in_In in E. destruct E as [x [-> Hx]].
      apply in_map, Hl, Hx. }
    rewrite !Hno; [reflexivity | | |]; intros x Hx; simpl in Hx; simpl; tauto.
Qed.

(** C9: an entry of a lower category sorts before an entry of a higher
    one, whatever their groups and file names; within a category an entry
    whose group is four digits sorts before an entry without group, which
    gets the sentinel; the category is 0 for the groupable identifiers, 1
    for Map, Maps and Electron Image, 2 for Spectrum and Spectra, and 3
    otherwise. *)
Theorem sort_key_order (a b : image) :
  (category_of (identifier a) < category_of (identifier b) ->
   sort_key_ltb (get_sort_key a) (get_sort_key b) = true) /\
  (forall g,
     category_of (identifier a) = category_of (identifier b) ->
     numerical_prefix a = Some g -> four_digits g = true ->
     numerical_prefix b = None \/ numerical_prefix b = Some [] ->
     snd (fst (fst (get_sort_key b))) = $"zzzzz" /\
     sort_key_ltb (get_sort_key a) (get_sort_key b) = true) /\
  fst (fst (fst (get_sort_key a))) = category_of (identifier a) /\
  (In (identifier a) (map Some GROUPABLE_IDENTIFIERS) ->
   category_of (identifier a) = 0) /\
  (In (identifier a) [Some $"Map"; Some $"Maps"; Some $"Electron Image"] ->
   category_of (identifier a) = 1) /\
  (In (identifier a) [Some $"Spectrum"; Some $"Spectra"] ->
   category_of (identifier a) = 2) /\
  (~ In (identifier a) (map Some ALL_IDENTIFIERS) ->
   category_of (identifier a) = 3).
Proof.
  split; [| split; [| split; [reflexivity | apply category_of_spec]]].
  - intros H. unfold get_sort_key, sort_key_ltb.
    apply Z.ltb_lt in H. rewrite H. reflexivity.
  - intros g Hc Ha Hg Hb.
    assert (Hkb : snd (fst (fst (get_sort_key b))) = $"zzzzz").
    { unfold get_sort_key. destruct Hb as [-> | ->]; reflexivity. }
    split; [exact Hkb |].
    unfold get_sort_key in *. cbn [fst snd] in Hkb. unfold sort_key_ltb.
    rewrite Hc, Z.ltb_irrefl, Hkb, Ha.
    destruct g as [| c g]; [discriminate Hg |].
    rewrite (four_digits_before_sentinel _ Hg). reflexivity.
Qed.

Lemma sort_key_order_witness :
  sort_key_ltb
    (get_sort_key (entry_of $"z.tif" 640 480 (Some $"UD") None))
    (get_sort_key (entry_of $"a.tif" 640 480 (Some $"Map") (Some $"0001"))) = true /\
  (snd (fst (fst (get_sort_key (entry_of $"a.tif" 640 480 (Some $"UD") None)))) = $"zzzzz" /\
   sort_key_ltb
     (get_sort_key (entry_of $"z.tif" 640 480 (Some $"UD") (Some $"9999")))
     (get_sort_key (entry_of $"a.tif" 640 480 (Some $"UD") None)) = true).
Proof.
  split.
  - apply (sort_key_order (entry_of $"z.tif" 640 480 (Some $"UD") None)
                          (entry_of $"a.tif" 640 480 (Some $"Map") (Some $"0001"))).
    vm_compute. reflexivity.
  - apply (proj1 (proj2 (sort_key_order
                    (entry_of $"z.tif" 640 480 (Some $"UD") (Some $"9999"))
                    (entry_of $"a.tif" 640 480 (Some $"UD") None))) $"9999");
      try reflexivity.
    left. reflexivity.
Defined.

End SortPolicy.

(** ** SlideComposer and GridLayoutPlanner: the arithmetic of a picture *)

Section Arithmetic.
Local Open Scope Q_scope.

Lemma fdiv_ok a b : ~ b == 0 -> fdiv a b = Ok (a / b).
Proof.
  intros H. unfold fdiv. destruct (Qeq_bool b 0) eqn:E; [| reflexivity].
  apply Qeq_bool_eq in E. contradiction.
Qed.

Lemma fdiv_zero a b : b == 0 -> fdiv a b = ZeroDivisionError.
Proof.
  intros H. unfold fdiv. rewrite (Qeq_eq_bool _ _ H). reflexivity.
Qed.

Lemma fgt_true a b : fgt a b = true <-> b < a.
Proof.
  unfold fgt. rewrite negb_true_iff. split.
  - intros H. apply Qnot_le_lt. intros Hle.
    apply Qle_bool_iff in Hle. congruence.
  - intros H. destruct (Qle_bool a b) eqn:E; [| reflexivity].
    apply Qle_bool_iff in E. exfalso. apply (Qlt_not_le _ _ H E).
Qed.

Lemma fgt_false a b : fgt a b = false <-> a <= b.
Proof.
  unfold fgt. rewrite negb_false_iff. apply Qle_bool_iff.
Qed.

Lemma inject_Z_nonzero z : z <> 0%Z -> ~ inject_Z z == 0.
Proof.
  intros H E. apply H. unfold Qeq in E. simpl in E. lia.
Qed.

(** The aspect ratio of an image is not zero unless it has a height and
    no width. *)
Lemma aspect_ratio_nonzero default img :
  ~ default == 0 ->
  ((0 < height img)%Z -> width img <> 0%Z) ->
  ~ aspect_ratio_or default img == 0.
Proof.
  intros Hd Hw. unfold aspect_ratio_or.
  destruct (Z.gtb_spec (height img) 0) as [Hh | Hh]; [| exact Hd].
  intros E. apply (Hw Hh).
  unfold Qeq, Qdiv, Qmult, Qinv, inject_Z in E. simpl in E.
  destruct (height img) as [| p | p]; try lia. simpl in E. lia.
Qed.

Lemma aspect_ratio_flat default img :
  (height img <= 0)%Z -> aspect_ratio_or default img = default.
Proof.
  intros H. unfold aspect_ratio_or.
  destruct (Z.gtb_spec (height img) 0); [lia | reflexivity].
Qed.

End Arithmetic.

Section Loops.
Context {A B : Type}.

Lemma for_enumerate_ok (f : Z -> A -> outcome B) (g : B -> A) (P : B -> Prop) l :
  (forall idx x, In x l -> exists y, f idx x = Ok y /\ g y = x /\ P y) ->
  forall idx, exists ys,
    for_enumerate f idx l = Ok ys /\ map g ys = l /\ Forall P ys.
Proof.
  induction l as [| x l IH]; intros H idx.
  - exists []. simpl. auto.
  - destruct (H idx x (or_introl eq_refl)) as [y [Hy [Hg HP]]].
    destruct (IH (fun i z Hz => H i z (or_intror Hz)) (idx + 1)%Z)
      as [ys [Hys [Hm HF]]].
    exists (y :: ys). simpl. rewrite Hy. simpl. rewrite Hys. simpl.
    rewrite Hg, Hm. auto.
Qed.

(** A loop whose body adds one slide at each turn. *)
Lemma for_each_ok {X : Type} (f : X -> outcome (list B)) (R : X -> B -> Prop) l :
  (forall x, In x l -> exists y, f x = Ok [y] /\ R x y) ->
  exists ys, for_each f l = Ok ys /\ Forall2 R l ys.
Proof.
  induction l as [| x l IH]; intros H.
  - exists []. simpl. auto.
  - destruct (H x (or_introl eq_refl)) as [y [Hy HR]].
    destruct (IH (fun z Hz => H z (or_intror Hz))) as [ys [Hys HF]].
    exists (y :: ys). simpl. rewrite Hy. simpl. rewrite Hys. simpl. auto.
Qed.

End Loops.

Section Columns.
Local Open Scope Q_scope.
Variable self : generator.

Lemma slice_picture_ok area_x area_width share default slice_height idx img :
  ~ default == 0 ->
  ((0 < height img)%Z -> width img <> 0%Z) ->
  exists p,
    slice_picture self area_x area_width share default slice_height idx img = Ok p /\
    pic_image p = img /\ keeps_ratio default p.
Proof.
  intros Hd Hw. unfold slice_picture.
  pose proof (@aspect_ratio_nonzero default img Hd Hw) as Hr.
  rewrite (@fdiv_ok _ _ Hr). cbn [bind].
  destruct (fgt (area_width * share / aspect_ratio_or default img)
                (slice_height - label_h self - label_gap self));
    eexists; (split; [reflexivity |]); (split; [reflexivity |]);
    unfold keeps_ratio; cbn [pic_width pic_height pic_image].
  - reflexivity.
  - field. exact Hr.
Qed.

Lemma column_pictures_ok area_x area_width share default batch :
  ~ default == 0 ->
  (forall img, In img batch -> (0 < height img)%Z -> width img <> 0%Z) ->
  exists pics,
    column_pictures self area_x area_width share default batch = Ok pics /\
    map pic_image pics = batch /\ Forall (keeps_ratio default) pics.
Proof.
  intros Hd Hw. unfold column_pictures. destruct batch as [| img batch].
  - exists []. auto.
  - rewrite fdiv_ok.
    + cbn [bind]. apply for_enumerate_ok. intros idx x Hx.
      apply slice_picture_ok; auto.
    + apply inject_Z_nonzero. simpl length. lia.
Qed.

End Columns.

Section Batches.
Context {A : Type}.

Lemma ceil_quot_spec a b :
  0 < b -> a <= ceil_quot a b * b /\ ceil_quot a b * b < a + b.
Proof.
  intros Hb. unfold ceil_quot.
  pose proof (Nat.div_mod_eq (a + b - 1) b) as Hd.
  pose proof (Nat.mod_upper_bound (a + b - 1) b ltac:(lia)) as Hm.
  nia.
Qed.

Lemma In_slice (l : list A) b e x : In x (slice l b e) -> In x l.
Proof.
  unfold slice. intros H.
  rewrite <- (firstn_skipn b l). apply in_or_app. right.
  rewrite <- (firstn_skipn (e - b) (skipn b l)). apply in_or_app. left. exact H.
Qed.

(** Consecutive batches of [b] entries make the list again. *)
Lemma batches_concat (l : list A) b n :
  concat (map (fun k => slice l (b * k) (b * k + b)) (seq 0 n)) = firstn (b * n) l.
Proof.
  induction n as [| n IH].
  - rewrite Nat.mul_0_r. reflexivity.
  - rewrite seq_S, map_app, concat_app, IH. simpl. rewrite app_nil_r.
    rewrite <- firstn_slice by lia. f_equal. lia.
Qed.

Lemma batches_cover (l : list A) b n :
  length l <= b * n ->
  concat (map (fun k => slice l (b * k) (b * k + b)) (seq 0 n)) = l.
Proof.
  intros H. rewrite batches_concat. apply firstn_all2, H.
Qed.

Lemma Forall2_seq_nth {B : Type} (R : nat -> B -> Prop) n (ys : list B) :
  forall start, Forall2 R (seq start n) ys ->
  length ys = n /\
  forall k y, nth_error ys k = Some y -> R (start + k) y.
Proof.
  revert ys. induction n as [| n IH]; intros ys start H; simpl in H.
  - inversion H; subst. split; [reflexivity |]. intros [| k] y Hk; discriminate.
  - inversion H as [| x y l l' Hxy Hrest]; subst.
    destruct (IH _ _ Hrest) as [Hl Hn]. split; [simpl; congruence |].
    intros [| k] z Hk; simpl in Hk.
    + inversion Hk; subst. rewrite Nat.add_0_r. exact Hxy.
    + replace (start + S k) with (S start + k) by lia. apply Hn, Hk.
Qed.

End Batches.

Section Mixed.
Variable self : generator.

Lemma add_mixed_slide_columns group_label spectrum others :
  (forall img, In img (spectrum ++ others) ->
               (0 < height img)%Z -> width img <> 0%Z) ->
  exists slides,
    add_mixed_slide self group_label spectrum others = Ok slides /\
    Forall2 (mixed_unit others spectrum)
            (seq 0 (Nat.max (ceil_quot (length others) 2)
                            (ceil_quot (length spectrum) 3)))
            slides.
Proof.
  intros Hw.
  assert (Hunits : Nat.max ((length spectrum + 3 - 1) / 3)
                           ((length others + 2 - 1) / 2)
                   = Nat.max (ceil_quot (length others) 2)
                             (ceil_quot (length spectrum) 3))
    by (unfold ceil_quot; apply Nat.max_comm).
  unfold add_mixed_slide. rewrite Hunits.
  apply for_each_ok. intros k _.
  destruct (@column_pictures_ok self (left_margin self)
              (available_width self / 3)%Q (9 # 10)%Q 1%Q
              (slice others (k * 2) (k * 2 + 2)))
    as [lp [Hl [Hlm Hlr]]].
  { discriminate. }
  { intros img Hi. apply Hw, in_or_app. right. apply (In_slice _ _ _ _ Hi). }
  destruct (@column_pictures_ok self
              (left_margin self + available_width self / 3)%Q
              (available_width self * 2 / 3)%Q (95 # 100)%Q 4%Q
              (slice spectrum (k * 3) (k * 3 + 3)))
    as [rp [Hr [Hrm Hrr]]].
  { discriminate. }
  { intros img Hi. apply Hw, in_or_app. left. apply (In_slice _ _ _ _ Hi). }
  eexists. rewrite Hl. cbn [bind]. rewrite Hr. cbn [bind].
  split; [reflexivity |]. exists lp, rp. cbn [pictures].
  rewrite Hlm, Hrm, (Nat.mul_comm 2 k), (Nat.mul_comm 3 k). auto.
Qed.

Lemma add_spectrum_slide_ok group_label images :
  (forall img, In img images -> (0 < height img)%Z -> width img <> 0%Z) ->
  exists slides,
    add_spectrum_slide self group_label images = Ok slides /\
    Forall (fun s => Forall (keeps_ratio 4%Q) (pictures s)) slides.
Proof.
  intros Hw. unfold add_spectrum_slide.
  match goal with
  | |- exists slides, for_each ?f ?l = Ok slides /\ _ =>
      destruct (@for_each_ok _ _ f
                  (fun _ s => Forall (keeps_ratio 4%Q) (pictures s)) l)
        as [slides [Hs HF]]
  end.
  { intros k _.
    destruct (@column_pictures_ok self (left_margin self)
                (available_width self) (95 # 100)%Q 4%Q
                (slice images k (k + 3)))
      as [pics [Hp [_ Hr]]].
    { discriminate. }
    { intros img Hi. apply Hw. apply (In_slice _ _ _ _ Hi). }
    eexists. rewrite Hp. cbn [bind]. split; [reflexivity | exact Hr]. }
  exists slides. split; [exact Hs |].
  clear Hs. induction HF; constructor; auto.
Qed.

End Mixed.

Section Fit.
Local Open Scope Q_scope.
Variable self : generator.

Lemma calculate_image_dimensions_ok rows cols ratio :
  ~ ratio == 0 -> rows <> 0%Z -> cols <> 0%Z -> ~ cell_height_of self rows == 0 ->
  exists img_w img_h,
    calculate_image_dimensions self rows cols ratio = Ok (img_w, img_h) /\
    img_w == img_h * ratio /\
    img_h <= cell_height_of self rows - label_h self - label_gap self /\
    (ratio < cell_width_of self cols / cell_height_of self rows ->
     img_h == cell_height_of self rows - label_h self - label_gap self).
Proof.
  intros Hr Hrows Hcols Hcell. unfold calculate_image_dimensions.
  rewrite (@fdiv_ok _ _ (inject_Z_nonzero Hcols)). cbn [bind].
  rewrite (@fdiv_ok _ _ (inject_Z_nonzero Hrows)). cbn [bind].
  fold (cell_width_of self cols). fold (cell_height_of self rows).
  rewrite (@fdiv_ok _ _ Hcell). cbn [bind].
  destruct (fgt (cell_width_of self cols / cell_height_of self rows) ratio) eqn:Eq.
  - do 2 eexists. split; [reflexivity |].
    split; [reflexivity |]. split; [apply Qle_refl |]. intros _. reflexivity.
  - apply fgt_false in Eq. rewrite (@fdiv_ok _ _ Hr). cbn [bind].
    destruct (fgt (cell_width_of self cols * (95 # 100) / ratio)
                  (cell_height_of self rows - label_h self - label_gap self)) eqn:Eh.
    + do 2 eexists. split; [reflexivity |].
      split; [reflexivity |]. split; [apply Qle_refl |].
      intros Hlt. exfalso. apply (Qlt_not_le _ _ Hlt Eq).
    + apply fgt_false in Eh. do 2 eexists. split; [reflexivity |].
      split; [field; exact Hr |]. split; [exact Eh |].
      intros Hlt. exfalso. apply (Qlt_not_le _ _ Hlt Eq).
Qed.

(** What [calculate_image_dimensions] returns, in terms of the cell it
    computes, from whose height the labels are already taken: a width and
    a height in the ratio asked for, the height at most that of the cell
    less the label and its gap once more, and equal to it in the
    height-constrained branch. *)
Lemma calculate_image_dimensions_fit rows cols ratio :
  0 < ratio -> rows <> 0%Z -> cols <> 0%Z -> ~ cell_height_of self rows == 0 ->
  exists img_w img_h,
    calculate_image_dimensions self rows cols ratio = Ok (img_w, img_h) /\
    img_w == img_h * ratio /\
    img_h <= cell_height_of self rows - label_h self - label_gap self /\
    (ratio < cell_width_of self cols / cell_height_of self rows ->
     img_h == cell_height_of self rows - label_h self - label_gap self /\
     img_w == img_h * ratio).
Proof.
  intros Hr Hrows Hcols Hcell.
  assert (Hr0 : ~ ratio == 0).
  { intros E. rewrite E in Hr. apply (Qlt_irrefl _ Hr). }
  destruct (calculate_image_dimensions_ok Hr0 Hrows Hcols Hcell)
    as [w [h [Hc [Hw [Hh Hb]]]]].
  exists w, h. repeat split; auto.
Qed.

End Fit.

Section FitExamples.
Local Open Scope Q_scope.

(** C6: on the slide of [__init__], one square image in a grid of one row
    and one column.  The cell of the grid is 5715000 high and leaves
    5257800 above the label; the image is height-constrained, as the
    condition of the claim says.  The visual layout gives it the height
    [cell_h - label_h - label_gap] = 5257800 that the claim states, and
    [calculate_image_dimensions] gives it 4800600, the label and its gap
    taken from the height of the cell twice. *)
Theorem calculate_image_dimensions_labels_twice :
  let self := init [] in
  let cell_w := available_width self / 1 in
  let cell_h := available_height self / 1 in
  let square := entry_of $"a.tif" 100 100 None None in
  aspect_ratio_or 1 square == 1 /\
  aspect_ratio_or 1 square < cell_w / (cell_h - label_h self - label_gap self) /\
  cell_h - label_h self - label_gap self == 5257800 /\
  (exists img_w img_h,
     calculate_image_dimensions self 1 1 (aspect_ratio_or 1 square)
     = Ok (img_w, img_h) /\
     img_h == 4800600 /\
     img_h == cell_h - 2 * (label_h self + label_gap self) /\
     Qeq_bool img_h (cell_h - label_h self - label_gap self) = false) /\
  (exists p,
     region_picture self 0 0 cell_w cell_h 1 0 square = Ok p /\
     pic_height p == cell_h - label_h self - label_gap self).
Proof.
  cbv zeta. split; [reflexivity |]. split; [reflexivity |].
  split; [reflexivity |]. split.
  - do 2 eexists. split; [vm_compute; reflexivity |]. repeat split; reflexivity.
  - eexists. split; [vm_compute; reflexivity |]. reflexivity.
Qed.

End FitExamples.

Section DegenerateImages.
Local Open Scope Q_scope.

Lemma grid_rows_cols_positive (n : Z) :
  (0 < n)%Z ->
  (0 < fst (calculate_grid_layout n))%Z /\ (0 < snd (calculate_grid_layout n))%Z.
Proof.
  intros Hn. destruct (Z_le_gt_dec n 20) as [Hle | Hgt].
  - unfold calculate_grid_layout.
    repeat match goal with
           | |- context [Z.eqb ?a ?b] => destruct (Z.eqb_spec a b); try lia
           | |- context [Z.leb ?a ?b] => destruct (Z.leb_spec a b); try lia
           end; simpl; lia.
  - rewrite grid_large by lia. cbn [fst snd].
    pose proof (@ceil_sqrt_spec n ltac:(lia)) as [Hc Hs].
    pose proof (@ceil_div_spec n (ceil_sqrt n) Hc) as Hq.
    unfold is_ceil_quot in Hq. nia.
Qed.

(** On the slide of [__init__] no number of rows gives a cell without
    height: 12.5 rows would. *)
Lemma init_cell_height profiles rows :
  rows <> 0%Z -> ~ cell_height_of (init profiles) rows == 0.
Proof.
  intros Hrows E. unfold cell_height_of in E.
  change (available_height (init profiles)) with (inject_Z 5715000) in E.
  change (label_h (init profiles)) with (inject_Z 365760) in E.
  change (label_gap (init profiles)) with (inject_Z 91440) in E.
  pose proof (@inject_Z_nonzero rows Hrows) as Hq.
  set (a := inject_Z 5715000 - (inject_Z 365760 + inject_Z 91440) * inject_Z rows) in E.
  assert (Ha : a == 0).
  { setoid_replace a with (a / inject_Z rows * inject_Z rows) by (field; exact Hq).
    rewrite E. ring. }
  unfold a in Ha.
  rewrite <- inject_Z_plus, <- inject_Z_mult in Ha.
  unfold Qminus in Ha. rewrite <- inject_Z_opp, <- inject_Z_plus in Ha.
  unfold Qeq, inject_Z in Ha. cbn [Qnum Qden] in Ha. lia.
Qed.

Lemma standard_picture_ok profiles rows cols cell_width cell_height idx img :
  rows <> 0%Z -> cols <> 0%Z ->
  ((0 < height img)%Z -> width img <> 0%Z) ->
  exists p,
    standard_picture (init profiles) rows cols cell_width cell_height idx img = Ok p /\
    pic_image p = img /\ keeps_ratio 1 p.
Proof.
  intros Hrows Hcols Hw. unfold standard_picture.
  assert (Hr : ~ aspect_ratio_or 1 img == 0)
    by (apply aspect_ratio_nonzero; [discriminate | exact Hw]).
  destruct (@calculate_image_dimensions_ok (init profiles) rows cols
              (aspect_ratio_or 1 img) Hr Hrows Hcols
              (@init_cell_height profiles rows Hrows))
    as [w [h [Hc [Hwh _]]]].
  rewrite Hc. cbn [bind]. eexists. split; [reflexivity |].
  split; [reflexivity |]. exact Hwh.
Qed.

Lemma add_standard_slide_ok profiles group_label images :
  images <> [] ->
  (forall img, In img images -> (0 < height img)%Z -> width img <> 0%Z) ->
  exists pics,
    add_standard_slide (init profiles) group_label images
    = Ok [Slide (group_title group_label) pics] /\
    map pic_image pics = images /\ Forall (keeps_ratio 1) pics.
Proof.
  intros Hne Hw. unfold add_standard_slide.
  destruct images as [| img0 images]; [congruence |].
  set (l := img0 :: images) in *.
  assert (Hn : (0 < Z.of_nat (length l))%Z) by (unfold l; simpl length; lia).
  destruct (grid_rows_cols_positive Hn) as [Hrows Hcols].
  destruct (calculate_grid_layout (Z.of_nat (length l))) as [rows cols].
  cbn [fst snd] in Hrows, Hcols.
  rewrite (@fdiv_ok _ (inject_Z cols)) by (apply inject_Z_nonzero; lia).
  cbn [bind].
  rewrite (@fdiv_ok _ (inject_Z rows)) by (apply inject_Z_nonzero; lia).
  cbn [bind].
  match goal with
  | |- context [for_enumerate ?f 0%Z l] =>
      destruct (@for_enumerate_ok _ _ f pic_image (keeps_ratio 1) l)
        with (idx := 0%Z) as [pics [Hp [Hm Hk]]]
  end.
  { intros idx x Hx. apply standard_picture_ok; try lia. apply Hw, Hx. }
  exists pics. rewrite Hp. cbn [bind]. auto.
Qed.

Lemma region_picture_ok self region_x region_y cell_width cell_height cols idx img :
  ~ cell_height - label_h self - label_gap self == 0 ->
  ((0 < height img)%Z -> width img <> 0%Z) ->
  exists p,
    region_picture self region_x region_y cell_width cell_height cols idx img = Ok p /\
    pic_image p = img /\ keeps_ratio 1 p.
Proof.
  intros Hcell Hw. unfold region_picture.
  assert (Hr : ~ aspect_ratio_or 1 img == 0)
    by (apply aspect_ratio_nonzero; [discriminate | exact Hw]).
  rewrite (@fdiv_ok _ _ Hcell). cbn [bind].
  destruct (fgt (cell_width / (cell_height - label_h self - label_gap self))
                (aspect_ratio_or 1 img)).
  - cbn [bind]. eexists. split; [reflexivity |]. split; [reflexivity |].
    unfold keeps_ratio. cbn [pic_width pic_height pic_image]. reflexivity.
  - rewrite (@fdiv_ok _ _ Hr). cbn [bind].
    destruct (fgt (cell_width * (95 # 100) / aspect_ratio_or 1 img)
                  (cell_height - label_h self - label_gap self));
      cbn [bind]; eexists; (split; [reflexivity |]); (split; [reflexivity |]);
      unfold keeps_ratio; cbn [pic_width pic_height pic_image].
    + reflexivity.
    + field. exact Hr.
Qed.

End DegenerateImages.

Section DegenerateTheorem.
Local Open Scope Q_scope.

(** C7, as stated: on the slide of [__init__], a spectrum image without
    height is laid out with the aspect ratio 4, not 1, and a spectrum
    image without width makes the horizontal branch raise
    [ZeroDivisionError]. *)
Lemma spectrum_degenerate_images :
  (exists p,
     add_spectrum_slide (init []) $"SPEC1"
       [entry_of $"s.tif" 100 0 (Some $"Spectrum") (Some $"0001")]
     = Ok [Slide $"Group SPEC1" [p]] /\
     pic_width p == pic_height p * 4 /\
     Qeq_bool (pic_width p) (pic_height p * 1) = false) /\
  add_spectrum_slide (init []) $"SPEC1"
    [entry_of $"s.tif" 0 100 (Some $"Spectrum") (Some $"0001")]
  = ZeroDivisionError.
Proof.
  split; [| vm_compute; reflexivity].
  eexists. split; [vm_compute; reflexivity |]. split; reflexivity.
Qed.

(** C7, amended: an image without height does not make the layout of a
    branch raise, and is laid out with the aspect ratio 1 by the grid, by
    the regions of a visual profile and on the left of a mixed unit, and
    with the aspect ratio 4 by the horizontal branch and on the right of a
    mixed unit.  This holds of every group of images of pixel sizes below
    2^31 in which no image has a height and no width. *)
Theorem zero_height_aspect_ratio self images :
  (forall img, In img images -> pixel_sized img) ->
  (forall img, In img images -> (0 < height img)%Z -> width img <> 0%Z) ->
  (forall img default, height img = 0%Z -> aspect_ratio_or default img = default) /\
  (forall profiles group_label,
     images <> [] ->
     exists pics,
       add_standard_slide (init profiles) group_label images
       = Ok [Slide (group_title group_label) pics] /\
       map pic_image pics = images /\ Forall (keeps_ratio 1) pics) /\
  (forall group_label,
     exists slides,
       add_spectrum_slide self group_label images = Ok slides /\
       Forall (fun s => Forall (keeps_ratio 4) (pictures s)) slides) /\
  (forall group_label spectrum others,
     images = spectrum ++ others ->
     exists slides,
       add_mixed_slide self group_label spectrum others = Ok slides /\
       Forall2 (mixed_unit others spectrum)
               (seq 0 (Nat.max (ceil_quot (length others) 2)
                               (ceil_quot (length spectrum) 3)))
               slides) /\
  (forall region_x region_y cell_width cell_height cols idx img,
     In img images ->
     ~ cell_height - label_h self - label_gap self == 0 ->
     exists p,
       region_picture self region_x region_y cell_width cell_height cols idx img
       = Ok p /\
       pic_image p = img /\ keeps_ratio 1 p).
Proof.
  intros _ Hw. split; [| split; [| split; [| split]]].
  - intros img default Hh. apply aspect_ratio_flat. lia.
  - intros profiles group_label Hne. apply add_standard_slide_ok; assumption.
  - intros group_label. apply add_spectrum_slide_ok, Hw.
  - intros group_label spectrum others E. apply add_mixed_slide_columns.
    rewrite <- E. exact Hw.
  - intros rx ry cw ch cols idx img Hi Hc. apply region_picture_ok; auto.
Qed.

Lemma zero_height_aspect_ratio_witness :
  exists slides,
    add_spectrum_slide (init []) $"SPEC1"
      [entry_of $"s.tif" 100 0 (Some $"Spectrum") (Some $"0001")]
    = Ok slides /\
    Forall (fun s => Forall (keeps_ratio 4) (pictures s)) slides.
Proof.
  apply (@zero_height_aspect_ratio (init [])
           [entry_of $"s.tif" 100 0 (Some $"Spectrum") (Some $"0001")]).
  - intros img [<- | []]. unfold pixel_sized. cbn [width height entry_of]. lia.
  - intros img [<- | []] H. simpl in H. discriminate.
Defined.

End DegenerateTheorem.

Section Profiles.

Lemma opt_str_eqb_eq a b : opt_str_eqb a b = true <-> a = b.
Proof.
  destruct a as [x |], b as [y |]; simpl; try (split; [discriminate | discriminate]).
  - rewrite str_eqb_eq. split; [intros ->; reflexivity | intros E; inversion E; auto].
  - tauto.
Qed.

Lemma dict_get_append_other {V : Type} k k' (v : V) d :
  k' <> k -> dict_get opt_str_eqb k d = None ->
  dict_get opt_str_eqb k (dict_append opt_str_eqb k' v d) = None.
Proof.
  intros Hne. induction d as [| [k0 vs] d IH]; simpl.
  - intros _. destruct (opt_str_eqb k' k) eqn:E; [| reflexivity].
    apply opt_str_eqb_eq in E. contradiction.
  - destruct (opt_str_eqb k0 k) eqn:E0; [discriminate |]. intros Hd.
    destruct (opt_str_eqb k0 k'); simpl; rewrite E0; auto.
Qed.

(** No image under an identifier, no entry of the dict for it. *)
Lemma group_by_identifier_none images k :
  (forall img, In img images -> identifier img <> k) ->
  dict_get opt_str_eqb k (group_by_identifier images) = None.
Proof.
  unfold group_by_identifier.
  assert (H : forall d, dict_get opt_str_eqb k d = None ->
            (forall img, In img images -> identifier img <> k) ->
            dict_get opt_str_eqb k
              (fold_left (fun d img => dict_append opt_str_eqb (identifier img) img d)
                         images d) = None).
  { induction images as [| img images IH]; intros d Hd Hn; simpl; [exact Hd |].
    apply IH.
    - apply dict_get_append_other; [apply Hn; left; reflexivity | exact Hd].
    - intros x Hx. apply Hn. right. exact Hx. }
  apply H. reflexivity.
Qed.

Lemma for_each_nothing {X B : Type} (f : X -> outcome (list B)) l :
  (forall x, In x l -> f x = Ok []) -> for_each f l = Ok [].
Proof.
  induction l as [| x l IH]; intros H; simpl; [reflexivity |].
  rewrite (H x (or_introl eq_refl)). simpl.
  rewrite IH by (intros z Hz; apply H; right; exact Hz). reflexivity.
Qed.

Lemma filter_none {X : Type} (f : X -> bool) l :
  (forall x, In x l -> f x = false) -> filter f l = [].
Proof.
  induction l as [| x l IH]; intros H; simpl; [reflexivity |].
  rewrite (H x (or_introl eq_refl)). apply IH. intros z Hz. apply H. right. exact Hz.
Qed.

Lemma filter_all {X : Type} (f : X -> bool) l :
  (forall x, In x l -> f x = true) -> filter f l = l.
Proof.
  induction l as [| x l IH]; intros H; simpl; [reflexivity |].
  rewrite (H x (or_introl eq_refl)). f_equal. apply IH.
  intros z Hz. apply H. right. exact Hz.
Qed.

(** C8, as stated: a visual profile whose only region is for UD, on a
    group with one LD image, gives a slide with a title and no picture,
    where the grid branch places the image. *)
Lemma visual_profile_without_match :
  let img := entry_of $"0001 LD.tif" 640 480 (Some $"LD") (Some $"0001") in
  let prof := Profile (Some $"visual") [Region $"UD" 0 0 1 1] in
  add_group_slide (init [($"0001", prof)]) $"0001" [img]
  = Ok [Slide $"Group 0001" []] /\
  exists p,
    add_standard_slide (init [($"0001", prof)]) $"0001" [img]
    = Ok [Slide $"Group 0001" [p]].
Proof.
  split; [vm_compute; reflexivity |].
  eexists. vm_compute. reflexivity.
Qed.

(** C8, amended: a visual profile without regions is composed by the grid
    branch.  A visual profile none of whose regions has an image of its
    identifier gives one unit without pictures; a horizontal profile is
    composed by the horizontal branch on all the images of the group, and
    a mixed profile on a group without spectrum images takes the first
    three images as the spectrum side, whatever their identifiers.
    Without a profile, a group without spectrum images is composed by
    the grid branch. *)
Theorem add_group_slide_profiles self group_label images :
  images <> [] ->
  (forall prof,
     dict_get str_eqb group_label (layout_profiles self) = Some prof ->
     (p_type prof = Some $"visual" -> p_regions prof = [] ->
      add_group_slide self group_label images
      = add_standard_slide self group_label images) /\
     (p_type prof = Some $"visual" -> p_regions prof <> [] ->
      (forall r img, In r (p_regions prof) -> In img images ->
                     identifier img <> Some (r_identifier r)) ->
      add_group_slide self group_label images
      = Ok [Slide (group_title group_label) []]) /\
     (p_type prof = Some $"grid" ->
      add_group_slide self group_label images
      = add_standard_slide self group_label images) /\
     (p_type prof = Some $"horizontal" ->
      add_group_slide self group_label images
      = add_spectrum_slide self group_label images) /\
     (p_type prof = Some $"mixed" ->
      (forall img, In img images -> is_spectrum img = false) ->
      add_group_slide self group_label images
      = add_mixed_slide self group_label (firstn 3 images) (skipn 3 images))) /\
  (dict_get str_eqb group_label (layout_profiles self) = None ->
   (forall img, In img images -> is_spectrum img = false) ->
   add_group_slide self group_label images
   = add_standard_slide self group_label images).
Proof.
  intros Hne. destruct images as [| img0 images]; [congruence |].
  set (l := img0 :: images) in *.
  split.
  - intros prof Hd. unfold add_group_slide. fold l. rewrite Hd.
    repeat split.
    + intros Ht Hr. rewrite Ht. cbn [str_eqb]. 
      change (str_eqb $"visual" $"visual") with true. cbv iota.
      unfold add_visual_custom_slide. rewrite Hr. reflexivity.
    + intros Ht Hr Hno. rewrite Ht.
      change (str_eqb $"visual" $"visual") with true. cbv iota.
      unfold add_visual_custom_slide.
      destruct (p_regions prof) as [| r rs] eqn:Er; [congruence |].
      rewrite for_each_nothing; [reflexivity |].
      intros r' Hr'. unfold region_pictures.
      rewrite group_by_identifier_none; [reflexivity |].
      intros img Hi. apply Hno; assumption.
    + intros Ht. rewrite Ht. reflexivity.
    + intros Ht. rewrite Ht. reflexivity.
    + intros Ht Hs. rewrite Ht.
      change (str_eqb $"mixed" $"visual") with false.
      change (str_eqb $"mixed" $"grid") with false.
      change (str_eqb $"mixed" $"horizontal") with false.
      change (str_eqb $"mixed" $"mixed") with true. cbv iota.
      unfold forced_mixed_slide. rewrite (filter_none _ _ Hs).
      destruct (skipn 3 l) as [| x rest] eqn:Es; [| reflexivity].
      assert (Hl : (3 <? length l) = false).
      { apply Nat.ltb_ge. apply (f_equal (@length _)) in Es.
        rewrite length_skipn in Es. change (length (@nil image)) with 0 in Es.
        lia. }
      rewrite Hl. reflexivity.
  - intros Hd Hs. unfold add_group_slide. fold l. rewrite Hd.
    unfold auto_slide. rewrite (filter_none _ _ Hs). reflexivity.
Qed.

Lemma add_group_slide_profiles_witness :
  add_group_slide
    (init [($"0001", Profile (Some $"visual") [])]) $"0001"
    [entry_of $"0001 LD.tif" 640 480 (Some $"LD") (Some $"0001")]
  = add_standard_slide
      (init [($"0001", Profile (Some $"visual") [])]) $"0001"
      [entry_of $"0001 LD.tif" 640 480 (Some $"LD") (Some $"0001")].
Proof.
  refine (proj1 (proj1 (@add_group_slide_profiles
            (init [($"0001", Profile (Some $"visual") [])]) $"0001"
            [entry_of $"0001 LD.tif" 640 480 (Some $"LD") (Some $"0001")] _)
          (Profile (Some $"visual") []) _) _ _); try reflexivity.
  discriminate.
Defined.

End Profiles.

Section Groups.

(** C10: the label does not tell the metadata apart.  A custom group
    "SPEC2", under any identifier, and the group "0002" under Spectrum are
    both shown as "SPEC2"; [generate_presentation] groups the entries by
    label, so that two such entries end in one group and on one slide. *)
Theorem format_group_label_not_injective :
  (forall id, format_group_label (Some $"SPEC2") id = $"SPEC2") /\
  format_group_label (Some $"0002") (Some $"Spectrum") = $"SPEC2" /\
  (forall id : option str,
     (Some $"SPEC2", id) <> (Some $"0002", Some $"Spectrum")) /\
  (forall a b,
     numerical_prefix a = Some $"SPEC2" ->
     numerical_prefix b = Some $"0002" -> identifier b = Some $"Spectrum" ->
     groups_dict [a; b] None = [($"SPEC2", [a; b])]) /\
  (let a := entry_of $"x UD.tif" 640 480 (Some $"UD") (Some $"SPEC2") in
   let b := entry_of $"Spectrum 2.tif" 640 480 (Some $"Spectrum") (Some $"0002") in
   exists s,
     generate_presentation (init []) [a; b] None = Ok [s] /\
     title s = $"Group SPEC2" /\
     map pic_image (pictures s) = [a; b]).
Proof.
  split; [| split; [| split; [| split]]].
  - intros id. apply format_custom. reflexivity.
  - reflexivity.
  - intros id E. inversion E.
  - intros a b Ha Hb Hi. unfold groups_dict. cbn [fold_left].
    rewrite Ha, Hb, Hi.
    rewrite (@format_custom $"SPEC2" (identifier a) eq_refl).
    reflexivity.
  - eexists. split; [vm_compute; reflexivity |]. split; reflexivity.
Qed.

Lemma format_group_label_not_injective_witness :
  groups_dict
    [entry_of $"x UD.tif" 640 480 (Some $"UD") (Some $"SPEC2");
     entry_of $"Spectrum 2.tif" 640 480 (Some $"Spectrum") (Some $"0002")] None
  = [($"SPEC2",
      [entry_of $"x UD.tif" 640 480 (Some $"UD") (Some $"SPEC2");
       entry_of $"Spectrum 2.tif" 640 480 (Some $"Spectrum") (Some $"0002")])].
Proof.
  apply (proj1 (proj2 (proj2 (proj2 format_group_label_not_injective))));
    reflexivity.
Defined.

End Groups.

(** * Further properties *)

From Stdlib Require Import Lqa Permutation.
From Stdlib Require DecimalZ DecimalPos.

Import Placement Grouping Occurrence.

(** * The grid *)

Section GridShape.
Local Open Scope Z_scope.

Lemma grid_small_cases (n : Z) :
  0 < n <= 20 ->
  exists rows cols,
    calculate_grid_layout n = (rows, cols) /\
    In (rows, cols) [(1, 1); (1, 2); (2, 2); (2, 3); (3, 3); (3, 4); (4, 4); (4, 5)] /\
    (rows - 1) * cols < n <= rows * cols.
Proof.
  intros H. unfold calculate_grid_layout.
  repeat match goal with
         | |- context [Z.eqb ?a ?b] => destruct (Z.eqb_spec a b); try lia
         | |- context [Z.leb ?a ?b] => destruct (Z.leb_spec a b); try lia
         end; do 2 eexists; (split; [reflexivity |]); (split; [simpl; tauto | lia]).
Qed.

Lemma grid_bounds (n : Z) :
  0 < n ->
  let (rows, cols) := calculate_grid_layout n in
  0 < rows /\ rows <= cols <= rows + 1 /\ (rows - 1) * cols < n <= rows * cols.
Proof.
  intros Hn. destruct (Z_le_gt_dec n 20) as [Hle | Hgt].
  - destruct (@grid_small_cases n ltac:(lia)) as [rows [cols [E [Hin Hb]]]].
    rewrite E. simpl in Hin.
    repeat (destruct Hin as [Hin | Hin]; [inversion Hin; subst; lia |]).
    contradiction.
  - rewrite grid_large by lia.
    pose proof (@ceil_sqrt_spec n ltac:(lia)) as [Hc Hs].
    pose proof (@ceil_div_spec n (ceil_sqrt n) Hc) as Hq.
    unfold is_ceil_quot in Hq.
    set (c := ceil_sqrt n) in *. set (r := ceil_div n c) in *.
    repeat split; try lia; nia.
Qed.

(** X1: For up to 2^52 images, the counts for which the floats of the
    program are exact, the grid of [calculate_grid_layout] has as many
    columns as rows, or one column more.  Image [idx] of [n] goes to row
    [idx // cols] and column [idx % cols], which are a row and a column of
    the grid; the cell determines the image, so that no two images share a
    cell. *)
Theorem calculate_grid_layout_shape (n : Z) :
  n <= exact_count ->
  let (rows, cols) := calculate_grid_layout n in
  rows <= cols <= rows + 1 /\
  (forall idx, 0 <= idx < n ->
     0 <= idx / cols < rows /\ 0 <= idx mod cols < cols /\
     idx = (idx / cols) * cols + idx mod cols).
Proof.
  intros _.
  destruct (Z_lt_le_dec 0 n) as [Hpos | Hneg].
  - pose proof (grid_bounds Hpos) as Hb.
    destruct (calculate_grid_layout n) as [rows cols].
    destruct Hb as [Hr [Hrc Hn]]. split; [exact Hrc |].
    intros idx Hi.
    assert (Hc : 0 < cols) by lia.
    pose proof (Z.div_mod idx cols ltac:(lia)) as Hd.
    pose proof (Z.mod_pos_bound idx cols Hc) as Hm.
    assert (0 <= idx / cols) by (apply Z.div_pos; lia).
    repeat split; try lia; nia.
  - assert (E : calculate_grid_layout n = (0, 0) \/ calculate_grid_layout n = (2, 2)).
    { unfold calculate_grid_layout.
      repeat match goal with
             | |- context [Z.eqb ?a ?b] => destruct (Z.eqb_spec a b); try lia
             | |- context [Z.leb ?a ?b] => destruct (Z.leb_spec a b); try lia
             end; auto. }
    destruct E as [-> | ->]; (split; [lia |]); intros idx Hi; lia.
Qed.

End GridShape.

Section FitErrors.
Local Open Scope Q_scope.
Variable self : generator.

(** X2: [calculate_image_dimensions] raises [ZeroDivisionError] in these cases
    and in no other: a grid without columns or without rows, a cell whose
    height is 0 once the labels are taken off, and an aspect ratio 0 when
    the width-constrained branch is taken. *)
Theorem calculate_image_dimensions_raises rows cols ratio :
  calculate_image_dimensions self rows cols ratio = ZeroDivisionError <->
  cols = 0%Z \/ rows = 0%Z \/ cell_height_of self rows == 0 \/
  (ratio == 0 /\ cell_width_of self cols / cell_height_of self rows <= 0).
Proof.
  unfold calculate_image_dimensions.
  destruct (Z.eq_dec cols 0) as [-> | Hc].
  { split; [auto | reflexivity]. }
  rewrite (@fdiv_ok _ _ (inject_Z_nonzero Hc)). cbn [bind].
  destruct (Z.eq_dec rows 0) as [-> | Hr].
  { split; [auto | reflexivity]. }
  rewrite (@fdiv_ok _ _ (inject_Z_nonzero Hr)). cbn [bind].
  fold (cell_width_of self cols). fold (cell_height_of self rows).
  unfold fdiv at 1.
  destruct (Qeq_bool (cell_height_of self rows) 0) eqn:Eh.
  { apply Qeq_bool_eq in Eh. split; [auto | reflexivity]. }
  apply Qeq_bool_neq in Eh. cbn [bind].
  destruct (fgt (cell_width_of self cols / cell_height_of self rows) ratio) eqn:Eq.
  - apply fgt_true in Eq. split; [discriminate |].
    intros [H | [H | [H | [H1 H2]]]]; try contradiction.
    rewrite H1 in Eq. exfalso. apply (Qlt_not_le _ _ Eq H2).
  - apply fgt_false in Eq. unfold fdiv.
    destruct (Qeq_bool ratio 0) eqn:Er.
    + apply Qeq_bool_eq in Er. split; [| reflexivity]. intros _.
      right. right. right. split; [exact Er |]. rewrite Er in Eq. exact Eq.
    + apply Qeq_bool_neq in Er. cbn [bind].
      split.
      * destruct (fgt _ _); discriminate.
      * intros [H | [H | [H | [H1 H2]]]]; contradiction.
Qed.

End FitErrors.

Section Enumerate.
Context {A B : Type}.

Lemma for_enumerate_nth (f : Z -> A -> outcome B) (g : B -> A) (P : Z -> B -> Prop) l :
  forall idx,
  (forall k x, nth_error l k = Some x ->
     exists y, f (idx + Z.of_nat k)%Z x = Ok y /\ g y = x /\ P (idx + Z.of_nat k)%Z y) ->
  exists ys,
    for_enumerate f idx l = Ok ys /\ map g ys = l /\
    forall k y, nth_error ys k = Some y -> P (idx + Z.of_nat k)%Z y.
Proof.
  induction l as [| x l IH]; intros idx H.
  - exists []. simpl. repeat split; auto. intros [| k] y Hk; discriminate.
  - destruct (H 0%nat x eq_refl) as [y [Hy [Hg HP]]].
    rewrite Z.add_0_r in Hy, HP.
    destruct (IH (idx + 1)%Z) as [ys [Hys [Hm Hn]]].
    { intros k z Hk. destruct (H (S k) z Hk) as [y' [Hy' [Hg' HP']]].
      replace (idx + 1 + Z.of_nat k)%Z with (idx + Z.of_nat (S k))%Z by lia.
      eauto. }
    exists (y :: ys). simpl. rewrite Hy. simpl. rewrite Hys. simpl.
    rewrite Hg, Hm. repeat split; auto.
    intros [| k] z Hk; simpl in Hk.
    + inversion Hk; subst. rewrite Z.add_0_r. exact HP.
    + replace (idx + Z.of_nat (S k))%Z with (idx + 1 + Z.of_nat k)%Z by lia.
      apply Hn, Hk.
Qed.

End Enumerate.

Section GridPlacement.
Local Open Scope Q_scope.
Variable self : generator.

Hypothesis Hwidth : 0 < available_width self.
Hypothesis Hlabel : 0 <= label_h self.
Hypothesis Hgap : 0 <= label_gap self.

Lemma ratio_positive default img :
  0 < default -> ((0 < height img)%Z -> (0 < width img)%Z) ->
  0 < aspect_ratio_or default img.
Proof.
  intros Hd Hw. unfold aspect_ratio_or.
  destruct (Z.gtb_spec (height img) 0) as [Hh | Hh]; [| exact Hd].
  apply Qlt_shift_div_l.
  - change 0 with (inject_Z 0). rewrite <- Zlt_Qlt. lia.
  - rewrite Qmult_0_l. change 0 with (inject_Z 0). rewrite <- Zlt_Qlt. apply Hw. lia.
Qed.



Lemma inject_Z_pos z : (0 < z)%Z -> 0 < inject_Z z.
Proof. intros H. change 0 with (inject_Z 0). rewrite <- Zlt_Qlt. exact H. Qed.

Lemma inject_Z_nonneg z : (0 <= z)%Z -> 0 <= inject_Z z.
Proof. intros H. change 0 with (inject_Z 0). rewrite <- Zle_Qle. exact H. Qed.



End GridPlacement.

Section Capacity.
Local Open Scope Q_scope.






End Capacity.

(** * The columns of spectra *)

Section ColumnPlacement.
Local Open Scope Q_scope.
Variable self : generator.

Hypothesis Hlabel : 0 <= label_h self.
Hypothesis Hgap : 0 <= label_gap self.

Lemma slice_picture_placed area_x area_width share default slice_height idx img :
  0 < area_width -> 0 < share -> share <= 1 -> 0 < default ->
  label_h self + label_gap self < slice_height ->
  ((0 < height img)%Z -> (0 < width img)%Z) ->
  exists p,
    slice_picture self area_x area_width share default slice_height idx img = Ok p /\
    pic_image p = img /\
    placed_in self
      (Rect area_x (top_margin self + inject_Z idx * slice_height) area_width slice_height)
      p.
Proof.
  intros Haw Hs0 Hs1 Hd Hroom Hw. unfold slice_picture.
  pose proof (@ratio_positive default img Hd Hw) as Hratio.
  set (ratio := aspect_ratio_or default img) in *.
  rewrite (@fdiv_ok _ ratio) by (intros E; rewrite E in Hratio; apply (Qlt_irrefl _ Hratio)).
  cbn [bind].
  set (h0 := area_width * share / ratio).
  assert (Eh0 : h0 * ratio == area_width * share).
  { unfold h0. field. intros E. rewrite E in Hratio. apply (Qlt_irrefl _ Hratio). }
  assert (Hh0 : 0 < h0).
  { unfold h0. apply Qlt_shift_div_l; [exact Hratio |]. nra. }
  set (y0 := top_margin self + inject_Z idx * slice_height).
  destruct (fgt h0 (slice_height - label_h self - label_gap self)) eqn:E.
  - apply fgt_true in E. eexists. split; [reflexivity |]. split; [reflexivity |].
    unfold placed_in.
    cbn [pic_width pic_height pic_x pic_y label_x label_y label_width
         r_left r_top r_width r_height].
    clearbody h0 y0 ratio. unfold Qdiv. change (/ 2) with (1 # 2).
    repeat split; try lra; nra.
  - apply fgt_false in E. eexists. split; [reflexivity |]. split; [reflexivity |].
    unfold placed_in.
    cbn [pic_width pic_height pic_x pic_y label_x label_y label_width
         r_left r_top r_width r_height].
    clearbody h0 y0 ratio. unfold Qdiv. change (/ 2) with (1 # 2).
    repeat split; try lra; nra.
Qed.

Lemma column_pictures_placed area_x area_width share default batch :
  0 < area_width -> 0 < share -> share <= 1 -> 0 < default ->
  (label_h self + label_gap self) * inject_Z (Z.of_nat (length batch))
  < available_height self ->
  (forall img, In img batch -> (0 < height img)%Z -> (0 < width img)%Z) ->
  exists pics,
    column_pictures self area_x area_width share default batch = Ok pics /\
    map pic_image pics = batch /\
    forall j p, nth_error pics j = Some p ->
      placed_in self
        (column_slice self area_x area_width (Z.of_nat (length pics)) (Z.of_nat j)) p.
Proof.
  intros Haw Hs0 Hs1 Hd Hroom Hw. unfold column_pictures.
  destruct batch as [| img batch].
  - exists []. split; [reflexivity |]. split; [reflexivity |].
    intros [| j] q H; discriminate.
  - set (l := img :: batch) in *.
    assert (Hm : 0 < inject_Z (Z.of_nat (length l)))
      by (apply inject_Z_pos; unfold l; simpl length; lia).
    rewrite (@fdiv_ok _ (inject_Z (Z.of_nat (length l))))
      by (intros E; rewrite E in Hm; apply (Qlt_irrefl _ Hm)).
    cbn [bind].
    match goal with
    | |- context [for_enumerate ?f 0%Z l] =>
        destruct (@for_enumerate_nth _ _ f pic_image
                    (fun idx p =>
                       placed_in self
                         (column_slice self area_x area_width (Z.of_nat (length l)) idx) p)
                    l 0%Z)
          as [pics [Hp [Hmap Hk]]]
    end.
    { intros k x Hx. apply slice_picture_placed; auto.
      - apply Qlt_shift_div_l; [exact Hm | exact Hroom].
      - apply Hw. apply (nth_error_In _ _ Hx). }
    exists pics. split; [exact Hp |]. split; [exact Hmap |].
    intros j p Hj.
    replace (length pics) with (length l)
      by (rewrite <- Hmap at 1; apply length_map).
    exact (Hk j p Hj).
Qed.

End ColumnPlacement.

Section Batched.
Context {X B : Type}.

(** A loop over [g 0, g 1, ..., g (n-1)] whose body adds one slide at
    each turn. *)
Lemma for_each_indexed (f : X -> outcome (list B)) (g : nat -> X)
    (R : nat -> B -> Prop) n :
  forall start,
  (forall k, start <= k < start + n -> exists y, f (g k) = Ok [y] /\ R k y) ->
  exists ys,
    for_each f (map g (seq start n)) = Ok ys /\ length ys = n /\
    forall k y, nth_error ys k = Some y -> R (start + k) y.
Proof.
  induction n as [| n IH]; intros start H.
  - exists []. split; [reflexivity |]. split; [reflexivity |].
    intros [| k] y Hk; discriminate.
  - destruct (H start ltac:(lia)) as [y [Hy HR]].
    destruct (IH (S start)) as [ys [Hys [Hl Hn]]].
    { intros k Hk. apply H. lia. }
    exists (y :: ys). cbn [seq map for_each]. rewrite Hy. cbn [bind].
    rewrite Hys. cbn [bind]. split; [reflexivity |].
    split; [simpl; congruence |].
    intros [| k] z Hk; simpl in Hk.
    + inversion Hk; subst. rewrite Nat.add_0_r. exact HR.
    + replace (start + S k) with (S start + k) by lia. apply Hn, Hk.
Qed.

End Batched.

Section SpectrumPlacement.
Local Open Scope Q_scope.
Variable self : generator.

Hypothesis Hwidth : 0 < available_width self.
Hypothesis Hlabel : 0 <= label_h self.
Hypothesis Hgap : 0 <= label_gap self.
Hypothesis Hroom : 3 * (label_h self + label_gap self) < available_height self.

Lemma batch_room {A : Type} (batch : list A) :
  (length batch <= 3)%nat ->
  (label_h self + label_gap self) * inject_Z (Z.of_nat (length batch))
  < available_height self.
Proof.
  intros Hlen.
  assert (H3 : inject_Z (Z.of_nat (length batch)) <= 3).
  { change 3 with (inject_Z 3). rewrite <- Zle_Qle. lia. }
  assert (H0 : 0 <= inject_Z (Z.of_nat (length batch)))
    by (apply inject_Z_nonneg; lia).
  set (m := inject_Z (Z.of_nat (length batch))) in *.
  nra.
Qed.

Lemma slice_short {A : Type} (l : list A) b n : (length (slice l b (b + n)) <= n)%nat.
Proof. unfold slice. rewrite length_firstn. lia. Qed.

(** X5: On a slide with a width, labels that are not negative and a height
    in which three slices hold more than their labels, and for images of
    pixel sizes below 2^31 of which none has a height and no width, the
    horizontal layout adds a slide for every three images, in order; each
    picture lies, with its label, in its own slice of the available area,
    the slices dividing the height in as many parts as the slide has
    images. *)
Theorem add_spectrum_slide_slices group_label images :
  (forall img, In img images -> pixel_sized img) ->
  (forall img, In img images -> (0 < height img)%Z -> (0 < width img)%Z) ->
  exists slides,
    add_spectrum_slide self group_label images = Ok slides /\
    length slides = ceil_quot (length images) 3 /\
    concat (map (fun s => map pic_image (pictures s)) slides) = images /\
    forall k s, nth_error slides k = Some s ->
      map pic_image (pictures s) = slice images (3 * k) (3 * k + 3) /\
      title s
      = (if (3 <? length images)%nat
         then group_title group_label
              ++ part_suffix (Z.of_nat (k + 1)) (Z.of_nat (ceil_quot (length images) 3))
         else group_title group_label) /\
      forall j p, nth_error (pictures s) j = Some p ->
        placed_in self
          (column_slice self (left_margin self) (available_width self)
                        (Z.of_nat (length (pictures s))) (Z.of_nat j)) p.
Proof.
  intros _ Hw. unfold add_spectrum_slide, batch_starts.
  set (n := ((length images + 2) / 3)%nat).
  assert (En : ceil_quot (length images) 3 = n).
  { unfold ceil_quot, n. f_equal. lia. }
  match goal with
  | |- exists slides, for_each ?f (map ?g (seq 0 n)) = Ok slides /\ _ =>
      destruct (@for_each_indexed _ _ f g
                  (fun k s =>
                     map pic_image (pictures s) = slice images (3 * k) (3 * k + 3) /\
                     title s
                     = (if (3 <? length images)%nat
                        then group_title group_label
                             ++ part_suffix (Z.of_nat (k + 1)) (Z.of_nat n)
                        else group_title group_label) /\
                     forall j p, nth_error (pictures s) j = Some p ->
                       placed_in self
                         (column_slice self (left_margin self) (available_width self)
                            (Z.of_nat (length (pictures s))) (Z.of_nat j)) p)
                  n 0%nat)
        as [slides [Hs [Hl Hk]]]
  end.
  { intros k _.
    destruct (@column_pictures_placed self Hgap (left_margin self)
                (available_width self) (95 # 100) 4
                (slice images (3 * k) (3 * k + 3)))
      as [pics [Hp [Hm Hpl]]]; try reflexivity; try discriminate.
    - exact Hwidth.
    - apply batch_room, slice_short.
    - intros img Hi. apply Hw. apply (In_slice _ _ _ _ Hi).
    - eexists. rewrite Hp. cbn [bind]. split; [reflexivity |].
      cbn [pictures title]. split; [exact Hm |]. split; [| exact Hpl].
      replace (3 * k / 3)%nat with k by (rewrite Nat.mul_comm, Nat.div_mul; lia).
      reflexivity. }
  exists slides. rewrite En. split; [exact Hs |]. split; [exact Hl |].
  split; [| intros k s H; exact (Hk k s H)].
  (* the batches make the list again *)
  assert (Hcat : forall (ss : list slide) start,
             (forall k s, nth_error ss k = Some s ->
                map pic_image (pictures s)
                = slice images (3 * (start + k)) (3 * (start + k) + 3)) ->
             concat (map (fun s => map pic_image (pictures s)) ss)
             = concat (map (fun k => slice images (3 * k) (3 * k + 3))
                           (seq start (length ss)))).
  { induction ss as [| s ss IH]; intros start H; [reflexivity |].
    cbn [map concat length seq]. f_equal.
    - rewrite (H 0%nat s eq_refl). rewrite Nat.add_0_r. reflexivity.
    - apply IH. intros k s' Hk'.
      rewrite (H (S k) s' Hk'). f_equal; f_equal; lia. }
  rewrite (Hcat slides 0%nat).
  - rewrite Hl. apply batches_cover.
    unfold n. pose proof (Nat.div_mod_eq (length images + 2) 3) as Hd.
    pose proof (Nat.mod_upper_bound (length images + 2) 3 ltac:(lia)). lia.
  - intros k s H. apply (Hk k s H).
Qed.


(** The columns of a mixed layout: the other images stacked in the left
    third of the available width, the spectrum images in the other two
    thirds. *)
Lemma add_mixed_slide_columns_placed group_label spectrum others :
  (forall img, In img (spectrum ++ others) ->
               (0 < height img)%Z -> (0 < width img)%Z) ->
  exists slides,
    add_mixed_slide self group_label spectrum others = Ok slides /\
    forall k s, nth_error slides k = Some s ->
      title s
      = (if (1 <? length slides)%nat
         then group_title group_label
              ++ part_suffix (Z.of_nat (k + 1)) (Z.of_nat (length slides))
         else group_title group_label) /\
      exists left right,
        pictures s = left ++ right /\
        map pic_image left = slice others (2 * k) (2 * k + 2) /\
        map pic_image right = slice spectrum (3 * k) (3 * k + 3) /\
        (forall j p, nth_error left j = Some p ->
           placed_in self
             (column_slice self (left_margin self) (available_width self / 3)
                           (Z.of_nat (length left)) (Z.of_nat j)) p) /\
        (forall j p, nth_error right j = Some p ->
           placed_in self
             (column_slice self (left_margin self + available_width self / 3)
                           (available_width self * 2 / 3)
                           (Z.of_nat (length right)) (Z.of_nat j)) p).
Proof.
  intros Hw. unfold add_mixed_slide.
  set (n := Nat.max ((length spectrum + 3 - 1) / 3) ((length others + 2 - 1) / 2)).
  rewrite <- (map_id (seq 0 n)).
  match goal with
  | |- exists slides, for_each ?f (map ?g (seq 0 n)) = Ok slides /\ _ =>
      destruct (@for_each_indexed _ _ f g
                  (fun k s =>
                     title s
                     = (if (1 <? n)%nat
                        then group_title group_label
                             ++ part_suffix (Z.of_nat (k + 1)) (Z.of_nat n)
                        else group_title group_label) /\
                     exists left right,
                       pictures s = left ++ right /\
                       map pic_image left = slice others (2 * k) (2 * k + 2) /\
                       map pic_image right = slice spectrum (3 * k) (3 * k + 3) /\
                       (forall j p, nth_error left j = Some p ->
                          placed_in self
                            (column_slice self (left_margin self)
                               (available_width self / 3)
                               (Z.of_nat (length left)) (Z.of_nat j)) p) /\
                       (forall j p, nth_error right j = Some p ->
                          placed_in self
                            (column_slice self
                               (left_margin self + available_width self / 3)
                               (available_width self * 2 / 3)
                               (Z.of_nat (length right)) (Z.of_nat j)) p))
                  n 0%nat)
        as [slides [Hs [Hl Hk]]]
  end.
  { intros k _.
    destruct (@column_pictures_placed self Hgap (left_margin self)
                (available_width self / 3) (9 # 10) 1
                (slice others (k * 2) (k * 2 + 2)))
      as [lp [Hlp [Hlm Hlpl]]]; try reflexivity; try discriminate.
    - apply Qlt_shift_div_l; [reflexivity | lra].
    - apply batch_room. pose proof (slice_short others (k * 2) 2). lia.
    - intros img Hi. apply Hw, in_or_app. right. apply (In_slice _ _ _ _ Hi).
    - destruct (@column_pictures_placed self Hgap
                  (left_margin self + available_width self / 3)
                  (available_width self * 2 / 3) (95 # 100) 4
                  (slice spectrum (k * 3) (k * 3 + 3)))
        as [rp [Hrp [Hrm Hrpl]]]; try reflexivity; try discriminate.
      + apply Qlt_shift_div_l; [reflexivity | lra].
      + apply batch_room, slice_short.
      + intros img Hi. apply Hw, in_or_app. left. apply (In_slice _ _ _ _ Hi).
      + eexists. rewrite Hlp. cbn [bind]. rewrite Hrp. cbn [bind].
        split; [reflexivity |]. cbn [pictures title]. split; [reflexivity |].
        exists lp, rp. rewrite Hlm, Hrm, (Nat.mul_comm 2 k), (Nat.mul_comm 3 k).
        auto. }
  exists slides. split; [exact Hs |]. intros k s H. rewrite Hl. exact (Hk k s H).
Qed.

(** X6: On a slide with a width, labels that are not negative and a height
    in which three slices hold more than their labels, and for images of
    pixel sizes below 2^31 of which none has a height and no width, every
    slide of a mixed layout holds the next two other images stacked in the
    left third of the available width and the next three spectrum images
    in the other two thirds; each picture lies, with its label, in its own
    slice of its column, and the titles carry the part when there is more
    than one slide. *)
Theorem add_mixed_slide_placed group_label spectrum others :
  (forall img, In img (spectrum ++ others) -> pixel_sized img) ->
  (forall img, In img (spectrum ++ others) ->
               (0 < height img)%Z -> (0 < width img)%Z) ->
  exists slides,
    add_mixed_slide self group_label spectrum others = Ok slides /\
    forall k s, nth_error slides k = Some s ->
      title s
      = (if (1 <? length slides)%nat
         then group_title group_label
              ++ part_suffix (Z.of_nat (k + 1)) (Z.of_nat (length slides))
         else group_title group_label) /\
      exists left right,
        pictures s = left ++ right /\
        map pic_image left = slice others (2 * k) (2 * k + 2) /\
        map pic_image right = slice spectrum (3 * k) (3 * k + 3) /\
        (forall j p, nth_error left j = Some p ->
           placed_in self
             (column_slice self (left_margin self) (available_width self / 3)
                           (Z.of_nat (length left)) (Z.of_nat j)) p) /\
        (forall j p, nth_error right j = Some p ->
           placed_in self
             (column_slice self (left_margin self + available_width self / 3)
                           (available_width self * 2 / 3)
                           (Z.of_nat (length right)) (Z.of_nat j)) p).
Proof.
  intros _ Hw. apply add_mixed_slide_columns_placed, Hw.
Qed.

End SpectrumPlacement.

Section MixedUnits.
Local Open Scope Q_scope.
Variable self : generator.

(** C4: a mixed composition has as many units as the larger of
    ceil(o / 2) and ceil(s / 3); unit [k] holds the entries [2k, 2k+2)
    of the other images on the left and the entries [3k, 3k+3) of the
    spectrum images on the right, fewer or none where a list has run out:
    its pictures are those of the left, stacked in the left third of the
    available width, then those of the right, stacked in the other two
    thirds, each in its own slice of its column when the slide has room
    for them; the batches of each side, in order, are the list of that
    side, so that no entry is placed twice.  With 5 spectrum images and 1
    other image there are two units, the second with nothing on the left
    and the last 2 spectrum images on the right.  This holds of images of
    pixel sizes below 2^31 of which none has a height and no width. *)
Theorem add_mixed_slide_units group_label spectrum others :
  (forall img, In img (spectrum ++ others) -> pixel_sized img) ->
  (forall img, In img (spectrum ++ others) ->
               (0 < height img)%Z -> (0 < width img)%Z) ->
  let units := Nat.max (ceil_quot (length others) 2)
                       (ceil_quot (length spectrum) 3) in
  exists slides,
    add_mixed_slide self group_label spectrum others = Ok slides /\
    length slides = units /\
    (forall k s, nth_error slides k = Some s ->
       exists left right,
         pictures s = left ++ right /\
         map pic_image left = slice others (2 * k) (2 * k + 2) /\
         map pic_image right = slice spectrum (3 * k) (3 * k + 3) /\
         (roomy self ->
          (forall j p, nth_error left j = Some p ->
             placed_in self
               (column_slice self (left_margin self) (available_width self / 3)
                             (Z.of_nat (length left)) (Z.of_nat j)) p) /\
          (forall j p, nth_error right j = Some p ->
             placed_in self
               (column_slice self (left_margin self + available_width self / 3)
                             (available_width self * 2 / 3)
                             (Z.of_nat (length right)) (Z.of_nat j)) p))) /\
    concat (map (fun k => slice others (2 * k) (2 * k + 2)) (seq 0 units)) = others /\
    concat (map (fun k => slice spectrum (3 * k) (3 * k + 3)) (seq 0 units)) = spectrum /\
    (forall s1 s2 s3 s4 s5 o1,
       spectrum = [s1; s2; s3; s4; s5] -> others = [o1] ->
       exists u1 u2 left1 right1,
         slides = [u1; u2] /\
         pictures u1 = left1 ++ right1 /\
         map pic_image left1 = [o1] /\ map pic_image right1 = [s1; s2; s3] /\
         map pic_image (pictures u2) = [s4; s5] /\
         (roomy self ->
          Forall (fun p => left_margin self + available_width self / 3 <= pic_x p)
                 (pictures u2))).
Proof.
  intros _ Hw units.
  assert (Hw0 : forall img, In img (spectrum ++ others) ->
                  (0 < height img)%Z -> width img <> 0%Z).
  { intros img Hi Hh. specialize (Hw img Hi Hh). lia. }
  destruct (add_mixed_slide_columns self group_label _ _ Hw0) as [slides [Hs HF]].
  fold units in HF.
  destruct (@Forall2_seq_nth _ (mixed_unit others spectrum) units slides 0%nat HF)
    as [Hlen Hnth0].
  assert (Hnth : forall k s, nth_error slides k = Some s ->
            exists left right,
              pictures s = left ++ right /\
              map pic_image left = slice others (2 * k) (2 * k + 2) /\
              map pic_image right = slice spectrum (3 * k) (3 * k + 3) /\
              (roomy self ->
               (forall j p, nth_error left j = Some p ->
                  placed_in self
                    (column_slice self (left_margin self) (available_width self / 3)
                                  (Z.of_nat (length left)) (Z.of_nat j)) p) /\
               (forall j p, nth_error right j = Some p ->
                  placed_in self
                    (column_slice self (left_margin self + available_width self / 3)
                                  (available_width self * 2 / 3)
                                  (Z.of_nat (length right)) (Z.of_nat j)) p))).
  { intros k s Hk. destruct (Hnth0 k s Hk) as [lp [rp [Hp [Hl [Hr _]]]]].
    change (0 + k)%nat with k in Hl, Hr.
    exists lp, rp. split; [exact Hp |]. split; [exact Hl |]. split; [exact Hr |].
    intros [Hwidth [Hlabel [Hgap Hroom]]].
    destruct (@add_mixed_slide_columns_placed self Hwidth Hlabel Hgap Hroom
                group_label spectrum others Hw)
      as [slides' [Hs' Hk']].
    assert (slides' = slides) by congruence. subst slides'.
    destruct (Hk' k s Hk) as [_ [lp' [rp' [Hp' [Hl' [Hr' Hpl]]]]]].
    assert (Hsame : lp' = lp /\ rp' = rp).
    { apply same_head; [| congruence].
      rewrite <- (length_map pic_image lp'), <- (length_map pic_image lp).
      congruence. }
    destruct Hsame as [-> ->]. exact Hpl. }
  pose proof (@ceil_quot_spec (length others) 2 ltac:(lia)) as Ho.
  pose proof (@ceil_quot_spec (length spectrum) 3 ltac:(lia)) as Hsp.
  exists slides. split; [exact Hs |]. split; [exact Hlen |].
  split; [exact Hnth |].
  split; [apply batches_cover; unfold units; lia |].
  split; [apply batches_cover; unfold units; lia |].
  intros s1 s2 s3 s4 s5 o1 Es Eo.
  assert (Hu : units = 2%nat) by (unfold units; rewrite Es, Eo; reflexivity).
  rewrite Hu in Hlen.
  destruct slides as [| u1 [| u2 [| u3 slides]]]; try discriminate.
  destruct (Hnth 0%nat u1 eq_refl) as [l1 [r1 [Hp1 [Hl1 [Hr1 _]]]]].
  destruct (Hnth 1%nat u2 eq_refl) as [l2 [r2 [Hp2 [Hl2 [Hr2 Hpl2]]]]].
  rewrite Es in Hr1, Hr2. rewrite Eo in Hl1, Hl2.
  change (slice [o1] (2 * 1) (2 * 1 + 2)) with (@nil image) in Hl2.
  destruct l2 as [| x l2]; [| discriminate]. cbn [app] in Hp2.
  exists u1, u2, l1, r1. split; [reflexivity |]. split; [exact Hp1 |].
  split; [exact Hl1 |]. split; [exact Hr1 |].
  split; [rewrite Hp2; exact Hr2 |].
  intros Hroomy. destruct (Hpl2 Hroomy) as [_ Hright].
  rewrite Hp2. apply Forall_forall. intros p Hin.
  apply In_nth_error in Hin. destruct Hin as [j Hj].
  destruct (Hright j p Hj) as [_ [_ [Hx _]]]. exact Hx.
Qed.

End MixedUnits.

(** * The visual layout *)

Section Dicts.
Context {V : Type}.


End Dicts.

Section VisualContent.
Local Open Scope Q_scope.









End VisualContent.

(** * The groups of a presentation *)

Section StringOrder.

Lemma code_inj a b : code a = code b -> a = b.
Proof.
  unfold code. intros H.
  rewrite <- (ascii_N_embedding a), <- (ascii_N_embedding b), H. reflexivity.
Qed.

Lemma str_ltb_irrefl a : str_ltb a a = false.
Proof.
  induction a as [| x a IH]; simpl; [reflexivity |].
  rewrite N.ltb_irrefl. exact IH.
Qed.

Lemma str_ltb_trans a b c :
  str_ltb a b = true -> str_ltb b c = true -> str_ltb a c = true.
Proof.
  revert b c. induction a as [| x a IH]; intros [| y b] [| z c]; simpl; try congruence.
  destruct (N.ltb_spec (code x) (code y)), (N.ltb_spec (code y) (code x)),
           (N.ltb_spec (code y) (code z)), (N.ltb_spec (code z) (code y)),
           (N.ltb_spec (code x) (code z)), (N.ltb_spec (code z) (code x));
    try congruence; try lia.
  apply IH.
Qed.

Lemma str_ltb_total a b : a <> b -> str_ltb a b = true \/ str_ltb b a = true.
Proof.
  revert b. induction a as [| x a IH]; intros [| y b] H; simpl; auto.
  destruct (N.ltb_spec (code x) (code y)); [auto |].
  destruct (N.ltb_spec (code y) (code x)); [auto |].
  assert (x = y) by (apply code_inj; lia). subst y.
  apply IH. congruence.
Qed.

Lemma str_ltb_asym a b : str_ltb a b = true -> str_ltb b a = false.
Proof.
  intros H. destruct (str_ltb b a) eqn:E; [| reflexivity].
  pose proof (str_ltb_trans _ _ _ H E) as Hc. rewrite str_ltb_irrefl in Hc. discriminate.
Qed.

Lemma insert_sorted_perm x l : Permutation (x :: l) (insert_sorted x l).
Proof.
  induction l as [| y l IH]; simpl; [reflexivity |].
  destruct (str_ltb x y); [reflexivity |].
  rewrite perm_swap. constructor. exact IH.
Qed.

Lemma sorted_perm l : Permutation l (sorted l).
Proof.
  unfold sorted.
  assert (H : forall acc, Permutation (acc ++ l)
                            (fold_left (fun acc x => insert_sorted x acc) l acc)).
  { induction l as [| x l IH]; intros acc; simpl.
    - rewrite app_nil_r. reflexivity.
    - rewrite <- IH. rewrite <- insert_sorted_perm.
      symmetry. apply Permutation_middle. }
  apply (H []).
Qed.

Lemma insert_sorted_sorted x l :
  ~ In x l -> StronglySorted str_lt l -> StronglySorted str_lt (insert_sorted x l).
Proof.
  intros Hx Hs. induction Hs as [| y l Hs IH Hall]; simpl.
  - constructor; constructor.
  - destruct (str_ltb x y) eqn:E.
    + constructor; [constructor; assumption |].
      constructor; [exact E |].
      rewrite Forall_forall in *. intros z Hz.
      apply (str_ltb_trans _ _ _ E (Hall z Hz)).
    + assert (Hyx : str_lt y x).
      { destruct (@str_ltb_total x y) as [H | H]; [| congruence | exact H].
        intros ->. apply Hx. left. reflexivity. }
      constructor.
      * apply IH. intros H. apply Hx. right. exact H.
      * rewrite Forall_forall in *. intros z Hz.
        apply (Permutation_in _ (Permutation_sym (insert_sorted_perm x l))) in Hz.
        destruct Hz as [<- | Hz]; [exact Hyx | apply Hall, Hz].
Qed.

Lemma sorted_sorted l : NoDup l -> StronglySorted str_lt (sorted l).
Proof.
  unfold sorted.
  assert (H : forall acc,
            NoDup l -> (forall x, In x l -> ~ In x acc) ->
            StronglySorted str_lt acc ->
            StronglySorted str_lt (fold_left (fun acc x => insert_sorted x acc) l acc)).
  { induction l as [| x l IH]; intros acc Hnd Hdis Hs; simpl; [exact Hs |].
    inversion Hnd as [| ? ? Hx Hnd']; subst.
    apply IH; [exact Hnd' | |].
    - intros z Hz Hin.
      apply (Permutation_in _ (Permutation_sym (insert_sorted_perm x acc))) in Hin.
      destruct Hin as [<- | Hin]; [contradiction |].
      apply (Hdis z (or_intror Hz) Hin).
    - apply insert_sorted_sorted; [| exact Hs]. apply Hdis. left. reflexivity. }
  intros Hnd. apply H; [exact Hnd | intros x _ [] | constructor].
Qed.

End StringOrder.

Section Filing.
Context {K V : Type}.
Variable eqb : K -> K -> bool.
Hypothesis eqb_eq : forall a b, eqb a b = true <-> a = b.
Variable key : V -> option K.

Local Abbreviation file_all := (@Grouping.file_all K V eqb key).
Local Abbreviation filed_under := (@Grouping.filed_under K V eqb key).

Lemma key_eqb_refl k : eqb k k = true.
Proof. apply eqb_eq. reflexivity. Qed.

Lemma dict_get_append_key k k' (v : V) d :
  dict_get eqb k (dict_append eqb k' v d)
  = if eqb k' k
    then Some (match dict_get eqb k d with
               | Some vs => vs ++ [v]
               | None => [v]
               end)
    else dict_get eqb k d.
Proof.
  induction d as [| [k0 vs] d IH]; cbn [dict_append dict_get].
  - destruct (eqb k' k); reflexivity.
  - destruct (eqb k0 k') eqn:E0.
    + apply eqb_eq in E0. subst k0. cbn [dict_get].
      destruct (eqb k' k); reflexivity.
    + cbn [dict_get]. destruct (eqb k0 k) eqn:E1.
      * apply eqb_eq in E1. subst k0.
        destruct (eqb k' k) eqn:E2; [| reflexivity].
        apply eqb_eq in E2. subst k'. rewrite key_eqb_refl in E0. discriminate.
      * exact IH.
Qed.

Lemma dict_append_keys k (v : V) d :
  map fst (dict_append eqb k v d)
  = if existsb (fun k0 => eqb k0 k) (map fst d) then map fst d else map fst d ++ [k].
Proof.
  induction d as [| [k0 vs] d IH]; cbn [dict_append map fst existsb app]; [reflexivity |].
  destruct (eqb k0 k); cbn [orb map fst]; [reflexivity |].
  rewrite IH. destruct (existsb _ (map fst d)); reflexivity.
Qed.

Lemma existsb_eqb k l : existsb (fun k0 => eqb k0 k) l = true <-> In k l.
Proof.
  rewrite existsb_exists. split.
  - intros [x [Hx E]]. apply eqb_eq in E. subst. exact Hx.
  - intros H. exists k. split; [exact H | apply key_eqb_refl].
Qed.

Lemma file_all_get k l : forall d,
  dict_get eqb k (file_all l d)
  = match dict_get eqb k d with
    | Some vs => Some (vs ++ filed_under k l)
    | None => match filed_under k l with [] => None | vs => Some vs end
    end.
Proof.
  unfold file_all, filed_under.
  induction l as [| v l IH]; intros d; cbn [fold_left filter].
  - destruct (dict_get eqb k d); [rewrite app_nil_r |]; reflexivity.
  - rewrite IH. destruct (key v) as [k' |]; [| reflexivity].
    rewrite dict_get_append_key. destruct (eqb k' k); [| reflexivity].
    destruct (dict_get eqb k d) as [vs |]; [rewrite <- app_assoc |]; reflexivity.
Qed.

Lemma file_all_keys l : forall d,
  NoDup (map fst d) ->
  NoDup (map fst (file_all l d)) /\
  forall k, In k (map fst (file_all l d))
            <-> In k (map fst d) \/ exists v, In v l /\ key v = Some k.
Proof.
  unfold file_all.
  induction l as [| v l IH]; intros d Hnd; cbn [fold_left].
  - split; [exact Hnd |]. intros k. split; [auto |].
    intros [H | [v [[] _]]]. exact H.
  - destruct (key v) as [k' |] eqn:Ek.
    + assert (Hnd' : NoDup (map fst (dict_append eqb k' v d))).
      { rewrite dict_append_keys.
        destruct (existsb _ (map fst d)) eqn:E; [exact Hnd |].
        apply NoDup_app; [exact Hnd | repeat constructor; intros [] |].
        intros x Hx [<- | []].
        apply existsb_eqb in Hx. congruence. }
      destruct (IH _ Hnd') as [H1 H2]. split; [exact H1 |].
      intros k. rewrite H2, dict_append_keys.
      destruct (existsb _ (map fst d)) eqn:E.
      * apply existsb_eqb in E. split.
        -- intros [H | [x [Hx Hk]]]; [auto | right; exists x; split; [right |]; auto].
        -- intros [H | [x [[<- | Hx] Hk]]]; [auto | | right; exists x; auto].
           left. congruence.
      * rewrite in_app_iff. split.
        -- intros [[H | [<- | []]] | [x [Hx Hk]]];
             [auto | right; exists v; split; [left |]; auto
             | right; exists x; split; [right |]; auto].
        -- intros [H | [x [[<- | Hx] Hk]]];
             [auto | left; right; left; congruence | right; exists x; auto].
    + destruct (IH _ Hnd) as [H1 H2]. split; [exact H1 |].
      intros k. rewrite H2. split.
      * intros [H | [x [Hx Hk]]]; [auto | right; exists x; split; [right |]; auto].
      * intros [H | [x [[<- | Hx] Hk]]]; [auto | congruence | right; exists x; auto].
Qed.

End Filing.

Section GroupsDict.

Lemma groups_dict_file_all images inc :
  groups_dict images inc = file_all str_eqb (label_of inc) images [].
Proof.
  unfold groups_dict, file_all.
  assert (H : forall d img,
            match numerical_prefix img with
            | None | Some [] => d
            | Some _ =>
                let group_label :=
                  format_group_label (numerical_prefix img) (identifier img) in
                match inc with
                | Some (g :: gs) =>
                    if str_in group_label (g :: gs)
                    then dict_append str_eqb group_label img d else d
                | _ => dict_append str_eqb group_label img d
                end
            end
            = match label_of inc img with
              | Some k => dict_append str_eqb k img d
              | None => d
              end).
  { intros d img. unfold label_of.
    destruct (numerical_prefix img) as [[| c np] |]; try reflexivity.
    cbv zeta. destruct inc as [[| g gs] |]; try reflexivity.
    destruct (str_in _ (g :: gs)); reflexivity. }
  generalize (@nil (str * list image)).
  induction images as [| img images IH]; intros d; cbn [fold_left]; [reflexivity |].
  rewrite H. apply IH.
Qed.

Lemma groups_dict_get images inc k :
  dict_get str_eqb k (groups_dict images inc)
  = match labelled inc k images with [] => None | l => Some l end.
Proof.
  rewrite groups_dict_file_all.
  rewrite (@file_all_get _ _ str_eqb str_eqb_eq (label_of inc) k images []).
  reflexivity.
Qed.

Lemma groups_dict_keys images inc :
  NoDup (map fst (groups_dict images inc)) /\
  forall k, In k (map fst (groups_dict images inc))
            <-> exists img, In img images /\ label_of inc img = Some k.
Proof.
  rewrite groups_dict_file_all.
  destruct (@file_all_keys _ _ str_eqb str_eqb_eq (label_of inc) images [])
    as [H1 H2]; [constructor |].
  split; [exact H1 |]. intros k. rewrite H2. simpl. tauto.
Qed.

Lemma labelled_nonempty images inc k :
  (exists img, In img images /\ label_of inc img = Some k) ->
  labelled inc k images <> [].
Proof.
  intros [img [Hi Hk]] E.
  assert (Hin : In img (labelled inc k images)).
  { unfold labelled. apply filter_In. split; [exact Hi |].
    rewrite Hk. apply str_eqb_refl. }
  rewrite E in Hin. exact Hin.
Qed.

Lemma for_each_ext {X B : Type} (f g : X -> outcome (list B)) l :
  (forall x, In x l -> f x = g x) -> for_each f l = for_each g l.
Proof.
  induction l as [| x l IH]; intros H; cbn [for_each]; [reflexivity |].
  rewrite (H x (or_introl eq_refl)), IH; [reflexivity |].
  intros z Hz. apply H. right. exact Hz.
Qed.

(** The groups of [generate_presentation], as the loop over the sorted
    labels meets them. *)
Lemma generate_presentation_groups self images inc :
  generate_presentation self images inc
  = for_each (fun k => add_group_slide self k (labelled inc k images))
             (sorted (map fst (groups_dict images inc))).
Proof.
  unfold generate_presentation. apply for_each_ext. intros k Hk.
  apply (Permutation_in _ (Permutation_sym (sorted_perm _))) in Hk.
  apply (proj2 (groups_dict_keys images inc)) in Hk.
  rewrite groups_dict_get.
  pose proof (labelled_nonempty _ _ Hk) as Hne.
  destruct (labelled inc k images); [congruence | reflexivity].
Qed.

(** X8: [generate_presentation] composes the groups in the strictly increasing
    order of their labels, compared as strings, code point by code point;
    the group of a label is made of the images filed under it, in the
    order of the index. *)
Theorem generate_presentation_order self images groups_to_include :
  exists labels,
    StronglySorted str_lt labels /\
    (forall k, In k labels
               <-> exists img, In img images /\ label_of groups_to_include img = Some k) /\
    generate_presentation self images groups_to_include
    = for_each (fun k => add_group_slide self k (labelled groups_to_include k images))
               labels.
Proof.
  exists (sorted (map fst (groups_dict images groups_to_include))).
  destruct (groups_dict_keys images groups_to_include) as [Hnd Hk].
  split; [apply sorted_sorted, Hnd |]. split.
  - intros k. rewrite <- Hk. split; intros H.
    + apply (Permutation_in _ (Permutation_sym (sorted_perm _)) H).
    + apply (Permutation_in _ (sorted_perm _) H).
  - apply generate_presentation_groups.
Qed.

End GroupsDict.

Section Partition.
Context {K V : Type}.
Variable eqb : K -> K -> bool.
Hypothesis eqb_eq : forall a b, eqb a b = true <-> a = b.
Variable key : V -> option K.

Lemma flat_map_one (k' : K) (v : V) (g : K -> list V) keys :
  NoDup keys -> In k' keys ->
  Permutation (flat_map (fun k => if eqb k' k then v :: g k else g k) keys)
              (v :: flat_map g keys).
Proof.
  induction keys as [| k keys IH]; intros Hnd Hin; [contradiction |].
  inversion Hnd as [| ? ? Hk Hnd']; subst. cbn [flat_map].
  destruct Hin as [-> | Hin].
  - rewrite (proj2 (eqb_eq k' k') eq_refl). cbn [app]. constructor.
    apply Permutation_app_head.
    assert (E : forall l, ~ In k' l ->
              flat_map (fun k => if eqb k' k then v :: g k else g k) l = flat_map g l).
    { induction l as [| x l IHl]; intros Hx; [reflexivity |]. cbn [flat_map].
      destruct (eqb k' x) eqn:Ex.
      - apply eqb_eq in Ex. subst x. exfalso. apply Hx. left. reflexivity.
      - rewrite IHl; [reflexivity |]. intros H. apply Hx. right. exact H. }
    rewrite (E keys Hk). reflexivity.
  - destruct (eqb k' k) eqn:Ek.
    + apply eqb_eq in Ek. subst k. contradiction.
    + rewrite (IH Hnd' Hin). symmetry. apply Permutation_middle.
Qed.

Lemma flat_map_filed keys l :
  NoDup keys ->
  (forall v k, In v l -> key v = Some k -> In k keys) ->
  Permutation (flat_map (fun k => filed_under eqb key k l) keys)
              (filter (fun v => match key v with Some _ => true | None => false end) l).
Proof.
  intros Hnd. induction l as [| v l IH]; intros Hin.
  - cbn [filter]. clear. induction keys; [reflexivity | exact IHkeys].
  - specialize (IH (fun x k Hx => Hin x k (or_intror Hx))).
    unfold filed_under in *. cbn [filter].
    destruct (key v) as [k' |] eqn:Ek.
    + rewrite <- IH. apply (@flat_map_one k' v _ keys Hnd).
      apply (Hin v k' (or_introl eq_refl) Ek).
    + exact IH.
Qed.

End Partition.

Section Content.

Lemma for_each_placed {X : Type} (f : X -> outcome (list slide)) (h : X -> list image) l :
  (forall x, In x l ->
     exists zs, f x = Ok zs /\ Permutation (placed_images zs) (h x)) ->
  exists ys, for_each f l = Ok ys /\ Permutation (placed_images ys) (flat_map h l).
Proof.
  induction l as [| x l IH]; intros H.
  - exists []. split; reflexivity.
  - destruct (H x (or_introl eq_refl)) as [zs [Hz Hp]].
    destruct (IH (fun z Hz => H z (or_intror Hz))) as [ys [Hy Hq]].
    exists (zs ++ ys). cbn [for_each]. rewrite Hz. cbn [bind]. rewrite Hy. cbn [bind].
    split; [reflexivity |]. unfold placed_images in *.
    rewrite flat_map_app. cbn [flat_map]. apply Permutation_app; assumption.
Qed.

Lemma filter_split {A : Type} (f : A -> bool) l :
  Permutation (filter f l ++ filter (fun x => negb (f x)) l) l.
Proof.
  induction l as [| x l IH]; [reflexivity |]. cbn [filter].
  destruct (f x); cbn [negb app].
  - constructor. exact IH.
  - rewrite <- Permutation_middle. constructor. exact IH.
Qed.

Lemma concat_pairs {A : Type} (a b : nat -> list A) l :
  Permutation (concat (map (fun k => a k ++ b k) l))
              (concat (map a l) ++ concat (map b l)).
Proof.
  induction l as [| k l IH]; [reflexivity |]. cbn [map concat].
  rewrite IH, <- !app_assoc. apply Permutation_app_head.
  rewrite !app_assoc. apply Permutation_app_tail. apply Permutation_app_comm.
Qed.

Lemma mixed_units_images others spectrum n slides :
  forall start,
  Forall2 (mixed_unit others spectrum) (seq start n) slides ->
  placed_images slides
  = concat (map (fun k => slice others (2 * k) (2 * k + 2)
                          ++ slice spectrum (3 * k) (3 * k + 3)) (seq start n)).
Proof.
  revert slides. induction n as [| n IH]; intros slides start H; cbn [seq] in H.
  - inversion H. reflexivity.
  - inversion H as [| k s l ss Hs Hrest]; subst. cbn [seq map concat].
    unfold placed_images in *. cbn [flat_map]. rewrite (IH _ _ Hrest).
    destruct Hs as [lp [rp [Hp [Hl [Hr _]]]]]. rewrite Hp, map_app, Hl, Hr. reflexivity.
Qed.

Variable self : generator.

Lemma add_mixed_slide_images group_label spectrum others :
  (forall img, In img (spectrum ++ others) ->
               (0 < height img)%Z -> width img <> 0%Z) ->
  exists slides,
    add_mixed_slide self group_label spectrum others = Ok slides /\
    Permutation (placed_images slides) (spectrum ++ others).
Proof.
  intros Hw.
  destruct (@add_mixed_slide_columns self group_label spectrum others Hw)
    as [slides [Hs HF]].
  exists slides. split; [exact Hs |].
  rewrite (@mixed_units_images _ _ _ _ _ HF), concat_pairs.
  pose proof (@ceil_quot_spec (length others) 2 ltac:(lia)) as Ho.
  pose proof (@ceil_quot_spec (length spectrum) 3 ltac:(lia)) as Hsp.
  rewrite !batches_cover by lia. apply Permutation_app_comm.
Qed.

Lemma add_spectrum_slide_images group_label images :
  (forall img, In img images -> (0 < height img)%Z -> width img <> 0%Z) ->
  exists slides,
    add_spectrum_slide self group_label images = Ok slides /\
    placed_images slides = images.
Proof.
  intros Hw. unfold add_spectrum_slide, batch_starts.
  set (n := (length images + 2) / 3).
  match goal with
  | |- exists slides, for_each ?f (map ?g (seq 0 n)) = Ok slides /\ _ =>
      destruct (@for_each_indexed _ _ f g
                  (fun k s => map pic_image (pictures s)
                              = slice images (3 * k) (3 * k + 3))
                  n 0)
        as [slides [Hs [Hl Hk]]]
  end.
  { intros k _.
    destruct (@column_pictures_ok self (left_margin self)
                (available_width self) (95 # 100)%Q 4%Q
                (slice images (3 * k) (3 * k + 3)))
      as [pics [Hp [Hm _]]].
    { discriminate. }
    { intros img Hi. apply Hw. apply (In_slice _ _ _ _ Hi). }
    eexists. rewrite Hp. cbn [bind]. split; [reflexivity | exact Hm]. }
  exists slides. split; [exact Hs |].
  assert (Hcat : forall (ss : list slide) start,
             (forall k s, nth_error ss k = Some s ->
                map pic_image (pictures s)
                = slice images (3 * (start + k)) (3 * (start + k) + 3)) ->
             placed_images ss
             = concat (map (fun k => slice images (3 * k) (3 * k + 3))
                           (seq start (length ss)))).
  { induction ss as [| s ss IH]; intros start H; [reflexivity |].
    unfold placed_images in *. cbn [flat_map map concat length seq]. f_equal.
    - rewrite (H 0 s eq_refl). rewrite Nat.add_0_r. reflexivity.
    - apply IH. intros k s' Hk'.
      rewrite (H (S k) s' Hk'). f_equal; f_equal; lia. }
  rewrite (Hcat slides 0).
  - rewrite Hl. apply batches_cover.
    unfold n. pose proof (Nat.div_mod_eq (length images + 2) 3) as Hd.
    pose proof (Nat.mod_upper_bound (length images + 2) 3 ltac:(lia)). lia.
  - intros k s H. apply (Hk k s H).
Qed.

End Content.

Section Presentation.

Lemma auto_slide_images profiles group_label images :
  (forall img, In img images -> (0 < height img)%Z -> width img <> 0%Z) ->
  exists slides,
    auto_slide (init profiles) group_label images = Ok slides /\
    Permutation (placed_images slides) images.
Proof.
  intros Hw. unfold auto_slide.
  pose proof (filter_split is_spectrum images) as Hsplit.
  destruct (filter is_spectrum images) as [| s ss] eqn:Es.
  - destruct images as [| img0 images'].
    + exists []. split; reflexivity.
    + destruct (@add_standard_slide_ok profiles group_label (img0 :: images'))
        as [pics [Hp [Hm _]]]; [discriminate | exact Hw |].
      eexists. split; [exact Hp |].
      unfold placed_images. cbn [flat_map pictures]. rewrite app_nil_r, Hm. reflexivity.
  - destruct (filter (fun img => negb (is_spectrum img)) images) as [| o os] eqn:Eo.
    + destruct (@add_spectrum_slide_images (init profiles) group_label (s :: ss))
        as [slides [Hs Hp]].
      { intros img Hi. apply Hw. rewrite <- Es in Hi. apply filter_In in Hi. apply Hi. }
      exists slides. split; [exact Hs |]. rewrite Hp.
      rewrite app_nil_r in Hsplit. exact Hsplit.
    + destruct (@add_mixed_slide_images (init profiles) group_label (s :: ss) (o :: os))
        as [slides [Hs Hp]].
      { intros img Hi. apply Hw. apply (Permutation_in _ Hsplit Hi). }
      exists slides. split; [exact Hs |]. rewrite Hp. exact Hsplit.
Qed.

Lemma labelled_incl inc k images img :
  In img (labelled inc k images) -> In img images.
Proof. unfold labelled. intros H. apply filter_In in H. apply H. Qed.

(** X9: Without layout profiles, and with images of pixel sizes below 2^31
    of which none has a height and no width, [generate_presentation] does
    not raise and places every image that is filed under a label once, and
    no other image. *)
Theorem generate_presentation_places_each_image images groups_to_include :
  (forall img, In img images -> pixel_sized img) ->
  (forall img, In img images -> (0 < height img)%Z -> width img <> 0%Z) ->
  exists slides,
    generate_presentation (init []) images groups_to_include = Ok slides /\
    Permutation (placed_images slides) (included groups_to_include images).
Proof.
  intros _ Hw. rewrite generate_presentation_groups.
  destruct (groups_dict_keys images groups_to_include) as [Hnd Hk].
  set (keys := map fst (groups_dict images groups_to_include)) in *.
  destruct (@for_each_placed _
              (fun k => add_group_slide (init []) k (labelled groups_to_include k images))
              (fun k => labelled groups_to_include k images) (sorted keys))
    as [slides [Hs Hp]].
  { intros k Hin. unfold add_group_slide.
    destruct (labelled groups_to_include k images) as [| img0 l] eqn:El.
    - exists []. split; reflexivity.
    - cbn [layout_profiles init dict_get]. rewrite <- El.
      apply auto_slide_images. intros img Hi. apply Hw.
      apply (labelled_incl _ _ _ _ Hi). }
  exists slides. split; [exact Hs |]. rewrite Hp.
  rewrite <- (Permutation_flat_map _ (sorted_perm keys)).
  apply (@flat_map_filed _ _ str_eqb str_eqb_eq (label_of groups_to_include) keys images Hnd).
  intros v k Hv Hkey. apply Hk. exists v. auto.
Qed.

End Presentation.

Section Abort.
Local Open Scope Q_scope.

Lemma for_each_raises {X B : Type} (f : X -> outcome (list B)) l x :
  In x l -> f x = ZeroDivisionError -> for_each f l = ZeroDivisionError.
Proof.
  induction l as [| y l IH]; intros Hin Hx; [contradiction |]. cbn [for_each].
  destruct (f y) as [ys |] eqn:Ey; [| reflexivity]. cbn [bind].
  destruct Hin as [-> | Hin]; [congruence |].
  rewrite (IH Hin Hx). reflexivity.
Qed.

Lemma for_enumerate_raises {A B : Type} (f : Z -> A -> outcome B) l x :
  In x l -> (forall idx, f idx x = ZeroDivisionError) ->
  forall idx, for_enumerate f idx l = ZeroDivisionError.
Proof.
  induction l as [| y l IH]; intros Hin Hx idx; [contradiction |]. cbn [for_enumerate].
  destruct (f idx y) as [z |] eqn:Ey; [| reflexivity]. cbn [bind].
  destruct Hin as [-> | Hin]; [rewrite Hx in Ey; discriminate |].
  rewrite (IH Hin Hx). reflexivity.
Qed.

Variable self : generator.

Lemma slice_picture_raises area_x area_width share default slice_height idx img :
  (0 < height img)%Z -> width img = 0%Z ->
  slice_picture self area_x area_width share default slice_height idx img
  = ZeroDivisionError.
Proof.
  intros Hh Hw. unfold slice_picture, aspect_ratio_or.
  destruct (Z.gtb_spec (height img) 0) as [_ | H]; [| lia].
  rewrite Hw. rewrite fdiv_zero; [reflexivity |].
  unfold Qdiv. rewrite Qmult_0_l. reflexivity.
Qed.

Lemma column_pictures_raises area_x area_width share default batch img :
  In img batch -> (0 < height img)%Z -> width img = 0%Z ->
  column_pictures self area_x area_width share default batch = ZeroDivisionError.
Proof.
  intros Hin Hh Hw. unfold column_pictures.
  destruct batch as [| b batch]; [contradiction |].
  destruct (fdiv (available_height self) _) as [sh |]; [| reflexivity]. cbn [bind].
  apply (for_enumerate_raises _ _ _ Hin). intros idx.
  apply slice_picture_raises; assumption.
Qed.

Lemma In_batch {A : Type} (l : list A) b n x :
  (0 < b)%nat -> (length l <= b * n)%nat -> In x l ->
  exists k, (k < n)%nat /\ In x (slice l (b * k) (b * k + b)).
Proof.
  intros Hb Hn Hin. rewrite <- (batches_cover l b n Hn) in Hin.
  apply in_concat in Hin. destruct Hin as [batch [Hbatch Hx]].
  apply in_map_iff in Hbatch. destruct Hbatch as [k [<- Hk]].
  apply in_seq in Hk. exists k. split; [lia | exact Hx].
Qed.

Lemma add_spectrum_slide_raises group_label images img :
  In img images -> (0 < height img)%Z -> width img = 0%Z ->
  add_spectrum_slide self group_label images = ZeroDivisionError.
Proof.
  intros Hin Hh Hw. unfold add_spectrum_slide, batch_starts.
  destruct (@In_batch _ images 3 ((length images + 2) / 3)%nat img) as [k [Hk Hx]];
    [lia | | exact Hin |].
  { pose proof (Nat.div_mod_eq (length images + 2) 3) as Hd.
    pose proof (Nat.mod_upper_bound (length images + 2) 3 ltac:(lia)). lia. }
  apply (@for_each_raises _ _ _ _ (3 * k)%nat).
  - apply in_map_iff. exists k. split; [reflexivity |]. apply in_seq. lia.
  - rewrite (@column_pictures_raises _ _ _ _ _ img Hx Hh Hw). reflexivity.
Qed.

Lemma add_mixed_slide_raises group_label spectrum others img :
  In img spectrum -> (0 < height img)%Z -> width img = 0%Z ->
  add_mixed_slide self group_label spectrum others = ZeroDivisionError.
Proof.
  intros Hin Hh Hw. unfold add_mixed_slide.
  set (n := Nat.max ((length spectrum + 3 - 1) / 3) ((length others + 2 - 1) / 2)).
  destruct (@In_batch _ spectrum 3 n img) as [k [Hk Hx]]; [lia | | exact Hin |].
  { unfold n.
    pose proof (Nat.div_mod_eq (length spectrum + 3 - 1) 3) as Hd.
    pose proof (Nat.mod_upper_bound (length spectrum + 3 - 1) 3 ltac:(lia)). lia. }
  apply (@for_each_raises _ _ _ _ k).
  - apply in_seq. lia.
  - cbv zeta. destruct (column_pictures self (left_margin self) _ _ _ _) as [lp |];
      [| reflexivity].
    cbn [bind]. rewrite (Nat.mul_comm k 3).
    rewrite (@column_pictures_raises _ _ _ _ _ img Hx Hh Hw). reflexivity.
Qed.

Lemma auto_slide_raises group_label images img :
  In img images -> is_spectrum img = true ->
  (0 < height img)%Z -> width img = 0%Z ->
  auto_slide self group_label images = ZeroDivisionError.
Proof.
  intros Hin Hs Hh Hw. unfold auto_slide.
  assert (Hf : In img (filter is_spectrum images)) by (apply filter_In; auto).
  destruct (filter is_spectrum images) as [| s ss]; [contradiction |].
  destruct (filter (fun img => negb (is_spectrum img)) images).
  - apply (@add_spectrum_slide_raises _ _ img); assumption.
  - apply (@add_mixed_slide_raises _ _ _ img); assumption.
Qed.

(** X10: One spectrum image that has a height and no width, filed under a
    label without a layout profile, makes [generate_presentation] raise
    [ZeroDivisionError], whatever the other images are: the method returns
    [False] and saves no presentation. *)
Theorem generate_presentation_aborts images groups_to_include img group_label :
  In img images ->
  label_of groups_to_include img = Some group_label ->
  dict_get str_eqb group_label (layout_profiles self) = None ->
  is_spectrum img = true -> (0 < height img)%Z -> width img = 0%Z ->
  generate_presentation self images groups_to_include = ZeroDivisionError.
Proof.
  intros Hin Hl Hp Hs Hh Hw. rewrite generate_presentation_groups.
  apply (@for_each_raises _ _ _ _ group_label).
  - apply (Permutation_in _ (sorted_perm _)).
    apply (proj2 (groups_dict_keys images groups_to_include)). exists img. auto.
  - assert (Hlab : In img (labelled groups_to_include group_label images)).
    { unfold labelled. apply filter_In. split; [exact Hin |].
      rewrite Hl. apply str_eqb_refl. }
    unfold add_group_slide.
    destruct (labelled groups_to_include group_label images) as [| i0 l] eqn:El;
      [contradiction |].
    rewrite Hp. apply (@auto_slide_raises _ _ img); assumption.
Qed.

End Abort.

(** * Which identifier and which number *)

Section IdPattern.

Ltac open_bos :=
  match goal with
  | H : denotes ?ic Bos ?p ?w ?q ?c ?c' |- _ =>
      change (w = [] /\ p = [] /\ c' = c) in H
  end.

Lemma id_pattern_sound id name w c :
  found (id_pattern id) name w c ->
  exists g, c = Some g /\ names g id /\ occurs name id.
Proof.
  intros [pre [post [Hs H]]]. unfold id_pattern in H.
  cbn [p_regex p_ignorecase] in H.
  repeat (first [open_bos | open_den_step]; subst).
  - match goal with H : denotes true id_suffix _ _ _ _ _ |- _ =>
      apply id_suffix_sound in H; destruct H as [-> Hend] end.
    eexists. split; [reflexivity |]. split; [assumption |].
    match type of Hend with
    | ends_identifier (?t ++ post) =>
        match goal with
        | Hn : names ?g id |- _ => exists [], g, (t ++ post)
        end
    end.
    repeat split; auto.
    + rewrite <- !app_assoc. reflexivity.
    + left. reflexivity.
  - match goal with H : denotes true id_suffix _ _ _ _ _ |- _ =>
      apply id_suffix_sound in H; destruct H as [-> Hend] end.
    eexists. split; [reflexivity |]. split; [assumption |].
    match type of Hend with
    | ends_identifier (?t ++ post) =>
        match goal with
        | Hn : names ?g id, Hsep : sep_chr ?a = true |- _ =>
            exists (pre ++ [a]), g, (t ++ post)
        end
    end.
    repeat split; auto.
    + rewrite <- !app_assoc. reflexivity.
    + right. eauto.
Qed.

Lemma id_pattern_complete id name :
  occurs name id -> exists w g, found (id_pattern id) name w (Some g).
Proof.
  intros [pre [w [tail [-> [Hstart [Hw Ht]]]]]].
  destruct (@id_suffix_complete (pre ++ w) tail (Some w) Ht) as [ws [post [-> Hsuf]]].
  destruct Hstart as [-> | [p [a [-> Ha]]]].
  - exists (w ++ ws), w, [], post. split; [rewrite <- !app_assoc; reflexivity |].
    unfold id_pattern. cbn [p_regex p_ignorecase].
    apply (@den_seq true _ _ [] [] (w ++ ws) post None None).
    + left. cbn [denotes]. auto.
    + eapply den_seq; [eapply den_group; apply den_lit; exact Hw | exact Hsuf].
  - exists ([a] ++ w ++ ws), w, p, post.
    split; [rewrite <- !app_assoc; reflexivity |].
    unfold id_pattern. cbn [p_regex p_ignorecase].
    apply (@den_seq true _ _ p [a] (w ++ ws) post None None).
    + right. exists a. rewrite mem_sep1. auto.
    + eapply den_seq; [eapply den_group; apply den_lit; exact Hw | exact Hsuf].
Qed.

Lemma search_id_pattern id name :
  match search (id_pattern id) name with
  | Some m => names (group1 m) id /\ occurs name id
  | None => ~ occurs name id
  end.
Proof.
  destruct (search (id_pattern id) name) as [m |] eqn:E.
  - destruct (id_pattern_sound (@search_sound _ _ _ E)) as [g [Hc [Hn Ho]]].
    rewrite (@group1_of m g Hc). auto.
  - intros Ho. destruct (id_pattern_complete Ho) as [w [g Hf]].
    destruct (@search_complete _ _ _ _ Hf) as [m Hm]. congruence.
Qed.

End IdPattern.

Section FirstFound.

Lemma first_found_spec ids name :
  match first_found ids name with
  | Some (id, fnd) =>
      exists pre post, ids = pre ++ id :: post /\
        (forall j, In j pre -> ~ occurs name j) /\
        names fnd id /\ occurs name id
  | None => forall j, In j ids -> ~ occurs name j
  end.
Proof.
  induction ids as [| i ids IH]; cbn [first_found].
  - intros j [].
  - pose proof (search_id_pattern i name) as Hs.
    destruct (search (id_pattern i) name) as [m |].
    + exists [], ids. split; [reflexivity |]. split; [intros j [] |]. exact Hs.
    + destruct (first_found ids name) as [[id fnd] |].
      * destruct IH as [pre [post [-> [Hpre Hid]]]].
        exists (i :: pre), post. split; [reflexivity |]. split; [| exact Hid].
        intros j [<- | Hj]; [exact Hs | apply Hpre, Hj].
      * intros j [<- | Hj]; [exact Hs | apply IH, Hj].
Qed.

Lemma sorted_identifiers :
  sorted_by_len_desc ALL_IDENTIFIERS
  = [$"Electron Image"; $"Spectrum"; $"Spectra"; $"PDBSE1"; $"PDBSE"; $"Maps";
     $"UVD"; $"BSE"; $"ABF"; $"ADF"; $"Map"; $"UD"; $"LD"; $"MD"; $"SE"].
Proof. vm_compute. reflexivity. Qed.

Lemma sorted_identifiers_by_length : by_length_desc (sorted_by_len_desc ALL_IDENTIFIERS).
Proof.
  rewrite sorted_identifiers. unfold by_length_desc.
  repeat (constructor; [| repeat (constructor; [simpl; lia |]); constructor]).
  constructor.
Qed.

Lemma sorted_identifiers_In id :
  In id (sorted_by_len_desc ALL_IDENTIFIERS) <-> In id ALL_IDENTIFIERS.
Proof.
  rewrite sorted_identifiers. unfold ALL_IDENTIFIERS, GROUPABLE_IDENTIFIERS,
    NON_GROUPABLE_IDENTIFIERS. cbn [app In]. tauto.
Qed.

Lemma by_length_desc_after pre id post j :
  by_length_desc (pre ++ id :: post) -> In j (id :: post) -> length j <= length id.
Proof.
  unfold by_length_desc. induction pre as [| p pre IH]; cbn [app]; intros Hs Hj.
  - inversion Hs as [| ? ? _ Hall]; subst.
    destruct Hj as [<- | Hj]; [lia |].
    rewrite Forall_forall in Hall. apply Hall, Hj.
  - inversion Hs; subst. apply IH; assumption.
Qed.

End FirstFound.

Section Longest.

Lemma extract_identifier_of filename :
  match matched_identifier filename with
  | Some (id, fnd) =>
      exists number full,
        extract_identifier_and_number filename = (number, Some id, Some full)
  | None => extract_identifier_and_number filename = (None, None, None)
  end.
Proof.
  unfold matched_identifier, extract_identifier_and_number.
  destruct (first_found _ _) as [[id fnd] |] eqn:E.
  - rewrite (@extract_loop_found _ _ _ _ E).
    destruct (str_in id GROUPABLE_IDENTIFIERS).
    + destruct (@extract_groupable_spec id (splitext_root filename) fnd)
        as [number [full [H _]]]. eauto.
    + destruct (@extract_non_groupable_spec id (splitext_root filename) fnd)
        as [number [H _]]. eauto.
  - apply extract_loop_none, E.
Qed.

(** X11: [extract_identifier_and_number] returns no identifier exactly when
    none of the identifiers occurs in the name without its extension: at
    its start or after a separator, in any case of the letters, and
    followed by its end, a separator, an opening parenthesis, a digit or a
    letter; otherwise it returns an identifier that occurs so, and none
    that occurs so is longer.  The identifier need not be a word of its
    own: "SEM image 5.tif" gets SE. *)
Theorem extract_identifier_longest filename :
  let name := splitext_root filename in
  match extract_identifier_and_number filename with
  | (number, None, full_match) =>
      number = None /\ full_match = None /\
      forall id, In id ALL_IDENTIFIERS -> ~ occurs name id
  | (number, Some id, full_match) =>
      In id ALL_IDENTIFIERS /\ occurs name id /\
      forall id', In id' ALL_IDENTIFIERS -> occurs name id' -> length id' <= length id
  end.
Proof.
  intros name. pose proof (extract_identifier_of filename) as He.
  unfold matched_identifier in He. fold name in He.
  pose proof (first_found_spec (sorted_by_len_desc ALL_IDENTIFIERS) name) as Hf.
  destruct (first_found _ name) as [[id fnd] |].
  - destruct He as [number [full ->]].
    destruct Hf as [pre [post [E [Hpre [_ Ho]]]]].
    split; [| split; [exact Ho |]].
    + apply sorted_identifiers_In. rewrite E. apply in_or_app. right. left. reflexivity.
    + intros id' Hin Ho'. apply sorted_identifiers_In in Hin.
      pose proof sorted_identifiers_by_length as Hs. rewrite E in Hs, Hin.
      apply in_app_or in Hin. destruct Hin as [Hin | Hin].
      * exfalso. apply (Hpre id' Hin Ho').
      * apply (@by_length_desc_after pre id post id' Hs Hin).
  - rewrite He. split; [reflexivity |]. split; [reflexivity |].
    intros id Hin. apply Hf. apply sorted_identifiers_In, Hin.
Qed.

End Longest.

Section NumberShape.

Lemma zfill_four_digits g : four_digits g = true -> zfill 4 g = g.
Proof.
  intros H. apply four_digits_split in H. destruct H as [Hl Hd].
  rewrite zfill_digits.
  - rewrite Hl. reflexivity.
  - split; [| exact Hd]. intros ->. discriminate.
Qed.

Lemma four_digits_digits g : four_digits g = true -> digits g.
Proof.
  intros H. apply four_digits_split in H. destruct H as [Hl Hd].
  split; [| exact Hd]. intros ->. discriminate.
Qed.

Lemma groupable_number_digits name id g :
  groupable_number name id (Some g) ->
  exists d, digits_of name d /\ g = zfill 4 d.
Proof.
  intros [[g' [Ha E]] | [[_ [d [Hb [E _]]]] | [[_ [_ [d [Hc E]]]] | [_ [_ [_ E]]]]]];
    try discriminate; inversion E; subst; clear E.
  - destruct Ha as [pre [[s1 [d [s2 [w [tail [-> [Hg _]]]]]]] _]].
    exists g'. split; [| symmetry; apply zfill_four_digits, Hg].
    split; [apply four_digits_digits, Hg | eauto].
  - exists d. split; [| reflexivity].
    destruct Hb as [pre [[s1 [w [tail [-> [Hd _]]]]] _]]. split; [exact Hd | eauto].
  - exists d. split; [| reflexivity].
    destruct Hc as [pre [[w [s1 [tail [-> [_ [_ [Hd _]]]]]]] _]]. split; [exact Hd |].
    exists (pre ++ w ++ s1), tail. rewrite <- !app_assoc. reflexivity.
Qed.

Lemma trailing_number_digits b name d : trailing_number b name d -> digits_of name d.
Proof.
  intros [pre [[sp [t [ws [-> [_ [Hd _]]]]]] _]]. split; [exact Hd |].
  exists (pre ++ sp), (t ++ ws). rewrite <- !app_assoc. reflexivity.
Qed.

Lemma number_after_digits name id d : number_after name id d -> digits_of name d.
Proof.
  intros [pre [[w [rest [-> [_ Hn]]]] _]].
  destruct (number_in_words _ _ _ Hn) as [ws [s1 [t [tail [-> [_ [_ [Hd _]]]]]]]].
  split; [exact Hd |].
  exists (pre ++ w ++ ws ++ s1), (t ++ tail). rewrite <- !app_assoc. reflexivity.
Qed.

Lemma map_number_digits name id g :
  map_number name id (Some g) -> exists d, digits_of name d /\ g = zfill 4 d.
Proof.
  intros [[d [H E]] | [[_ [d [H E]]] | [_ [_ E]]]]; try discriminate;
    inversion E; subst; exists d; (split; [| reflexivity]).
  - apply (number_after_digits H).
  - apply (trailing_number_digits H).
Qed.

Lemma spectrum_number_digits name g :
  spectrum_number name (Some g) -> exists d, digits_of name d /\ g = zfill 4 d.
Proof.
  intros [[d [H E]] | [_ E]]; try discriminate.
  inversion E; subst. exists d. split; [apply (trailing_number_digits H) | reflexivity].
Qed.

Lemma non_groupable_cases id :
  In id ALL_IDENTIFIERS -> str_in id GROUPABLE_IDENTIFIERS = false ->
  In id map_names \/ In id spectrum_names.
Proof.
  intros Hin Hg. unfold ALL_IDENTIFIERS in Hin. apply in_app_or in Hin.
  destruct Hin as [Hin | Hin].
  - apply str_in_In in Hin. congruence.
  - simpl in Hin. simpl. tauto.
Qed.

Lemma extract_number_source filename number identifier full_match :
  extract_identifier_and_number filename = (Some number, identifier, full_match) ->
  (exists d, digits_of (splitext_root filename) d /\ number = zfill 4 d) /\
  exists id, identifier = Some id /\ In id ALL_IDENTIFIERS.
Proof.
  intros He. unfold extract_identifier_and_number in He.
  pose proof (first_found_spec (sorted_by_len_desc ALL_IDENTIFIERS)
                (splitext_root filename)) as Hf.
  destruct (first_found _ _) as [[id fnd] |] eqn:E.
  - assert (Hin : In id ALL_IDENTIFIERS).
    { destruct Hf as [pre [post [El _]]]. apply sorted_identifiers_In.
      rewrite El. apply in_or_app. right. left. reflexivity. }
    rewrite (@extract_loop_found _ _ _ _ E) in He.
    destruct (str_in id GROUPABLE_IDENTIFIERS) eqn:Eg.
    + destruct (@extract_groupable_spec id (splitext_root filename) fnd)
        as [n [full [H [Hn _]]]].
      rewrite H in He. inversion He; subst.
      split; [apply (groupable_number_digits Hn) | eauto].
    + destruct (@extract_non_groupable_spec id (splitext_root filename) fnd)
        as [n [H [Hm Hs]]].
      rewrite H in He. inversion He; subst.
      split; [| eauto].
      destruct (non_groupable_cases Hin Eg) as [Hc | Hc].
      * apply (map_number_digits (Hm Hc)).
      * apply (spectrum_number_digits (Hs Hc)).
  - rewrite (extract_loop_none _ _ E) in He. discriminate.
Qed.

(** X12: The group number that [extract_identifier_and_number] returns is a run
    of decimal digits of the name, padded with zeros to four digits: it
    has four digits or more, and comes with an identifier. *)
Theorem extract_number_digits filename number identifier full_match :
  extract_identifier_and_number filename = (Some number, identifier, full_match) ->
  (exists d, digits_of (splitext_root filename) d /\ number = zfill 4 d) /\
  4 <= length number /\ forallb isdecimal_chr number = true /\
  exists id, identifier = Some id /\ In id ALL_IDENTIFIERS.
Proof.
  intros He.
  destruct (@extract_number_source filename number identifier full_match He)
    as [[d [Hdig ->]] Hid].
  split; [eauto |].
  destruct (zfill_digits_spec (proj1 Hdig)) as [H1 [H2 _]]. auto.
Qed.

End NumberShape.

Section CaseBlind.

Ltac chars :=
  intros; apply bool_eqb_eq;
  match goal with
  | |- bool_eqb ?l ?r = true =>
      match l with
      | context [?a] =>
          is_var a;
          pattern a;
          match goal with
          | |- (fun x => bool_eqb (@?f x) (@?g x) = true) a =>
              revert a; apply (ascii_ind_bool (fun x => bool_eqb (f x) (g x)))
          end
      end
  end; vm_compute; reflexivity.

Lemma lower_chr_idem a : chr_eqb (lower_chr (lower_chr a)) (lower_chr a) = true.
Proof.
  revert a. apply (ascii_ind_bool (fun a => chr_eqb (lower_chr (lower_chr a)) (lower_chr a))).
  vm_compute. reflexivity.
Qed.

Lemma lower_idem s : lower (lower s) = lower s.
Proof.
  unfold lower. rewrite map_map. apply map_ext. intros a.
  apply chr_eqb_eq, lower_chr_idem.
Qed.

Lemma case_blind_ignorecase r : case_blind true r.
Proof.
  induction r; cbn [case_blind]; auto.
  intros a. unfold cset_mem.
  rewrite (proj1 (chr_eqb_eq _ _) (lower_chr_idem a)). reflexivity.
Qed.

Lemma lower_newline c : chr_eqb (lower_chr c) "010" = chr_eqb c "010".
Proof. chars. Qed.

Lemma lower_length s : length (lower s) = length s.
Proof. apply length_map. Qed.

Lemma at_end_lower s i : at_end (lower s) i = at_end s i.
Proof.
  unfold at_end. rewrite lower_length. unfold lower. rewrite nth_error_map.
  destruct (nth_error s i); cbn [option_map]; [rewrite lower_newline |]; reflexivity.
Qed.

Lemma star_iter_ext (f g : mstate -> list mstate) greedy fuel :
  (forall st, f st = g st) ->
  forall st, star_iter f greedy fuel st = star_iter g greedy fuel st.
Proof.
  intros H. induction fuel as [| fuel IH]; intros st; cbn [star_iter]; [reflexivity |].
  rewrite H.
  rewrite (@flat_map_ext _ _ (fun st' => if pos st <? pos st' then star_iter f greedy fuel st' else [])
             (fun st' => if pos st <? pos st' then star_iter g greedy fuel st' else [])).
  - reflexivity.
  - intros st'. rewrite IH. reflexivity.
Qed.

Lemma run_lower ic s r :
  case_blind ic r -> forall st, run ic (lower s) r st = run ic s r st.
Proof.
  induction r as [| cs | r1 IH1 r2 IH2 | r1 IH1 r2 IH2 | g r IH | r IH | |];
    cbn [case_blind]; intros Hb st; cbn [run].
  - reflexivity.
  - unfold lower. rewrite nth_error_map.
    destruct (nth_error s (pos st)); cbn [option_map]; [rewrite Hb |]; reflexivity.
  - destruct Hb as [H1 H2]. rewrite (IH1 H1).
    apply flat_map_ext. intros st'. apply (IH2 H2).
  - destruct Hb as [H1 H2]. rewrite (IH1 H1), (IH2 H2). reflexivity.
  - rewrite lower_length. apply star_iter_ext. apply (IH Hb).
  - rewrite (IH Hb). reflexivity.
  - reflexivity.
  - rewrite at_end_lower. reflexivity.
Qed.

Lemma match_at_lower p s start :
  case_blind (p_ignorecase p) (p_regex p) ->
  match_at p (lower s) start = option_map lower_match (match_at p s start).
Proof.
  intros Hb. unfold match_at. rewrite (@run_lower _ s _ Hb).
  destruct (run _ s _ _); reflexivity.
Qed.

Lemma search_from_lower p s n :
  case_blind (p_ignorecase p) (p_regex p) ->
  forall start,
  search_from p (lower s) n start = option_map lower_match (search_from p s n start).
Proof.
  intros Hb. induction n as [| n IH]; intros start; cbn [search_from];
    rewrite (@match_at_lower p s start Hb); destruct (match_at p s start);
    try reflexivity.
  apply IH.
Qed.

Lemma search_lower p s :
  case_blind (p_ignorecase p) (p_regex p) ->
  search p (lower s) = option_map lower_match (search p s).
Proof.
  intros Hb. unfold search. rewrite lower_length. apply search_from_lower, Hb.
Qed.

Lemma slice_lower s b e : slice (lower s) b e = lower (slice s b e).
Proof. unfold slice, lower. rewrite skipn_map, firstn_map. reflexivity. Qed.

Lemma group0_lower m : group0 (lower_match m) = lower (group0 m).
Proof. unfold group0, lower_match. cbn [m_subject m_start m_end]. apply slice_lower. Qed.

Lemma group1_lower m : group1 (lower_match m) = lower (group1 m).
Proof.
  unfold group1, group1_opt, lower_match. cbn [m_subject m_grp].
  destruct (m_grp m) as [[b e] |]; [apply slice_lower | reflexivity].
Qed.


Lemma lower_space c : isspace_chr (lower_chr c) = isspace_chr c.
Proof. chars. Qed.

Lemma lower_plus c : chr_eqb (lower_chr c) "+" = chr_eqb c "+".
Proof. chars. Qed.

Lemma lower_minus c : chr_eqb (lower_chr c) "-" = chr_eqb c "-".
Proof. chars. Qed.

Lemma lower_dot c : chr_eqb (lower_chr c) "." = chr_eqb c ".".
Proof. chars. Qed.

Lemma lower_slash c : chr_eqb (lower_chr c) "/" = chr_eqb c "/".
Proof. chars. Qed.

Lemma lower_decimal c : isdecimal_chr c = true -> lower_chr c = c.
Proof.
  intros H. apply chr_eqb_eq.
  pose proof (@ascii_ind_bool
                (fun c => negb (isdecimal_chr c) || chr_eqb (lower_chr c) c)
                ltac:(vm_compute; reflexivity) c) as E.
  cbv beta in E. rewrite H in E. exact E.
Qed.

Lemma lower_digits s : forallb isdecimal_chr s = true -> lower s = s.
Proof.
  induction s as [| c s IH]; cbn [forallb lower map]; [reflexivity |].
  intros H. apply andb_true_iff in H. destruct H as [Hc Hs].
  rewrite (lower_decimal _ Hc). f_equal. apply IH, Hs.
Qed.

Lemma lstrip_lower s : lstrip (lower s) = lower (lstrip s).
Proof.
  induction s as [| c s IH]; cbn [lower map lstrip]; [reflexivity |].
  rewrite lower_space. destruct (isspace_chr c); [exact IH | reflexivity].
Qed.

Lemma strip_lower s : strip (lower s) = lower (strip s).
Proof.
  unfold strip, rstrip. rewrite lstrip_lower. unfold lower at 1 2.
  rewrite <- map_rev. fold (lower (rev (lstrip s))). rewrite lstrip_lower.
  unfold lower. rewrite map_rev. reflexivity.
Qed.

Lemma zfill_lower n s : zfill n (lower s) = lower (zfill n s).
Proof.
  unfold zfill. rewrite lower_length.
  assert (Hz : forall k, lower (repeat "0"%char k) = repeat "0"%char k).
  { induction k; cbn [repeat lower map]; [reflexivity |]. f_equal. exact IHk. }
  destruct s as [| c s]; cbn [lower map].
  - rewrite <- (Hz (n - length (@nil ascii))) at 1. reflexivity.
  - rewrite lower_plus, lower_minus.
    destruct (chr_eqb c "+" || chr_eqb c "-"); unfold lower;
      cbn [map]; rewrite ?map_app; cbn [map]; fold (lower (repeat "0"%char (n - length (c :: s))));
      rewrite Hz; reflexivity.
Qed.

Lemma rfind_from_lower c s :
  (forall x, chr_eqb (lower_chr x) c = chr_eqb x c) ->
  forall i last, rfind_from c (lower s) i last = rfind_from c s i last.
Proof.
  intros Hc. induction s as [| x s IH]; intros i last; cbn [lower map rfind_from];
    [reflexivity |].
  rewrite Hc. apply IH.
Qed.

Lemma has_non_dot_lower s : has_non_dot (lower s) = has_non_dot s.
Proof.
  induction s as [| c s IH]; cbn [lower map has_non_dot]; [reflexivity |].
  rewrite lower_dot. f_equal. exact IH.
Qed.

Lemma splitext_root_lower p : splitext_root (lower p) = lower (splitext_root p).
Proof.
  unfold splitext_root, rfind.
  rewrite !rfind_from_lower by (intros; first [apply lower_slash | apply lower_dot]).
  destruct (rfind_from "." p 0 None) as [dotIndex |]; [| reflexivity].
  rewrite slice_lower, has_non_dot_lower.
  destruct (_ && _); [| reflexivity].
  unfold lower. rewrite firstn_map. reflexivity.
Qed.

End CaseBlind.

Section ExtractionCase.

Lemma blind_fallback : case_blind false (p_regex fallback_pattern).
Proof.
  cbn [fallback_pattern p_regex case_blind Opt Plus]. unfold cset_mem.
  repeat split; intros a; apply bool_eqb_eq; revert a;
    match goal with
    | |- forall a, bool_eqb (?f (lower_chr a)) _ = true =>
        apply (ascii_ind_bool (fun a => bool_eqb (f (lower_chr a)) (f a)))
    end; vm_compute; reflexivity.
Qed.

Lemma blind_trailing : case_blind false (p_regex trailing_num_pattern).
Proof.
  cbn [trailing_num_pattern p_regex case_blind Opt Plus]. unfold cset_mem.
  repeat split; intros a; apply bool_eqb_eq; revert a;
    match goal with
    | |- forall a, bool_eqb (?f (lower_chr a)) _ = true =>
        apply (ascii_ind_bool (fun a => bool_eqb (f (lower_chr a)) (f a)))
    end; vm_compute; reflexivity.
Qed.

Ltac fold_case p name Hb :=
  rewrite (@search_lower p name Hb);
  destruct (search p name) as [?m |]; cbn [option_map];
  [ rewrite ?group1_lower, ?group0_lower, ?zfill_lower, ?strip_lower; try reflexivity | ].

Lemma extract_groupable_lower id name fnd :
  extract_groupable id (lower name) (lower fnd)
  = lower_extraction (extract_groupable id name fnd).
Proof.
  unfold extract_groupable.
  fold_case (num_pattern id) name (case_blind_ignorecase (p_regex (num_pattern id))).
  fold_case (num_pattern2 id) name (case_blind_ignorecase (p_regex (num_pattern2 id))).
  fold_case (num_pattern_after id) name
            (case_blind_ignorecase (p_regex (num_pattern_after id))).
  reflexivity.
Qed.

Lemma extract_non_groupable_lower id name fnd :
  extract_non_groupable id (lower name) (lower fnd)
  = lower_extraction (extract_non_groupable id name fnd).
Proof.
  unfold extract_non_groupable.
  destruct (str_in id map_names).
  - fold_case (after_id_pattern id) name
              (case_blind_ignorecase (p_regex (after_id_pattern id))).
    fold_case fallback_pattern name blind_fallback.
    reflexivity.
  - destruct (str_in id spectrum_names); [| reflexivity].
    fold_case trailing_num_pattern name blind_trailing.
    reflexivity.
Qed.

Lemma extract_loop_lower ids name :
  extract_loop ids (lower name) = lower_extraction (extract_loop ids name).
Proof.
  induction ids as [| id ids IH]; cbn [extract_loop]; [reflexivity |].
  rewrite (@search_lower (id_pattern id) name
             (case_blind_ignorecase (p_regex (id_pattern id)))).
  destruct (search (id_pattern id) name) as [m |]; cbn [option_map]; [| exact IH].
  rewrite group1_lower.
  destruct (str_in id GROUPABLE_IDENTIFIERS);
    [apply extract_groupable_lower | apply extract_non_groupable_lower].
Qed.

Lemma extract_lower filename :
  extract_identifier_and_number (lower filename)
  = lower_extraction (extract_identifier_and_number filename).
Proof.
  unfold extract_identifier_and_number.
  rewrite splitext_root_lower. apply extract_loop_lower.
Qed.

(** X13: For file names of characters in U+0000..U+00FF, the strings of
    the embedding, the classification does not depend on the case of the
    letters: two such names that are equal after [lower()] get the same
    group number and the same identifier. *)
Theorem extract_ignores_case f g :
  lower f = lower g ->
  fst (extract_identifier_and_number f) = fst (extract_identifier_and_number g).
Proof.
  assert (H : forall x,
            fst (extract_identifier_and_number (lower x))
            = fst (extract_identifier_and_number x)).
  { intros x. rewrite extract_lower.
    destruct (extract_identifier_and_number x) as [[number identifier] full] eqn:E.
    cbn [lower_extraction fst]. f_equal.
    destruct number as [n |]; [| reflexivity]. cbn [option_map]. f_equal.
    destruct (@extract_number_source x n identifier full E) as [[d [[Hd _] ->]] _].
    apply lower_digits. apply (zfill_digits_spec Hd). }
  intros E. rewrite <- (H f), <- (H g), E. reflexivity.
Qed.

End ExtractionCase.

Import ImageIndex Catalogue.

(** * The index *)

Section Index.
Variable abspath : str -> str.

Lemma find_app_none {A : Type} (f : A -> bool) l x :
  find f l = None -> find f (l ++ [x]) = if f x then Some x else None.
Proof.
  induction l as [| y l IH]; simpl; [reflexivity |].
  destruct (f y); [discriminate | exact IH].
Qed.

Lemma find_app_some {A : Type} (f : A -> bool) l l' y :
  find f l = Some y -> find f (l ++ l') = Some y.
Proof.
  induction l as [| z l IH]; simpl; [discriminate |].
  destruct (f z); [auto | exact IH].
Qed.

Lemma find_none_iff {A : Type} (f : A -> bool) l :
  find f l = None <-> forall x, In x l -> f x = false.
Proof.
  split; [apply find_none |].
  induction l as [| y l IH]; simpl; intros H; [reflexivity |].
  rewrite (H y (or_introl eq_refl)). apply IH. intros x Hx. apply H. right. exact Hx.
Qed.

(** In a numbered index the entry at position [i] is the one found under
    the identifier [i + 1]. *)
Lemma get_image_from b images : forall i e,
  (forall j x, nth_error images j = Some x -> e_id x = (b + Z.of_nat j)%Z) ->
  nth_error images i = Some e ->
  get_image (b + Z.of_nat i) images = Some e.
Proof.
  revert b. induction images as [| y l IH]; intros b i e Hn Hi.
  - destruct i; discriminate.
  - unfold get_image. simpl. destruct i as [| i].
    + simpl in Hi. injection Hi as ->. rewrite (Hn 0 e eq_refl).
      rewrite Z.eqb_refl. reflexivity.
    + rewrite (Hn 0 y eq_refl). simpl in Hi.
      destruct (Z.eqb_spec (b + Z.of_nat 0) (b + Z.of_nat (S i))) as [E | _]; [lia |].
      replace (b + Z.of_nat (S i))%Z with ((b + 1) + Z.of_nat i)%Z by lia.
      apply (IH (b + 1)%Z i e); [| exact Hi].
      intros j x Hj. rewrite (Hn (S j) x Hj). lia.
Qed.

Lemma get_image_numbered images i e :
  numbered images -> nth_error images i = Some e ->
  get_image (Z.of_nat (S i)) images = Some e.
Proof.
  intros Hn Hi. replace (Z.of_nat (S i)) with (1 + Z.of_nat i)%Z by lia.
  apply get_image_from; [| exact Hi].
  intros j x Hj. rewrite (Hn j x Hj). lia.
Qed.

Lemma numbered_app images e :
  numbered images -> e_id e = Z.of_nat (S (length images)) -> numbered (images ++ [e]).
Proof.
  intros Hn He i x Hi. destruct (Nat.lt_ge_cases i (length images)) as [Hlt | Hge].
  - rewrite nth_error_app1 in Hi by exact Hlt. apply Hn. exact Hi.
  - rewrite nth_error_app2 in Hi by exact Hge.
    destruct (i - length images) as [| k] eqn:Ek.
    + simpl in Hi. injection Hi as <-. rewrite He. f_equal. lia.
    + simpl in Hi. destruct k; discriminate.
Qed.

(** What [add_image] returns, case by case. *)
Lemma add_image_cases fs filepath images :
  match add_image abspath fs filepath images with
  | Raise FileNotFoundError => read_file fs filepath = None
  | Raise ValueError =>
      exists f, read_file fs filepath = Some f /\ f_picture f = None
  | Return (e, images') =>
      exists f, read_file fs filepath = Some f /\ f_picture f <> None /\
        e_hash e = f_hash f /\
        ((find (fun img => str_eqb (e_hash img) (f_hash f)) images = Some e /\
          images' = images) \/
         (find (fun img => str_eqb (e_hash img) (f_hash f)) images = None /\
          images' = images ++ [e] /\
          e_id e = Z.of_nat (S (length images)) /\
          filename (e_image e) = basename filepath /\
          ImageIdentifier.filepath (e_image e) = abspath filepath /\
          classified e))
  end.
Proof.
  unfold add_image. destruct (read_file fs filepath) as [f |]; [| reflexivity].
  destruct (f_picture f) as [[[w h] fmt] |] eqn:Ep; [| exists f; auto].
  destruct (find _ images) as [img |] eqn:Ef.
  - exists f. split; [reflexivity |]. split; [congruence |].
    pose proof (find_some _ _ Ef) as [_ Hh]. apply str_eqb_eq in Hh.
    split; [exact Hh |]. left. auto.
  - destruct (extract_identifier_and_number (basename filepath)) as [[np id] fm] eqn:Ex.
    exists f. split; [reflexivity |]. split; [congruence |].
    split; [reflexivity |]. right. split; [exact Ef |]. split; [reflexivity |].
    split; [cbn [e_id]; lia |]. split; [reflexivity |]. split; [reflexivity |].
    unfold classified. simpl. exact Ex.
Qed.

(** X14: in an index whose identifiers count from 1 and whose hashes are
    distinct, [add_image] keeps both properties; the entry it returns has
    the hash of the file and is the entry that [get_image] finds under the
    identifier of that entry; the entries the index had are still there,
    in their places. *)
Theorem add_image_keeps_catalogue fs filepath images e images' :
  numbered images -> distinct_hashes images ->
  add_image abspath fs filepath images = Return (e, images') ->
  numbered images' /\ distinct_hashes images' /\
  get_image (e_id e) images' = Some e /\
  (exists f, read_file fs filepath = Some f /\ e_hash e = f_hash f) /\
  (images' = images \/ images' = images ++ [e]).
Proof.
  intros Hn Hd Ha. pose proof (add_image_cases fs filepath images) as Hc.
  rewrite Ha in Hc. destruct Hc as [f [Hr [_ [Hh [[Hf ->] | [Hf [-> [Hid _]]]]]]]].
  - split; [exact Hn |]. split; [exact Hd |]. split.
    + pose proof (find_some _ _ Hf) as [Hin _].
      apply In_nth_error in Hin. destruct Hin as [i Hi].
      rewrite (Hn i e Hi). apply get_image_numbered; assumption.
    + split; [exists f; auto | left; reflexivity].
  - assert (Hn' : numbered (images ++ [e])) by (apply numbered_app; assumption).
    split; [exact Hn' |]. split.
    + unfold distinct_hashes. rewrite map_app. simpl.
      apply NoDup_app; [exact Hd | constructor; [intros [] | constructor] |].
      intros h Hin [E | []]. apply in_map_iff in Hin. destruct Hin as [x [Hx Hin]].
      rewrite find_none_iff in Hf. specialize (Hf x Hin).
      rewrite Hx, <- E, Hh, str_eqb_refl in Hf. discriminate.
    + split.
      * rewrite Hid. apply get_image_numbered; [exact Hn' |].
        rewrite nth_error_app2 by lia. rewrite Nat.sub_diag. reflexivity.
      * split; [exists f; auto | right; reflexivity].
Qed.

End Index.

Section Removal.
Variable abspath : str -> str.

Lemma remove_image_split i images :
  match get_image i images with
  | Some e =>
      exists l1 l2, images = l1 ++ e :: l2 /\ get_image i l1 = None /\ e_id e = i /\
                    ImageIndex.remove_image i images = (true, l1 ++ l2)
  | None => ImageIndex.remove_image i images = (false, images)
  end.
Proof.
  induction images as [| x l IH]; [reflexivity |].
  unfold get_image in *. simpl.
  destruct (Z.eqb_spec (e_id x) i) as [E | E].
  - exists [], l. auto.
  - destruct (find _ l) as [e |].
    + destruct IH as [l1 [l2 [-> [Hn [He ->]]]]].
      exists (x :: l1), l2. repeat split; auto.
      simpl. destruct (Z.eqb_spec (e_id x) i); [contradiction | exact Hn].
    + rewrite IH. reflexivity.
Qed.

Lemma get_image_app j l1 l2 :
  get_image j (l1 ++ l2)
  = match get_image j l1 with Some e => Some e | None => get_image j l2 end.
Proof.
  unfold get_image. induction l1 as [| x l IH]; simpl; [reflexivity |].
  destruct (e_id x =? j)%Z; [reflexivity | exact IH].
Qed.

(** X15: [remove_image] takes out the entry that [get_image] finds under
    the identifier, the first one that has it, and returns [True]; without
    such an entry it returns [False] and leaves the index as it is.  What
    [get_image] finds under another identifier is not changed. *)
Theorem remove_image_first i images :
  let '(found, images') := ImageIndex.remove_image i images in
  match get_image i images with
  | Some e =>
      found = true /\
      exists l1 l2, images = l1 ++ e :: l2 /\ images' = l1 ++ l2 /\ get_image i l1 = None
  | None => found = false /\ images' = images
  end /\
  forall j, j <> i -> get_image j images' = get_image j images.
Proof.
  pose proof (remove_image_split i images) as H.
  destruct (get_image i images) as [e |].
  - destruct H as [l1 [l2 [-> [Hn [He ->]]]]]. split.
    + split; [reflexivity |]. exists l1, l2. auto.
    + intros j Hj. rewrite !get_image_app. destruct (get_image j l1); [reflexivity |].
      unfold get_image. simpl.
      destruct (Z.eqb_spec (e_id e) j); [congruence | reflexivity].
  - rewrite H. auto.
Qed.

(** X16: the identifiers are not kept unique.  After the removal of an
    entry that is not the last one of a numbered index, a new file gets the
    identifier of the last entry, and [get_image] finds that older entry
    under it, not the new one. *)
Theorem add_image_after_remove fs filepath images i images' e images'' :
  numbered images -> (i < Z.of_nat (length images))%Z ->
  ImageIndex.remove_image i images = (true, images') ->
  add_image abspath fs filepath images' = Return (e, images'') ->
  ~ In e images' ->
  In e images'' /\
  exists e', In e' images /\ e' <> e /\ e_id e' = e_id e /\
             get_image (e_id e) images'' = Some e'.
Proof.
  intros Hn Hi Hr Ha Hnew.
  pose proof (remove_image_split i images) as Hs.
  destruct (get_image i images) as [x |]; [| rewrite Hs in Hr; discriminate].
  destruct Hs as [l1 [l2 [-> [Hl1 [Hx Hr']]]]].
  rewrite Hr' in Hr. injection Hr as <-.
  assert (Hk : i = Z.of_nat (S (length l1))).
  { rewrite <- Hx. apply Hn. rewrite nth_error_app2 by lia.
    rewrite Nat.sub_diag. reflexivity. }
  rewrite length_app in Hi. simpl in Hi.
  destruct (rev l2) as [| y r] eqn:Er.
  { apply (f_equal (@length entry)) in Er. rewrite length_rev in Er. simpl in Er. lia. }
  assert (El2 : l2 = rev r ++ [y]).
  { rewrite <- (rev_involutive l2), Er. reflexivity. }
  assert (Hy : e_id y = Z.of_nat (S (length (l1 ++ l2)))).
  { replace (S (length (l1 ++ l2))) with (S (length l1 + S (length (rev r)))).
    - apply Hn. rewrite nth_error_app2 by lia.
      replace (length l1 + S (length (rev r)) - length l1) with (S (length (rev r))) by lia.
      simpl. rewrite El2. rewrite nth_error_app2 by lia. rewrite Nat.sub_diag. reflexivity.
    - rewrite El2, !length_app. simpl. lia. }
  pose proof (add_image_cases abspath fs filepath (l1 ++ l2)) as Hc.
  rewrite Ha in Hc. destruct Hc as [f [_ [_ [_ [[Hf _] | [_ [-> [Hid _]]]]]]]].
  { exfalso. apply Hnew. apply (find_some _ _ Hf). }
  split; [apply in_or_app; right; left; reflexivity |].
  destruct (get_image (e_id e) (l1 ++ l2)) as [e' |] eqn:Eg.
  - exists e'. unfold get_image in Eg. pose proof (find_some _ _ Eg) as [Hin He'].
    apply Z.eqb_eq in He'. split.
    + apply in_app_or in Hin. apply in_or_app.
      destruct Hin; [left | right; right]; assumption.
    + split; [intros ->; contradiction |]. split; [exact He' |].
      unfold get_image. apply find_app_some. exact Eg.
  - exfalso. unfold get_image in Eg. rewrite find_none_iff in Eg.
    assert (Hin : In y (l1 ++ l2)).
    { apply in_or_app. right. rewrite El2. apply in_or_app. right. left. reflexivity. }
    specialize (Eg y Hin). simpl in Eg. rewrite Hy, Hid, Z.eqb_refl in Eg. discriminate.
Qed.

End Removal.

Section KeyOrder.

Section Step.
Context {A : Type}.
Variable lt : A -> A -> bool.
Hypothesis lt_asym : forall x y, lt x y = true -> lt y x = false.
Hypothesis lt_trans : forall x y z, lt x y = true -> lt y z = true -> lt x z = true.
Hypothesis lt_total : forall x y, lt x y = false -> lt y x = false -> x = y.

Lemma lex_step_asym x y r r' :
  (x = y -> r = true -> r' = false) ->
  lex_step lt x y r = true -> lex_step lt y x r' = false.
Proof.
  unfold lex_step. intros Hr. destruct (lt x y) eqn:E1.
  - rewrite (lt_asym E1). reflexivity.
  - destruct (lt y x) eqn:E2; [discriminate |]. apply Hr. apply lt_total; assumption.
Qed.

Lemma lex_step_trans x y z r1 r2 r3 :
  (x = y -> y = z -> r1 = true -> r2 = true -> r3 = true) ->
  lex_step lt x y r1 = true -> lex_step lt y z r2 = true -> lex_step lt x z r3 = true.
Proof.
  unfold lex_step. intros Hr. destruct (lt x y) eqn:E1.
  - destruct (lt y z) eqn:E2.
    + rewrite (lt_trans E1 E2). reflexivity.
    + destruct (lt z y) eqn:E3; [discriminate |].
      rewrite <- (lt_total E2 E3), E1. reflexivity.
  - destruct (lt y x) eqn:E2; [discriminate |].
    pose proof (lt_total E1 E2) as ->. intros H1.
    destruct (lt y z) eqn:E3; [reflexivity |].
    destruct (lt z y) eqn:E4; [discriminate |]. intros H2.
    apply Hr; auto.
Qed.

End Step.

Lemma str_ltb_eq a b : str_ltb a b = false -> str_ltb b a = false -> a = b.
Proof.
  intros H1 H2. destruct (list_eq_dec ascii_dec a b) as [E | E]; [exact E |].
  destruct (str_ltb_total E) as [H | H]; congruence.
Qed.

Lemma Z_ltb_asym x y : (x <? y)%Z = true -> (y <? x)%Z = false.
Proof. intros H. apply Z.ltb_lt in H. apply Z.ltb_ge. lia. Qed.

Lemma Z_ltb_trans x y z : (x <? y)%Z = true -> (y <? z)%Z = true -> (x <? z)%Z = true.
Proof. rewrite !Z.ltb_lt. lia. Qed.

Lemma Z_ltb_eq x y : (x <? y)%Z = false -> (y <? x)%Z = false -> x = y.
Proof. rewrite !Z.ltb_ge. lia. Qed.

Lemma sort_key_ltb_steps a b :
  sort_key_ltb a b
  = let '(c1, g1, p1, f1) := a in
    let '(c2, g2, p2, f2) := b in
    lex_step Z.ltb c1 c2 (lex_step str_ltb g1 g2 (lex_step Z.ltb p1 p2 (str_ltb f1 f2))).
Proof. destruct a as [[[c1 g1] p1] f1], b as [[[c2 g2] p2] f2]. reflexivity. Qed.

Lemma sort_key_ltb_asym a b : sort_key_ltb a b = true -> sort_key_ltb b a = false.
Proof.
  rewrite !sort_key_ltb_steps.
  destruct a as [[[c1 g1] p1] f1], b as [[[c2 g2] p2] f2].
  apply (@lex_step_asym _ Z.ltb Z_ltb_asym Z_ltb_eq). intros _.
  apply (@lex_step_asym _ str_ltb str_ltb_asym str_ltb_eq). intros _.
  apply (@lex_step_asym _ Z.ltb Z_ltb_asym Z_ltb_eq). intros _.
  apply str_ltb_asym.
Qed.

Lemma sort_key_ltb_trans a b c :
  sort_key_ltb a b = true -> sort_key_ltb b c = true -> sort_key_ltb a c = true.
Proof.
  rewrite !sort_key_ltb_steps.
  destruct a as [[[c1 g1] p1] f1], b as [[[c2 g2] p2] f2], c as [[[c3 g3] p3] f3].
  apply (@lex_step_trans _ Z.ltb Z_ltb_trans Z_ltb_eq). intros _ _.
  apply (@lex_step_trans _ str_ltb str_ltb_trans str_ltb_eq). intros _ _.
  apply (@lex_step_trans _ Z.ltb Z_ltb_trans Z_ltb_eq). intros _ _.
  apply str_ltb_trans.
Qed.

Lemma insert_by_key_perm x l : Permutation (x :: l) (insert_by_key x l).
Proof.
  induction l as [| y l IH]; cbn [insert_by_key]; [reflexivity |].
  destruct (sort_key_ltb (get_sort_key (e_image x)) (get_sort_key (e_image y)));
    [reflexivity |].
  rewrite perm_swap. constructor. exact IH.
Qed.

Lemma sorted_by_key_perm l : Permutation l (sorted_by_key l).
Proof.
  unfold sorted_by_key.
  assert (H : forall acc, Permutation (l ++ acc) (fold_left (fun acc x => insert_by_key x acc) l acc)).
  { induction l as [| x l IH]; intros acc; simpl; [reflexivity |].
    rewrite <- IH. rewrite <- insert_by_key_perm. apply Permutation_middle. }
  specialize (H []). rewrite app_nil_r in H. exact H.
Qed.

Lemma insert_by_key_sorted x l :
  StronglySorted key_le l -> StronglySorted key_le (insert_by_key x l).
Proof.
  induction 1 as [| y l Hs IH Hy]; cbn [insert_by_key]; [repeat constructor |].
  destruct (sort_key_ltb (get_sort_key (e_image x)) (get_sort_key (e_image y))) eqn:E.
  - constructor; [constructor; assumption |]. constructor.
    + unfold key_le. apply sort_key_ltb_asym. exact E.
    + rewrite Forall_forall in *. intros z Hz. specialize (Hy z Hz). unfold key_le in *.
      destruct (sort_key_ltb (get_sort_key (e_image z)) (get_sort_key (e_image x))) eqn:E';
        [| reflexivity].
      rewrite (sort_key_ltb_trans _ _ _ E' E) in Hy. discriminate.
  - constructor; [exact IH |].
    apply (Permutation_Forall (insert_by_key_perm x l)). constructor; assumption.
Qed.

Lemma sorted_by_key_sorted l : StronglySorted key_le (sorted_by_key l).
Proof.
  unfold sorted_by_key.
  assert (H : forall acc, StronglySorted key_le acc ->
                          StronglySorted key_le (fold_left (fun acc x => insert_by_key x acc) l acc)).
  { induction l as [| x l IH]; intros acc Hacc; simpl; [exact Hacc |].
    apply IH. apply insert_by_key_sorted. exact Hacc. }
  apply H. constructor.
Qed.

(** X17: [get_all_images] returns the entries of the index, each as often
    as the index has it, in an order in which no entry has a key less than
    the key of an entry before it. *)
Theorem get_all_images_sorted images :
  Permutation images (get_all_images images) /\
  StronglySorted key_le (get_all_images images).
Proof.
  split; [apply sorted_by_key_perm | apply sorted_by_key_sorted].
Qed.

End KeyOrder.

Section IndexGroups.

Lemma dict_get_In {K V : Type} (eqb : K -> K -> bool)
    (eqb_eq : forall a b, eqb a b = true <-> a = b) (d : list (K * V)) k v :
  NoDup (map fst d) -> In (k, v) d -> dict_get eqb k d = Some v.
Proof.
  induction d as [| [k' v'] d IH]; simpl; intros Hnd Hin; [contradiction |].
  inversion Hnd as [| ? ? Hk Hnd']; subst.
  destruct Hin as [E | Hin].
  - injection E as -> ->. rewrite (proj2 (eqb_eq k k) eq_refl). reflexivity.
  - destruct (eqb k' k) eqn:E.
    + apply eqb_eq in E. subst k'. exfalso. apply Hk.
      apply in_map_iff. exists (k, v). auto.
    + apply IH; assumption.
Qed.

Lemma grouped_file_all images : forall d,
  fold_left (fun grouped img =>
               match numerical_prefix (e_image img) with
               | None | Some [] => dict_append str_eqb $"ungrouped" img grouped
               | Some prefix => dict_append str_eqb prefix img grouped
               end) images d
  = file_all str_eqb (fun img => Some (group_key img)) images d.
Proof.
  unfold file_all. induction images as [| img l IH]; intros d; simpl; [reflexivity |].
  rewrite IH. f_equal. unfold group_key.
  destruct (numerical_prefix (e_image img)) as [[| c p] |]; reflexivity.
Qed.

(** X18: [get_grouped_images] is a partition of the index.  Its keys are
    distinct; the group under a key is not empty and holds the entries of
    that key, each as often as the index has it, ordered by the sort key;
    every entry of the index has its key in the dict.  The entries without
    a group go under ['ungrouped']; the group under another key holds what
    [get_images_by_group] returns for that key. *)
Theorem get_grouped_images_partition images :
  let grouped := get_grouped_images images in
  NoDup (map fst grouped) /\
  (forall k group, In (k, group) grouped ->
     group <> [] /\ StronglySorted key_le group /\
     Permutation (filter (fun img => str_eqb (group_key img) k) images) group /\
     (k <> $"ungrouped" -> Permutation (get_images_by_group k images) group)) /\
  (forall img, In img images -> exists group, In (group_key img, group) grouped).
Proof.
  unfold get_grouped_images. rewrite grouped_file_all.
  set (key := fun img : entry => Some (group_key img)).
  pose proof (@file_all_keys _ _ str_eqb str_eqb_eq key images [] (NoDup_nil _)) as [Hnd Hk].
  assert (Hfst : forall d : list (str * list entry),
            map fst (map (fun '(prefix, group) => (prefix, sorted_by_key group)) d) = map fst d).
  { intros d. rewrite map_map. apply map_ext. intros [k g]. reflexivity. }
  assert (Hget : forall k g, In (k, g) (file_all str_eqb key images []) ->
            g = filter (fun img => str_eqb (group_key img) k) images /\ g <> []).
  { intros k g Hin. pose proof (dict_get_In str_eqb str_eqb_eq _ _ _ Hnd Hin) as Hg.
    rewrite (@file_all_get _ _ str_eqb str_eqb_eq key k images []) in Hg. simpl in Hg.
    unfold filed_under, key in Hg.
    destruct (filter _ images) as [| x r] eqn:Ef; [discriminate |].
    injection Hg as <-. split; [reflexivity | discriminate]. }
  split; [rewrite Hfst; exact Hnd |]. split.
  - intros k group Hin. apply in_map_iff in Hin. destruct Hin as [[k' g] [E Hin]].
    injection E as -> <-. destruct (Hget _ _ Hin) as [Hg Hne]. split.
    + intros E. apply Hne. apply Permutation_nil. rewrite <- E.
      symmetry. apply sorted_by_key_perm.
    + split; [apply sorted_by_key_sorted |].
      split; [rewrite <- Hg; apply sorted_by_key_perm |].
      intros Hk'. unfold get_images_by_group.
      rewrite (@filter_ext _ _ (fun img => str_eqb (group_key img) k)).
      * rewrite <- Hg. apply sorted_by_key_perm.
      * intros img. unfold group_key.
        assert (Hu : str_eqb $"ungrouped" k = false).
        { destruct (str_eqb $"ungrouped" k) eqn:E; [| reflexivity].
          apply str_eqb_eq in E. congruence. }
        assert (Hn : str_eqb [] k = false).
        { destruct k; [| reflexivity]. exfalso. apply Hne. rewrite Hg.
          apply filter_none. intros x _. unfold group_key.
          destruct (numerical_prefix (e_image x)) as [[| c p] |]; reflexivity. }
        destruct (numerical_prefix (e_image img)) as [[| c p] |]; cbn [opt_str_eqb];
          [rewrite Hn, Hu | | rewrite Hu]; reflexivity.
  - intros img Hin.
    assert (Hkey : In (group_key img) (map fst (file_all str_eqb key images []))).
    { apply Hk. right. exists img. split; [exact Hin | reflexivity]. }
    apply in_map_iff in Hkey. destruct Hkey as [[k g] [E Hkg]]. simpl in E. subst k.
    exists (sorted_by_key g). apply in_map_iff. exists (group_key img, g). auto.
Qed.

Lemma set_add_spec x s :
  NoDup s -> NoDup (set_add x s) /\ forall y, In y (set_add x s) <-> In y s \/ y = x.
Proof.
  intros Hnd. unfold set_add. destruct (str_in x s) eqn:E.
  - apply str_in_In in E. split; [exact Hnd |]. intros y. split; [auto |].
    intros [H | ->]; assumption.
  - assert (Hx : ~ In x s) by (intros H; apply str_in_In in H; congruence).
    split.
    + apply NoDup_app; [exact Hnd | constructor; [intros [] | constructor] |].
      intros y Hy [<- | []]. contradiction.
    + intros y. rewrite in_app_iff. simpl. intuition.
Qed.

(** X19: [get_all_groups] lists the groups of the index, each once, in
    strictly increasing order: the values of [numerical_prefix] that are
    neither [None] nor empty. *)
Theorem get_all_groups_spec images :
  StronglySorted str_lt (get_all_groups images) /\
  forall g, In g (get_all_groups images)
            <-> g <> [] /\ exists img, In img images /\ numerical_prefix (e_image img) = Some g.
Proof.
  unfold get_all_groups.
  set (step := fun groups img =>
                 match numerical_prefix (e_image img) with
                 | None | Some [] => groups
                 | Some prefix => set_add prefix groups
                 end).
  assert (H : forall acc, NoDup acc ->
            NoDup (fold_left step images acc) /\
            forall g, In g (fold_left step images acc)
                      <-> In g acc \/
                          (g <> [] /\ exists img, In img images /\
                                                  numerical_prefix (e_image img) = Some g)).
  { induction images as [| img l IH]; intros acc Hacc; simpl.
    - split; [exact Hacc |]. intros g. split; [auto |].
      intros [H | [_ [img [[] _]]]]. exact H.
    - assert (Hs : NoDup (step acc img) /\
                   forall y, In y (step acc img)
                             <-> In y acc \/ (y <> [] /\ numerical_prefix (e_image img) = Some y)).
      { unfold step. destruct (numerical_prefix (e_image img)) as [[| c p] |].
        - split; [exact Hacc |]. intros y. split; [auto |].
          intros [H | [Hy E]]; [exact H |]. injection E as <-. contradiction.
        - destruct (set_add_spec (c :: p) Hacc) as [Hnd Hin]. split; [exact Hnd |].
          intros y. rewrite Hin. split.
          + intros [H | ->]; [auto |]. right. split; [discriminate | reflexivity].
          + intros [H | [_ E]]; [auto |]. injection E as <-. auto.
        - split; [exact Hacc |]. intros y. split; [auto |].
          intros [H | [_ E]]; [exact H | discriminate]. }
      destruct Hs as [Hnd Hin]. destruct (IH _ Hnd) as [Hnd' Hin']. split; [exact Hnd' |].
      intros g. rewrite Hin', Hin. split.
      + intros [[H | [Hg E]] | [Hg [x [Hx E]]]]; [auto | |].
        * right. split; [exact Hg |]. exists img. auto.
        * right. split; [exact Hg |]. exists x. auto.
      + intros [H | [Hg [x [[<- | Hx] E]]]]; [auto | |].
        * left. right. auto.
        * right. split; [exact Hg |]. exists x. auto. }
  destruct (H [] (NoDup_nil _)) as [Hnd Hin]. split.
  - apply sorted_sorted. exact Hnd.
  - intros g. split.
    + intros Hg. apply (Permutation_in _ (Permutation_sym (sorted_perm _))) in Hg.
      apply Hin in Hg. destruct Hg as [[] | Hg]. exact Hg.
    + intros Hg. apply (Permutation_in _ (sorted_perm _)). apply Hin. right. exact Hg.
Qed.

End IndexGroups.

Import ImageUploader.

(** * The uploader *)

Section Formats.

Lemma rfind_from_absent c s : forall i last,
  forallb (fun x => negb (chr_eqb x c)) s = true -> rfind_from c s i last = last.
Proof.
  induction s as [| x s IH]; intros i last H; simpl in *; [reflexivity |].
  apply andb_prop in H. destruct H as [Hx Hs].
  destruct (chr_eqb x c); [discriminate |]. apply IH. exact Hs.
Qed.

Lemma rfind_from_last c s1 s2 : forall i last,
  forallb (fun x => negb (chr_eqb x c)) s2 = true ->
  rfind_from c (s1 ++ c :: s2) i last = Some (i + length s1).
Proof.
  induction s1 as [| x s1 IH]; intros i last H; simpl.
  - rewrite (proj2 (chr_eqb_eq c c) eq_refl). rewrite rfind_from_absent by exact H.
    f_equal. lia.
  - rewrite IH by exact H. f_equal. lia.
Qed.

Lemma lower_inv_dot c : lower_chr c = "."%char -> c = "."%char.
Proof.
  intros H. apply chr_eqb_eq. rewrite <- lower_dot, H. reflexivity.
Qed.

Lemma lower_no_dot s :
  forallb (fun x => negb (chr_eqb x ".")) (lower s) = true ->
  forallb (fun x => negb (chr_eqb x ".")) s = true.
Proof.
  induction s as [| x s IH]; simpl; [reflexivity |].
  rewrite lower_dot. intros H. apply andb_prop in H. destruct H as [-> H].
  apply IH. exact H.
Qed.

(** The extensions that are supported, in any case of the letters: a dot,
    then characters other than the dot. *)
Lemma supported_extension ext :
  In (lower ext) SUPPORTED_FORMATS ->
  exists rest, ext = "."%char :: rest /\ rest <> [] /\
               forallb (fun x => negb (chr_eqb x ".")) rest = true.
Proof.
  intros H.
  assert (Hs : exists t, lower ext = "."%char :: t /\ t <> [] /\
                         forallb (fun x => negb (chr_eqb x ".")) t = true).
  { simpl in H.
    repeat (destruct H as [H | H];
            [rewrite <- H; eexists; split; [reflexivity |];
             split; [discriminate | reflexivity] |]).
    contradiction. }
  destruct Hs as [t [Ht [Hne Hd]]]. destruct ext as [| c rest]; [discriminate |].
  simpl in Ht. injection Ht as Hc Hr. exists rest. split.
  - f_equal. apply lower_inv_dot. exact Hc.
  - split.
    + intros ->. apply Hne. symmetry. exact Hr.
    + apply lower_no_dot. unfold lower in *. rewrite Hr. exact Hd.
Qed.

(** X20: a path is of a supported format exactly when its last component
    is a stem that is not empty followed by one of the supported
    extensions, in any case of the letters: a name that is only an
    extension is not supported. *)
Theorem is_supported_format_spec filepath :
  is_supported_format filepath = true <->
  exists stem ext, path_name filepath = stem ++ ext /\ stem <> [] /\
                   In (lower ext) SUPPORTED_FORMATS.
Proof.
  unfold is_supported_format, path_suffix. set (name := path_name filepath). split.
  - intros H. apply str_in_In in H.
    destruct (rfind "." name) as [i |] eqn:Er.
    + destruct ((0 <? i) && (i <? length name - 1)) eqn:Eb.
      * apply andb_prop in Eb. destruct Eb as [H0 H1].
        apply Nat.ltb_lt in H0. apply Nat.ltb_lt in H1.
        exists (firstn i name), (skipn i name). split; [symmetry; apply firstn_skipn |].
        split; [| exact H].
        intros E. apply (f_equal (@length ascii)) in E. rewrite length_firstn in E.
        simpl in E. lia.
      * simpl in H. exfalso. intuition discriminate.
    + simpl in H. exfalso. intuition discriminate.
  - intros [stem [ext [Hn [Hs He]]]].
    destruct (supported_extension ext He) as [rest [-> [Hr Hd]]].
    unfold rfind. rewrite Hn, rfind_from_last by exact Hd. simpl "+".
    assert (H0 : (0 <? length stem) = true).
    { apply Nat.ltb_lt. destruct stem; [contradiction | simpl; lia]. }
    assert (H1 : (length stem <? length (stem ++ "."%char :: rest) - 1) = true).
    { apply Nat.ltb_lt. rewrite length_app. simpl. destruct rest; [contradiction | simpl; lia]. }
    rewrite H0, H1. simpl andb. cbv iota.
    rewrite skipn_app, skipn_all, Nat.sub_diag. simpl skipn. simpl app.
    apply str_in_In. exact He.
Qed.

End Formats.

Section Files.

Lemma read_file_In fs path f : read_file fs path = Some f -> In path (map fst fs).
Proof.
  unfold read_file. induction fs as [| [p g] fs IH]; simpl; [discriminate |].
  destruct (str_eqb p path) eqn:E.
  - apply str_eqb_eq in E. auto.
  - auto.
Qed.

Lemma write_file_new fs path f :
  read_file fs path = None -> write_file fs path f = fs ++ [(path, f)].
Proof.
  unfold read_file. induction fs as [| [p g] fs IH]; simpl; [reflexivity |].
  destruct (str_eqb p path); [discriminate |]. intros H. rewrite IH by exact H. reflexivity.
Qed.

Lemma read_file_app fs path p f :
  read_file (fs ++ [(p, f)]) path
  = match read_file fs path with
    | Some g => Some g
    | None => if str_eqb p path then Some f else None
    end.
Proof.
  unfold read_file. induction fs as [| [q g] fs IH]; simpl; [reflexivity |].
  destruct (str_eqb q path); [reflexivity | exact IH].
Qed.

Lemma keeps_files_app fs p f : keeps_files fs (fs ++ [(p, f)]).
Proof. intros path g H. rewrite read_file_app, H. reflexivity. Qed.

Lemma keeps_files_refl fs : keeps_files fs fs.
Proof. intros path g H. exact H. Qed.

Lemma keeps_files_trans fs1 fs2 fs3 :
  keeps_files fs1 fs2 -> keeps_files fs2 fs3 -> keeps_files fs1 fs3.
Proof. intros H1 H2 path g H. apply H2, H1, H. Qed.

End Files.

Section FreeTarget.

Lemma NoDup_map_inj {A B : Type} (f : A -> B) l :
  (forall a b, f a = f b -> a = b) -> NoDup l -> NoDup (map f l).
Proof.
  intros Hf. induction 1 as [| x l Hx Hl IH]; simpl; constructor; [| exact IH].
  intros Hin. apply in_map_iff in Hin. destruct Hin as [y [E Hy]].
  apply Hf in E. subst y. contradiction.
Qed.

Lemma str_of_int_inj n m : str_of_int n = str_of_int m -> n = m.
Proof.
  unfold str_of_int, lit. intros H.
  apply (f_equal string_of_list_ascii) in H.
  rewrite !string_of_list_ascii_of_string in H.
  assert (Hn : forall z, NilZero.int_of_string (NilZero.string_of_int (Z.to_int z))
                         = Some (Z.to_int z)).
  { intros z. apply NilZero.isi; destruct z; simpl; try discriminate;
      intros E; injection E as E; exact (DecimalPos.Unsigned.to_uint_nonnil _ E). }
  apply DecimalZ.to_int_inj.
  pose proof (Hn n) as H1. rewrite H, Hn in H1. injection H1 as H1. symmetry. exact H1.
Qed.

(** Whether the second path is absolute or not, [join] puts the same
    text before it when it starts with the same character. *)
Lemma join_prefix a x : exists pre, forall t, join a (x :: t) = pre ++ x :: t.
Proof.
  destruct (ascii_dec x "/"%char) as [-> | Hx].
  - exists []. reflexivity.
  - assert (E : forall t, join a (x :: t)
                          = match rev a with
                            | [] => x :: t
                            | y :: _ => if chr_eqb y "/" then a ++ x :: t
                                        else a ++ "/"%char :: x :: t
                            end).
    { intros t. unfold join.
      destruct x as [[] [] [] [] [] [] [] []]; try (exfalso; apply Hx; reflexivity);
        (destruct (rev a) as [| y r]; [reflexivity |];
         destruct y as [[] [] [] [] [] [] [] []]; reflexivity). }
    destruct (rev a) as [| y r] eqn:Er.
    + exists []. intros t. rewrite E. reflexivity.
    + destruct (chr_eqb y "/") eqn:Ey.
      * exists a. intros t. rewrite E. reflexivity.
      * exists (a ++ ["/"%char]). intros t. rewrite E, <- app_assoc. reflexivity.
Qed.

Variable fs : filesystem.
Variables upload_dir filename : str.

(** The path that the loop tries in round [counter]. *)
Lemma candidate_inj k1 k2 :
  let '(name, ext) := splitext filename in
  join upload_dir (name ++ $"_" ++ str_of_int k1 ++ ext)
  = join upload_dir (name ++ $"_" ++ str_of_int k2 ++ ext) -> k1 = k2.
Proof.
  destruct (splitext filename) as [name ext].
  assert (H : forall x t1 t2 n1 n2,
            name ++ $"_" ++ str_of_int k1 ++ ext = x :: t1 ++ n1 ++ ext ->
            name ++ $"_" ++ str_of_int k2 ++ ext = x :: t2 ++ n2 ++ ext ->
            t1 = t2 -> n1 = str_of_int k1 -> n2 = str_of_int k2 ->
            join upload_dir (name ++ $"_" ++ str_of_int k1 ++ ext)
            = join upload_dir (name ++ $"_" ++ str_of_int k2 ++ ext) -> k1 = k2).
  { intros x t1 t2 n1 n2 -> -> <- -> ->. destruct (join_prefix upload_dir x) as [pre Hp].
    rewrite !Hp. intros E. apply app_inv_head in E. injection E as E.
    apply app_inv_head in E. apply app_inv_tail in E. apply str_of_int_inj. exact E. }
  destruct name as [| x name].
  - apply (H "_"%char [] [] (str_of_int k1) (str_of_int k2)); reflexivity.
  - apply (H x (name ++ $"_") (name ++ $"_") (str_of_int k1) (str_of_int k2));
      try reflexivity; simpl; rewrite <- app_assoc; reflexivity.
Qed.

Lemma free_target_stops : forall fuel counter target_path,
  path_exists fs target_path = false \/
  (exists k, (counter <= k < counter + Z.of_nat fuel)%Z /\
             let '(name, ext) := splitext filename in
             path_exists fs (join upload_dir (name ++ $"_" ++ str_of_int k ++ ext)) = false) ->
  path_exists fs (free_target fs upload_dir filename fuel counter target_path) = false.
Proof.
  destruct (splitext filename) as [name ext] eqn:Es.
  induction fuel as [| fuel IH]; intros counter target_path H; cbn [free_target].
  - destruct (path_exists fs target_path) eqn:E; [| exact E].
    destruct H as [H | [k [Hk _]]]; [discriminate | lia].
  - destruct (path_exists fs target_path) eqn:E; [| exact E].
    destruct H as [H | [k [Hk Hfree]]]; [discriminate |].
    rewrite Es. apply IH.
    destruct (Z.eq_dec k counter) as [-> | Hne]; [left; exact Hfree |].
    right. exists k. split; [lia | exact Hfree].
Qed.

(** The path that the loop returns does not exist: among one candidate
    more than there are files, one is free. *)
Lemma free_target_free target_path :
  path_exists fs
    (free_target fs upload_dir filename (S (length fs)) 1%Z target_path) = false.
Proof.
  apply free_target_stops. right.
  pose proof candidate_inj as Hinj.
  destruct (splitext filename) as [name ext].
  set (cand := fun k => join upload_dir (name ++ $"_" ++ str_of_int k ++ ext)) in *.
  set (ks := map Z.of_nat (seq 1 (S (length fs)))).
  assert (Hks : forall k, In k ks -> (1 <= k < 1 + Z.of_nat (S (length fs)))%Z).
  { intros k Hk. apply in_map_iff in Hk. destruct Hk as [n [<- Hn]].
    apply in_seq in Hn. lia. }
  destruct (existsb (fun k => negb (path_exists fs (cand k))) ks) eqn:Ex.
  - apply existsb_exists in Ex. destruct Ex as [k [Hk Hf]].
    exists k. split; [apply Hks; exact Hk |]. apply negb_true_iff. exact Hf.
  - exfalso.
    assert (Hall : incl (map cand ks) (map fst fs)).
    { intros p Hp. apply in_map_iff in Hp. destruct Hp as [k [<- Hk]].
      assert (Hf : negb (path_exists fs (cand k)) = false).
      { destruct (negb (path_exists fs (cand k))) eqn:E; [| reflexivity].
        rewrite <- Ex. symmetry. apply existsb_exists. exists k. auto. }
      apply negb_false_iff in Hf. unfold path_exists in Hf.
      destruct (read_file fs (cand k)) as [f |] eqn:Er; [| discriminate].
      apply (read_file_In _ _ Er). }
    assert (Hnd : NoDup (map cand ks)).
    { apply NoDup_map_inj.
      - intros k1 k2. apply Hinj.
      - unfold ks. apply NoDup_map_inj; [| apply seq_NoDup].
        intros a b. apply Nat2Z.inj. }
    pose proof (NoDup_incl_length Hnd Hall) as Hlen.
    unfold ks in Hlen. rewrite !length_map, length_seq in Hlen. lia.
Qed.

End FreeTarget.

Section Upload.
Variable abspath : str -> str.
Variable upload_dir : str.

(** What [upload_image] does, case by case. *)
Lemma upload_image_cases filepath copy fs images :
  upload_image abspath upload_dir filepath copy (fs, images)
  = if negb (is_supported_format filepath) then (Raise ValueError, (fs, images))
    else if copy then
      match read_file fs filepath with
      | None => (Raise FileNotFoundError, (fs, images))
      | Some f =>
          let target_path :=
            free_target fs upload_dir (basename filepath) (S (length fs)) 1%Z
                        (join upload_dir (basename filepath)) in
          let fs' := fs ++ [(target_path, f)] in
          match add_image abspath fs' target_path images with
          | Return (image_entry, images') => (Return image_entry, (fs', images'))
          | Raise e => (Raise e, (fs', images))
          end
      end
    else
      match add_image abspath fs filepath images with
      | Return (image_entry, images') => (Return image_entry, (fs, images'))
      | Raise e => (Raise e, (fs, images))
      end.
Proof.
  unfold upload_image. destruct (negb (is_supported_format filepath)); [reflexivity |].
  destruct copy; [| reflexivity].
  destruct (read_file fs filepath) as [f |]; [| reflexivity].
  rewrite write_file_new; [reflexivity |].
  pose proof (free_target_free fs upload_dir (basename filepath)
                               (join upload_dir (basename filepath))) as H.
  unfold path_exists in H. destruct (read_file fs _); [discriminate | reflexivity].
Qed.

Lemma upload_image_keeps_files filepath copy fs images :
  keeps_files fs (fst (snd (upload_image abspath upload_dir filepath copy (fs, images)))).
Proof.
  rewrite upload_image_cases.
  destruct (negb (is_supported_format filepath)); [apply keeps_files_refl |].
  destruct copy.
  - destruct (read_file fs filepath) as [f |]; [| apply keeps_files_refl].
    cbv zeta. destruct (add_image abspath _ _ images) as [[e images'] | err];
      apply keeps_files_app.
  - destruct (add_image abspath fs filepath images) as [[e images'] | err];
      apply keeps_files_refl.
Qed.


End Upload.

Import Reindex GuiApp.

Section Uploads.
Variable abspath : str -> str.
Variable upload_dir : str.

Lemma add_image_found fs path images f e :
  read_file fs path = Some f -> f_picture f <> None ->
  find (fun img => str_eqb (e_hash img) (f_hash f)) images = Some e ->
  add_image abspath fs path images = Return (e, images).
Proof.
  intros Hr Hp Hf. unfold add_image. rewrite Hr.
  destruct (f_picture f) as [[[w h] fmt] |]; [| contradiction].
  rewrite Hf. reflexivity.
Qed.

Lemma add_image_indexed fs path images e images' :
  add_image abspath fs path images = Return (e, images') ->
  exists f, read_file fs path = Some f /\ f_picture f <> None /\
            find (fun img => str_eqb (e_hash img) (f_hash f)) images' = Some e.
Proof.
  intros Ha. pose proof (add_image_cases abspath fs path images) as Hc.
  rewrite Ha in Hc. destruct Hc as [f [Hr [Hp [Hh [[Hf ->] | [Hf [-> _]]]]]]];
    exists f; repeat split; auto.
  rewrite find_app_none by exact Hf. rewrite Hh, str_eqb_refl. reflexivity.
Qed.

(** X22: a file that is uploaded twice with a copy is indexed once and
    copied twice.  The second call returns the entry of the first and
    leaves the index as it is, and it writes one more file, at a new
    path. *)
Theorem upload_image_twice filepath fs images e fs1 images1 :
  upload_image abspath upload_dir filepath true (fs, images)
  = (Return e, (fs1, images1)) ->
  exists target_path f,
    read_file fs filepath = Some f /\ read_file fs1 target_path = None /\
    upload_image abspath upload_dir filepath true (fs1, images1)
    = (Return e, (fs1 ++ [(target_path, f)], images1)).
Proof.
  intros H1. rewrite upload_image_cases in H1. rewrite upload_image_cases.
  destruct (negb (is_supported_format filepath)); [discriminate |].
  destruct (read_file fs filepath) as [f |] eqn:Er; [| discriminate].
  cbv zeta in H1.
  set (t1 := free_target fs upload_dir (basename filepath) (S (length fs)) 1%Z
                         (join upload_dir (basename filepath))) in H1.
  destruct (add_image abspath (fs ++ [(t1, f)]) t1 images) as [[e1 im1] | err] eqn:Ea;
    [| discriminate].
  injection H1 as -> <- ->.
  destruct (add_image_indexed _ _ _ Ea) as [f' [Hr' [Hp Hf]]].
  assert (Hfree1 : read_file fs t1 = None).
  { pose proof (free_target_free fs upload_dir (basename filepath)
                                 (join upload_dir (basename filepath))) as H.
    fold t1 in H. unfold path_exists in H.
    destruct (read_file fs t1); [discriminate | reflexivity]. }
  rewrite read_file_app, Hfree1, str_eqb_refl in Hr'. injection Hr' as <-.
  rewrite (@keeps_files_app fs t1 f filepath f Er). cbv zeta.
  set (t2 := free_target (fs ++ [(t1, f)]) upload_dir (basename filepath)
                         (S (length (fs ++ [(t1, f)]))) 1%Z
                         (join upload_dir (basename filepath))).
  assert (Hfree2 : read_file (fs ++ [(t1, f)]) t2 = None).
  { pose proof (free_target_free (fs ++ [(t1, f)]) upload_dir (basename filepath)
                                 (join upload_dir (basename filepath))) as H.
    fold t2 in H. unfold path_exists in H.
    destruct (read_file (fs ++ [(t1, f)]) t2); [discriminate | reflexivity]. }
  exists t2, f. split; [reflexivity |]. split; [exact Hfree2 |].
  rewrite (@add_image_found ((fs ++ [(t1, f)]) ++ [(t2, f)]) t2 images1 f e);
    [reflexivity | | exact Hp | exact Hf].
  rewrite read_file_app, Hfree2, str_eqb_refl. reflexivity.
Qed.

(** What one call of [upload_image] keeps. *)
Lemma upload_image_catalogue filepath copy fs images r fs' images' :
  upload_image abspath upload_dir filepath copy (fs, images) = (r, (fs', images')) ->
  (numbered images -> numbered images') /\
  (distinct_hashes images -> distinct_hashes images') /\
  (exists added, images' = images ++ added /\ Forall classified added) /\
  (forall e, r = Return e -> In e images') /\
  keeps_files fs fs'.
Proof.
  intros Hu.
  assert (Hadd : forall fs0 path e im,
            add_image abspath fs0 path images = Return (e, im) ->
            (numbered images -> numbered im) /\
            (distinct_hashes images -> distinct_hashes im) /\
            (exists added, im = images ++ added /\ Forall classified added) /\ In e im).
  { intros fs0 path e im Ha.
    pose proof (add_image_cases abspath fs0 path images) as Hcs. rewrite Ha in Hcs.
    destruct Hcs as [f [Hr [_ [Hh [[Hf ->] | [Hf [-> [Hid [_ [_ Hcl]]]]]]]]]].
    - repeat split; auto; [exists []; rewrite app_nil_r; auto |].
      apply (find_some _ _ Hf).
    - split; [intros Hn; apply numbered_app; assumption |]. split.
      + intros Hd. unfold distinct_hashes. rewrite map_app. simpl.
        apply NoDup_app; [exact Hd | constructor; [intros [] | constructor] |].
        intros h Hin [E | []]. apply in_map_iff in Hin. destruct Hin as [x [Hx Hin]].
        rewrite find_none_iff in Hf. specialize (Hf x Hin).
        rewrite Hx, <- E, Hh, str_eqb_refl in Hf. discriminate.
      + split; [exists [e]; auto |]. apply in_or_app. right. left. reflexivity. }
  assert (Hsame : (numbered images -> numbered images) /\
                  (distinct_hashes images -> distinct_hashes images) /\
                  (exists added, images = images ++ added /\ Forall classified added)).
  { repeat split; auto. exists []. rewrite app_nil_r. auto. }
  pose proof (upload_image_keeps_files abspath upload_dir filepath copy fs images)
    as Hk.
  rewrite Hu in Hk. simpl in Hk.
  rewrite upload_image_cases in Hu.
  destruct (negb (is_supported_format filepath)).
  { injection Hu as <- <- <-. destruct Hsame as [? [? ?]].
    repeat split; auto. intros e He. discriminate. }
  destruct copy.
  - destruct (read_file fs filepath) as [f |].
    + cbv zeta in Hu.
      destruct (add_image abspath _ _ images) as [[e im] | err] eqn:Ea.
      * injection Hu as <- <- <-. destruct (Hadd _ _ _ _ Ea) as [? [? [? ?]]].
        repeat split; auto. intros e' He'. injection He' as <-. assumption.
      * injection Hu as <- <- <-. destruct Hsame as [? [? ?]].
        repeat split; auto. intros e He. discriminate.
    + injection Hu as <- <- <-. destruct Hsame as [? [? ?]].
      repeat split; auto. intros e He. discriminate.
  - destruct (add_image abspath fs filepath images) as [[e im] | err] eqn:Ea.
    + injection Hu as <- <- <-. destruct (Hadd _ _ _ _ Ea) as [? [? [? ?]]].
      repeat split; auto. intros e' He'. injection He' as <-. assumption.
    + injection Hu as <- <- <-. destruct Hsame as [? [? ?]].
      repeat split; auto. intros e He. discriminate.
Qed.

End Uploads.

Section Batch.
Variable abspath : str -> str.
Variable upload_dir : str.

Lemma upload_multiple_images_invariants filepaths copy : forall fs images results fs' images',
  upload_multiple_images abspath upload_dir filepaths copy (fs, images)
  = (results, (fs', images')) ->
  (numbered images -> numbered images') /\
  (distinct_hashes images -> distinct_hashes images') /\
  (exists added, images' = images ++ added /\ Forall classified added) /\
  incl results images' /\ length results <= length filepaths /\
  keeps_files fs fs'.
Proof.
  induction filepaths as [| filepath rest IH]; intros fs images results fs' images' Hu.
  - simpl in Hu. injection Hu as <- <- <-. repeat split; auto.
    + exists []. rewrite app_nil_r. auto.
    + intros x [].
    + apply keeps_files_refl.
  - cbn [upload_multiple_images] in Hu.
    destruct (upload_image abspath upload_dir filepath copy (fs, images))
      as [r [fs1 images1]] eqn:E1.
    destruct (upload_multiple_images abspath upload_dir rest copy (fs1, images1))
      as [results2 [fs2 images2]] eqn:E2.
    injection Hu as <- <- <-.
    destruct (upload_image_catalogue _ _ _ _ _ _ E1)
      as [Hn1 [Hd1 [[added1 [-> Hc1]] [Hr1 Hk1]]]].
    destruct (IH _ _ _ _ _ E2) as [Hn2 [Hd2 [[added2 [-> Hc2]] [Hr2 [Hl2 Hk2]]]]].
    split; [auto |]. split; [auto |].
    split; [exists (added1 ++ added2); rewrite app_assoc; split;
            [reflexivity | apply Forall_app; auto] |].
    split; [| split; [| exact (keeps_files_trans Hk1 Hk2)]].
    + destruct r as [e | err]; [| exact Hr2].
      intros x [<- | Hx]; [| apply Hr2; exact Hx].
      apply in_or_app. left. apply Hr1. reflexivity.
    + destruct r; simpl; lia.
Qed.


End Batch.

(** * Re-indexing and the edit dialogs *)

Section Reindexing.

Lemma reindex_entry_filename e : filename (e_image (reindex_entry e)) = filename (e_image e).
Proof.
  unfold reindex_entry.
  destruct (extract_identifier_and_number (filename (e_image e))) as [[np id] fm].
  reflexivity.
Qed.

Lemma reindex_entry_classified e : classified (reindex_entry e).
Proof.
  unfold classified. rewrite reindex_entry_filename. unfold reindex_entry.
  destruct (extract_identifier_and_number (filename (e_image e))) as [[np id] fm].
  reflexivity.
Qed.

Lemma opt_str_eqb_refl a : opt_str_eqb a a = true.
Proof. apply opt_str_eqb_eq. reflexivity. Qed.

Lemma classified_fixed e : classified e -> reindex_entry e = e /\ updated e = false.
Proof.
  unfold classified, reindex_entry, updated. intros ->.
  rewrite !opt_str_eqb_refl. split; [| reflexivity].
  destruct e as [i h fmt sz m [fn fp w hh id np]]. reflexivity.
Qed.

Lemma reindex_images_classified images :
  Forall classified images -> reindex_images images = (images, 0).
Proof.
  unfold reindex_images. induction 1 as [| e l He Hl IH]; [reflexivity |].
  destruct (classified_fixed He) as [E1 E2]. injection IH as IH1 IH2.
  simpl. rewrite E1, E2, IH1, IH2. reflexivity.
Qed.

(** X24: re-indexing changes nothing in a catalogue that the uploader
    made.  After uploads into an empty index, [reindex_images] saves the
    index as it is and counts no update. *)
Theorem reindex_images_after_upload abspath upload_dir filepaths copy fs :
  let '(_, (_, images)) :=
    upload_multiple_images abspath upload_dir filepaths copy (fs, []) in
  reindex_images images = (images, 0).
Proof.
  destruct (upload_multiple_images abspath upload_dir filepaths copy (fs, []))
    as [results [fs' images]] eqn:Hu.
  destruct (upload_multiple_images_invariants _ _ _ _ _ _ Hu)
    as [_ [_ [[added [-> Hc]] _]]].
  apply reindex_images_classified. exact Hc.
Qed.

(** X25: re-indexing is idempotent: a second run saves the index of the
    first and counts no update. *)
Theorem reindex_images_idempotent images :
  reindex_images (fst (reindex_images images)) = (fst (reindex_images images), 0).
Proof.
  apply reindex_images_classified. simpl. apply Forall_forall.
  intros e He. apply in_map_iff in He. destruct He as [x [<- _]].
  apply reindex_entry_classified.
Qed.

Lemma reindex_update_image (f : entry -> entry) img_id images :
  (forall e, reindex_entry (f e) = reindex_entry e) ->
  map reindex_entry (update_image img_id f images) = map reindex_entry images.
Proof.
  intros Hf. induction images as [| x l IH]; simpl; [reflexivity |].
  destruct (e_id x =? img_id)%Z; simpl; [rewrite Hf | rewrite IH]; reflexivity.
Qed.

Lemma reindex_update_all (f : entry -> entry) ids : forall images,
  (forall e, reindex_entry (f e) = reindex_entry e) ->
  map reindex_entry
      (fold_left (fun images img_id => update_image img_id f images) ids images)
  = map reindex_entry images.
Proof.
  induction ids as [| i ids IH]; intros images Hf; simpl; [reflexivity |].
  rewrite IH by exact Hf. apply reindex_update_image. exact Hf.
Qed.

(** X26: re-indexing forgets what the edit dialogs stored.  After a
    change of the group or of the type of some entries, [reindex_images]
    saves the index that it saves without the change. *)
Theorem reindex_images_forgets_edits text ids images :
  fst (reindex_images (edit_group text ids images)) = fst (reindex_images images) /\
  fst (reindex_images (edit_type text ids images)) = fst (reindex_images images).
Proof.
  unfold reindex_images, edit_group, edit_type. cbn [fst]. split.
  - destruct (apply_changes text) as [| new_group]; [reflexivity |].
    apply reindex_update_all. intros e. reflexivity.
  - destruct (strip text) as [| c t]; [reflexivity |].
    destruct (negb (str_in (c :: t) ALL_IDENTIFIERS)); [reflexivity |].
    apply reindex_update_all. intros e. reflexivity.
Qed.

End Reindexing.

Section Edits.

Lemma get_image_update j i (f : entry -> entry) images :
  (forall e, e_id (f e) = e_id e) ->
  get_image j (update_image i f images)
  = if (j =? i)%Z then option_map f (get_image i images) else get_image j images.
Proof.
  intros Hf. unfold get_image. induction images as [| x l IH]; simpl.
  - destruct (j =? i)%Z; reflexivity.
  - destruct (Z.eqb_spec (e_id x) i) as [E | E]; simpl.
    + rewrite Hf, E. rewrite (Z.eqb_sym i j).
      destruct (Z.eqb_spec j i) as [-> | Hne]; reflexivity.
    + destruct (Z.eqb_spec (e_id x) j) as [E' | E'].
      * destruct (Z.eqb_spec j i); [congruence | reflexivity].
      * exact IH.
Qed.

Lemma get_image_update_all j (f : entry -> entry) ids : forall images,
  (forall e, e_id (f e) = e_id e) -> (forall e, f (f e) = f e) ->
  get_image j (fold_left (fun images img_id => update_image img_id f images) ids images)
  = if existsb (Z.eqb j) ids then option_map f (get_image j images)
    else get_image j images.
Proof.
  induction ids as [| i ids IH]; intros images Hid Hff; simpl; [reflexivity |].
  rewrite IH by assumption. rewrite get_image_update by exact Hid.
  destruct (Z.eqb_spec j i) as [-> | Hne]; simpl; [| reflexivity].
  destruct (existsb (Z.eqb i) ids); [| reflexivity].
  destruct (get_image i images); simpl; [rewrite Hff |]; reflexivity.
Qed.

(** X27: the edit dialogs change the entries that were selected, and
    nothing else.  When the text is accepted, the entry found under a
    selected identifier gets the new group, or the new type, and keeps its
    other keys; the entry found under any other identifier is the one that
    was found before. *)
Theorem edit_dialogs_change_selected text ids images id :
  (forall new_group, apply_changes text = Store new_group ->
     get_image id (edit_group text ids images)
     = if existsb (Z.eqb id) ids
       then option_map (set_numerical_prefix new_group) (get_image id images)
       else get_image id images) /\
  (str_in (strip text) ALL_IDENTIFIERS = true ->
     get_image id (edit_type text ids images)
     = if existsb (Z.eqb id) ids
       then option_map (set_identifier (strip text)) (get_image id images)
       else get_image id images).
Proof.
  split.
  - intros new_group Ha. unfold edit_group. rewrite Ha.
    apply get_image_update_all; intros e; reflexivity.
  - intros Hin. unfold edit_type. destruct (strip text) as [| c t] eqn:Es.
    + vm_compute in Hin. discriminate.
    + rewrite Hin. simpl negb. cbv iota.
      apply get_image_update_all; intros e; reflexivity.
Qed.

End Edits.

Section UploadRemove.
Variable abspath : str -> str.
Variable upload_dir : str.





End UploadRemove.

Section Selection.

Lemma remove_image_filter i images :
  NoDup (map e_id images) ->
  ImageIndex.remove_image i images
  = (existsb (fun e => (e_id e =? i)%Z) images,
     filter (fun e => negb (e_id e =? i)%Z) images).
Proof.
  induction images as [| x l IH]; intros Hnd; simpl; [reflexivity |].
  inversion Hnd as [| ? ? Hx Hl]; subst.
  destruct (Z.eqb_spec (e_id x) i) as [E | E]; simpl.
  - f_equal. symmetry. apply filter_all. intros y Hy. apply negb_true_iff.
    apply Z.eqb_neq. intros E'. apply Hx. rewrite E, <- E'. apply in_map. exact Hy.
  - rewrite (IH Hl). reflexivity.
Qed.

Lemma NoDup_map_filter {A B : Type} (f : A -> B) (p : A -> bool) l :
  NoDup (map f l) -> NoDup (map f (filter p l)).
Proof.
  induction l as [| x l IH]; simpl; intros H; [constructor |].
  inversion H as [| ? ? Hx Hl]; subst. destruct (p x); simpl; [| auto].
  constructor; [| auto]. intros Hin. apply Hx.
  apply in_map_iff in Hin. destruct Hin as [y [E Hy]]. apply filter_In in Hy.
  apply in_map_iff. exists y. tauto.
Qed.

Lemma filter_twice {A : Type} (p q : A -> bool) l :
  filter p (filter q l) = filter (fun x => q x && p x) l.
Proof.
  induction l as [| x l IH]; simpl; [reflexivity |].
  destruct (q x); simpl; [destruct (p x); rewrite IH | rewrite IH]; reflexivity.
Qed.

Lemma remove_selected_from ids : forall c fs images,
  NoDup (map e_id images) ->
  exists n,
    fold_left (fun '(success_count, w) image_id =>
                 let '(found, w') := ImageUploader.remove_image image_id false w in
                 ((if found then S success_count else success_count), w'))
              ids (c, (fs, images))
    = (c + n, (fs, filter (fun e => negb (existsb (Z.eqb (e_id e)) ids)) images)) /\
    n <= length ids /\
    (NoDup ids -> incl ids (map e_id images) -> n = length ids).
Proof.
  match goal with |- context [fold_left ?f] => set (step := f) end.
  induction ids as [| i ids IH]; intros c fs images Hnd.
  - exists 0. simpl. rewrite Nat.add_0_r, filter_all by reflexivity. auto.
  - cbn [fold_left].
    set (found := existsb (fun e => (e_id e =? i)%Z) images).
    set (rest := filter (fun e => negb (e_id e =? i)%Z) images).
    assert (Hstep : step (c, (fs, images)) i = (if found then S c else c, (fs, rest))).
    { unfold step, ImageUploader.remove_image.
      rewrite (@remove_image_filter i images Hnd).
      destruct (get_image i images); reflexivity. }
    rewrite Hstep.
    destruct (IH (if found then S c else c) fs rest (NoDup_map_filter _ _ _ Hnd))
      as [n [Hf [Hle Hall]]].
    exists ((if found then 1 else 0) + n). split; [| split].
    + rewrite Hf. f_equal; [destruct found; lia |]. f_equal. unfold rest.
      rewrite filter_twice. apply filter_ext. intros e. simpl.
      destruct (e_id e =? i)%Z; reflexivity.
    + simpl. destruct found; lia.
    + intros Hids Hincl. inversion Hids as [| ? ? Hi Hids']; subst.
      assert (Hfound : found = true).
      { unfold found. apply existsb_exists.
        pose proof (Hincl i (or_introl eq_refl)) as Hin.
        apply in_map_iff in Hin. destruct Hin as [e [E He]].
        exists e. split; [exact He | apply Z.eqb_eq; exact E]. }
      rewrite Hfound. simpl. f_equal. apply (Hall Hids').
      intros j Hj. pose proof (Hincl j (or_intror Hj)) as Hin.
      apply in_map_iff in Hin. destruct Hin as [e [E He]].
      apply in_map_iff. exists e. split; [exact E |]. unfold rest. apply filter_In.
      split; [exact He |]. apply negb_true_iff. apply Z.eqb_neq.
      intros E'. apply Hi. rewrite <- E', E. exact Hj.
Qed.

(** X29: in an index whose identifiers are distinct, [remove_selected]
    takes out the entries whose identifiers are selected and no other,
    keeps the order of the rest and deletes no file; it counts one success
    for each selected identifier when these are distinct and in the
    index. *)
Theorem remove_selected_removes ids fs images :
  NoDup (map e_id images) ->
  let '(success_count, (fs', images')) := remove_selected ids (fs, images) in
  fs' = fs /\
  images' = filter (fun e => negb (existsb (Z.eqb (e_id e)) ids)) images /\
  success_count <= length ids /\
  (NoDup ids -> incl ids (map e_id images) -> success_count = length ids).
Proof.
  intros Hnd.
  destruct (@remove_selected_from ids 0 fs images Hnd) as [n [Hf [Hle Hall]]].
  change (remove_selected ids (fs, images)
          = (0 + n, (fs, filter (fun e => negb (existsb (Z.eqb (e_id e)) ids)) images)))
    in Hf.
  rewrite Hf. simpl. auto.
Qed.

End Selection.

Section Dialog.

Lemma sorted_unique l1 : forall l2,
  StronglySorted str_lt l1 -> StronglySorted str_lt l2 ->
  (forall k, In k l1 <-> In k l2) -> l1 = l2.
Proof.
  induction l1 as [| x l1 IH]; intros l2 H1 H2 Hin.
  - destruct l2 as [| y l2]; [reflexivity |].
    exfalso. apply (proj2 (Hin y)). left. reflexivity.
  - destruct l2 as [| y l2].
    + exfalso. apply (proj1 (Hin x)). left. reflexivity.
    + inversion H1 as [| ? ? Hs1 Hx]; subst. inversion H2 as [| ? ? Hs2 Hy]; subst.
      rewrite Forall_forall in Hx, Hy.
      assert (E : x = y).
      { destruct (proj1 (Hin x) (or_introl eq_refl)) as [E | Hx2]; [auto |].
        destruct (proj2 (Hin y) (or_introl eq_refl)) as [E | Hy1]; [auto |].
        pose proof (Hy x Hx2) as Hyx. pose proof (Hx y Hy1) as Hxy.
        unfold str_lt in *. rewrite (str_ltb_asym _ _ Hyx) in Hxy. discriminate. }
      subst y. f_equal. apply IH; [assumption | assumption |].
      intros k. split; intros Hk.
      * destruct (proj1 (Hin k) (or_intror Hk)) as [E | H]; [| exact H].
        subst k. pose proof (Hx x Hk) as Hc. unfold str_lt in Hc.
        rewrite str_ltb_irrefl in Hc. discriminate.
      * destruct (proj2 (Hin k) (or_intror Hk)) as [E | H]; [| exact H].
        subst k. pose proof (Hy x Hk) as Hc. unfold str_lt in Hc.
        rewrite str_ltb_irrefl in Hc. discriminate.
Qed.

Lemma sorted_filter (p : str -> bool) l :
  StronglySorted str_lt l -> StronglySorted str_lt (filter p l).
Proof.
  induction 1 as [| x l Hs IH Hx]; simpl; [constructor |].
  destruct (p x); [| exact IH]. constructor; [exact IH |].
  rewrite Forall_forall in *. intros y Hy. apply filter_In in Hy. apply Hx, Hy.
Qed.

Lemma label_of_some inc img k :
  label_of inc img = Some k ->
  label_of None img = Some k /\
  match numerical_prefix img with None | Some [] => False | Some _ => True end.
Proof.
  unfold label_of. destruct (numerical_prefix img) as [[| c p] |]; try discriminate.
  cbv zeta. set (lbl := format_group_label _ _). clearbody lbl.
  destruct inc as [[| g gs] |]; auto.
  destruct (str_in lbl (g :: gs)); [auto | discriminate].
Qed.

Lemma label_of_selected g gs img k :
  label_of (Some (g :: gs)) img = Some k
  <-> label_of None img = Some k /\ In k (g :: gs).
Proof.
  unfold label_of. destruct (numerical_prefix img) as [[| c p] |];
    try (split; [discriminate | intros [H _]; discriminate]).
  cbv zeta. set (lbl := format_group_label _ _). clearbody lbl.
  destruct (str_in lbl (g :: gs)) eqn:E.
  - apply str_in_In in E. split.
    + intros H. assert (Hk : lbl = k) by congruence. subst k. auto.
    + intros [H _]. exact H.
  - split; [discriminate |]. intros [H Hin]. assert (Hk : lbl = k) by congruence.
    subst k. apply str_in_In in Hin. congruence.
Qed.

Lemma dialog_groups_dict_eq images : dialog_groups_dict images = groups_dict images None.
Proof. reflexivity. Qed.

(** The labels of the dialog are those of the images that have a group. *)
Lemma dialog_groups_spec index :
  StronglySorted str_lt (dialog_groups index) /\
  forall k, In k (dialog_groups index)
            <-> exists img, In img (map e_image index) /\ label_of None img = Some k.
Proof.
  unfold dialog_groups. cbv zeta. rewrite dialog_groups_dict_eq.
  set (grouped := filter _ (map e_image (get_all_images index))).
  destruct (groups_dict_keys grouped None) as [Hnd Hk]. split.
  - apply sorted_sorted. exact Hnd.
  - intros k. split.
    + intros H. apply (Permutation_in _ (Permutation_sym (sorted_perm _))) in H.
      apply Hk in H. destruct H as [img [Hin Hl]]. exists img. split; [| exact Hl].
      unfold grouped in Hin. apply filter_In in Hin. destruct Hin as [Hin _].
      apply in_map_iff in Hin. destruct Hin as [e [<- He]]. apply in_map.
      apply (Permutation_in _ (Permutation_sym (sorted_by_key_perm index))). exact He.
    + intros [img [Hin Hl]]. apply (Permutation_in _ (sorted_perm _)). apply Hk.
      exists img. split; [| exact Hl]. unfold grouped. apply filter_In. split.
      * apply in_map_iff in Hin. destruct Hin as [e [<- He]]. apply in_map.
        apply (Permutation_in _ (sorted_by_key_perm index)). exact He.
      * destruct (label_of_some _ _ Hl) as [_ Hp].
        destruct (numerical_prefix img) as [[| c p] |]; [contradiction | reflexivity | contradiction].
Qed.

Lemma generate_selected self images selected :
  selected <> [] -> StronglySorted str_lt selected ->
  (forall k, In k selected -> exists img, In img images /\ label_of None img = Some k) ->
  generate_presentation self images (Some selected)
  = for_each (fun k => add_group_slide self k (labelled None k images)) selected.
Proof.
  intros Hne Hs Hsel. rewrite generate_presentation_groups.
  destruct selected as [| g gs]; [contradiction |].
  destruct (groups_dict_keys images (Some (g :: gs))) as [Hnd Hk].
  assert (E : sorted (map fst (groups_dict images (Some (g :: gs)))) = g :: gs).
  { apply sorted_unique; [apply sorted_sorted; exact Hnd | exact Hs |].
    intros k. split.
    - intros H. apply (Permutation_in _ (Permutation_sym (sorted_perm _))) in H.
      apply Hk in H. destruct H as [img [_ Hl]]. apply label_of_selected in Hl. tauto.
    - intros H. apply (Permutation_in _ (sorted_perm _)). apply Hk.
      destruct (Hsel k H) as [img [Hin Hl]]. exists img. split; [exact Hin |].
      apply label_of_selected. auto. }
  rewrite E. apply for_each_ext. intros k Hin. f_equal.
  unfold labelled, filed_under. apply filter_ext. intros img.
  destruct (label_of None img) as [k' |] eqn:El.
  - destruct (label_of (Some (g :: gs)) img) as [k'' |] eqn:El'.
    + apply label_of_selected in El'. destruct El' as [El' _]. congruence.
    + destruct (str_eqb k' k) eqn:Ek; [| reflexivity].
      apply str_eqb_eq in Ek. subst k'.
      assert (Hc : label_of (Some (g :: gs)) img = Some k)
        by (apply label_of_selected; auto).
      congruence.
  - destruct (label_of (Some (g :: gs)) img) as [k'' |] eqn:El'; [| reflexivity].
    apply label_of_selected in El'. destruct El' as [El' _]. congruence.
Qed.

(** X30: the presentation has the groups that are checked in the dialog.
    With some boxes checked, [generate_presentation] composes the checked
    groups from top to bottom, each from all the images of its label; with
    every box checked it makes the presentation that it makes without a
    selection. *)
Theorem generate_powerpoint_selected self index checked :
  let images := map e_image index in
  let selected := selected_groups index checked in
  (selected <> [] ->
   generate_presentation self images (Some selected)
   = for_each (fun k => add_group_slide self k (labelled None k images)) selected) /\
  ((forall k, checked k = true) ->
   generate_presentation self images (Some selected)
   = generate_presentation self images None).
Proof.
  intros images selected. destruct (dialog_groups_spec index) as [Hs Hk].
  assert (Hsel : forall k, In k selected ->
            exists img, In img images /\ label_of None img = Some k).
  { intros k H. apply filter_In in H. apply Hk. tauto. }
  assert (Hss : StronglySorted str_lt selected) by (apply sorted_filter; exact Hs).
  split.
  - intros Hne. apply generate_selected; assumption.
  - intros Hall.
    assert (E : selected = dialog_groups index).
    { unfold selected, selected_groups. apply filter_all. intros k _. apply Hall. }
    destruct selected as [| g gs] eqn:Es; [reflexivity |].
    rewrite generate_selected; [| discriminate | exact Hss | exact Hsel].
    rewrite (generate_presentation_groups self images None).
    destruct (groups_dict_keys images None) as [Hnd Hk'].
    f_equal. apply sorted_unique; [exact Hss | apply sorted_sorted; exact Hnd |].
    intros k. rewrite E, Hk. split.
    + intros H. apply (Permutation_in _ (sorted_perm _)). apply Hk'. exact H.
    + intros H. apply (Permutation_in _ (Permutation_sym (sorted_perm _))) in H.
      apply Hk'. exact H.
Qed.

End Dialog.

(** * Examples

    The properties above that have a hypothesis, each at an input that
    satisfies it. *)

Section Examples.



Lemma add_mixed_slide_units_witness :
  let sp := entry_of $"Spectrum 1.tif" 640 160 (Some $"Spectrum") (Some $"0001") in
  let ud := entry_of $"0001 UD.tif" 640 480 (Some $"UD") (Some $"0001") in
  exists slides,
    add_mixed_slide (init []) $"0001" [sp; sp; sp; sp; sp] [ud] = Ok slides /\
    length slides = 2 /\
    (exists u1 u2 left1 right1,
       slides = [u1; u2] /\
       pictures u1 = left1 ++ right1 /\
       map pic_image left1 = [ud] /\ map pic_image right1 = [sp; sp; sp] /\
       map pic_image (pictures u2) = [sp; sp] /\
       Forall (fun p => (left_margin (init []) + available_width (init []) / 3
                         <= pic_x p)%Q)
              (pictures u2)).
Proof.
  intros sp ud.
  destruct (@add_mixed_slide_units (init []) $"0001" [sp; sp; sp; sp; sp] [ud])
    as [slides [Hs [Hl [_ [_ [_ He]]]]]].
  - intros img Hi. simpl in Hi.
    repeat (destruct Hi as [<- | Hi];
            [unfold pixel_sized; cbn [width height entry_of sp ud]; lia |]).
    contradiction.
  - intros img Hi _. simpl in Hi.
    repeat (destruct Hi as [<- | Hi]; [reflexivity |]). contradiction.
  - exists slides. split; [exact Hs |]. split; [exact Hl |].
    destruct (He sp sp sp sp sp ud eq_refl eq_refl)
      as [u1 [u2 [l1 [r1 [E [Hp [Hl1 [Hr1 [H2 Hx]]]]]]]]].
    exists u1, u2, l1, r1. repeat split; try assumption.
    apply Hx. repeat split; try reflexivity; discriminate.
Defined.

Lemma calculate_grid_layout_shape_witness :
  (let (rows, cols) := calculate_grid_layout 21 in
   rows <= cols <= rows + 1 /\
   (forall idx, 0 <= idx < 21 ->
      0 <= idx / cols < rows /\ 0 <= idx mod cols < cols /\
      idx = (idx / cols) * cols + idx mod cols))%Z.
Proof.
  apply (@calculate_grid_layout_shape 21%Z). unfold exact_count. lia.
Defined.

(** The identifier found in a word. *)
Example extract_identifier_in_word :
  extract_identifier_and_number $"SEM image 5.tif" = (None, Some $"SE", Some $"SE").
Proof. vm_compute. reflexivity. Qed.

Lemma add_spectrum_slide_slices_witness :
  let sp := entry_of $"Spectrum 1.tif" 640 160 (Some $"Spectrum") (Some $"0001") in
  exists slides,
    add_spectrum_slide (init []) $"0001" [sp; sp; sp; sp] = Ok slides /\
    length slides = 2 /\
    concat (map (fun s => map pic_image (pictures s)) slides) = [sp; sp; sp; sp].
Proof.
  intros sp.
  destruct (@add_spectrum_slide_slices (init []) eq_refl ltac:(discriminate)
              ltac:(discriminate) eq_refl $"0001" [sp; sp; sp; sp])
    as [slides [Hs [Hl [Hc _]]]].
  - intros img Hi. simpl in Hi.
    repeat (destruct Hi as [<- | Hi];
            [unfold pixel_sized; cbn [width height entry_of sp]; lia |]).
    contradiction.
  - intros img Hi _. simpl in Hi.
    repeat (destruct Hi as [<- | Hi]; [reflexivity |]). contradiction.
  - exists slides. split; [exact Hs |]. split; [exact Hl | exact Hc].
Defined.

Lemma add_mixed_slide_placed_witness :
  let sp := entry_of $"Spectrum 1.tif" 640 160 (Some $"Spectrum") (Some $"0001") in
  let ud := entry_of $"0001 UD.tif" 640 480 (Some $"UD") (Some $"0001") in
  exists s left right,
    add_mixed_slide (init []) $"0001" [sp] [ud] = Ok [s] /\
    title s = group_title $"0001" /\
    pictures s = left ++ right /\
    map pic_image left = [ud] /\ map pic_image right = [sp].
Proof.
  intros sp ud.
  destruct (@add_mixed_slide_placed (init []) eq_refl ltac:(discriminate)
              ltac:(discriminate) eq_refl $"0001" [sp] [ud])
    as [slides [Hs Hk]].
  - intros img Hi. simpl in Hi.
    repeat (destruct Hi as [<- | Hi];
            [unfold pixel_sized; cbn [width height entry_of sp ud]; lia |]).
    contradiction.
  - intros img Hi _. simpl in Hi.
    repeat (destruct Hi as [<- | Hi]; [reflexivity |]). contradiction.
  - assert (Hl : length slides = 1).
    { assert (E : option_map (@length slide)
                    (match add_mixed_slide (init []) $"0001" [sp] [ud] with
                     | Ok l => Some l
                     | ZeroDivisionError => None
                     end) = Some 1) by (vm_compute; reflexivity).
      rewrite Hs in E. simpl in E. injection E as E. exact E. }
    destruct slides as [| s [| s' rest]]; try discriminate.
    destruct (Hk 0 s eq_refl) as [Ht [left [right [Hp [Hleft [Hright _]]]]]].
    exists s, left, right. repeat split; assumption.
Defined.


Lemma generate_presentation_places_each_image_witness :
  let ud := entry_of $"0001 UD.tif" 640 480 (Some $"UD") (Some $"0001") in
  let sp := entry_of $"Spectrum 1.tif" 640 160 (Some $"Spectrum") (Some $"0001") in
  let other := entry_of $"notes.png" 100 100 None None in
  exists slides,
    generate_presentation (init []) [sp; other; ud] None = Ok slides /\
    Permutation (placed_images slides) [sp; ud].
Proof.
  intros ud sp other.
  refine (@generate_presentation_places_each_image [sp; other; ud] None _ _).
  - intros img Hi. simpl in Hi.
    repeat (destruct Hi as [<- | Hi];
            [unfold pixel_sized; cbn [width height entry_of sp ud other]; lia |]).
    contradiction.
  - intros img Hi _. simpl in Hi.
    repeat (destruct Hi as [<- | Hi]; [discriminate |]). contradiction.
Defined.

Lemma generate_presentation_aborts_witness :
  let ud := entry_of $"0001 UD.tif" 640 480 (Some $"UD") (Some $"0001") in
  let sp := entry_of $"Spectrum 2.tif" 0 160 (Some $"Spectrum") (Some $"0002") in
  generate_presentation (init []) [ud; sp] None = ZeroDivisionError.
Proof.
  intros ud sp.
  apply (@generate_presentation_aborts (init []) [ud; sp] None sp $"SPEC2").
  - right. left. reflexivity.
  - reflexivity.
  - reflexivity.
  - reflexivity.
  - reflexivity.
  - reflexivity.
Defined.

Lemma extract_number_digits_witness :
  (exists d, digits_of (splitext_root $"Project 1 Spectrum 12.tif") d /\
             $"0012" = zfill 4 d) /\
  4 <= length $"0012" /\ forallb isdecimal_chr $"0012" = true /\
  exists id, Some $"Spectrum" = Some id /\ In id ALL_IDENTIFIERS.
Proof.
  apply (@extract_number_digits $"Project 1 Spectrum 12.tif" $"0012"
           (Some $"Spectrum") (Some $"Spectrum")).
  vm_compute. reflexivity.
Defined.

Lemma extract_ignores_case_witness :
  fst (extract_identifier_and_number $"0001 pdbse.TIF")
  = fst (extract_identifier_and_number $"0001 PDBSE.tif").
Proof.
  apply (@extract_ignores_case $"0001 pdbse.TIF" $"0001 PDBSE.tif").
  vm_compute. reflexivity.
Defined.

Lemma add_image_keeps_catalogue_witness :
  let abspath := fun p => $"/data/" ++ p in
  let fs := [($"in/0001 UD.tif", File $"9f2c" 1024 (Some (640, 480, $"TIFF")%Z))] in
  let e := Entry 1 $"9f2c" $"TIFF" 1024 (Some $"0001 UD")
                 (Image $"0001 UD.tif" $"/data/in/0001 UD.tif" 640 480
                        (Some $"UD") (Some $"0001")) in
  numbered [e] /\ distinct_hashes [e] /\
  get_image (e_id e) [e] = Some e /\
  (exists f, read_file fs $"in/0001 UD.tif" = Some f /\ e_hash e = f_hash f) /\
  ([e] = [] \/ [e] = [] ++ [e]).
Proof.
  intros abspath fs e.
  apply (@add_image_keeps_catalogue abspath fs $"in/0001 UD.tif" [] e [e]).
  - intros i x H. destruct i; discriminate.
  - constructor.
  - vm_compute. reflexivity.
Defined.

Lemma add_image_after_remove_witness :
  let abspath := fun p => $"/data/" ++ p in
  let fs := [($"in/0002 LD.tif", File $"77aa" 2048 (Some (640, 480, $"TIFF")%Z))] in
  let e1 := Entry 1 $"9f2c" $"TIFF" 1024 (Some $"0001 UD")
                  (Image $"0001 UD.tif" $"/data/in/0001 UD.tif" 640 480
                         (Some $"UD") (Some $"0001")) in
  let e2 := Entry 2 $"51b0" $"TIFF" 1024 (Some $"0001 MD")
                  (Image $"0001 MD.tif" $"/data/in/0001 MD.tif" 640 480
                         (Some $"MD") (Some $"0001")) in
  let e := Entry 2 $"77aa" $"TIFF" 2048 (Some $"0002 LD")
                 (Image $"0002 LD.tif" $"/data/in/0002 LD.tif" 640 480
                        (Some $"LD") (Some $"0002")) in
  In e [e2; e] /\
  exists e', In e' [e1; e2] /\ e' <> e /\ e_id e' = e_id e /\
             get_image (e_id e) [e2; e] = Some e'.
Proof.
  intros abspath fs e1 e2 e.
  apply (@add_image_after_remove abspath fs $"in/0002 LD.tif" [e1; e2] 1%Z [e2] e [e2; e]).
  - intros i x H. destruct i as [| [| i]]; simpl in H.
    + injection H as <-. reflexivity.
    + injection H as <-. reflexivity.
    + destruct i; discriminate.
  - reflexivity.
  - reflexivity.
  - vm_compute. reflexivity.
  - intros [H | []]. discriminate.
Defined.

Lemma upload_image_twice_witness :
  let abspath := fun p => $"/data/" ++ p in
  let f := File $"9f2c" 1024 (Some (640, 480, $"TIFF")%Z) in
  let fs := [($"in/0001 UD.tif", f)] in
  let fs1 := fs ++ [($"uploaded_images/0001 UD.tif", f)] in
  let e := Entry 1 $"9f2c" $"TIFF" 1024 (Some $"0001 UD")
                 (Image $"0001 UD.tif" $"/data/uploaded_images/0001 UD.tif" 640 480
                        (Some $"UD") (Some $"0001")) in
  exists target_path f',
    read_file fs $"in/0001 UD.tif" = Some f' /\
    read_file fs1 target_path = None /\
    upload_image abspath $"uploaded_images" $"in/0001 UD.tif" true (fs1, [e])
    = (Return e, (fs1 ++ [(target_path, f')], [e])).
Proof.
  intros abspath f fs fs1 e.
  apply (@upload_image_twice abspath $"uploaded_images" $"in/0001 UD.tif" fs [] e fs1 [e]).
  vm_compute. reflexivity.
Defined.



Lemma remove_selected_removes_witness :
  let entry_1 := Entry 1 $"9f2c" $"TIFF" 1024 (Some $"0001 UD")
                       (entry_of $"0001 UD.tif" 640 480 (Some $"UD") (Some $"0001")) in
  let entry_2 := Entry 2 $"51b0" $"TIFF" 1024 (Some $"0001 MD")
                       (entry_of $"0001 MD.tif" 640 480 (Some $"MD") (Some $"0001")) in
  let entry_3 := Entry 3 $"77aa" $"TIFF" 2048 (Some $"0002 LD")
                       (entry_of $"0002 LD.tif" 640 480 (Some $"LD") (Some $"0002")) in
  let '(success_count, (fs', images')) :=
    remove_selected [3; 1]%Z ([], [entry_1; entry_2; entry_3]) in
  fs' = [] /\ images' = [entry_2] /\ success_count = 2.
Proof.
  intros entry_1 entry_2 entry_3.
  assert (Hnd : NoDup (map e_id [entry_1; entry_2; entry_3])).
  { repeat constructor; simpl; intuition discriminate. }
  destruct (@remove_selected_removes [3; 1]%Z [] [entry_1; entry_2; entry_3] Hnd)
    as [Hfs [Him [_ Hc]]].
  split; [exact Hfs |]. split; [symmetry; exact Him |].
  apply Hc.
  - repeat constructor; simpl; intuition discriminate.
  - intros i [<- | [<- | []]]; simpl; auto.
Defined.

End Examples.
